(** * A shallow embedding of trio's memory channel and cancellation core

    Sources: [trio/_channel.py] (memory channels) and [trio/_core/_run.py]
    (deadlines, cancel statuses, cancel scopes).

    Python objects with identity (tasks, endpoints, cancel scopes, cancel
    statuses) are natural-number handles into explicit stores; mutation is
    explicit state passing through a small state-and-exception monad. *)

From Stdlib Require Import ZArith Lia.
From stdpp Require Import base tactics option list.

Local Open Scope Z_scope.

(** ** Exceptions and the state-and-exception monad *)

Inductive exn : Type :=
  | ClosedResourceError
  | BrokenResourceError
  | EndOfChannel
  | WouldBlock
  | TypeError
  | ValueError
  | AssertionError
  | KeyError
  | AttributeError
  | RuntimeError
  | Cancelled
  | KeyboardInterrupt.

Global Instance exn_eq_dec : EqDecision exn.
Proof. solve_decision. Defined.

(** What a Python call produces: a returned value or a raised exception.
    [OutOfFuel] is not a Python outcome: a loop or recursion of the model was
    given too little fuel to finish, so nothing is known about the call. *)
Inductive result (A : Type) : Type :=
  | Ok (a : A)
  | Raise (e : exn)
  | OutOfFuel.
Arguments Ok {A} a.
Arguments Raise {A} e.
Arguments OutOfFuel {A}.

(** A computation over a store [S]: the store after the call is returned in
    both cases, because a Python exception does not roll mutations back. *)
Definition M (S A : Type) : Type := S -> result A * S.

Definition ret {S A} (a : A) : M S A := fun s => (Ok a, s).
Definition raise {S A} (e : exn) : M S A := fun s => (Raise e, s).
Definition bind {S A B} (m : M S A) (k : A -> M S B) : M S B :=
  fun s => match m s with
           | (Ok a, s') => k a s'
           | (Raise e, s') => (Raise e, s')
           | (OutOfFuel, s') => (OutOfFuel, s')
           end.
Definition gets {S A} (f : S -> A) : M S A := fun s => (Ok (f s), s).
Definition modify {S} (f : S -> S) : M S unit := fun s => (Ok tt, f s).
(** [assert c] is Python's [assert]. *)
Definition out_of_fuel {S A} : M S A := fun s => (OutOfFuel, s).
Definition assert {S} (c : bool) : M S unit :=
  if c then ret tt else raise AssertionError.
(** [try m except e: h] *)
Definition try_except {S A} (m : M S A) (e : exn) (h : M S A) : M S A :=
  fun s => match m s with
           | (Raise e', s') => if decide (e' = e) then h s' else (Raise e', s')
           | r => r
           end.
(** [for x in xs: body x], over a snapshot of the iterated collection. *)
Fixpoint for_each {S A} (xs : list A) (body : A -> M S unit) : M S unit :=
  match xs with
  | [] => ret tt
  | x :: xs' => bind (body x) (fun _ => for_each xs' body)
  end.

Declare Scope monad_scope.
Delimit Scope monad_scope with monad.
Notation "x <- m ;; k" := (bind m (fun x => k))
  (at level 90, m at level 80, right associativity) : monad_scope.
Notation "m ;;; k" := (bind m (fun _ => k))
  (at level 90, right associativity) : monad_scope.

(** ** Memory channels ([trio/_channel.py]) *)

Module Channel.
Section WithValue.
(** The objects sent through a channel are opaque to it. *)
Context {V : Type}.

(** Tasks are handles; the channel only stores and compares them. *)
Definition task : Type := nat.

(** [outcome.Value(v)], [outcome.Value(None)] and [outcome.Error(e)]. *)
Inductive outcome : Type :=
  | Value (v : V)
  | ValueNone
  | Error (e : exn).

(** [max_buffer_size]: an [int] or [math.inf]. *)
Inductive bufsize : Type :=
  | Finite (n : Z)
  | Inf.

(** [len(data) < max_buffer_size] *)
Definition len_lt (n : nat) (m : bufsize) : bool :=
  match m with
  | Finite k => Z.of_nat n <? k
  | Inf => true
  end.

(** [class MemoryChannelState]. [send_tasks] is the [OrderedDict]
    [{task: value}] in insertion order, [receive_tasks] the [OrderedDict]
    [{task: None}], kept as its keys in insertion order. *)
Record MemoryChannelState : Type := mkState {
  max_buffer_size : bufsize;
  data : list V;
  open_send_channels : Z;
  open_receive_channels : Z;
  send_tasks : list (task * V);
  receive_tasks : list task
}.

(** [MemorySendChannel] and [MemoryReceiveChannel] carry the same private
    fields; [_state] is the one shared state of the world below. The set
    [_tasks] is a duplicate-free list, iterated in list order. *)
Record endpoint : Type := mkEndpoint {
  _closed : bool;
  _tasks : list task
}.

(** A reference to an endpoint object, as stored in
    [task.custom_sleep_data]. *)
Inductive ep_ref : Type :=
  | SendEp (i : nat)
  | RecvEp (i : nat).

(** One channel with all its endpoint clones, the [custom_sleep_data]
    attribute of every task ([None] when absent), and the scheduler's run
    queue: a task is scheduled ([_next_send_fn] is not [None]) exactly while
    it has an entry in [runq]. *)
Record world : Type := mkWorld {
  state : MemoryChannelState;
  senders : list endpoint;
  receivers : list endpoint;
  custom_sleep_data : list (task * ep_ref);
  runq : list (task * outcome)
}.

Definition with_state (f : MemoryChannelState -> MemoryChannelState) (w : world) : world :=
  mkWorld (f (state w)) (senders w) (receivers w) (custom_sleep_data w) (runq w).
Definition with_senders (f : list endpoint -> list endpoint) (w : world) : world :=
  mkWorld (state w) (f (senders w)) (receivers w) (custom_sleep_data w) (runq w).
Definition with_receivers (f : list endpoint -> list endpoint) (w : world) : world :=
  mkWorld (state w) (senders w) (f (receivers w)) (custom_sleep_data w) (runq w).

Definition set_data (d : list V) (s : MemoryChannelState) : MemoryChannelState :=
  mkState (max_buffer_size s) d (open_send_channels s) (open_receive_channels s)
          (send_tasks s) (receive_tasks s).
Definition set_open_send_channels (n : Z) (s : MemoryChannelState) : MemoryChannelState :=
  mkState (max_buffer_size s) (data s) n (open_receive_channels s)
          (send_tasks s) (receive_tasks s).
Definition set_open_receive_channels (n : Z) (s : MemoryChannelState) : MemoryChannelState :=
  mkState (max_buffer_size s) (data s) (open_send_channels s) n
          (send_tasks s) (receive_tasks s).
Definition set_send_tasks (d : list (task * V)) (s : MemoryChannelState) : MemoryChannelState :=
  mkState (max_buffer_size s) (data s) (open_send_channels s) (open_receive_channels s)
          d (receive_tasks s).
Definition set_receive_tasks (d : list task) (s : MemoryChannelState) : MemoryChannelState :=
  mkState (max_buffer_size s) (data s) (open_send_channels s) (open_receive_channels s)
          (send_tasks s) d.

Definition set_closed (b : bool) (e : endpoint) : endpoint := mkEndpoint b (_tasks e).
Definition set_tasks (ts : list task) (e : endpoint) : endpoint := mkEndpoint (_closed e) ts.

(** Dereferencing an endpoint handle. Handles only come from
    [open_memory_channel] and [clone], so a handle held by the program is
    always allocated; an unallocated one reads as a closed endpoint. *)
Definition get_endpoint (eps : list endpoint) (i : nat) : endpoint :=
  default (mkEndpoint true []) (eps !! i).

Definition sender (w : world) (i : nat) : endpoint := get_endpoint (senders w) i.
Definition receiver (w : world) (i : nat) : endpoint := get_endpoint (receivers w) i.

Definition endpoint_of (w : world) (r : ep_ref) : endpoint :=
  match r with SendEp i => sender w i | RecvEp i => receiver w i end.
Definition update_endpoint (r : ep_ref) (f : endpoint -> endpoint) (w : world) : world :=
  match r with
  | SendEp i => with_senders (fun eps => <[i := f (get_endpoint eps i)]> eps) w
  | RecvEp i => with_receivers (fun eps => <[i := f (get_endpoint eps i)]> eps) w
  end.

(** Association-list readings of the per-task attribute and of the
    ordered dictionaries. *)
Fixpoint assoc {A} (t : task) (d : list (task * A)) : option A :=
  match d with
  | [] => None
  | (k, a) :: d' => if decide (k = t) then Some a else assoc t d'
  end.
Fixpoint assoc_del {A} (t : task) (d : list (task * A)) : list (task * A) :=
  match d with
  | [] => []
  | (k, a) :: d' => if decide (k = t) then assoc_del t d' else (k, a) :: assoc_del t d'
  end.
(** [d[t] = a] on an [OrderedDict]: an existing key keeps its position. *)
Fixpoint assoc_set {A} (t : task) (a : A) (d : list (task * A)) : list (task * A) :=
  match d with
  | [] => [(t, a)]
  | (k, b) :: d' => if decide (k = t) then (k, a) :: d' else (k, b) :: assoc_set t a d'
  end.
Fixpoint mem (t : task) (l : list task) : bool :=
  match l with
  | [] => false
  | k :: l' => if decide (k = t) then true else mem t l'
  end.
Fixpoint remove_task (t : task) (l : list task) : list task :=
  match l with
  | [] => []
  | k :: l' => if decide (k = t) then remove_task t l' else k :: remove_task t l'
  end.
(** [s.add(t)] on a set, [d[t] = None] on an ordered dictionary of keys. *)
Definition add_task (t : task) (l : list task) : list task :=
  if mem t l then l else l ++ [t].

Definition set_custom_sleep_data (t : task) (r : option ep_ref) (w : world) : world :=
  mkWorld (state w) (senders w) (receivers w)
          (match r with
           | Some r' => assoc_set t r' (custom_sleep_data w)
           | None => assoc_del t (custom_sleep_data w)
           end)
          (runq w).

(** [Runner.reschedule(task, next_send)]: asserts that the task is not
    already scheduled, clears [custom_sleep_data], appends to [runq]. *)
Definition reschedule (t : task) (next_send : outcome) : M world unit :=
  (scheduled <- gets (fun w => mem t (runq w).*1);;
   assert (negb scheduled);;;
   modify (set_custom_sleep_data t None);;;
   modify (fun w => mkWorld (state w) (senders w) (receivers w)
                            (custom_sleep_data w) (runq w ++ [(t, next_send)])))%monad.

(** [task.custom_sleep_data._tasks.remove(task)] *)
Definition custom_sleep_data_tasks_remove (t : task) : M world unit :=
  (r <- gets (fun w => assoc t (custom_sleep_data w));;
   match r with
   | None => raise AttributeError
   | Some r =>
       ts <- gets (fun w => _tasks (endpoint_of w r));;
       if mem t ts then modify (update_endpoint r (set_tasks (remove_task t ts)))
       else raise KeyError
   end)%monad.

Definition is_empty {A} (l : list A) : bool :=
  match l with [] => true | _ => false end.

(** *** [MemorySendChannel] *)

(** [MemorySendChannel.send_nowait(value)] on the send endpoint [self]. *)
Definition send_nowait (self : nat) (value : V) : M world unit :=
  (closed <- gets (fun w => _closed (sender w self));;
   if closed then raise ClosedResourceError else
   st <- gets state;;
   if open_receive_channels st =? 0 then raise BrokenResourceError else
   match receive_tasks st with
   | t :: rest =>
       assert (is_empty (data st));;;
       (* task, _ = self._state.receive_tasks.popitem(last=False) *)
       modify (with_state (set_receive_tasks rest));;;
       custom_sleep_data_tasks_remove t;;;
       reschedule t (Value value)
   | [] =>
       if len_lt (length (data st)) (max_buffer_size st)
       then modify (with_state (set_data (data st ++ [value])))
       else raise WouldBlock
   end)%monad.

(** The checkpoints of [trio/_core/_run.py], seen from the calling task.
    [pending] is what the scheduler has to deliver to that task at the cancel
    point: nothing, [Cancelled] (its cancel status is effectively cancelled)
    or [KeyboardInterrupt] (main task with [ki_pending]). None of them touches
    the channel. *)
Definition checkpoint (pending : option exn) : M world unit :=
  match pending with
  | Some e => raise e
  | None => ret tt
  end.
Definition checkpoint_if_cancelled (pending : option exn) : M world unit :=
  match pending with
  | Some _ => checkpoint pending
  | None => ret tt
  end.
Definition cancel_shielded_checkpoint : M world unit := ret tt.

(** How an [async] method leaves the calling task: it returned, or the task
    is parked in [wait_task_rescheduled] with the method's [abort_fn]. *)
Inductive suspension (A : Type) : Type :=
  | Returned (a : A)
  | Parked.
Arguments Returned {A} a.
Arguments Parked {A}.

(** [MemorySendChannel.send(value)], called by [task]. All of its mutations
    happen in one scheduler slice, between the entry checkpoint and either the
    exit checkpoint or the park. *)
Definition send (self : nat) (value : V) (task : task) (pending : option exn)
  : M world (suspension unit) :=
  (checkpoint_if_cancelled pending;;;
   sent <- try_except (send_nowait self value;;; ret true) WouldBlock (ret false);;
   if (sent : bool) then
     cancel_shielded_checkpoint;;; ret (Returned tt)
   else
     modify (update_endpoint (SendEp self) (fun e => set_tasks (add_task task (_tasks e)) e));;;
     modify (with_state (fun st => set_send_tasks (assoc_set task value (send_tasks st)) st));;;
     modify (set_custom_sleep_data task (Some (SendEp self)));;;
     ret Parked)%monad.

(** The [abort_fn] closure created by [send]; it returns [Abort.SUCCEEDED]. *)
Definition send_abort_fn (self : nat) (task : task) : M world unit :=
  (ts <- gets (fun w => _tasks (sender w self));;
   (if mem task ts
    then modify (update_endpoint (SendEp self) (set_tasks (remove_task task ts)))
    else raise KeyError);;;
   st <- gets state;;
   if mem task (send_tasks st).*1
   then modify (with_state (set_send_tasks (assoc_del task (send_tasks st))))
   else raise KeyError)%monad.

(** [MemorySendChannel._create(state)]: a new endpoint object on the shared
    state; [__attrs_post_init__] counts it. Returns the new handle. *)
Definition MemorySendChannel_create : M world nat :=
  (n <- gets (fun w => length (senders w));;
   modify (with_senders (fun eps => eps ++ [mkEndpoint false []]));;;
   modify (with_state (fun st => set_open_send_channels (open_send_channels st + 1) st));;;
   ret n)%monad.

Definition MemorySendChannel_clone (self : nat) : M world nat :=
  (closed <- gets (fun w => _closed (sender w self));;
   if closed then raise ClosedResourceError else MemorySendChannel_create)%monad.

Definition MemorySendChannel_aclose (self : nat) (pending : option exn) : M world unit :=
  (closed <- gets (fun w => _closed (sender w self));;
   if closed then checkpoint pending else
   modify (update_endpoint (SendEp self) (set_closed true));;;
   ts <- gets (fun w => _tasks (sender w self));;
   for_each ts (fun t =>
     reschedule t (Error ClosedResourceError);;;
     st <- gets state;;
     if mem t (send_tasks st).*1
     then modify (with_state (set_send_tasks (assoc_del t (send_tasks st))))
     else raise KeyError);;;
   modify (update_endpoint (SendEp self) (set_tasks []));;;
   modify (with_state (fun st => set_open_send_channels (open_send_channels st - 1) st));;;
   st <- gets state;;
   (if open_send_channels st =? 0 then
      assert (is_empty (send_tasks st));;;
      for_each (receive_tasks st) (fun t =>
        custom_sleep_data_tasks_remove t;;;
        reschedule t (Error EndOfChannel));;;
      modify (with_state (set_receive_tasks []))
    else ret tt);;;
   checkpoint pending)%monad.

(** *** [MemoryReceiveChannel] *)

Definition receive_nowait (self : nat) : M world V :=
  (closed <- gets (fun w => _closed (receiver w self));;
   if closed then raise ClosedResourceError else
   st <- gets state;;
   match send_tasks st with
   | (t, value) :: rest =>
       (* task, value = self._state.send_tasks.popitem(last=False) *)
       modify (with_state (set_send_tasks rest));;;
       custom_sleep_data_tasks_remove t;;;
       reschedule t ValueNone;;;
       modify (with_state (fun st' => set_data (data st' ++ [value]) st'))
   | [] => ret tt
   end;;;
   (* Fall through *)
   st <- gets state;;
   match data st with
   | x :: xs => modify (with_state (set_data xs));;; ret x
   | [] =>
       if open_send_channels st =? 0 then raise EndOfChannel else raise WouldBlock
   end)%monad.

Definition receive (self : nat) (task : task) (pending : option exn)
  : M world (suspension V) :=
  (checkpoint_if_cancelled pending;;;
   got <- try_except (value <- receive_nowait self;; ret (Some value)) WouldBlock (ret None);;
   match got with
   | Some value => cancel_shielded_checkpoint;;; ret (Returned value)
   | None =>
       modify (update_endpoint (RecvEp self) (fun e => set_tasks (add_task task (_tasks e)) e));;;
       modify (with_state (fun st => set_receive_tasks (add_task task (receive_tasks st)) st));;;
       modify (set_custom_sleep_data task (Some (RecvEp self)));;;
       ret Parked
   end)%monad.

Definition receive_abort_fn (self : nat) (task : task) : M world unit :=
  (ts <- gets (fun w => _tasks (receiver w self));;
   (if mem task ts
    then modify (update_endpoint (RecvEp self) (set_tasks (remove_task task ts)))
    else raise KeyError);;;
   st <- gets state;;
   if mem task (receive_tasks st)
   then modify (with_state (set_receive_tasks (remove_task task (receive_tasks st))))
   else raise KeyError)%monad.

Definition MemoryReceiveChannel_create : M world nat :=
  (n <- gets (fun w => length (receivers w));;
   modify (with_receivers (fun eps => eps ++ [mkEndpoint false []]));;;
   modify (with_state (fun st => set_open_receive_channels (open_receive_channels st + 1) st));;;
   ret n)%monad.

Definition MemoryReceiveChannel_clone (self : nat) : M world nat :=
  (closed <- gets (fun w => _closed (receiver w self));;
   if closed then raise ClosedResourceError else MemoryReceiveChannel_create)%monad.

Definition MemoryReceiveChannel_aclose (self : nat) (pending : option exn) : M world unit :=
  (closed <- gets (fun w => _closed (receiver w self));;
   if closed then checkpoint pending else
   modify (update_endpoint (RecvEp self) (set_closed true));;;
   ts <- gets (fun w => _tasks (receiver w self));;
   for_each ts (fun t =>
     reschedule t (Error ClosedResourceError);;;
     st <- gets state;;
     if mem t (receive_tasks st)
     then modify (with_state (set_receive_tasks (remove_task t (receive_tasks st))))
     else raise KeyError);;;
   modify (update_endpoint (RecvEp self) (set_tasks []));;;
   modify (with_state (fun st => set_open_receive_channels (open_receive_channels st - 1) st));;;
   st <- gets state;;
   (if open_receive_channels st =? 0 then
      assert (is_empty (receive_tasks st));;;
      for_each (send_tasks st).*1 (fun t =>
        custom_sleep_data_tasks_remove t;;;
        reschedule t (Error BrokenResourceError));;;
      modify (with_state (set_send_tasks []));;;
      modify (with_state (set_data []))
    else ret tt);;;
   checkpoint pending)%monad.

(** [Task._attempt_abort(raise_cancel)] for a task parked by the channel:
    its [abort_fn] returns [Abort.SUCCEEDED], so the task is rescheduled with
    the captured exception ([Cancelled] or [KeyboardInterrupt]). *)
Definition _attempt_abort (abort_fn : M world unit) (task : task) (e : exn) : M world unit :=
  (abort_fn;;; reschedule task (Error e))%monad.

(** *** [open_memory_channel] *)

(** The argument of [open_memory_channel] as Python sees it: an [int]
    ([bool] included, [True] being [1]), something equal to [math.inf], or
    any other object (a [str], [None], [1.5], [-inf], ...). *)
Inductive pyobj : Type :=
  | PyInt (n : Z)
  | PyInf
  | PyOther.

(** [max_buffer_size != inf], [isinstance(max_buffer_size, int)] and
    [max_buffer_size < 0] (the last is only evaluated on an [int] or on
    [inf]). *)
Definition py_ne_inf (o : pyobj) : bool :=
  match o with PyInf => false | _ => true end.
Definition py_isinstance_int (o : pyobj) : bool :=
  match o with PyInt _ => true | _ => false end.
Definition py_lt_0 (o : pyobj) : bool :=
  match o with PyInt n => n <? 0 | _ => false end.
Definition to_bufsize (o : pyobj) : bufsize :=
  match o with PyInt n => Finite n | _ => Inf end.

(** [MemoryChannelState(max_buffer_size)]: the attrs defaults. *)
Definition MemoryChannelState_init (m : bufsize) : world :=
  mkWorld (mkState m [] 0 0 [] []) [] [] [] [].

(** Returns the pair of handles [(send_channel, receive_channel)] together
    with the world holding the new channel. *)
Definition open_memory_channel (max_buffer_size : pyobj) : result ((nat * nat) * world) :=
  if py_ne_inf max_buffer_size && negb (py_isinstance_int max_buffer_size)
  then Raise TypeError
  else if py_lt_0 max_buffer_size then Raise ValueError
  else
    match (s <- MemorySendChannel_create;;
           r <- MemoryReceiveChannel_create;;
           ret (s, r))%monad (MemoryChannelState_init (to_bufsize max_buffer_size)) with
    | (Ok sr, w) => Ok (sr, w)
    | (Raise e, _) => Raise e
    | (OutOfFuel, _) => OutOfFuel
    end.

(** *** Runs of a channel *)

(** The calls the program and the scheduler can make on a channel world.
    [OpSendAbort]/[OpReceiveAbort] is the delivery of a cancellation (or of
    a [KeyboardInterrupt]) to a parked task through its [abort_fn];
    [OpRun k] is the scheduler resuming the task of the [k]-th [runq]
    entry, which unschedules it. *)
Inductive op : Type :=
  | OpSendNowait (self : nat) (value : V)
  | OpSend (self : nat) (value : V) (t : task) (pending : option exn)
  | OpSendAbort (self : nat) (t : task) (e : exn)
  | OpSendClone (self : nat)
  | OpSendAclose (self : nat) (pending : option exn)
  | OpReceiveNowait (self : nat)
  | OpReceive (self : nat) (t : task) (pending : option exn)
  | OpReceiveAbort (self : nat) (t : task) (e : exn)
  | OpReceiveClone (self : nat)
  | OpReceiveAclose (self : nat) (pending : option exn)
  | OpRun (k : nat).

Definition exec (o : op) (w : world) : world :=
  match o with
  | OpSendNowait self value => snd (send_nowait self value w)
  | OpSend self value t pending => snd (send self value t pending w)
  | OpSendAbort self t e => snd (_attempt_abort (send_abort_fn self t) t e w)
  | OpSendClone self => snd (MemorySendChannel_clone self w)
  | OpSendAclose self pending => snd (MemorySendChannel_aclose self pending w)
  | OpReceiveNowait self => snd (receive_nowait self w)
  | OpReceive self t pending => snd (receive self t pending w)
  | OpReceiveAbort self t e => snd (_attempt_abort (receive_abort_fn self t) t e w)
  | OpReceiveClone self => snd (MemoryReceiveChannel_clone self w)
  | OpReceiveAclose self pending => snd (MemoryReceiveChannel_aclose self pending w)
  | OpRun k =>
      mkWorld (state w) (senders w) (receivers w) (custom_sleep_data w) (delete k (runq w))
  end.

(** A task that executes code is neither parked nor scheduled. *)
Definition running (w : world) (t : task) : Prop :=
  (t ∉ (send_tasks (state w)).*1) ∧ (t ∉ receive_tasks (state w)) ∧ (t ∉ (runq w).*1).

(** When a call can happen: endpoint handles are allocated, a blocking call
    is made by a running task, and an abort function exists for a task while
    it is parked by the matching [send] or [receive]. *)
Definition enabled (w : world) (o : op) : Prop :=
  match o with
  | OpSendNowait self _ | OpSendClone self | OpSendAclose self _ =>
      (self < length (senders w))%nat
  | OpSend self _ t _ => (self < length (senders w))%nat ∧ running w t
  | OpSendAbort self t _ =>
      t ∈ (send_tasks (state w)).*1 ∧ assoc t (custom_sleep_data w) = Some (SendEp self)
  | OpReceiveNowait self | OpReceiveClone self | OpReceiveAclose self _ =>
      (self < length (receivers w))%nat
  | OpReceive self t _ => (self < length (receivers w))%nat ∧ running w t
  | OpReceiveAbort self t _ =>
      t ∈ receive_tasks (state w) ∧ assoc t (custom_sleep_data w) = Some (RecvEp self)
  | OpRun _ => True
  end.

(** The worlds a program can reach from [open_memory_channel]. *)
Inductive reachable : world -> Prop :=
  | reachable_open m sr w :
      open_memory_channel m = Ok (sr, w) -> reachable w
  | reachable_step w o :
      reachable w -> enabled w o -> reachable (exec o w).

(** *** Invariants *)

(** The invariant of [MemoryChannelState] as the specification words it:
    [data] is empty while [receive_tasks] is non-empty, and [send_tasks] is
    empty unless [len(data) == max_buffer_size]. *)
Definition channel_invariant (st : MemoryChannelState) : Prop :=
  (receive_tasks st ≠ [] -> data st = []) ∧
  (send_tasks st ≠ [] -> max_buffer_size st = Finite (Z.of_nat (length (data st)))).

(** [len(data) <= max_buffer_size] *)
Definition len_le (n : nat) (m : bufsize) : Prop :=
  match m with
  | Finite k => Z.of_nat n <= k
  | Inf => True
  end.

Definition count_open (eps : list endpoint) : nat :=
  length (filter (fun e => _closed e = false) eps).

(** One side (send or receive) of the bookkeeping: the shared ordered
    dictionary has distinct keys, each parked on one endpoint of that side,
    which its [custom_sleep_data] names; an endpoint's [_tasks] are distinct
    keys of the dictionary, and a closed endpoint has none. *)
Definition side_wf (mk : nat -> ep_ref) (eps : list endpoint) (keys : list task)
    (csd : list (task * ep_ref)) : Prop :=
  NoDup keys ∧
  (∀ t, t ∈ keys -> ∃ i ep, assoc t csd = Some (mk i) ∧ eps !! i = Some ep ∧ t ∈ _tasks ep) ∧
  (∀ i ep, eps !! i = Some ep ->
     NoDup (_tasks ep) ∧ (_closed ep = true -> _tasks ep = []) ∧
     ∀ t, t ∈ _tasks ep -> t ∈ keys ∧ assoc t csd = Some (mk i)).

Record wf (w : world) : Prop := mk_wf {
  wf_inv : channel_invariant (state w);
  wf_len : len_le (length (data (state w))) (max_buffer_size (state w));
  wf_send : side_wf SendEp (senders w) (send_tasks (state w)).*1 (custom_sleep_data w);
  wf_recv : side_wf RecvEp (receivers w) (receive_tasks (state w)) (custom_sleep_data w);
  wf_unscheduled :
    ∀ t, t ∈ (send_tasks (state w)).*1 ∨ t ∈ receive_tasks (state w) -> t ∉ (runq w).*1;
  wf_open_send : open_send_channels (state w) = Z.of_nat (count_open (senders w));
  wf_open_receive : open_receive_channels (state w) = Z.of_nat (count_open (receivers w))
}.

(** Waking a parked task: it leaves its endpoint's [_tasks] and the shared
    dictionary, loses its [custom_sleep_data] and is scheduled with [o]. *)
Definition unpark (t : task) (o : outcome) (w : world) : world :=
  let w1 := match assoc t (custom_sleep_data w) with
            | Some r => update_endpoint r (fun e => set_tasks (remove_task t (_tasks e)) e) w
            | None => w
            end in
  mkWorld (set_receive_tasks (remove_task t (receive_tasks (state w)))
             (set_send_tasks (assoc_del t (send_tasks (state w))) (state w)))
          (senders w1) (receivers w1)
          (assoc_del t (custom_sleep_data w))
          (runq w ++ [(t, o)]).

(** *** List and dictionary lemmas *)

Lemma mem_true_iff (t : task) (l : list task) : mem t l = true ↔ t ∈ l.
Proof.
  induction l as [|k l IH]; simpl.
  - split; [discriminate | intros H; inversion H].
  - destruct (decide (k = t)) as [->|Hne].
    + split; [intros _; left | done].
    + rewrite IH. split; [by right | ].
      intros H. apply elem_of_cons in H as [H|H]; [congruence | done].
Qed.

Lemma mem_false_iff (t : task) (l : list task) : mem t l = false ↔ t ∉ l.
Proof.
  rewrite <- mem_true_iff. destruct (mem t l); split; intros; congruence.
Qed.

Lemma elem_of_remove_task (x t : task) (l : list task) :
  x ∈ remove_task t l ↔ x ∈ l ∧ x ≠ t.
Proof.
  induction l as [|k l IH]; simpl.
  - split; [intros H; inversion H | intros [H _]; inversion H].
  - destruct (decide (k = t)) as [->|Hne].
    + rewrite IH, elem_of_cons. naive_solver.
    + rewrite !elem_of_cons, IH. naive_solver.
Qed.

Lemma NoDup_remove_task (t : task) (l : list task) : NoDup l -> NoDup (remove_task t l).
Proof.
  induction 1 as [|k l Hk Hl IH]; simpl; [constructor|].
  destruct (decide (k = t)); [done|].
  constructor; [|done]. rewrite elem_of_remove_task. tauto.
Qed.

Lemma remove_task_notin (t : task) (l : list task) : t ∉ l -> remove_task t l = l.
Proof.
  induction l as [|k l IH]; simpl; [done|].
  intros H. apply not_elem_of_cons in H as [Hne Hl].
  destruct (decide (k = t)); [congruence|]. by rewrite IH.
Qed.

Lemma remove_task_head (t : task) (l : list task) :
  NoDup (t :: l) -> remove_task t (t :: l) = l.
Proof.
  intros H. apply NoDup_cons in H as [Hnin _]. simpl.
  destruct (decide (t = t)); [|done]. by apply remove_task_notin.
Qed.

Lemma remove_task_app (t : task) (l1 l2 : list task) :
  remove_task t (l1 ++ l2) = remove_task t l1 ++ remove_task t l2.
Proof.
  induction l1 as [|k l1 IH]; simpl; [done|].
  destruct (decide (k = t)); [done|]. by rewrite IH.
Qed.

Lemma assoc_assoc_del {A} (t t' : task) (d : list (task * A)) :
  assoc t (assoc_del t' d) = if decide (t' = t) then None else assoc t d.
Proof.
  induction d as [|[k a] d IH]; simpl.
  - by destruct (decide (t' = t)).
  - destruct (decide (k = t')) as [->|Hne]; simpl.
    + rewrite IH. destruct (decide (t' = t)); [done|]. done.
    + destruct (decide (k = t)) as [->|Hne'].
      * destruct (decide (t' = t)); [congruence|done].
      * done.
Qed.

Lemma assoc_assoc_set {A} (t t' : task) (a : A) (d : list (task * A)) :
  assoc t (assoc_set t' a d) = if decide (t' = t) then Some a else assoc t d.
Proof.
  induction d as [|[k b] d IH]; simpl.
  - destruct (decide (t' = t)); done.
  - destruct (decide (k = t')) as [->|Hne]; simpl.
    + destruct (decide (t' = t)); done.
    + destruct (decide (k = t)) as [->|Hne'].
      * destruct (decide (t' = t)); [congruence|done].
      * done.
Qed.

Lemma fst_assoc_del {A} (t : task) (d : list (task * A)) :
  (assoc_del t d).*1 = remove_task t d.*1.
Proof.
  induction d as [|[k a] d IH]; csimpl; [done|].
  destruct (decide (k = t)); csimpl; [done|]. by rewrite IH.
Qed.

Lemma assoc_set_fresh {A} (t : task) (a : A) (d : list (task * A)) :
  t ∉ d.*1 -> assoc_set t a d = d ++ [(t, a)].
Proof.
  induction d as [|[k b] d IH]; simpl; [done|].
  intros H. apply not_elem_of_cons in H as [Hne Hd].
  destruct (decide (k = t)); [congruence|]. by rewrite IH.
Qed.

Lemma assoc_del_nil_inv {A} (t : task) (d : list (task * A)) :
  assoc_del t d ≠ [] -> d ≠ [].
Proof. by destruct d. Qed.

Lemma remove_task_nil_inv (t : task) (l : list task) :
  remove_task t l ≠ [] -> l ≠ [].
Proof. by destruct l. Qed.

Lemma add_task_fresh (t : task) (l : list task) : t ∉ l -> add_task t l = l ++ [t].
Proof. intros H. unfold add_task. apply mem_false_iff in H. by rewrite H. Qed.

Lemma get_endpoint_lookup (eps : list endpoint) (i : nat) (ep : endpoint) :
  eps !! i = Some ep -> get_endpoint eps i = ep.
Proof. intros H. unfold get_endpoint. by rewrite H. Qed.

Lemma count_open_insert_same (eps : list endpoint) (i : nat) (ep ep' : endpoint) :
  eps !! i = Some ep -> _closed ep' = _closed ep ->
  count_open (<[i := ep']> eps) = count_open eps.
Proof.
  unfold count_open. revert i. induction eps as [|e eps IH]; intros [|i] H Hc; simpl in *; try done.
  - injection H as ->. rewrite !filter_cons. rewrite Hc.
    destruct (decide (_closed ep = false)); done.
  - rewrite !filter_cons. specialize (IH i H Hc).
    destruct (decide (_closed e = false)); simpl; by rewrite IH.
Qed.

Lemma count_open_close (eps : list endpoint) (i : nat) (ep ep' : endpoint) :
  eps !! i = Some ep -> _closed ep = false -> _closed ep' = true ->
  S (count_open (<[i := ep']> eps)) = count_open eps.
Proof.
  unfold count_open. revert i. induction eps as [|e eps IH]; intros [|i] H Hc Hc'; simpl in *; try done.
  - injection H as ->. rewrite !filter_cons.
    destruct (decide (_closed ep' = false)); [congruence|].
    destruct (decide (_closed ep = false)); done.
  - rewrite !filter_cons. specialize (IH i H Hc Hc').
    destruct (decide (_closed e = false)); simpl; by rewrite <- IH.
Qed.

Lemma count_open_app_open (eps : list endpoint) :
  count_open (eps ++ [mkEndpoint false []]) = S (count_open eps).
Proof.
  unfold count_open. rewrite filter_app, length_app. cbn.
  case_decide; [simpl; lia | done].
Qed.

Lemma count_open_pos (eps : list endpoint) (i : nat) (ep : endpoint) :
  eps !! i = Some ep -> _closed ep = false -> (0 < count_open eps)%nat.
Proof.
  unfold count_open. revert i. induction eps as [|e eps IH]; intros [|i] H Hc; simpl in *; try done.
  - injection H as ->. rewrite filter_cons.
    destruct (decide (_closed ep = false)); [simpl; lia | done].
  - rewrite filter_cons. specialize (IH i H Hc).
    destruct (decide (_closed e = false)); simpl; lia.
Qed.

Lemma assoc_del_notin {A} (t : task) (d : list (task * A)) :
  t ∉ d.*1 -> assoc_del t d = d.
Proof.
  induction d as [|[k a] d IH]; csimpl; [done|].
  intros H. apply not_elem_of_cons in H as [Hne Hd].
  destruct (decide (k = t)); [congruence|]. by rewrite IH.
Qed.

(** *** One side of the bookkeeping under the elementary updates *)

Section Side.
Variable mk : nat -> ep_ref.
Hypothesis mk_inj : ∀ i j, mk i = mk j -> i = j.

Lemma side_wf_parked_at eps keys csd t i :
  side_wf mk eps keys csd -> t ∈ keys -> assoc t csd = Some (mk i) ->
  ∃ ep, eps !! i = Some ep ∧ t ∈ _tasks ep ∧ _closed ep = false.
Proof.
  intros (Hnd & Hk & He) Ht Ha.
  destruct (Hk t Ht) as (j & ep & Ha' & Hl & Hin).
  assert (j = i) as -> by (apply mk_inj; congruence).
  exists ep. split; [done|]. split; [done|].
  destruct (He i ep Hl) as (_ & Hc & _).
  destruct (_closed ep); [|done]. rewrite Hc in Hin by done. inversion Hin.
Qed.

Lemma side_wf_unpark eps keys csd t i :
  side_wf mk eps keys csd -> t ∈ keys -> assoc t csd = Some (mk i) ->
  side_wf mk
    (<[i := set_tasks (remove_task t (_tasks (get_endpoint eps i))) (get_endpoint eps i)]> eps)
    (remove_task t keys) (assoc_del t csd).
Proof.
  intros Hwf Ht Ha.
  destruct (side_wf_parked_at _ _ _ _ _ Hwf Ht Ha) as (ep & Hl & Hin & Hopen).
  rewrite (get_endpoint_lookup _ _ _ Hl).
  destruct Hwf as (Hnd & Hk & He).
  split; [by apply NoDup_remove_task|]. split.
  - intros t' Ht'. apply elem_of_remove_task in Ht' as [Ht' Hne].
    destruct (Hk t' Ht') as (j & epj & Haj & Hlj & Hinj).
    destruct (decide (j = i)) as [->|Hji].
    + exists i, (set_tasks (remove_task t (_tasks ep)) ep).
      rewrite assoc_assoc_del. destruct (decide (t = t')); [congruence|].
      split; [done|]. split.
      * rewrite list_lookup_insert_eq; [done|]. by eapply lookup_lt_Some.
      * assert (epj = ep) as -> by congruence. simpl.
        apply elem_of_remove_task. done.
    + exists j, epj. rewrite assoc_assoc_del. destruct (decide (t = t')); [congruence|].
      split; [done|]. split; [|done]. by rewrite list_lookup_insert_ne.
  - intros j epj Hlj. destruct (decide (j = i)) as [->|Hji].
    + rewrite list_lookup_insert_eq in Hlj by (by eapply lookup_lt_Some).
      injection Hlj as <-. simpl.
      destruct (He i ep Hl) as (Hnd' & Hc & Hsub).
      split; [by apply NoDup_remove_task|]. split; [congruence|].
      intros t' Ht'. apply elem_of_remove_task in Ht' as [Ht' Hne].
      destruct (Hsub t' Ht') as [Hin' Ha'].
      split; [by apply elem_of_remove_task|].
      rewrite assoc_assoc_del. destruct (decide (t = t')); [congruence|done].
    + rewrite list_lookup_insert_ne in Hlj by done.
      destruct (He j epj Hlj) as (Hnd' & Hc & Hsub).
      split; [done|]. split; [done|].
      intros t' Ht'. destruct (Hsub t' Ht') as [Hin' Ha'].
      assert (t' ≠ t) as Hne.
      { intros ->. apply Hji, mk_inj. congruence. }
      split; [by apply elem_of_remove_task|].
      rewrite assoc_assoc_del. destruct (decide (t = t')); [congruence|done].
Qed.

Lemma side_wf_not_in_tasks eps keys csd t i ep :
  side_wf mk eps keys csd -> t ∉ keys -> eps !! i = Some ep -> t ∉ _tasks ep.
Proof.
  intros (_ & _ & He) Ht Hl Hin. destruct (He i ep Hl) as (_ & _ & Hsub).
  by destruct (Hsub t Hin).
Qed.

(** A task of the other side changes its [custom_sleep_data]. *)
Lemma side_wf_foreign eps keys csd csd' t :
  side_wf mk eps keys csd -> t ∉ keys ->
  (∀ t', t' ≠ t -> assoc t' csd' = assoc t' csd) ->
  side_wf mk eps keys csd'.
Proof.
  intros Hwf Ht Hcsd. pose proof Hwf as (Hnd & Hk & He).
  split; [done|]. split.
  - intros t' Ht'. destruct (Hk t' Ht') as (j & epj & Haj & Hlj & Hinj).
    exists j, epj. rewrite Hcsd; [done|]. intros ->. done.
  - intros j epj Hlj. destruct (He j epj Hlj) as (Hnd' & Hc & Hsub).
    split; [done|]. split; [done|].
    intros t' Ht'. destruct (Hsub t' Ht') as [Hin' Ha'].
    split; [done|]. rewrite Hcsd; [done|]. intros ->. done.
Qed.

Lemma side_wf_park eps keys csd t i ep :
  side_wf mk eps keys csd -> t ∉ keys -> eps !! i = Some ep -> _closed ep = false ->
  side_wf mk (<[i := set_tasks (add_task t (_tasks ep)) ep]> eps)
    (keys ++ [t]) (assoc_set t (mk i) csd).
Proof.
  intros Hwf Ht Hl Hopen.
  pose proof (side_wf_not_in_tasks _ _ _ _ _ _ Hwf Ht Hl) as Hnin.
  destruct Hwf as (Hnd & Hk & He).
  rewrite (add_task_fresh _ _ Hnin).
  assert (i < length eps)%nat as Hlt by (by eapply lookup_lt_Some).
  split.
  { apply NoDup_app. split; [done|]. split; [|apply NoDup_singleton].
    intros x Hx Hx'. apply list_elem_of_singleton in Hx' as ->. done. }
  split.
  - intros t' Ht'. apply elem_of_app in Ht' as [Ht'|Ht'].
    + destruct (Hk t' Ht') as (j & epj & Haj & Hlj & Hinj).
      assert (t ≠ t') by (intros ->; done).
      rewrite assoc_assoc_set. destruct (decide (t = t')); [done|].
      destruct (decide (j = i)) as [->|Hji].
      * exists i, (set_tasks (_tasks ep ++ [t]) ep). split; [done|].
        rewrite list_lookup_insert_eq by done. split; [done|].
        assert (epj = ep) as -> by congruence. simpl. apply elem_of_app. by left.
      * exists j, epj. split; [done|]. by rewrite list_lookup_insert_ne.
    + apply list_elem_of_singleton in Ht' as ->.
      exists i, (set_tasks (_tasks ep ++ [t]) ep).
      rewrite assoc_assoc_set. destruct (decide (t = t)); [|done].
      split; [done|]. rewrite list_lookup_insert_eq by done. split; [done|].
      simpl. apply elem_of_app. right. by apply list_elem_of_singleton.
  - intros j epj Hlj. destruct (decide (j = i)) as [->|Hji].
    + rewrite list_lookup_insert_eq in Hlj by done. injection Hlj as <-. simpl.
      destruct (He i ep Hl) as (Hnd' & Hc & Hsub).
      split.
      { apply NoDup_app. split; [done|]. split; [|apply NoDup_singleton].
        intros x Hx Hx'. apply list_elem_of_singleton in Hx' as ->. done. }
      split; [congruence|].
      intros t' Ht'. rewrite assoc_assoc_set. apply elem_of_app in Ht' as [Ht'|Ht'].
      * destruct (Hsub t' Ht') as [Hin' Ha'].
        split; [apply elem_of_app; by left|].
        destruct (decide (t = t')); [done|done].
      * apply list_elem_of_singleton in Ht' as ->.
        split; [apply elem_of_app; right; by apply list_elem_of_singleton|].
        destruct (decide (t = t)); done.
    + rewrite list_lookup_insert_ne in Hlj by done.
      destruct (He j epj Hlj) as (Hnd' & Hc & Hsub).
      split; [done|]. split; [done|].
      intros t' Ht'. destruct (Hsub t' Ht') as [Hin' Ha'].
      split; [apply elem_of_app; by left|].
      rewrite assoc_assoc_set. destruct (decide (t = t')) as [->|]; [done|done].
Qed.

Lemma side_wf_new_endpoint eps keys csd :
  side_wf mk eps keys csd -> side_wf mk (eps ++ [mkEndpoint false []]) keys csd.
Proof.
  intros (Hnd & Hk & He). split; [done|]. split.
  - intros t Ht. destruct (Hk t Ht) as (j & epj & Haj & Hlj & Hinj).
    exists j, epj. split; [done|]. split; [|done].
    rewrite lookup_app_l; [done|]. by eapply lookup_lt_Some.
  - intros j epj Hlj. apply lookup_app_Some in Hlj as [Hlj|[Hge Hlj]].
    + by apply He.
    + apply list_lookup_singleton_Some in Hlj as [_ <-]. simpl.
      split; [constructor|]. split; [done|]. intros t Ht. inversion Ht.
Qed.

(** Closing an endpoint that has no parked task left. *)
Lemma side_wf_close eps keys csd i ep :
  side_wf mk eps keys csd -> eps !! i = Some ep -> _tasks ep = [] ->
  side_wf mk (<[i := mkEndpoint true []]> eps) keys csd.
Proof.
  intros (Hnd & Hk & He) Hl Hnil.
  assert (i < length eps)%nat as Hlt by (by eapply lookup_lt_Some).
  split; [done|]. split.
  - intros t Ht. destruct (Hk t Ht) as (j & epj & Haj & Hlj & Hinj).
    destruct (decide (j = i)) as [->|Hji].
    + assert (epj = ep) as -> by congruence. rewrite Hnil in Hinj. inversion Hinj.
    + exists j, epj. split; [done|]. split; [|done]. by rewrite list_lookup_insert_ne.
  - intros j epj Hlj. destruct (decide (j = i)) as [->|Hji].
    + rewrite list_lookup_insert_eq in Hlj by done. injection Hlj as <-. simpl.
      split; [constructor|]. split; [done|]. intros t Ht. inversion Ht.
    + rewrite list_lookup_insert_ne in Hlj by done. by apply He.
Qed.

End Side.

(** *** Well-formedness is kept by every call *)

Ltac unfold_setters :=
  unfold update_endpoint, endpoint_of, sender, receiver, with_state, with_senders,
    with_receivers, set_data, set_open_send_channels, set_open_receive_channels,
    set_send_tasks, set_receive_tasks, set_custom_sleep_data, channel_invariant in *.

Lemma SendEp_inj i j : SendEp i = SendEp j -> i = j.
Proof. congruence. Qed.
Lemma RecvEp_inj i j : RecvEp i = RecvEp j -> i = j.
Proof. congruence. Qed.

Lemma wf_sides_disjoint w t :
  wf w -> t ∈ (send_tasks (state w)).*1 -> t ∈ receive_tasks (state w) -> False.
Proof.
  intros Hwf Hs Hr.
  destruct (wf_send _ Hwf) as (_ & Hk & _). destruct (wf_recv _ Hwf) as (_ & Hk' & _).
  destruct (Hk t Hs) as (i & ? & Ha & _). destruct (Hk' t Hr) as (j & ? & Ha' & _).
  congruence.
Qed.

Lemma not_elem_of_runq_app (t t' : task) (o : outcome) (q : list (task * outcome)) :
  t' ∉ q.*1 -> t' ≠ t -> t' ∉ (q ++ [(t, o)]).*1.
Proof.
  intros Hq Hne. rewrite fmap_app. intros H. apply elem_of_app in H as [H|H]; [done|].
  csimpl in H. apply list_elem_of_singleton in H. done.
Qed.

Lemma wf_unpark w t o :
  wf w -> t ∈ (send_tasks (state w)).*1 ∨ t ∈ receive_tasks (state w) ->
  wf (unpark t o w).
Proof.
  intros Hwf Hparked.
  pose proof (wf_sides_disjoint w t Hwf) as Hdisj.
  destruct Hwf as [[Hi1 Hi2] Hlen Hs Hr Hun Hos Hor].
  destruct w as [[m d os orc st rt] ss rs csd rq]. simpl in *.
  destruct Hparked as [Hp|Hp].
  - pose proof Hs as (_ & Hk & _). destruct (Hk t Hp) as (i & ep & Ha & Hl & Hin).
    assert (t ∉ rt) as Hnr by (intros ?; by apply Hdisj).
    unfold unpark; simpl. rewrite Ha. simpl.
    rewrite (remove_task_notin _ _ Hnr).
    constructor; unfold_setters; simpl.
    + split; [done|]. intros H. apply Hi2. by eapply assoc_del_nil_inv.
    + done.
    + rewrite fst_assoc_del. by apply side_wf_unpark; [apply SendEp_inj|..].
    + eapply side_wf_foreign; [exact Hr|exact Hnr|].
      intros t' Hne. rewrite assoc_assoc_del. by destruct (decide (t = t')).
    + intros t' Ht'. apply not_elem_of_runq_app.
      * apply Hun. destruct Ht' as [Ht'|Ht']; [left|by right].
        rewrite fst_assoc_del in Ht'. by apply elem_of_remove_task in Ht' as [? _].
      * destruct Ht' as [Ht'|Ht'].
        -- rewrite fst_assoc_del in Ht'. by apply elem_of_remove_task in Ht' as [_ ?].
        -- intros ->. done.
    + rewrite Hos. f_equal. symmetry.
      rewrite (get_endpoint_lookup _ _ _ Hl).
      by eapply count_open_insert_same.
    + done.
  - pose proof Hr as (_ & Hk & _). destruct (Hk t Hp) as (i & ep & Ha & Hl & Hin).
    assert (t ∉ st.*1) as Hns by (intros ?; by apply Hdisj).
    unfold unpark; simpl. rewrite Ha. simpl.
    rewrite (assoc_del_notin _ _ Hns).
    constructor; unfold_setters; simpl.
    + split; [|done]. intros H. apply Hi1. by eapply remove_task_nil_inv.
    + done.
    + eapply side_wf_foreign; [exact Hs|exact Hns|].
      intros t' Hne. rewrite assoc_assoc_del. by destruct (decide (t = t')).
    + by apply side_wf_unpark; [apply RecvEp_inj|..].
    + intros t' Ht'. apply not_elem_of_runq_app.
      * apply Hun. destruct Ht' as [Ht'|Ht']; [by left|right].
        by apply elem_of_remove_task in Ht' as [? _].
      * destruct Ht' as [Ht'|Ht'].
        -- intros ->. done.
        -- by apply elem_of_remove_task in Ht' as [_ ?].
    + done.
    + rewrite Hor. f_equal. symmetry.
      rewrite (get_endpoint_lookup _ _ _ Hl).
      by eapply count_open_insert_same.
Qed.

Ltac mrun :=
  unfold bind, gets, modify, ret, raise, assert, try_except, checkpoint_if_cancelled,
    checkpoint, cancel_shielded_checkpoint in *; simpl in *.

Lemma wf_parked_receiver w t :
  wf w -> t ∈ receive_tasks (state w) ->
  ∃ i ep, assoc t (custom_sleep_data w) = Some (RecvEp i) ∧ receivers w !! i = Some ep ∧
          mem t (_tasks ep) = true ∧ mem t (runq w).*1 = false ∧
          t ∉ (send_tasks (state w)).*1.
Proof.
  intros Hwf Ht. destruct (wf_recv _ Hwf) as (_ & Hk & _).
  destruct (Hk t Ht) as (i & ep & Ha & Hl & Hin). exists i, ep.
  split; [done|]. split; [done|]. split; [by apply mem_true_iff|].
  split; [apply mem_false_iff, (wf_unscheduled _ Hwf); by right|].
  intros ?. by eapply wf_sides_disjoint.
Qed.

Lemma wf_parked_sender w t :
  wf w -> t ∈ (send_tasks (state w)).*1 ->
  ∃ i ep, assoc t (custom_sleep_data w) = Some (SendEp i) ∧ senders w !! i = Some ep ∧
          mem t (_tasks ep) = true ∧ mem t (runq w).*1 = false ∧
          t ∉ receive_tasks (state w).
Proof.
  intros Hwf Ht. destruct (wf_send _ Hwf) as (_ & Hk & _).
  destruct (Hk t Ht) as (i & ep & Ha & Hl & Hin). exists i, ep.
  split; [done|]. split; [done|]. split; [by apply mem_true_iff|].
  split; [apply mem_false_iff, (wf_unscheduled _ Hwf); by left|].
  intros ?. by eapply wf_sides_disjoint.
Qed.

(** [send_nowait] on a well-formed world, as one case analysis. *)
Lemma send_nowait_run w self value :
  wf w ->
  send_nowait self value w =
    if _closed (sender w self) then (Raise ClosedResourceError, w)
    else if open_receive_channels (state w) =? 0 then (Raise BrokenResourceError, w)
    else match receive_tasks (state w) with
         | t :: _ => (Ok tt, unpark t (Value value) w)
         | [] =>
             if len_lt (length (data (state w))) (max_buffer_size (state w))
             then (Ok tt, with_state (set_data (data (state w) ++ [value])) w)
             else (Raise WouldBlock, w)
         end.
Proof.
  intros Hwf. unfold send_nowait. mrun.
  destruct (_closed (sender w self)); [done|].
  destruct (open_receive_channels (state w) =? 0); [done|].
  destruct (receive_tasks (state w)) as [|t rest] eqn:Hrt.
  { by destruct (len_lt _ _). }
  assert (t ∈ receive_tasks (state w)) as Ht by (rewrite Hrt; left).
  destruct (wf_parked_receiver w t Hwf Ht) as (i & ep & Ha & Hl & Hm & Hq & Hns).
  pose proof (wf_inv _ Hwf) as [Hi1 _]. rewrite Hrt in Hi1.
  rewrite Hi1 by done. simpl.
  destruct (wf_recv _ Hwf) as (Hnd & _). rewrite Hrt in Hnd.
  unfold custom_sleep_data_tasks_remove, reschedule, unpark. mrun.
  destruct w as [[m d os orc st rt] ss rs csd rq]. unfold_setters. simpl in *.
  rewrite Ha. simpl. unfold receiver, get_endpoint. simpl. rewrite Hl. simpl. rewrite Hm.
  simpl. rewrite Hq. simpl. subst rt.
  rewrite (remove_task_head _ _ Hnd). by rewrite ?Hl, (assoc_del_notin _ _ Hns).
Qed.

(** A task is parked by the channel when it is a key of one of the two
    shared dictionaries. *)
Definition parked (w : world) (t : task) : Prop :=
  t ∈ (send_tasks (state w)).*1 ∨ t ∈ receive_tasks (state w).

Definition unpark_all (o : outcome) (l : list task) (w : world) : world :=
  foldl (fun w' t => unpark t o w') w l.

Lemma parked_unpark w t t' o : parked w t' -> t' ≠ t -> parked (unpark t o w) t'.
Proof.
  unfold parked, unpark. simpl. intros [H|H] Hne; [left|right].
  - rewrite fst_assoc_del. by apply elem_of_remove_task.
  - by apply elem_of_remove_task.
Qed.

Lemma wf_unpark_all o l : ∀ w,
  wf w -> NoDup l -> (∀ t, t ∈ l -> parked w t) -> wf (unpark_all o l w).
Proof.
  induction l as [|t l IH]; intros w Hwf Hnd Hp; simpl; [done|].
  apply NoDup_cons in Hnd as [Hnin Hnd].
  apply IH; [apply wf_unpark; [done|apply Hp; left] | done |].
  intros t' Ht'. apply parked_unpark; [apply Hp; by right|]. intros ->. done.
Qed.

(** The loop body [task.custom_sleep_data._tasks.remove(task);
    reschedule(task, o)] wakes a parked task; it does not read the shared
    state, whose dictionaries the caller clears afterwards. *)
Definition wake (o : outcome) (t : task) : M world unit :=
  (custom_sleep_data_tasks_remove t;;; reschedule t o)%monad.

Lemma wake_step o t wv s :
  wf wv -> parked wv t ->
  wake o t (with_state (fun _ => s) wv) = (Ok tt, with_state (fun _ => s) (unpark t o wv)).
Proof.
  intros Hwf [Hp|Hp].
  - destruct (wf_parked_sender wv t Hwf Hp) as (i & ep & Ha & Hl & Hm & Hq & Hns).
    unfold wake, custom_sleep_data_tasks_remove, reschedule, unpark. mrun.
    destruct wv as [[m d os orc st rt] ss rs csd rq]. unfold_setters. simpl in *.
    rewrite Ha. simpl. unfold sender, receiver, get_endpoint. simpl. rewrite !Hl. simpl. rewrite Hm.
    simpl. rewrite Hq. simpl. by rewrite ?Hl.
  - destruct (wf_parked_receiver wv t Hwf Hp) as (i & ep & Ha & Hl & Hm & Hq & Hns).
    unfold wake, custom_sleep_data_tasks_remove, reschedule, unpark. mrun.
    destruct wv as [[m d os orc st rt] ss rs csd rq]. unfold_setters. simpl in *.
    rewrite Ha. simpl. unfold sender, receiver, get_endpoint. simpl. rewrite !Hl. simpl. rewrite Hm.
    simpl. rewrite Hq. simpl. by rewrite ?Hl.
Qed.

Lemma wake_all_run o l : ∀ wv s,
  wf wv -> NoDup l -> (∀ t, t ∈ l -> parked wv t) ->
  for_each l (wake o) (with_state (fun _ => s) wv)
  = (Ok tt, with_state (fun _ => s) (unpark_all o l wv)).
Proof.
  induction l as [|t l IH]; intros wv s Hwf Hnd Hp; simpl; [done|].
  apply NoDup_cons in Hnd as [Hnin Hnd].
  unfold bind. rewrite wake_step by (done || apply Hp; left).
  apply IH; [apply wf_unpark; [done|apply Hp; left] | done |].
  intros t' Ht'. apply parked_unpark; [apply Hp; by right|]. intros ->. done.
Qed.

(** Components of a world after waking a list of tasks. *)
Lemma unpark_all_data o l : ∀ w,
  data (state (unpark_all o l w)) = data (state w) ∧
  max_buffer_size (state (unpark_all o l w)) = max_buffer_size (state w) ∧
  open_send_channels (state (unpark_all o l w)) = open_send_channels (state w) ∧
  open_receive_channels (state (unpark_all o l w)) = open_receive_channels (state w).
Proof.
  induction l as [|t l IH]; intros w; simpl; [done|].
  destruct (IH (unpark t o w)) as (-> & -> & -> & ->). done.
Qed.


Lemma unpark_all_receive_tasks o l : ∀ w,
  receive_tasks (state (unpark_all o l w))
  = foldl (fun k t => remove_task t k) (receive_tasks (state w)) l.
Proof. induction l as [|t l IH]; intros w; simpl; [done|]. by rewrite IH. Qed.

Lemma unpark_all_send_tasks o l : ∀ w,
  send_tasks (state (unpark_all o l w))
  = foldl (fun k t => assoc_del t k) (send_tasks (state w)) l.
Proof. induction l as [|t l IH]; intros w; simpl; [done|]. by rewrite IH. Qed.

Lemma elem_of_foldl_remove_task (x : task) l : ∀ k,
  x ∈ foldl (fun k t => remove_task t k) k l ↔ x ∈ k ∧ x ∉ l.
Proof.
  induction l as [|t l IH]; intros k; simpl.
  - split; [intros H; split; [done|apply not_elem_of_nil] | by intros [? _]].
  - rewrite IH, elem_of_remove_task, not_elem_of_cons. tauto.
Qed.

Lemma foldl_remove_task_self (l : list task) :
  foldl (fun k t => remove_task t k) l l = [].
Proof.
  destruct (foldl _ l l) as [|x k] eqn:H; [done|].
  assert (x ∈ foldl (fun k t => remove_task t k) l l) as Hx by (rewrite H; left).
  apply elem_of_foldl_remove_task in Hx as [? ?]. done.
Qed.

Lemma foldl_remove_task_disjoint l : ∀ k,
  (∀ t, t ∈ l -> t ∉ k) -> foldl (fun k t => remove_task t k) k l = k.
Proof.
  induction l as [|t l IH]; intros k Hd; simpl; [done|].
  rewrite remove_task_notin by (apply Hd; left). apply IH.
  intros t' Ht'. apply Hd. by right.
Qed.

Lemma foldl_assoc_del_disjoint {A} l : ∀ k : list (task * A),
  (∀ t, t ∈ l -> t ∉ k.*1) -> foldl (fun k t => assoc_del t k) k l = k.
Proof.
  induction l as [|t l IH]; intros k Hd; simpl; [done|].
  rewrite assoc_del_notin by (apply Hd; left). apply IH.
  intros t' Ht'. apply Hd. by right.
Qed.

Lemma fst_foldl_assoc_del {A} l : ∀ k : list (task * A),
  (foldl (fun k t => assoc_del t k) k l).*1 = foldl (fun k t => remove_task t k) k.*1 l.
Proof.
  induction l as [|t l IH]; intros k; simpl; [done|]. by rewrite IH, fst_assoc_del.
Qed.

Lemma foldl_assoc_del_self {A} (k : list (task * A)) :
  foldl (fun k t => assoc_del t k) k k.*1 = [].
Proof.
  pose proof (fst_foldl_assoc_del k.*1 k) as H. rewrite foldl_remove_task_self in H.
  by apply fmap_nil_inv in H.
Qed.

Lemma NoDup_foldl_remove_task l : ∀ k : list task,
  NoDup k -> NoDup (foldl (fun k t => remove_task t k) k l).
Proof.
  induction l as [|t l IH]; intros k Hk; simpl; [done|].
  by apply IH, NoDup_remove_task.
Qed.

Lemma assoc_foldl_assoc_del {A} (x : task) l : ∀ d : list (task * A),
  x ∉ l -> assoc x (foldl (fun k t => assoc_del t k) d l) = assoc x d.
Proof.
  induction l as [|t l IH]; intros d Hx; simpl; [done|].
  apply not_elem_of_cons in Hx as [Hne Hx].
  rewrite IH by done. rewrite assoc_assoc_del. destruct (decide (t = x)); congruence.
Qed.

Lemma side_wf_csd_ext mk eps keys csd csd' :
  side_wf mk eps keys csd -> (∀ t, t ∈ keys -> assoc t csd' = assoc t csd) ->
  side_wf mk eps keys csd'.
Proof.
  intros (Hnd & Hk & He) Hcsd. split; [done|]. split.
  - intros t Ht. destruct (Hk t Ht) as (j & epj & Haj & Hlj & Hinj).
    exists j, epj. by rewrite Hcsd.
  - intros j epj Hlj. destruct (He j epj Hlj) as (Hnd' & Hc & Hsub).
    split; [done|]. split; [done|].
    intros t Ht. destruct (Hsub t Ht) as [Hin' Ha']. split; [done|]. by rewrite Hcsd.
Qed.

(** Closing endpoint [i] of one side: its parked tasks leave the shared
    dictionary and lose their [custom_sleep_data]. *)
Lemma side_wf_close_tasks mk eps keys csd i ep :
  (∀ a b, mk a = mk b -> a = b) ->
  side_wf mk eps keys csd -> eps !! i = Some ep ->
  side_wf mk (<[i := mkEndpoint true []]> eps)
    (foldl (fun k t => remove_task t k) keys (_tasks ep))
    (foldl (fun k t => assoc_del t k) csd (_tasks ep)).
Proof.
  intros mk_inj (Hnd & Hk & He) Hl.
  assert (i < length eps)%nat as Hlt by (by eapply lookup_lt_Some).
  destruct (He i ep Hl) as (_ & _ & Hself).
  assert (∀ t j epj, eps !! j = Some epj -> t ∈ _tasks epj -> j ≠ i -> t ∉ _tasks ep) as Hother.
  { intros t j epj Hlj Hin Hji Hin'.
    destruct (He j epj Hlj) as (_ & _ & Hsub). destruct (Hsub t Hin) as [_ Ha].
    destruct (Hself t Hin') as [_ Ha']. apply Hji, mk_inj. congruence. }
  split; [by apply NoDup_foldl_remove_task|]. split.
  - intros t Ht. apply elem_of_foldl_remove_task in Ht as [Ht Hnin].
    destruct (Hk t Ht) as (j & epj & Haj & Hlj & Hinj).
    destruct (decide (j = i)) as [->|Hji].
    { assert (epj = ep) as -> by congruence. done. }
    exists j, epj. rewrite assoc_foldl_assoc_del by done.
    split; [done|]. split; [|done]. by rewrite list_lookup_insert_ne.
  - intros j epj Hlj. destruct (decide (j = i)) as [->|Hji].
    + rewrite list_lookup_insert_eq in Hlj by done. injection Hlj as <-. simpl.
      split; [constructor|]. split; [done|]. intros t Ht. inversion Ht.
    + rewrite list_lookup_insert_ne in Hlj by done.
      destruct (He j epj Hlj) as (Hnd' & Hc & Hsub).
      split; [done|]. split; [done|].
      intros t Ht. destruct (Hsub t Ht) as [Hin' Ha'].
      pose proof (Hother t j epj Hlj Ht Hji) as Hnin.
      split; [by apply elem_of_foldl_remove_task|].
      by rewrite assoc_foldl_assoc_del.
Qed.

(** The first loop of [MemorySendChannel.aclose]. *)
Definition send_close_body (t : task) : M world unit :=
  (reschedule t (Error ClosedResourceError);;;
   st <- gets state;;
   if mem t (send_tasks st).*1
   then modify (with_state (set_send_tasks (assoc_del t (send_tasks st))))
   else raise KeyError)%monad.

Lemma send_close_loop_run m d os orc rt ss rs l : ∀ st csd rq,
  NoDup l -> (∀ t, t ∈ l -> t ∈ st.*1 ∧ t ∉ rq.*1) ->
  for_each l send_close_body (mkWorld (mkState m d os orc st rt) ss rs csd rq)
  = (Ok tt, mkWorld (mkState m d os orc (foldl (fun k t => assoc_del t k) st l) rt) ss rs
              (foldl (fun k t => assoc_del t k) csd l)
              (rq ++ map (fun t => (t, Error ClosedResourceError)) l)).
Proof.
  induction l as [|t l IH]; intros st csd rq Hnd Hl; simpl.
  { by rewrite app_nil_r. }
  apply NoDup_cons in Hnd as [Hnin Hnd].
  destruct (Hl t) as [Hin Hq]; [left|].
  apply mem_true_iff in Hin. apply mem_false_iff in Hq.
  unfold bind at 1. unfold send_close_body, reschedule. mrun. rewrite Hq. simpl.
  unfold_setters. simpl. rewrite Hin. rewrite IH; [|done|].
  - simpl. by rewrite <- app_assoc.
  - intros t' Ht'. destruct (Hl t') as [Hin' Hq']; [by right|].
    assert (t' ≠ t) by (intros ->; done). split.
    + rewrite fst_assoc_del. by apply elem_of_remove_task.
    + by apply not_elem_of_runq_app.
Qed.

(** The first loop of [MemoryReceiveChannel.aclose]. *)
Definition receive_close_body (t : task) : M world unit :=
  (reschedule t (Error ClosedResourceError);;;
   st <- gets state;;
   if mem t (receive_tasks st)
   then modify (with_state (set_receive_tasks (remove_task t (receive_tasks st))))
   else raise KeyError)%monad.

Lemma receive_close_loop_run m d os orc st ss rs l : ∀ rt csd rq,
  NoDup l -> (∀ t, t ∈ l -> t ∈ rt ∧ t ∉ rq.*1) ->
  for_each l receive_close_body (mkWorld (mkState m d os orc st rt) ss rs csd rq)
  = (Ok tt, mkWorld (mkState m d os orc st (foldl (fun k t => remove_task t k) rt l)) ss rs
              (foldl (fun k t => assoc_del t k) csd l)
              (rq ++ map (fun t => (t, Error ClosedResourceError)) l)).
Proof.
  induction l as [|t l IH]; intros rt csd rq Hnd Hl; simpl.
  { by rewrite app_nil_r. }
  apply NoDup_cons in Hnd as [Hnin Hnd].
  destruct (Hl t) as [Hin Hq]; [left|].
  apply mem_true_iff in Hin. apply mem_false_iff in Hq.
  unfold bind at 1. unfold receive_close_body, reschedule. mrun. rewrite Hq. simpl.
  unfold_setters. simpl. rewrite Hin. rewrite IH; [|done|].
  - simpl. by rewrite <- app_assoc.
  - intros t' Ht'. destruct (Hl t') as [Hin' Hq']; [by right|].
    assert (t' ≠ t) by (intros ->; done). split.
    + by apply elem_of_remove_task.
    + by apply not_elem_of_runq_app.
Qed.

(** The world after [aclose] has closed an open endpoint and woken its own
    parked tasks, before it looks at the other side. *)
Definition close_sender (self : nat) (w : world) : world :=
  let ts := _tasks (sender w self) in
  mkWorld (mkState (max_buffer_size (state w)) (data (state w))
             (open_send_channels (state w) - 1) (open_receive_channels (state w))
             (foldl (fun k t => assoc_del t k) (send_tasks (state w)) ts)
             (receive_tasks (state w)))
          (<[self := mkEndpoint true []]> (senders w)) (receivers w)
          (foldl (fun k t => assoc_del t k) (custom_sleep_data w) ts)
          (runq w ++ map (fun t => (t, Error ClosedResourceError)) ts).

Definition close_receiver (self : nat) (w : world) : world :=
  let ts := _tasks (receiver w self) in
  mkWorld (mkState (max_buffer_size (state w)) (data (state w))
             (open_send_channels (state w)) (open_receive_channels (state w) - 1)
             (send_tasks (state w))
             (foldl (fun k t => remove_task t k) (receive_tasks (state w)) ts))
          (senders w) (<[self := mkEndpoint true []]> (receivers w))
          (foldl (fun k t => assoc_del t k) (custom_sleep_data w) ts)
          (runq w ++ map (fun t => (t, Error ClosedResourceError)) ts).

Lemma foldl_assoc_del_nil {A} (l : list task) :
  foldl (fun k t => assoc_del t k) ([] : list (task * A)) l = [].
Proof. induction l as [|t l IH]; simpl; done. Qed.

Lemma foldl_remove_task_nil (l : list task) :
  foldl (fun k t => remove_task t k) [] l = [].
Proof. induction l as [|t l IH]; simpl; done. Qed.

Lemma fst_runq_closed (rq : list (task * outcome)) (o : outcome) (ts : list task) :
  (rq ++ map (fun t => (t, o)) ts).*1 = rq.*1 ++ ts.
Proof.
  rewrite fmap_app. f_equal. induction ts as [|t ts IH]; csimpl; [done|]. by rewrite IH.
Qed.

Lemma wf_close_sender w self ep :
  wf w -> senders w !! self = Some ep -> _closed ep = false ->
  wf (close_sender self w).
Proof.
  intros Hwf Hl Hopen.
  pose proof (fun t => wf_sides_disjoint w t Hwf) as Hdisj.
  pose proof Hwf as [[Hi1 Hi2] Hlen Hs Hr Hun Hos Hor].
  unfold close_sender, sender. rewrite (get_endpoint_lookup _ _ _ Hl).
  destruct w as [[m d os orc st rt] ss rs csd rq]. simpl in *.
  pose proof Hs as (_ & _ & He). destruct (He self ep Hl) as (Hnd & _ & Hsub).
  constructor; simpl.
  - split; simpl; [done|]. intros H. apply Hi2. intros ->.
    by rewrite foldl_assoc_del_nil in H.
  - done.
  - rewrite fst_foldl_assoc_del. by apply side_wf_close_tasks; [apply SendEp_inj|..].
  - eapply side_wf_csd_ext; [exact Hr|]. intros t Ht.
    apply assoc_foldl_assoc_del. intros Hin. destruct (Hsub t Hin) as [Hk _].
    by eapply Hdisj.
  - intros t Ht. rewrite fst_runq_closed. intros Hin.
    apply elem_of_app in Hin as [Hin|Hin].
    + revert Hin. apply Hun. destruct Ht as [Ht|Ht]; [left|by right].
      rewrite fst_foldl_assoc_del in Ht. by apply elem_of_foldl_remove_task in Ht as [? _].
    + destruct Ht as [Ht|Ht].
      * rewrite fst_foldl_assoc_del in Ht. by apply elem_of_foldl_remove_task in Ht as [_ ?].
      * destruct (Hsub t Hin) as [Hk _]. by eapply Hdisj.
  - pose proof (count_open_close ss self ep (mkEndpoint true []) Hl Hopen eq_refl). lia.
  - done.
Qed.

Lemma wf_close_receiver w self ep :
  wf w -> receivers w !! self = Some ep -> _closed ep = false ->
  wf (close_receiver self w).
Proof.
  intros Hwf Hl Hopen.
  pose proof (fun t => wf_sides_disjoint w t Hwf) as Hdisj.
  pose proof Hwf as [[Hi1 Hi2] Hlen Hs Hr Hun Hos Hor].
  unfold close_receiver, receiver. rewrite (get_endpoint_lookup _ _ _ Hl).
  destruct w as [[m d os orc st rt] ss rs csd rq]. simpl in *.
  pose proof Hr as (_ & _ & He). destruct (He self ep Hl) as (Hnd & _ & Hsub).
  constructor; simpl.
  - split; simpl; [|done]. intros H. apply Hi1. intros ->.
    by rewrite foldl_remove_task_nil in H.
  - done.
  - eapply side_wf_csd_ext; [exact Hs|]. intros t Ht.
    apply assoc_foldl_assoc_del. intros Hin. destruct (Hsub t Hin) as [Hk _].
    by eapply Hdisj.
  - by apply side_wf_close_tasks; [apply RecvEp_inj|..].
  - intros t Ht. rewrite fst_runq_closed. intros Hin.
    apply elem_of_app in Hin as [Hin|Hin].
    + revert Hin. apply Hun. destruct Ht as [Ht|Ht]; [by left|right].
      by apply elem_of_foldl_remove_task in Ht as [? _].
    + destruct Ht as [Ht|Ht].
      * destruct (Hsub t Hin) as [Hk _]. by eapply Hdisj.
      * by apply elem_of_foldl_remove_task in Ht as [_ ?].
  - done.
  - pose proof (count_open_close rs self ep (mkEndpoint true []) Hl Hopen eq_refl). lia.
Qed.

(** With no open endpoint left on a side, nobody is parked on it. *)
Lemma side_wf_no_open mk eps keys csd :
  (∀ a b, mk a = mk b -> a = b) ->
  side_wf mk eps keys csd -> count_open eps = 0%nat -> keys = [].
Proof.
  intros mk_inj Hwf Hc. destruct keys as [|t keys]; [done|]. exfalso.
  pose proof Hwf as (_ & Hk & _).
  destruct (Hk t) as (i & ep & Ha & Hl & Hin); [left|].
  destruct (side_wf_parked_at mk mk_inj _ _ _ t i Hwf) as (ep' & Hl' & _ & Hopen); [left|done|].
  pose proof (count_open_pos _ _ _ Hl' Hopen). lia.
Qed.

Lemma state_ext (s s' : MemoryChannelState) :
  max_buffer_size s = max_buffer_size s' -> data s = data s' ->
  open_send_channels s = open_send_channels s' ->
  open_receive_channels s = open_receive_channels s' ->
  send_tasks s = send_tasks s' -> receive_tasks s = receive_tasks s' -> s = s'.
Proof. destruct s, s'; simpl; congruence. Qed.

Lemma with_state_const_id (w : world) (s : MemoryChannelState) :
  state w = s -> with_state (fun _ => s) w = w.
Proof. destruct w; simpl; intros <-; done. Qed.

(** Waking every parked receiver empties [receive_tasks] and leaves the
    rest of the shared state alone. *)
Lemma unpark_all_receivers_state o w :
  wf w ->
  state (unpark_all o (receive_tasks (state w)) w) = set_receive_tasks [] (state w).
Proof.
  intros Hwf. destruct (unpark_all_data o (receive_tasks (state w)) w) as (Hd & Hm & Hos & Hor).
  apply state_ext; simpl; try done.
  - rewrite unpark_all_send_tasks. apply foldl_assoc_del_disjoint.
    intros t Ht Hs. by eapply wf_sides_disjoint.
  - rewrite unpark_all_receive_tasks. apply foldl_remove_task_self.
Qed.

Lemma unpark_all_senders_state o w :
  wf w ->
  state (unpark_all o (send_tasks (state w)).*1 w) = set_send_tasks [] (state w).
Proof.
  intros Hwf. destruct (unpark_all_data o (send_tasks (state w)).*1 w) as (Hd & Hm & Hos & Hor).
  apply state_ext; simpl; try done.
  - rewrite unpark_all_send_tasks. apply foldl_assoc_del_self.
  - rewrite unpark_all_receive_tasks. apply foldl_remove_task_disjoint.
    intros t Ht Hs. by eapply wf_sides_disjoint.
Qed.

Lemma get_endpoint_insert_eq (eps : list endpoint) (i : nat) (e : endpoint) :
  (i < length eps)%nat -> get_endpoint (<[i := e]> eps) i = e.
Proof. intros H. unfold get_endpoint. by rewrite list_lookup_insert_eq. Qed.

(** [MemorySendChannel.aclose] on a well-formed world. *)
Lemma send_aclose_run w self pending ep :
  wf w -> senders w !! self = Some ep ->
  MemorySendChannel_aclose self pending w =
    if _closed ep then checkpoint pending w
    else checkpoint pending
           (if open_send_channels (state w) - 1 =? 0
            then unpark_all (Error EndOfChannel) (receive_tasks (state w)) (close_sender self w)
            else close_sender self w).
Proof.
  intros Hwf Hl. unfold MemorySendChannel_aclose.
  unfold bind at 1. unfold gets at 1. unfold sender at 1.
  rewrite (get_endpoint_lookup _ _ _ Hl).
  destruct (_closed ep) eqn:Hopen; [done|].
  pose proof (wf_close_sender w self ep Hwf Hl Hopen) as Hwf1.
  pose proof (wake_all_run (Error EndOfChannel) (receive_tasks (state w)) (close_sender self w)
                (state (close_sender self w)) Hwf1) as Hloop.
  pose proof (unpark_all_receivers_state (Error EndOfChannel) (close_sender self w) Hwf1) as Hst.
  pose proof (side_wf_no_open SendEp _ _ _ SendEp_inj (wf_send _ Hwf1)) as Hempty.
  pose proof (wf_open_send _ Hwf1) as Hcount.
  assert (i_lt : (self < length (senders w))%nat) by (by eapply lookup_lt_Some).
  destruct (wf_send _ Hwf) as (_ & _ & He). destruct (He self ep Hl) as (Hnd & _ & Hsub).
  pose proof (wf_unscheduled _ Hwf) as Hun.
  destruct (wf_recv _ Hwf) as (Hndr & _ & _).
  unfold close_sender, sender in *. rewrite (get_endpoint_lookup _ _ _ Hl) in *.
  destruct w as [[m d os orc st rt] ss rs csd rq]. simpl in *.
  unfold bind, modify, gets. unfold_setters. simpl.
  rewrite ?(get_endpoint_lookup _ _ _ Hl). simpl.
  rewrite ?get_endpoint_insert_eq by done. simpl.
  change (for_each (_tasks ep) _ ?w) with (for_each (_tasks ep) send_close_body w).
  rewrite send_close_loop_run; [|done|]; cycle 1.
  { intros t Ht. destruct (Hsub t Ht) as [Hk _]. split; [done|]. apply Hun. by left. }
  simpl. rewrite ?get_endpoint_insert_eq by done. simpl.
  rewrite list_insert_insert_eq.
  destruct (os - 1 =? 0) eqn:Hz; simpl; [|done].
  apply Z.eqb_eq in Hz.
  assert (is_empty (foldl (fun k t => assoc_del t k) st (_tasks ep)) = true) as ->.
  { by rewrite (fmap_nil_inv _ _ (Hempty ltac:(lia))). }
  simpl in Hloop |- *.
  change (for_each rt _ ?w) with (for_each rt (wake (Error EndOfChannel)) w).
  unfold set_tasks, set_closed. simpl.
  rewrite Hloop; [|done|by right]. simpl.
  unfold ret. f_equal.
  set (W := unpark_all _ _ _) in *. destruct W as [sW ssW rsW csdW rqW]. simpl in *.
  by rewrite Hst.
Qed.

(** [MemoryReceiveChannel.aclose] on a well-formed world. *)
Lemma receive_aclose_run w self pending ep :
  wf w -> receivers w !! self = Some ep ->
  MemoryReceiveChannel_aclose self pending w =
    if _closed ep then checkpoint pending w
    else checkpoint pending
           (if open_receive_channels (state w) - 1 =? 0
            then with_state (set_data [])
                   (unpark_all (Error BrokenResourceError) (send_tasks (state w)).*1
                      (close_receiver self w))
            else close_receiver self w).
Proof.
  intros Hwf Hl. unfold MemoryReceiveChannel_aclose.
  unfold bind at 1. unfold gets at 1. unfold receiver at 1.
  rewrite (get_endpoint_lookup _ _ _ Hl).
  destruct (_closed ep) eqn:Hopen; [done|].
  pose proof (wf_close_receiver w self ep Hwf Hl Hopen) as Hwf1.
  pose proof (wake_all_run (Error BrokenResourceError) (send_tasks (state w)).*1
                (close_receiver self w) (state (close_receiver self w)) Hwf1) as Hloop.
  pose proof (unpark_all_senders_state (Error BrokenResourceError) (close_receiver self w) Hwf1)
    as Hst.
  pose proof (side_wf_no_open RecvEp _ _ _ RecvEp_inj (wf_recv _ Hwf1)) as Hempty.
  pose proof (wf_open_receive _ Hwf1) as Hcount.
  assert (i_lt : (self < length (receivers w))%nat) by (by eapply lookup_lt_Some).
  destruct (wf_recv _ Hwf) as (_ & _ & He). destruct (He self ep Hl) as (Hnd & _ & Hsub).
  pose proof (wf_unscheduled _ Hwf) as Hun.
  destruct (wf_send _ Hwf) as (Hnds & _ & _).
  unfold close_receiver, receiver in *. rewrite (get_endpoint_lookup _ _ _ Hl) in *.
  destruct w as [[m d os orc st rt] ss rs csd rq]. simpl in *.
  unfold bind, modify, gets. unfold_setters. simpl.
  rewrite ?(get_endpoint_lookup _ _ _ Hl). simpl.
  rewrite ?get_endpoint_insert_eq by done. simpl.
  change (for_each (_tasks ep) _ ?w) with (for_each (_tasks ep) receive_close_body w).
  rewrite receive_close_loop_run; [|done|]; cycle 1.
  { intros t Ht. destruct (Hsub t Ht) as [Hk _]. split; [done|]. apply Hun. by right. }
  simpl. rewrite ?get_endpoint_insert_eq by done. simpl.
  rewrite list_insert_insert_eq.
  destruct (orc - 1 =? 0) eqn:Hz; simpl; [|done].
  apply Z.eqb_eq in Hz.
  assert (is_empty (foldl (fun k t => remove_task t k) rt (_tasks ep)) = true) as ->.
  { by rewrite (Hempty ltac:(lia)). }
  simpl in Hloop |- *.
  change (for_each (st.*1) _ ?w) with (for_each (st.*1) (wake (Error BrokenResourceError)) w).
  unfold set_tasks, set_closed. simpl.
  rewrite Hloop; [|done|by left]. simpl.
  unfold ret. f_equal.
  set (W := unpark_all _ _ _) in *. destruct W as [sW ssW rsW csdW rqW]. simpl in *.
  by rewrite Hst.
Qed.

(** [receive_nowait] on a well-formed world. *)
Lemma receive_nowait_run w self :
  wf w ->
  receive_nowait self w =
    if _closed (receiver w self) then (Raise ClosedResourceError, w)
    else match send_tasks (state w) with
         | (t, value) :: _ =>
             let w1 := with_state (fun st => set_data (data st ++ [value]) st)
                         (unpark t ValueNone w) in
             match data (state w) ++ [value] with
             | x :: xs => (Ok x, with_state (set_data xs) w1)
             | [] => (Raise WouldBlock, w1)
             end
         | [] =>
             match data (state w) with
             | x :: xs => (Ok x, with_state (set_data xs) w)
             | [] =>
                 if open_send_channels (state w) =? 0
                 then (Raise EndOfChannel, w) else (Raise WouldBlock, w)
             end
         end.
Proof.
  intros Hwf. unfold receive_nowait. mrun.
  destruct (_closed (receiver w self)); [done|].
  destruct (send_tasks (state w)) as [|[t value] rest] eqn:Hst.
  { destruct (data (state w)); [|done]. by destruct (open_send_channels (state w) =? 0). }
  assert (t ∈ (send_tasks (state w)).*1) as Ht by (rewrite Hst; left).
  destruct (wf_parked_sender w t Hwf Ht) as (i & ep & Ha & Hl & Hm & Hq & Hnr).
  destruct (wf_send _ Hwf) as (Hnd & _). rewrite Hst in Hnd. csimpl in Hnd.
  apply NoDup_cons in Hnd as [Hnin _].
  unfold custom_sleep_data_tasks_remove, reschedule, unpark. mrun.
  destruct w as [[m d os orc st rt] ss rs csd rq]. unfold_setters. simpl in *.
  rewrite Ha. simpl. unfold get_endpoint. simpl. rewrite !Hl. simpl. rewrite Hm.
  simpl. rewrite Hq. simpl. subst st. simpl.
  destruct (decide (t = t)); [|done].
  rewrite (remove_task_notin _ _ Hnr), (assoc_del_notin _ _ Hnin), ?Hl.
  simpl. destruct (d ++ [value]) eqn:E; [by destruct d | done].
Qed.

Lemma wf_append_data w value :
  wf w -> receive_tasks (state w) = [] ->
  len_lt (length (data (state w))) (max_buffer_size (state w)) = true ->
  wf (with_state (set_data (data (state w) ++ [value])) w).
Proof.
  intros [[Hi1 Hi2] Hlen Hs Hr Hun Hos Hor] Hrt Hlt.
  destruct w as [[m d os orc st rt] ss rs csd rq]. simpl in *. subst rt.
  constructor; unfold_setters; simpl; try done.
  - split; [done|]. intros Hst. specialize (Hi2 Hst). subst m. simpl in Hlt. lia.
  - destruct m as [k|]; simpl in *; [|done]. rewrite length_app. simpl. lia.
Qed.

Lemma wf_pop_data w x xs :
  wf w -> data (state w) = x :: xs -> send_tasks (state w) = [] ->
  wf (with_state (set_data xs) w).
Proof.
  intros [[Hi1 Hi2] Hlen Hs Hr Hun Hos Hor] Hd Hst.
  destruct w as [[m d os orc st rt] ss rs csd rq]. simpl in *. subst d st.
  constructor; unfold_setters; simpl; try done.
  - split; [|done]. intros Hrt. by specialize (Hi1 Hrt).
  - destruct m as [k|]; simpl in *; [lia|done].
Qed.

Lemma wf_set_data w xs :
  wf w -> len_le (length xs) (max_buffer_size (state w)) ->
  (receive_tasks (state w) ≠ [] -> xs = []) ->
  (send_tasks (state w) ≠ [] -> max_buffer_size (state w) = Finite (Z.of_nat (length xs))) ->
  wf (with_state (set_data xs) w).
Proof.
  intros [[Hi1 Hi2] Hlen Hs Hr Hun Hos Hor] Hle H1 H2.
  destruct w as [[m d os orc st rt] ss rs csd rq]. simpl in *.
  constructor; unfold_setters; simpl; done.
Qed.

(** A parked sender hands its value over: the buffer gets it at the back
    and gives its front item to the receiver, so its length is unchanged. *)
Lemma wf_rotate_data w t value x xs :
  wf w -> data (state w) ++ [value] = x :: xs -> parked w t ->
  wf (with_state (set_data xs)
        (with_state (fun st => set_data (data st ++ [value]) st) (unpark t ValueNone w))).
Proof.
  intros Hwf Hd Hp.
  assert (length xs = length (data (state w))) as Hlenx.
  { apply (f_equal length) in Hd. rewrite length_app in Hd. simpl in Hd. lia. }
  pose proof (wf_unpark w t ValueNone Hwf Hp) as Hwf'.
  pose proof Hwf as [[Hi1 Hi2] Hlen _ _ _ _ _].
  replace (with_state (set_data xs) _) with (with_state (set_data xs) (unpark t ValueNone w))
    by (by destruct w as [[] ? ? ? ?]).
  apply wf_set_data; [done|simpl..].
  - by rewrite Hlenx.
  - intros Hrt. apply remove_task_nil_inv in Hrt. specialize (Hi1 Hrt).
    rewrite Hi1 in Hd. simpl in Hd. by injection Hd as _ <-.
  - intros Hst. apply assoc_del_nil_inv in Hst. rewrite Hlenx. by apply Hi2.
Qed.

(** The world after [send] has parked [t] on endpoint [self]. *)
Definition park_sender (self : nat) (value : V) (t : task) (w : world) : world :=
  set_custom_sleep_data t (Some (SendEp self))
    (with_state (fun st => set_send_tasks (assoc_set t value (send_tasks st)) st)
       (update_endpoint (SendEp self) (fun e => set_tasks (add_task t (_tasks e)) e) w)).

Definition park_receiver (self : nat) (t : task) (w : world) : world :=
  set_custom_sleep_data t (Some (RecvEp self))
    (with_state (fun st => set_receive_tasks (add_task t (receive_tasks st)) st)
       (update_endpoint (RecvEp self) (fun e => set_tasks (add_task t (_tasks e)) e) w)).

Lemma len_full (n : nat) (m : bufsize) :
  len_le n m -> len_lt n m = false -> m = Finite (Z.of_nat n).
Proof. destruct m as [k|]; simpl; [|done]. intros ? ?. f_equal. lia. Qed.

Lemma wf_park_sender w self value t ep :
  wf w -> senders w !! self = Some ep -> _closed ep = false -> running w t ->
  len_lt (length (data (state w))) (max_buffer_size (state w)) = false ->
  receive_tasks (state w) = [] ->
  wf (park_sender self value t w).
Proof.
  intros [[Hi1 Hi2] Hlen Hs Hr Hun Hos Hor] Hl Hopen (Hns & Hnr & Hnq) Hfull Hrt.
  unfold park_sender.
  destruct w as [[m d os orc st rt] ss rs csd rq]. unfold_setters. simpl in *.
  rewrite (get_endpoint_lookup _ _ _ Hl).
  constructor; simpl.
  - split; [by subst rt|]. intros _. by apply len_full.
  - done.
  - rewrite (assoc_set_fresh _ _ _ Hns), fmap_app. csimpl.
    by apply side_wf_park.
  - eapply side_wf_csd_ext; [exact Hr|]. intros t' Ht'.
    rewrite assoc_assoc_set. destruct (decide (t = t')) as [->|]; done.
  - intros t' Ht'. rewrite (assoc_set_fresh _ _ _ Hns), fmap_app in Ht'. csimpl in Ht'.
    destruct Ht' as [Ht'|Ht'].
    + apply elem_of_app in Ht' as [Ht'|Ht']; [apply Hun; by left|].
      by apply list_elem_of_singleton in Ht' as ->.
    + apply Hun. by right.
  - rewrite Hos. f_equal. symmetry. by eapply count_open_insert_same.
  - done.
Qed.

Lemma wf_park_receiver w self t ep :
  wf w -> receivers w !! self = Some ep -> _closed ep = false -> running w t ->
  data (state w) = [] -> send_tasks (state w) = [] ->
  wf (park_receiver self t w).
Proof.
  intros [[Hi1 Hi2] Hlen Hs Hr Hun Hos Hor] Hl Hopen (Hns & Hnr & Hnq) Hd Hst.
  unfold park_receiver.
  destruct w as [[m d os orc st rt] ss rs csd rq]. unfold_setters. simpl in *.
  rewrite (get_endpoint_lookup _ _ _ Hl).
  constructor; simpl.
  - split; [done|]. by subst st.
  - done.
  - eapply side_wf_csd_ext; [exact Hs|]. intros t' Ht'.
    rewrite assoc_assoc_set. destruct (decide (t = t')) as [->|]; done.
  - rewrite (add_task_fresh _ _ Hnr).
    by apply side_wf_park.
  - intros t' Ht'. rewrite (add_task_fresh _ _ Hnr) in Ht'.
    destruct Ht' as [Ht'|Ht'].
    + apply Hun. by left.
    + apply elem_of_app in Ht' as [Ht'|Ht']; [apply Hun; by right|].
      by apply list_elem_of_singleton in Ht' as ->.
  - done.
  - rewrite Hor. f_equal. symmetry. by eapply count_open_insert_same.
Qed.

Lemma wf_new_sender w :
  wf w ->
  wf (with_state (fun st => set_open_send_channels (open_send_channels st + 1) st)
        (with_senders (fun eps => eps ++ [mkEndpoint false []]) w)).
Proof.
  intros [[Hi1 Hi2] Hlen Hs Hr Hun Hos Hor].
  destruct w as [[m d os orc st rt] ss rs csd rq]. unfold_setters. simpl in *.
  constructor; simpl; try done.
  - by apply side_wf_new_endpoint.
  - rewrite count_open_app_open. lia.
Qed.

Lemma wf_new_receiver w :
  wf w ->
  wf (with_state (fun st => set_open_receive_channels (open_receive_channels st + 1) st)
        (with_receivers (fun eps => eps ++ [mkEndpoint false []]) w)).
Proof.
  intros [[Hi1 Hi2] Hlen Hs Hr Hun Hos Hor].
  destruct w as [[m d os orc st rt] ss rs csd rq]. unfold_setters. simpl in *.
  constructor; simpl; try done.
  - by apply side_wf_new_endpoint.
  - rewrite count_open_app_open. lia.
Qed.

Lemma wf_run w k :
  wf w ->
  wf (mkWorld (state w) (senders w) (receivers w) (custom_sleep_data w) (delete k (runq w))).
Proof.
  intros [[Hi1 Hi2] Hlen Hs Hr Hun Hos Hor].
  constructor; simpl; try done.
  intros t Ht Hin. apply (Hun t Ht).
  apply list_elem_of_fmap in Hin as (x & -> & Hx).
  apply list_elem_of_fmap. exists x. split; [done|].
  by eapply list_elem_of_delete_inv.
Qed.

Lemma wf_init m : len_le 0 m -> wf (MemoryChannelState_init m).
Proof.
  intros Hm. constructor; simpl; try done.
  - split; [constructor|]. split; [intros t Ht; inversion Ht|]. intros i ep Hl. inversion Hl.
  - split; [constructor|]. split; [intros t Ht; inversion Ht|]. intros i ep Hl. inversion Hl.
  - intros t [Ht|Ht]; inversion Ht.
Qed.

Lemma send_run w self value t pending :
  send self value t pending w =
    match pending with
    | Some e => (Raise e, w)
    | None =>
        match send_nowait self value w with
        | (Ok _, w') => (Ok (Returned tt), w')
        | (Raise e, w') =>
            if decide (e = WouldBlock) then (Ok Parked, park_sender self value t w')
            else (Raise e, w')
        | (OutOfFuel, w') => (OutOfFuel, w')
        end
    end.
Proof.
  unfold send, park_sender. destruct pending as [e|]; [done|]. mrun.
  destruct (send_nowait self value w) as [[[]|e|] w']; [done| |done].
  destruct (decide (e = WouldBlock)); done.
Qed.

Lemma receive_run w self t pending :
  receive self t pending w =
    match pending with
    | Some e => (Raise e, w)
    | None =>
        match receive_nowait self w with
        | (Ok value, w') => (Ok (Returned value), w')
        | (Raise e, w') =>
            if decide (e = WouldBlock) then (Ok Parked, park_receiver self t w')
            else (Raise e, w')
        | (OutOfFuel, w') => (OutOfFuel, w')
        end
    end.
Proof.
  unfold receive, park_receiver. destruct pending as [e|]; [done|]. mrun.
  destruct (receive_nowait self w) as [[v|e|] w']; [done| |done].
  destruct (decide (e = WouldBlock)); done.
Qed.

Lemma send_abort_run w self t e :
  wf w -> t ∈ (send_tasks (state w)).*1 ->
  assoc t (custom_sleep_data w) = Some (SendEp self) ->
  _attempt_abort (send_abort_fn self t) t e w = (Ok tt, unpark t (Error e) w).
Proof.
  intros Hwf Ht Ha.
  destruct (wf_parked_sender w t Hwf Ht) as (i & ep & Ha' & Hl & Hm & Hq & Hnr).
  assert (i = self) as -> by congruence.
  pose proof Ht as Hm'. apply mem_true_iff in Hm'.
  unfold _attempt_abort, send_abort_fn, reschedule, unpark. mrun.
  destruct w as [[m d os orc st rt] ss rs csd rq]. unfold_setters. simpl in *.
  unfold get_endpoint. rewrite !Hl. simpl. rewrite Hm. simpl. rewrite Hm'. simpl.
  rewrite Hq. simpl. rewrite Ha. simpl. unfold get_endpoint. rewrite Hl. simpl.
  by rewrite (remove_task_notin _ _ Hnr).
Qed.

Lemma receive_abort_run w self t e :
  wf w -> t ∈ receive_tasks (state w) ->
  assoc t (custom_sleep_data w) = Some (RecvEp self) ->
  _attempt_abort (receive_abort_fn self t) t e w = (Ok tt, unpark t (Error e) w).
Proof.
  intros Hwf Ht Ha.
  destruct (wf_parked_receiver w t Hwf Ht) as (i & ep & Ha' & Hl & Hm & Hq & Hns).
  assert (i = self) as -> by congruence.
  pose proof Ht as Hm'. apply mem_true_iff in Hm'.
  unfold _attempt_abort, receive_abort_fn, reschedule, unpark. mrun.
  destruct w as [[m d os orc st rt] ss rs csd rq]. unfold_setters. simpl in *.
  unfold get_endpoint. rewrite !Hl. simpl. rewrite Hm. simpl. rewrite Hm'. simpl.
  rewrite Hq. simpl. rewrite Ha. simpl. unfold get_endpoint. rewrite Hl. simpl.
  by rewrite (assoc_del_notin _ _ Hns).
Qed.

Lemma checkpoint_world pending (w : world) : snd (checkpoint pending w) = w.
Proof. by destruct pending. Qed.

(** Every enabled call keeps a world well-formed. *)
Lemma wf_exec w o : wf w -> enabled w o -> wf (exec o w).
Proof.
  intros Hwf Hen. destruct o as
    [self value|self value t pending|self t e|self|self pending
    |self|self t pending|self t e|self|self pending|k]; simpl in *.
  - (* send_nowait *)
    rewrite send_nowait_run by done.
    destruct (_closed (sender w self)); [done|].
    destruct (open_receive_channels (state w) =? 0); [done|].
    destruct (receive_tasks (state w)) as [|t rest] eqn:Hrt.
    + destruct (len_lt _ _) eqn:Hlt; [|done]. by apply wf_append_data.
    + apply wf_unpark; [done|]. right. rewrite Hrt. left.
  - (* send *)
    destruct Hen as [Hlt Hrun]. rewrite send_run. destruct pending; [done|].
    rewrite send_nowait_run by done.
    apply lookup_lt_is_Some_2 in Hlt as [ep Hl].
    unfold sender. rewrite (get_endpoint_lookup _ _ _ Hl).
    destruct (_closed ep) eqn:Hopen; [done|].
    destruct (open_receive_channels (state w) =? 0); [done|].
    destruct (receive_tasks (state w)) as [|t' rest] eqn:Hrt.
    + destruct (len_lt _ _) eqn:Hfull; simpl; [by apply wf_append_data|].
      by eapply wf_park_sender.
    + simpl. apply wf_unpark; [done|]. right. rewrite Hrt. left.
  - (* a parked sender is cancelled *)
    destruct Hen as [Ht Ha]. rewrite send_abort_run by done. simpl.
    apply wf_unpark; [done|by left].
  - (* clone of a send endpoint *)
    unfold MemorySendChannel_clone, MemorySendChannel_create. mrun.
    destruct (_closed (sender w self)); [done|]. simpl. by apply wf_new_sender.
  - (* aclose of a send endpoint *)
    apply lookup_lt_is_Some_2 in Hen as [ep Hl].
    rewrite (send_aclose_run w self pending ep) by done.
    destruct (_closed ep) eqn:Hopen; rewrite checkpoint_world; [done|].
    pose proof (wf_close_sender w self ep Hwf Hl Hopen) as Hwf1.
    destruct (_ =? 0); [|done].
    apply wf_unpark_all; [done| |].
    + by destruct (wf_recv _ Hwf) as (? & _).
    + intros t Ht. by right.
  - (* receive_nowait *)
    rewrite receive_nowait_run by done.
    destruct (_closed (receiver w self)); [done|].
    destruct (send_tasks (state w)) as [|[t value] rest] eqn:Hst.
    + destruct (data (state w)) as [|x xs] eqn:Hd.
      * by destruct (open_send_channels (state w) =? 0).
      * simpl. by apply (wf_pop_data w x xs).
    + simpl. destruct (data (state w) ++ [value]) as [|x xs] eqn:Hd.
      { by destruct (data (state w)). }
      simpl. apply (wf_rotate_data w t value x xs); [done|done|]. left. rewrite Hst. left.
  - (* receive *)
    destruct Hen as [Hlt Hrun]. rewrite receive_run. destruct pending; [done|].
    rewrite receive_nowait_run by done.
    apply lookup_lt_is_Some_2 in Hlt as [ep Hl].
    unfold receiver. rewrite (get_endpoint_lookup _ _ _ Hl).
    destruct (_closed ep) eqn:Hopen; [done|].
    destruct (send_tasks (state w)) as [|[t' value] rest] eqn:Hst.
    + destruct (data (state w)) as [|x xs] eqn:Hd.
      * destruct (open_send_channels (state w) =? 0); simpl; [done|].
        by eapply wf_park_receiver.
      * simpl. by apply (wf_pop_data w x xs).
    + simpl. destruct (data (state w) ++ [value]) as [|x xs] eqn:Hd.
      { by destruct (data (state w)). }
      simpl. apply (wf_rotate_data w t' value x xs); [done|done|]. left. rewrite Hst. left.
  - (* a parked receiver is cancelled *)
    destruct Hen as [Ht Ha]. rewrite receive_abort_run by done. simpl.
    apply wf_unpark; [done|by right].
  - (* clone of a receive endpoint *)
    unfold MemoryReceiveChannel_clone, MemoryReceiveChannel_create. mrun.
    destruct (_closed (receiver w self)); [done|]. simpl. by apply wf_new_receiver.
  - (* aclose of a receive endpoint *)
    apply lookup_lt_is_Some_2 in Hen as [ep Hl].
    rewrite (receive_aclose_run w self pending ep) by done.
    destruct (_closed ep) eqn:Hopen; rewrite checkpoint_world; [done|].
    pose proof (wf_close_receiver w self ep Hwf Hl Hopen) as Hwf1.
    destruct (_ =? 0); [|done].
    assert (wf (unpark_all (Error BrokenResourceError) (send_tasks (state w)).*1
                  (close_receiver self w))) as Hwf2.
    { apply wf_unpark_all; [done| |].
      - by destruct (wf_send _ Hwf) as (? & _).
      - intros t Ht. by left. }
    apply wf_set_data; [done|..].
    + pose proof (wf_len _ Hwf2) as Hlen.
      destruct (max_buffer_size _); simpl in *; [lia|done].
    + done.
    + intros Hne. exfalso. apply Hne.
      rewrite (unpark_all_senders_state _ _ Hwf1). done.
  - (* the scheduler resumes a task *)
    by apply wf_run.
Qed.

(** Every reachable world is well-formed. *)
Lemma reachable_wf w : reachable w -> wf w.
Proof.
  induction 1 as [m sr w Hopen|w o _ IH Hen]; [|by apply wf_exec].
  unfold open_memory_channel in Hopen.
  destruct (py_ne_inf m && negb (py_isinstance_int m)); [done|].
  destruct (py_lt_0 m) eqn:Hlt; [done|].
  unfold MemorySendChannel_create, MemoryReceiveChannel_create in Hopen. mrun.
  injection Hopen as _ <-.
  apply (wf_new_receiver (with_state _ (with_senders _ _))), wf_new_sender, wf_init.
  destruct m as [n| |]; simpl in *; [lia|done|done].
Qed.

(** *** The specification's statements about channels *)


(** C3. On every reachable channel world, [receive_nowait()] on an allocated
    receive endpoint: a closed endpoint raises [ClosedResourceError]; else, if
    a sender is parked, the first-parked sender leaves [send_tasks], is
    rescheduled with [Value(None)], its value goes to the back of the buffer,
    and the front of the buffer is returned (the oldest buffered item when
    there was one); else a non-empty buffer gives its front item; else
    [EndOfChannel] is raised when no send endpoint is open, and [WouldBlock]
    otherwise. *)
Theorem receive_nowait_behaviour (w : world) (self : nat) :
  reachable w -> (self < length (receivers w))%nat ->
  let '(r, w') := receive_nowait self w in
  if _closed (receiver w self) then r = Raise ClosedResourceError ∧ w' = w
  else match send_tasks (state w) with
       | (t, value) :: rest =>
           ∃ x xs, data (state w) ++ [value] = x :: xs ∧ r = Ok x ∧
                   data (state w') = xs ∧
                   send_tasks (state w') = rest ∧
                   runq w' = runq w ++ [(t, ValueNone)] ∧
                   (∀ y ys, data (state w) = y :: ys -> x = y)
       | [] =>
           match data (state w) with
           | x :: xs => r = Ok x ∧ w' = with_state (set_data xs) w
           | [] =>
               if open_send_channels (state w) =? 0
               then r = Raise EndOfChannel ∧ w' = w
               else r = Raise WouldBlock ∧ w' = w
           end
       end.
Proof.
  intros Hreach Hlt. pose proof (reachable_wf w Hreach) as Hwf.
  rewrite receive_nowait_run by done.
  destruct (_closed (receiver w self)); [done|].
  destruct (send_tasks (state w)) as [|[t value] rest] eqn:Hst.
  { destruct (data (state w)); [|done]. by destruct (open_send_channels (state w) =? 0). }
  destruct (wf_send _ Hwf) as (Hnd & _). rewrite Hst in Hnd. csimpl in Hnd.
  apply NoDup_cons in Hnd as [Hnin _].
  simpl. destruct (data (state w) ++ [value]) as [|x xs] eqn:Hd.
  { by destruct (data (state w)). }
  exists x, xs. split; [done|]. split; [done|]. split; [done|]. simpl. rewrite Hst. simpl.
  destruct (decide (t = t)); [|done].
  split; [by apply assoc_del_notin|]. split; [done|].
  intros y ys Hy. rewrite Hy in Hd. simpl in Hd. congruence.
Qed.


Lemma unpark_receiver_senders o w t :
  wf w -> t ∈ receive_tasks (state w) -> senders (unpark t o w) = senders w.
Proof.
  intros Hwf Ht. destruct (wf_parked_receiver w t Hwf Ht) as (i & ep & Ha & _).
  unfold unpark. simpl. by rewrite Ha.
Qed.

Lemma unpark_all_receivers_senders o l : ∀ w,
  wf w -> NoDup l -> (∀ t, t ∈ l -> t ∈ receive_tasks (state w)) ->
  senders (unpark_all o l w) = senders w.
Proof.
  induction l as [|t l IH]; intros w Hwf Hnd Hl; simpl; [done|].
  apply NoDup_cons in Hnd as [Hnin Hnd].
  rewrite IH; [apply unpark_receiver_senders; [done|apply Hl; left]| |done|].
  - apply wf_unpark; [done|]. right. apply Hl. left.
  - intros t' Ht'. simpl. apply elem_of_remove_task. split; [apply Hl; by right|].
    intros ->. done.
Qed.


(** C5. The invariant of the shared state ([data] is empty while
    [receive_tasks] is non-empty; [send_tasks] is empty unless
    [len(data) == max_buffer_size]) holds in the world [open_memory_channel]
    returns and after every call a program can then make: [send_nowait],
    [send], [receive_nowait], [receive], [clone] and [aclose] on either
    endpoint, the cancellation of a parked task, and the resumption of a
    scheduled one. *)
Theorem channel_invariant_preserved (w : world) :
  reachable w ->
  channel_invariant (state w) ∧
  ∀ o, enabled w o -> channel_invariant (state (exec o w)).
Proof.
  intros Hreach. split.
  - apply wf_inv. by apply reachable_wf.
  - intros o Hen. apply wf_inv, wf_exec; [by apply reachable_wf|done].
Qed.

(** C9. [open_memory_channel(max_buffer_size)] raises [TypeError] when the
    argument is neither an [int] nor equal to [math.inf], raises [ValueError]
    on a negative [int], and otherwise returns the handles of one open send
    endpoint and one open receive endpoint on a fresh state: empty buffer, no
    parked task, [open_send_channels == 1] and [open_receive_channels == 1]. *)
Theorem open_memory_channel_spec (max_buffer_size : pyobj) :
  match max_buffer_size with
  | PyOther => open_memory_channel max_buffer_size = Raise TypeError
  | PyInt n =>
      if n <? 0 then open_memory_channel max_buffer_size = Raise ValueError
      else open_memory_channel max_buffer_size
           = Ok ((0%nat, 0%nat),
                 mkWorld (mkState (Finite n) [] 1 1 [] [])
                   [mkEndpoint false []] [mkEndpoint false []] [] [])
  | PyInf =>
      open_memory_channel max_buffer_size
      = Ok ((0%nat, 0%nat),
            mkWorld (mkState Inf [] 1 1 [] [])
              [mkEndpoint false []] [mkEndpoint false []] [] [])
  end.
Proof.
  destruct max_buffer_size as [n| |]; unfold open_memory_channel; simpl; try done.
  by destruct (n <? 0).
Qed.

(** C10, as amended. [aclose] on an already-closed endpoint, sender or
    receiver, changes nothing in the world (endpoint counts, buffer, parked
    tasks, run queue); it only executes a checkpoint, so it returns normally
    unless that checkpoint delivers a pending [Cancelled] or
    [KeyboardInterrupt] to the caller, which is then the exception raised. *)
Theorem aclose_closed_idempotent (w : world) (self : nat) (pending : option exn) :
  (_closed (sender w self) = true ->
   MemorySendChannel_aclose self pending w
   = (match pending with Some e => Raise e | None => Ok tt end, w)) ∧
  (_closed (receiver w self) = true ->
   MemoryReceiveChannel_aclose self pending w
   = (match pending with Some e => Raise e | None => Ok tt end, w)).
Proof.
  split; intros Hc.
  - unfold MemorySendChannel_aclose. mrun. rewrite Hc. by destruct pending.
  - unfold MemoryReceiveChannel_aclose. mrun. rewrite Hc. by destruct pending.
Qed.

(** *** What the calls raise, and what a raising call leaves behind *)

Definition raised_by {A} (r : result A) : option exn :=
  match r with
  | Raise e => Some e
  | _ => None
  end.

(** The exception a call of a run ends with, if it raises. *)
Definition raised (o : op) (w : world) : option exn :=
  match o with
  | OpSendNowait self value => raised_by (fst (send_nowait self value w))
  | OpSend self value t pending => raised_by (fst (send self value t pending w))
  | OpSendAbort self t e => raised_by (fst (_attempt_abort (send_abort_fn self t) t e w))
  | OpSendClone self => raised_by (fst (MemorySendChannel_clone self w))
  | OpSendAclose self pending => raised_by (fst (MemorySendChannel_aclose self pending w))
  | OpReceiveNowait self => raised_by (fst (receive_nowait self w))
  | OpReceive self t pending => raised_by (fst (receive self t pending w))
  | OpReceiveAbort self t e => raised_by (fst (_attempt_abort (receive_abort_fn self t) t e w))
  | OpReceiveClone self => raised_by (fst (MemoryReceiveChannel_clone self w))
  | OpReceiveAclose self pending => raised_by (fst (MemoryReceiveChannel_aclose self pending w))
  | OpRun _ => None
  end.

Lemma checkpoint_run pending (w : world) :
  checkpoint pending w = (match pending with Some e => Raise e | None => Ok tt end, w).
Proof. by destruct pending. Qed.

Lemma enabled_sender_lookup w self :
  (self < length (senders w))%nat -> ∃ ep, senders w !! self = Some ep ∧ sender w self = ep.
Proof.
  intros Hlt. destruct (lookup_lt_is_Some_2 _ _ Hlt) as [ep Hep]. exists ep.
  split; [done|]. unfold sender. by apply get_endpoint_lookup.
Qed.

Lemma enabled_receiver_lookup w self :
  (self < length (receivers w))%nat ->
  ∃ ep, receivers w !! self = Some ep ∧ receiver w self = ep.
Proof.
  intros Hlt. destruct (lookup_lt_is_Some_2 _ _ Hlt) as [ep Hep]. exists ep.
  split; [done|]. unfold receiver. by apply get_endpoint_lookup.
Qed.

Lemma unpark_sender_receivers o w t :
  wf w -> t ∈ (send_tasks (state w)).*1 -> receivers (unpark t o w) = receivers w.
Proof.
  intros Hwf Ht. destruct (wf_parked_sender w t Hwf Ht) as (i & ep & Ha & _).
  unfold unpark. simpl. by rewrite Ha.
Qed.

Lemma unpark_all_senders_receivers o l : ∀ w,
  wf w -> NoDup l -> (∀ t, t ∈ l -> t ∈ (send_tasks (state w)).*1) ->
  receivers (unpark_all o l w) = receivers w.
Proof.
  induction l as [|t l IH]; intros w Hwf Hnd Hl; simpl; [done|].
  apply NoDup_cons in Hnd as [Hnin Hnd].
  rewrite IH; [apply unpark_sender_receivers; [done|apply Hl; left]| |done|].
  - apply wf_unpark; [done|]. left. apply Hl. left.
  - intros t' Ht'. simpl. rewrite fst_assoc_del. apply elem_of_remove_task.
    split; [apply Hl; by right|]. intros ->. done.
Qed.

(** What [send_nowait] and [receive_nowait] raise on a well-formed world. *)
Lemma send_nowait_raised w self value e :
  wf w -> fst (send_nowait self value w) = Raise e ->
  (e = ClosedResourceError ∨ e = BrokenResourceError ∨ e = WouldBlock)
  ∧ snd (send_nowait self value w) = w.
Proof.
  intros Hwf. rewrite send_nowait_run by done.
  destruct (_closed (sender w self)); [simpl; intros [= <-]; auto|].
  destruct (open_receive_channels (state w) =? 0); [simpl; intros [= <-]; auto|].
  destruct (receive_tasks (state w)); [|done].
  destruct (len_lt _ _); [done|]. simpl. intros [= <-]. auto.
Qed.

Lemma receive_nowait_raised w self e :
  wf w -> fst (receive_nowait self w) = Raise e ->
  (e = ClosedResourceError ∨ e = EndOfChannel ∨ e = WouldBlock)
  ∧ snd (receive_nowait self w) = w.
Proof.
  intros Hwf. rewrite receive_nowait_run by done.
  destruct (_closed (receiver w self)); [simpl; intros [= <-]; auto|].
  destruct (send_tasks (state w)) as [|[t value] rest].
  - destruct (data (state w)); [|done].
    destruct (open_send_channels (state w) =? 0); simpl; intros [= <-]; auto.
  - simpl. by destruct (data (state w)).
Qed.

(** No call of a run fails inside the channel: the [assert]s hold, every
    [remove] and [del] finds its key, and each call raises only what its
    checkpoints deliver to the caller or the exception that reports the state
    of the channel; [send] and [receive] park instead of raising
    [WouldBlock], [aclose] raises only what its checkpoint delivers, and the
    abort functions raise nothing. *)
Theorem calls_raise_only_channel_errors (w : world) (o : op) (e : exn) :
  reachable w -> enabled w o -> raised o w = Some e ->
  match o with
  | OpSendNowait _ _ =>
      e = ClosedResourceError ∨ e = BrokenResourceError ∨ e = WouldBlock
  | OpSend _ _ _ pending =>
      pending = Some e
      ∨ (pending = None ∧ (e = ClosedResourceError ∨ e = BrokenResourceError))
  | OpReceiveNowait _ =>
      e = ClosedResourceError ∨ e = EndOfChannel ∨ e = WouldBlock
  | OpReceive _ _ pending =>
      pending = Some e
      ∨ (pending = None ∧ (e = ClosedResourceError ∨ e = EndOfChannel))
  | OpSendClone _ | OpReceiveClone _ => e = ClosedResourceError
  | OpSendAclose _ pending | OpReceiveAclose _ pending => pending = Some e
  | OpSendAbort _ _ _ | OpReceiveAbort _ _ _ | OpRun _ => False
  end.
Proof.
  intros Hreach Hen. pose proof (reachable_wf w Hreach) as Hwf.
  destruct o as [self value|self value t pending|self t e'|self|self pending
                |self|self t pending|self t e'|self|self pending|k]; simpl.
  - destruct (fst (send_nowait self value w)) as [?|e0|] eqn:Hr; try done.
    intros [= ->]. by apply (send_nowait_raised w self value).
  - rewrite send_run. destruct pending as [e0|]; [simpl; intros [= ->]; by left|].
    destruct (send_nowait self value w) as [r w1] eqn:Hrun.
    pose proof (send_nowait_raised w self value) as Hraised. rewrite Hrun in Hraised.
    destruct r as [?|e0|]; try done.
    destruct (decide (e0 = WouldBlock)) as [->|Hne]; [done|].
    simpl. intros [= ->]. right. split; [done|].
    destruct (Hraised e Hwf eq_refl) as [[->| [->| ->]] _]; auto. done.
  - destruct Hen as [Ht Ha]. by rewrite (send_abort_run w self t e' Hwf Ht Ha).
  - unfold MemorySendChannel_clone, MemorySendChannel_create. mrun.
    destruct (_closed (sender w self)); [|done]. simpl. by intros [= ->].
  - destruct (enabled_sender_lookup w self Hen) as (ep & Hep & _).
    rewrite (send_aclose_run w self pending ep Hwf Hep).
    destruct (_closed ep); rewrite checkpoint_run; destruct pending; simpl; congruence.
  - destruct (fst (receive_nowait self w)) as [?|e0|] eqn:Hr; try done.
    intros [= ->]. by apply (receive_nowait_raised w self).
  - rewrite receive_run. destruct pending as [e0|]; [simpl; intros [= ->]; by left|].
    destruct (receive_nowait self w) as [r w1] eqn:Hrun.
    pose proof (receive_nowait_raised w self) as Hraised. rewrite Hrun in Hraised.
    destruct r as [?|e0|]; try done.
    destruct (decide (e0 = WouldBlock)) as [->|Hne]; [done|].
    simpl. intros [= ->]. right. split; [done|].
    destruct (Hraised e Hwf eq_refl) as [[->| [->| ->]] _]; auto. done.
  - destruct Hen as [Ht Ha]. by rewrite (receive_abort_run w self t e' Hwf Ht Ha).
  - unfold MemoryReceiveChannel_clone, MemoryReceiveChannel_create. mrun.
    destruct (_closed (receiver w self)); [|done]. simpl. by intros [= ->].
  - destruct (enabled_receiver_lookup w self Hen) as (ep & Hep & _).
    rewrite (receive_aclose_run w self pending ep Hwf Hep).
    destruct (_closed ep); rewrite checkpoint_run; destruct pending; simpl; congruence.
  - done.
Qed.

(** A call that raises leaves the channel, its endpoints, the parked tasks
    and the run queue exactly as they were, with one exception: [aclose]
    closes its endpoint before its final checkpoint, so the endpoint is
    closed even when that checkpoint raises. *)
Theorem raising_call_changes_nothing (w : world) (o : op) (e : exn) :
  reachable w -> enabled w o -> raised o w = Some e ->
  match o with
  | OpSendAclose self _ => _closed (sender (exec o w) self) = true
  | OpReceiveAclose self _ => _closed (receiver (exec o w) self) = true
  | _ => exec o w = w
  end.
Proof.
  intros Hreach Hen. pose proof (reachable_wf w Hreach) as Hwf.
  destruct o as [self value|self value t pending|self t e'|self|self pending
                |self|self t pending|self t e'|self|self pending|k]; simpl.
  - destruct (fst (send_nowait self value w)) as [?|e0|] eqn:Hr; try done.
    intros _. by apply (send_nowait_raised w self value e0).
  - rewrite send_run. destruct pending as [e0|]; [done|].
    destruct (send_nowait self value w) as [r w1] eqn:Hrun.
    pose proof (send_nowait_raised w self value) as Hraised. rewrite Hrun in Hraised.
    destruct r as [?|e0|]; try done.
    destruct (decide (e0 = WouldBlock)) as [->|Hne]; [done|].
    simpl. intros _. by apply (Hraised e0).
  - destruct Hen as [Ht Ha]. by rewrite (send_abort_run w self t e' Hwf Ht Ha).
  - unfold MemorySendChannel_clone, MemorySendChannel_create. mrun.
    by destruct (_closed (sender w self)).
  - destruct (enabled_sender_lookup w self Hen) as (ep & Hep & Hs).
    rewrite (send_aclose_run w self pending ep Hwf Hep).
    destruct (_closed ep) eqn:Hc; rewrite checkpoint_run; simpl; intros _; [by rewrite Hs|].
    pose proof (wf_close_sender w self ep Hwf Hep Hc) as Hwf1.
    assert (senders (close_sender self w) !! self = Some (mkEndpoint true [])) as Hcl.
    { apply list_lookup_insert_eq. by eapply lookup_lt_Some. }
    destruct (open_send_channels (state w) - 1 =? 0).
    + unfold sender. rewrite unpark_all_receivers_senders; [|done| |done].
      * by rewrite (get_endpoint_lookup _ _ _ Hcl).
      * by destruct (wf_recv _ Hwf1) as (? & _).
    + unfold sender. by rewrite (get_endpoint_lookup _ _ _ Hcl).
  - destruct (fst (receive_nowait self w)) as [?|e0|] eqn:Hr; try done.
    intros _. by apply (receive_nowait_raised w self e0).
  - rewrite receive_run. destruct pending as [e0|]; [done|].
    destruct (receive_nowait self w) as [r w1] eqn:Hrun.
    pose proof (receive_nowait_raised w self) as Hraised. rewrite Hrun in Hraised.
    destruct r as [?|e0|]; try done.
    destruct (decide (e0 = WouldBlock)) as [->|Hne]; [done|].
    simpl. intros _. by apply (Hraised e0).
  - destruct Hen as [Ht Ha]. by rewrite (receive_abort_run w self t e' Hwf Ht Ha).
  - unfold MemoryReceiveChannel_clone, MemoryReceiveChannel_create. mrun.
    by destruct (_closed (receiver w self)).
  - destruct (enabled_receiver_lookup w self Hen) as (ep & Hep & Hs).
    rewrite (receive_aclose_run w self pending ep Hwf Hep).
    destruct (_closed ep) eqn:Hc; rewrite checkpoint_run; simpl; intros _; [by rewrite Hs|].
    pose proof (wf_close_receiver w self ep Hwf Hep Hc) as Hwf1.
    assert (receivers (close_receiver self w) !! self = Some (mkEndpoint true [])) as Hcl.
    { apply list_lookup_insert_eq. by eapply lookup_lt_Some. }
    destruct (open_receive_channels (state w) - 1 =? 0).
    + unfold receiver. simpl. rewrite unpark_all_senders_receivers; [|done| |done].
      * by rewrite (get_endpoint_lookup _ _ _ Hcl).
      * by destruct (wf_send _ Hwf1) as (? & _).
    + unfold receiver. by rewrite (get_endpoint_lookup _ _ _ Hcl).
  - done.
Qed.

(** *** Closing the receive side *)



(** *** When the other side is gone *)

Lemma count_open_zero_iff (eps : list endpoint) :
  count_open eps = 0%nat ↔ ∀ i ep, eps !! i = Some ep -> _closed ep = true.
Proof.
  split.
  - intros Hc i ep Hl. destruct (_closed ep) eqn:Hcl; [done|].
    pose proof (count_open_pos eps i ep Hl Hcl). lia.
  - unfold count_open. induction eps as [|e eps IH]; intros H; [done|].
    rewrite filter_cons. pose proof (H 0%nat e eq_refl) as He.
    destruct (decide (_closed e = false)); [congruence|].
    apply IH. intros i ep Hl. by apply (H (S i)).
Qed.

(** On every reachable channel world, [send_nowait] on an open send endpoint
    raises [BrokenResourceError] exactly when every receive endpoint, the
    original and all its clones, has been closed; [receive_nowait] on an open
    receive endpoint raises [EndOfChannel] exactly when the buffer is empty
    and every send endpoint, the original and all its clones, has been
    closed. *)
Theorem peer_gone_iff_all_clones_closed (w : world) :
  reachable w ->
  (∀ self value,
     fst (send_nowait self value w) = Raise BrokenResourceError
     ↔ _closed (sender w self) = false
       ∧ ∀ i ep, receivers w !! i = Some ep -> _closed ep = true) ∧
  (∀ self,
     fst (receive_nowait self w) = Raise EndOfChannel
     ↔ _closed (receiver w self) = false ∧ data (state w) = []
       ∧ ∀ i ep, senders w !! i = Some ep -> _closed ep = true).
Proof.
  intros Hreach. pose proof (reachable_wf w Hreach) as Hwf.
  split.
  - intros self value. rewrite send_nowait_run by done. rewrite <- count_open_zero_iff.
    rewrite (wf_open_receive _ Hwf).
    destruct (_closed (sender w self)); [simpl; split; [done|by intros [? _]]|].
    destruct (Z.of_nat (count_open (receivers w)) =? 0) eqn:Hz.
    + apply Z.eqb_eq in Hz. simpl. split; [intros _; split; [done|lia]|done].
    + apply Z.eqb_neq in Hz.
      destruct (receive_tasks (state w)); [destruct (len_lt _ _)|]; simpl;
        (split; [done|intros [_ ?]; lia]).
  - intros self. rewrite receive_nowait_run by done. rewrite <- count_open_zero_iff.
    destruct (_closed (receiver w self)); [simpl; split; [done|by intros [? _]]|].
    destruct (send_tasks (state w)) as [|[t value] rest] eqn:Hst.
    + destruct (data (state w)) as [|x xs]; [|simpl; split; [done|by intros (_ & ? & _)]].
      rewrite (wf_open_send _ Hwf).
      destruct (Z.of_nat (count_open (senders w)) =? 0) eqn:Hz.
      * apply Z.eqb_eq in Hz. simpl. split; [intros _; split; [done|split; [done|lia]]|done].
      * apply Z.eqb_neq in Hz. simpl. split; [done|intros (_ & _ & ?); lia].
    + simpl. destruct (data (state w) ++ [value]) as [|x xs] eqn:Hd.
      { by destruct (data (state w)). }
      simpl. split; [done|]. intros (_ & _ & Hc).
      pose proof (side_wf_no_open SendEp (senders w) _ (custom_sleep_data w) SendEp_inj
                    (wf_send _ Hwf) Hc) as Hnone.
      rewrite Hst in Hnone. done.
Qed.

(** *** Parking in [send] and [receive] *)

Lemma running_not_in_tasks w t :
  wf w -> running w t ->
  (∀ i ep, senders w !! i = Some ep -> t ∉ _tasks ep) ∧
  (∀ i ep, receivers w !! i = Some ep -> t ∉ _tasks ep).
Proof.
  intros Hwf (Hs & Hr & _). split; intros i ep Hl Hin.
  - destruct (wf_send _ Hwf) as (_ & _ & Hep). destruct (Hep i ep Hl) as (_ & _ & Hk).
    by destruct (Hk t Hin).
  - destruct (wf_recv _ Hwf) as (_ & _ & Hep). destruct (Hep i ep Hl) as (_ & _ & Hk).
    by destruct (Hk t Hin).
Qed.

Lemma count_open_pos_inv (eps : list endpoint) :
  (0 < count_open eps)%nat -> ∃ i ep, eps !! i = Some ep ∧ _closed ep = false.
Proof.
  unfold count_open. induction eps as [|e eps IH]; simpl; [lia|].
  rewrite filter_cons. destruct (decide (_closed e = false)) as [Hc|Hc].
  - intros _. by exists 0%nat, e.
  - intros H. destruct (IH H) as (i & ep & Hl & Hcl). by exists (S i), ep.
Qed.

Lemma open_receivers_pos w :
  wf w -> (open_receive_channels (state w) =? 0) = false
          ↔ ∃ i ep, receivers w !! i = Some ep ∧ _closed ep = false.
Proof.
  intros Hwf. rewrite (wf_open_receive _ Hwf). split.
  - intros Hz. apply Z.eqb_neq in Hz. apply count_open_pos_inv. lia.
  - intros (i & ep & Hl & Hcl). pose proof (count_open_pos _ _ _ Hl Hcl).
    apply Z.eqb_neq. lia.
Qed.

Lemma open_senders_pos w :
  wf w -> (open_send_channels (state w) =? 0) = false
          ↔ ∃ i ep, senders w !! i = Some ep ∧ _closed ep = false.
Proof.
  intros Hwf. rewrite (wf_open_send _ Hwf). split.
  - intros Hz. apply Z.eqb_neq in Hz. apply count_open_pos_inv. lia.
  - intros (i & ep & Hl & Hcl). pose proof (count_open_pos _ _ _ Hl Hcl).
    apply Z.eqb_neq. lia.
Qed.

Lemma open_endpoint_allocated (eps : list endpoint) (i : nat) :
  _closed (get_endpoint eps i) = false -> eps !! i = Some (get_endpoint eps i).
Proof. unfold get_endpoint. by destruct (eps !! i). Qed.

(** When [send_nowait] would block, and when [receive_nowait] would. *)
Lemma send_nowait_would_block w self value :
  wf w ->
  fst (send_nowait self value w) = Raise WouldBlock
  ↔ _closed (sender w self) = false
    ∧ (∃ i ep, receivers w !! i = Some ep ∧ _closed ep = false)
    ∧ receive_tasks (state w) = []
    ∧ max_buffer_size (state w) = Finite (Z.of_nat (length (data (state w)))).
Proof.
  intros Hwf. rewrite send_nowait_run by done. rewrite <- (open_receivers_pos w Hwf).
  destruct (_closed (sender w self)); [simpl; split; [done|by intros [? _]]|].
  destruct (open_receive_channels (state w) =? 0);
    [simpl; split; [done|by intros (_ & ? & _)]|].
  destruct (receive_tasks (state w)); [|simpl; split; [done|by intros (_ & _ & ? & _)]].
  destruct (len_lt _ _) eqn:Hlt; simpl.
  - split; [done|]. intros (_ & _ & _ & Hm). rewrite Hm in Hlt. simpl in Hlt. lia.
  - split; [|done]. intros _. split; [done|]. split; [done|]. split; [done|].
    apply len_full; [apply (wf_len _ Hwf)|done].
Qed.

Lemma receive_nowait_would_block w self :
  wf w ->
  fst (receive_nowait self w) = Raise WouldBlock
  ↔ _closed (receiver w self) = false
    ∧ (∃ i ep, senders w !! i = Some ep ∧ _closed ep = false)
    ∧ send_tasks (state w) = []
    ∧ data (state w) = [].
Proof.
  intros Hwf. rewrite receive_nowait_run by done. rewrite <- (open_senders_pos w Hwf).
  destruct (_closed (receiver w self)); [simpl; split; [done|by intros [? _]]|].
  destruct (send_tasks (state w)) as [|[t value] rest].
  - destruct (data (state w)); [|simpl; split; [done|by intros (_ & _ & _ & ?)]].
    destruct (open_send_channels (state w) =? 0); simpl.
    + split; [done|by intros (_ & ? & _)].
    + split; [|done]. by intros _.
  - simpl. destruct (data (state w) ++ [value]) eqn:Hd; [by destruct (data (state w))|].
    simpl. split; [done|by intros (_ & _ & ? & _)].
Qed.

(** On every reachable channel world, [send] by a running task with no
    cancellation pending parks the task exactly when its endpoint is open,
    some receive endpoint is open, no receiver is parked and the buffer holds
    [max_buffer_size] items. The task then joins the back of [send_tasks]
    with its value and the endpoint's own [_tasks], its [custom_sleep_data]
    names the endpoint, and the buffer and the run queue are untouched. *)
Theorem send_parks_exactly_when_full (w : world) (self : nat) (value : V) (t : task) :
  reachable w -> running w t ->
  let '(r, w') := send self value t None w in
  (r = Ok Parked
   ↔ _closed (sender w self) = false
     ∧ (∃ i ep, receivers w !! i = Some ep ∧ _closed ep = false)
     ∧ receive_tasks (state w) = []
     ∧ max_buffer_size (state w) = Finite (Z.of_nat (length (data (state w))))) ∧
  (r = Ok Parked ->
   send_tasks (state w') = send_tasks (state w) ++ [(t, value)] ∧
   data (state w') = data (state w) ∧
   _tasks (sender w' self) = _tasks (sender w self) ++ [t] ∧
   assoc t (custom_sleep_data w') = Some (SendEp self) ∧
   runq w' = runq w).
Proof.
  intros Hreach Hrun. pose proof (reachable_wf w Hreach) as Hwf.
  rewrite send_run.
  pose proof (send_nowait_raised w self value) as Hraised.
  pose proof (send_nowait_would_block w self value Hwf) as Hwb.
  destruct (send_nowait self value w) as [r1 w1] eqn:Hsn. simpl in *.
  destruct r1 as [[]|e|].
  { split; [|done]. split; [done|]. intros Hc. by apply Hwb in Hc. }
  2:{ split; [|done]. split; [done|]. intros Hc. by apply Hwb in Hc. }
  destruct (Hraised e Hwf eq_refl) as [_ ->].
  destruct (decide (e = WouldBlock)) as [->|Hne].
  2:{ split; [|done]. split; [done|]. intros Hc. apply Hwb in Hc. congruence. }
  split; [split; [intros _; by apply Hwb|done]|]. intros _.
  destruct (proj1 Hwb eq_refl) as (Hopen & _).
  pose proof (open_endpoint_allocated _ _ Hopen) as Hl.
  destruct Hrun as (Hs & Hr & Hq).
  destruct (running_not_in_tasks w t Hwf (conj Hs (conj Hr Hq))) as [Hnt _].
  unfold park_sender. simpl. split; [by apply assoc_set_fresh|]. split; [done|].
  split; [|split; [|done]].
  - unfold sender at 1. simpl. rewrite get_endpoint_insert_eq by (by eapply lookup_lt_Some).
    simpl. apply add_task_fresh. by eapply Hnt.
  - rewrite assoc_assoc_set. by destruct (decide (t = t)).
Qed.

(** On every reachable channel world, [receive] by a running task with no
    cancellation pending parks the task exactly when its endpoint is open,
    some send endpoint is open, no sender is parked and the buffer is empty.
    The task then joins the back of [receive_tasks] and the endpoint's own
    [_tasks], its [custom_sleep_data] names the endpoint, and the run queue
    is untouched. *)
Theorem receive_parks_exactly_when_empty (w : world) (self : nat) (t : task) :
  reachable w -> running w t ->
  let '(r, w') := receive self t None w in
  (r = Ok Parked
   ↔ _closed (receiver w self) = false
     ∧ (∃ i ep, senders w !! i = Some ep ∧ _closed ep = false)
     ∧ send_tasks (state w) = []
     ∧ data (state w) = []) ∧
  (r = Ok Parked ->
   receive_tasks (state w') = receive_tasks (state w) ++ [t] ∧
   data (state w') = [] ∧
   _tasks (receiver w' self) = _tasks (receiver w self) ++ [t] ∧
   assoc t (custom_sleep_data w') = Some (RecvEp self) ∧
   runq w' = runq w).
Proof.
  intros Hreach Hrun. pose proof (reachable_wf w Hreach) as Hwf.
  rewrite receive_run.
  pose proof (receive_nowait_raised w self) as Hraised.
  pose proof (receive_nowait_would_block w self Hwf) as Hwb.
  destruct (receive_nowait self w) as [r1 w1] eqn:Hsn. simpl in *.
  destruct r1 as [v|e|].
  { split; [|done]. split; [done|]. intros Hc. by apply Hwb in Hc. }
  2:{ split; [|done]. split; [done|]. intros Hc. by apply Hwb in Hc. }
  destruct (Hraised e Hwf eq_refl) as [_ ->].
  destruct (decide (e = WouldBlock)) as [->|Hne].
  2:{ split; [|done]. split; [done|]. intros Hc. apply Hwb in Hc. congruence. }
  split; [split; [intros _; by apply Hwb|done]|]. intros _.
  destruct (proj1 Hwb eq_refl) as (Hopen & _ & _ & Hd).
  pose proof (open_endpoint_allocated _ _ Hopen) as Hl.
  destruct Hrun as (Hs & Hr & Hq).
  destruct (running_not_in_tasks w t Hwf (conj Hs (conj Hr Hq))) as [_ Hnt].
  unfold park_receiver. simpl. split; [by apply add_task_fresh|]. split; [done|].
  split; [|split; [|done]].
  - unfold receiver at 1. simpl. rewrite get_endpoint_insert_eq by (by eapply lookup_lt_Some).
    simpl. apply add_task_fresh. by eapply Hnt.
  - rewrite assoc_assoc_set. by destruct (decide (t = t)).
Qed.

(** *** Cancelling a parked task *)

Lemma assoc_del_app_fresh {A} (t : task) (a : A) (d : list (task * A)) :
  t ∉ d.*1 -> assoc_del t (d ++ [(t, a)]) = d.
Proof.
  induction d as [|[k b] d IH]; simpl.
  - intros _. by destruct (decide (t = t)).
  - intros H. apply not_elem_of_cons in H as [Hne Hd]. simpl in Hne.
    destruct (decide (k = t)); [congruence|]. by rewrite IH.
Qed.

Lemma remove_task_app_fresh (t : task) (l : list task) :
  t ∉ l -> remove_task t (l ++ [t]) = l.
Proof.
  intros H. rewrite remove_task_app, remove_task_notin by done. simpl.
  destruct (decide (t = t)); [|done]. apply app_nil_r.
Qed.

(** A task parked by [send] or [receive] and then cancelled (or interrupted)
    leaves no trace: its abort function succeeds, and the shared state, with
    the buffer and both queues of parked tasks, and every endpoint are again
    what they were before the call; the value of a cancelled [send] is never
    delivered. The task has no [custom_sleep_data] and is scheduled with the
    exception. *)
Theorem cancelled_wait_leaves_no_trace (w : world) (self : nat) (t : task) (e : exn) :
  reachable w -> running w t ->
  (∀ value w1, send self value t None w = (Ok Parked, w1) ->
     ∃ w2, _attempt_abort (send_abort_fn self t) t e w1 = (Ok tt, w2) ∧
           state w2 = state w ∧ senders w2 = senders w ∧ receivers w2 = receivers w ∧
           assoc t (custom_sleep_data w2) = None ∧
           runq w2 = runq w ++ [(t, Error e)]) ∧
  (∀ w1, receive self t None w = (Ok Parked, w1) ->
     ∃ w2, _attempt_abort (receive_abort_fn self t) t e w1 = (Ok tt, w2) ∧
           state w2 = state w ∧ senders w2 = senders w ∧ receivers w2 = receivers w ∧
           assoc t (custom_sleep_data w2) = None ∧
           runq w2 = runq w ++ [(t, Error e)]).
Proof.
  intros Hreach Hrun. pose proof (reachable_wf w Hreach) as Hwf.
  destruct (running_not_in_tasks w t Hwf Hrun) as [Hns Hnr].
  pose proof Hrun as (Hs & Hr & Hq).
  split.
  - intros value w1 Hsend.
    pose proof (send_nowait_would_block w self value Hwf) as Hwb.
    pose proof (send_nowait_raised w self value) as Hraised.
    assert (w1 = park_sender self value t w ∧ _closed (sender w self) = false)
      as [-> Hopen].
    { rewrite send_run in Hsend. destruct (send_nowait self value w) as [r1 w0] eqn:Hsn.
      simpl in *. destruct r1 as [[]|e0|]; try done.
      destruct (Hraised e0 Hwf eq_refl) as [_ ->].
      destruct (decide (e0 = WouldBlock)) as [->|?]; [|done].
      injection Hsend as <-. split; [done|]. by destruct (proj1 Hwb eq_refl). }
    pose proof (open_endpoint_allocated _ _ Hopen) as Hl.
    assert (Hlt : (self < length (senders w))%nat) by (by eapply lookup_lt_Some).
    assert (wf (park_sender self value t w)) as Hwf1.
    { pose proof (wf_exec w (OpSend self value t None) Hwf (conj Hlt Hrun)) as H.
      simpl in H. by rewrite Hsend in H. }
    assert (assoc t (custom_sleep_data (park_sender self value t w)) = Some (SendEp self))
      as Ha.
    { unfold park_sender. simpl. rewrite assoc_assoc_set. by destruct (decide (t = t)). }
    assert (send_tasks (state (park_sender self value t w)) = send_tasks (state w) ++ [(t, value)])
      as Hst by (unfold park_sender; simpl; by apply assoc_set_fresh).
    eexists. split.
    { apply send_abort_run; [done| |done]. rewrite Hst, fmap_app. apply elem_of_app.
      right. left. }
    unfold unpark. rewrite Ha, Hst. simpl.
    split; [|split; [|split; [done|split; [|done]]]].
    + apply state_ext; simpl; try done.
      * by apply assoc_del_app_fresh.
      * by apply remove_task_notin.
    + rewrite get_endpoint_insert_eq by done. rewrite list_insert_insert_eq.
      apply list_insert_id. rewrite Hl. f_equal. simpl.
      rewrite add_task_fresh by (by eapply Hns).
      rewrite remove_task_app_fresh by (by eapply Hns).
      by destruct (get_endpoint (senders w) self).
    + rewrite assoc_assoc_del. by destruct (decide (t = t)).
  - intros w1 Hrecv.
    pose proof (receive_nowait_would_block w self Hwf) as Hwb.
    pose proof (receive_nowait_raised w self) as Hraised.
    assert (w1 = park_receiver self t w ∧ _closed (receiver w self) = false)
      as [-> Hopen].
    { rewrite receive_run in Hrecv. destruct (receive_nowait self w) as [r1 w0] eqn:Hsn.
      simpl in *. destruct r1 as [v|e0|]; try done.
      destruct (Hraised e0 Hwf eq_refl) as [_ ->].
      destruct (decide (e0 = WouldBlock)) as [->|?]; [|done].
      injection Hrecv as <-. split; [done|]. by destruct (proj1 Hwb eq_refl). }
    pose proof (open_endpoint_allocated _ _ Hopen) as Hl.
    assert (Hlt : (self < length (receivers w))%nat) by (by eapply lookup_lt_Some).
    assert (wf (park_receiver self t w)) as Hwf1.
    { pose proof (wf_exec w (OpReceive self t None) Hwf (conj Hlt Hrun)) as H.
      simpl in H. by rewrite Hrecv in H. }
    assert (assoc t (custom_sleep_data (park_receiver self t w)) = Some (RecvEp self))
      as Ha.
    { unfold park_receiver. simpl. rewrite assoc_assoc_set. by destruct (decide (t = t)). }
    assert (receive_tasks (state (park_receiver self t w)) = receive_tasks (state w) ++ [t])
      as Hst by (unfold park_receiver; simpl; by apply add_task_fresh).
    eexists. split.
    { apply receive_abort_run; [done| |done]. rewrite Hst. apply elem_of_app. right. left. }
    unfold unpark. rewrite Ha, Hst. simpl.
    split; [|split; [done|split; [|split; [|done]]]].
    + apply state_ext; simpl; try done.
      * apply assoc_del_notin. done.
      * by apply remove_task_app_fresh.
    + rewrite get_endpoint_insert_eq by done. rewrite list_insert_insert_eq.
      apply list_insert_id. rewrite Hl. f_equal. simpl.
      rewrite add_task_fresh by (by eapply Hnr).
      rewrite remove_task_app_fresh by (by eapply Hnr).
      by destruct (get_endpoint (receivers w) self).
    + rewrite assoc_assoc_del. by destruct (decide (t = t)).
Qed.

(** *** The buffer is a queue *)

(** [[receive_nowait() for _ in range(n)]] *)
Fixpoint receive_n (self : nat) (n : nat) : M world (list V) :=
  match n with
  | O => ret []
  | S n' => (x <- receive_nowait self;; xs <- receive_n self n';; ret (x :: xs))%monad
  end.

Lemma with_state_with_state f g (w : world) :
  with_state f (with_state g w) = with_state (fun st => f (g st)) w.
Proof. done. Qed.

Lemma with_state_ext f g (w : world) :
  f (state w) = g (state w) -> with_state f w = with_state g w.
Proof. unfold with_state. by intros ->. Qed.

Lemma send_nowait_all self : ∀ (vs : list V) w,
  _closed (sender w self) = false ->
  (open_receive_channels (state w) =? 0) = false ->
  receive_tasks (state w) = [] ->
  len_le (length (data (state w)) + length vs) (max_buffer_size (state w)) ->
  for_each vs (send_nowait self) w
  = (Ok tt, with_state (set_data (data (state w) ++ vs)) w).
Proof.
  induction vs as [|v vs IH]; intros w Hopen Horc Hrt Hlen; simpl.
  - rewrite app_nil_r. unfold ret. f_equal. by destruct w as [[] ? ? ? ?].
  - unfold bind at 1.
    assert (send_nowait self v w = (Ok tt, with_state (set_data (data (state w) ++ [v])) w))
      as ->.
    { unfold send_nowait. mrun. rewrite Hopen, Horc, Hrt.
      assert (len_lt (length (data (state w))) (max_buffer_size (state w)) = true) as ->;
        [|done].
      destruct (max_buffer_size (state w)); simpl in *; [|done]. lia. }
    rewrite IH; simpl; try done.
    + rewrite with_state_with_state. f_equal. apply with_state_ext. simpl.
      unfold set_data. simpl. by rewrite <- app_assoc.
    + rewrite length_app. simpl.
      destruct (max_buffer_size (state w)); simpl in *; [|done]. lia.
Qed.

Lemma receive_nowait_all self : ∀ (d : list V) w,
  _closed (receiver w self) = false ->
  send_tasks (state w) = [] ->
  data (state w) = d ->
  receive_n self (length d) w = (Ok d, with_state (set_data []) w).
Proof.
  induction d as [|x xs IH]; intros w Hopen Hst Hd; simpl.
  - unfold ret. f_equal. destruct w as [[] ? ? ? ?]. simpl in *. by subst.
  - unfold bind at 1.
    assert (receive_nowait self w = (Ok x, with_state (set_data xs) w)) as ->.
    { unfold receive_nowait. mrun. by rewrite Hopen, Hst, Hd. }
    unfold bind at 1. rewrite (IH (with_state (set_data xs) w)); try done.
Qed.

(** The buffer is first-in, first-out. On a reachable channel world with no
    parked task, sending the values [vs] with [send_nowait] on an open send
    endpoint, while the buffer has room for them, and then calling
    [receive_nowait] on an open receive endpoint once for every buffered item
    returns the items that were already buffered followed by [vs], in the
    order sent, and leaves the channel as it was but with an empty buffer. *)
Theorem buffer_is_first_in_first_out (w : world) (s r : nat) (vs : list V) :
  reachable w ->
  _closed (sender w s) = false -> _closed (receiver w r) = false ->
  send_tasks (state w) = [] -> receive_tasks (state w) = [] ->
  len_le (length (data (state w)) + length vs) (max_buffer_size (state w)) ->
  (for_each vs (send_nowait s);;;
   receive_n r (length (data (state w)) + length vs))%monad w
  = (Ok (data (state w) ++ vs), with_state (set_data []) w).
Proof.
  intros Hreach Hs Hr Hst Hrt Hlen. pose proof (reachable_wf w Hreach) as Hwf.
  unfold bind. rewrite send_nowait_all; try done.
  - rewrite <- length_app.
    rewrite (receive_nowait_all r (data (state w) ++ vs)); try done.
  - apply open_receivers_pos; [done|].
    exists r, (get_endpoint (receivers w) r). split; [|done].
    by apply open_endpoint_allocated.
Qed.

(** *** Who closes an endpoint *)

(** Two worlds whose endpoints are as open or closed as each other's. *)
Definition same_closed (w w' : world) : Prop :=
  (∀ i, _closed (sender w' i) = _closed (sender w i)) ∧
  (∀ i, _closed (receiver w' i) = _closed (receiver w i)).

Lemma same_closed_refl w : same_closed w w.
Proof. by split. Qed.

Lemma same_closed_trans w1 w2 w3 :
  same_closed w1 w2 -> same_closed w2 w3 -> same_closed w1 w3.
Proof. intros [H1 H2] [H3 H4]. split; intros i; congruence. Qed.

Lemma closed_get_endpoint_insert (eps : list endpoint) (j i : nat) (f : endpoint -> endpoint) :
  (∀ e, _closed (f e) = _closed e) ->
  _closed (get_endpoint (<[j := f (get_endpoint eps j)]> eps) i) = _closed (get_endpoint eps i).
Proof.
  intros Hf. destruct (decide (i = j)) as [->|Hne].
  - destruct (decide (j < length eps)%nat) as [Hlt|Hge].
    + by rewrite get_endpoint_insert_eq.
    + by rewrite list_insert_ge by lia.
  - unfold get_endpoint. by rewrite list_lookup_insert_ne.
Qed.

Lemma same_closed_update_endpoint r f w :
  (∀ e, _closed (f e) = _closed e) -> same_closed w (update_endpoint r f w).
Proof.
  intros Hf. destruct r as [j|j]; split; intros i; simpl; try done;
    unfold sender, receiver; simpl; by apply closed_get_endpoint_insert.
Qed.

Lemma same_closed_endpoints w w' :
  senders w' = senders w -> receivers w' = receivers w -> same_closed w w'.
Proof. intros Hs Hr. split; intros i; unfold sender, receiver; by rewrite ?Hs, ?Hr. Qed.

Lemma same_closed_unpark t o w : same_closed w (unpark t o w).
Proof.
  unfold unpark. destruct (assoc t (custom_sleep_data w)) as [r|]; [|by split].
  eapply same_closed_trans;
    [by apply (same_closed_update_endpoint r
                 (fun e => set_tasks (remove_task t (_tasks e)) e))|].
  by apply same_closed_endpoints.
Qed.

Lemma same_closed_unpark_all o l : ∀ w, same_closed w (unpark_all o l w).
Proof.
  induction l as [|t l IH]; intros w; simpl; [apply same_closed_refl|].
  eapply same_closed_trans; [apply (same_closed_unpark t o)|apply IH].
Qed.

Lemma same_closed_park_sender self value t w : same_closed w (park_sender self value t w).
Proof.
  eapply same_closed_trans;
    [by apply (same_closed_update_endpoint (SendEp self)
                 (fun e => set_tasks (add_task t (_tasks e)) e))|].
  by apply same_closed_endpoints.
Qed.

Lemma same_closed_park_receiver self t w : same_closed w (park_receiver self t w).
Proof.
  eapply same_closed_trans;
    [by apply (same_closed_update_endpoint (RecvEp self)
                 (fun e => set_tasks (add_task t (_tasks e)) e))|].
  by apply same_closed_endpoints.
Qed.

Lemma same_closed_send_nowait w self value :
  wf w -> same_closed w (snd (send_nowait self value w)).
Proof.
  intros Hwf. rewrite send_nowait_run by done.
  destruct (_closed (sender w self)); [apply same_closed_refl|].
  destruct (open_receive_channels (state w) =? 0); [apply same_closed_refl|].
  destruct (receive_tasks (state w)); [|apply same_closed_unpark].
  destruct (len_lt _ _); [by apply same_closed_endpoints|apply same_closed_refl].
Qed.

Lemma same_closed_receive_nowait w self :
  wf w -> same_closed w (snd (receive_nowait self w)).
Proof.
  intros Hwf. rewrite receive_nowait_run by done.
  destruct (_closed (receiver w self)); [apply same_closed_refl|].
  destruct (send_tasks (state w)) as [|[t value] rest].
  - destruct (data (state w)); [|by apply same_closed_endpoints].
    destruct (open_send_channels (state w) =? 0); apply same_closed_refl.
  - simpl. eapply same_closed_trans; [apply (same_closed_unpark t ValueNone)|].
    destruct (data (state w) ++ [value]); by apply same_closed_endpoints.
Qed.

(** An endpoint is closed by its own [aclose] and by nothing else: after any
    call of a run, an endpoint that exists is closed exactly if it was closed
    before or the call was [aclose] on that very endpoint. Closing a clone
    does not close the endpoint it was cloned from, a closed endpoint never
    reopens, and no call closes an endpoint of the other side. *)
Theorem endpoint_closed_only_by_its_aclose (w : world) (o : op) :
  reachable w -> enabled w o ->
  (∀ i, (i < length (senders w))%nat ->
     _closed (sender (exec o w) i)
     = _closed (sender w i)
       || match o with OpSendAclose self _ => bool_decide (self = i) | _ => false end) ∧
  (∀ i, (i < length (receivers w))%nat ->
     _closed (receiver (exec o w) i)
     = _closed (receiver w i)
       || match o with OpReceiveAclose self _ => bool_decide (self = i) | _ => false end).
Proof.
  intros Hreach Hen. pose proof (reachable_wf w Hreach) as Hwf.
  assert (∀ w', same_closed w w' ->
    (∀ i, _closed (sender w' i) = _closed (sender w i) || false) ∧
    (∀ i, _closed (receiver w' i) = _closed (receiver w i) || false)) as Hsame.
  { intros w' [H1 H2]. split; intros i; by rewrite orb_false_r. }
  destruct o as [self value|self value t pending|self t e'|self|self pending
                |self|self t pending|self t e'|self|self pending|k]; simpl.
  - destruct (Hsame _ (same_closed_send_nowait w self value Hwf)). split; auto.
  - enough (same_closed w (snd (send self value t pending w))) as H
      by (destruct (Hsame _ H); split; auto).
    rewrite send_run. destruct pending; [apply same_closed_refl|].
    pose proof (same_closed_send_nowait w self value Hwf) as H.
    destruct (send_nowait self value w) as [[[]|e0|] w0]; simpl in *; try done.
    destruct (decide (e0 = WouldBlock)); [|done]. simpl.
    eapply same_closed_trans; [done|apply same_closed_park_sender].
  - destruct Hen as [Ht Ha]. rewrite (send_abort_run w self t e' Hwf Ht Ha). simpl.
    destruct (Hsame _ (same_closed_unpark t (Error e') w)). split; auto.
  - unfold MemorySendChannel_clone, MemorySendChannel_create. mrun.
    destruct (_closed (sender w self)); simpl.
    + destruct (Hsame _ (same_closed_refl w)). split; auto.
    + split; intros i Hi; rewrite orb_false_r; [|done].
      unfold sender, get_endpoint. simpl. by rewrite lookup_app_l.
  - destruct (enabled_sender_lookup w self Hen) as (ep & Hep & Hs).
    rewrite (send_aclose_run w self pending ep Hwf Hep). rewrite checkpoint_run.
    destruct (_closed ep) eqn:Hc; rewrite ?checkpoint_run; simpl.
    { split; intros i Hi; [|by rewrite orb_false_r].
      case_bool_decide as Hi'; [subst i; by rewrite Hs, Hc|by rewrite orb_false_r]. }
    assert (same_closed (close_sender self w)
              (if open_send_channels (state w) - 1 =? 0
               then unpark_all (Error EndOfChannel) (receive_tasks (state w))
                      (close_sender self w)
               else close_sender self w)) as [H1 H2].
    { destruct (_ =? 0); [apply same_closed_unpark_all|apply same_closed_refl]. }
    split; intros i Hi.
    + rewrite H1. unfold sender, close_sender. simpl.
      case_bool_decide as Hi'.
      * subst i. rewrite get_endpoint_insert_eq by done. by rewrite orb_true_r.
      * unfold get_endpoint. rewrite list_lookup_insert_ne by done. by rewrite orb_false_r.
    + rewrite H2. by rewrite orb_false_r.
  - destruct (Hsame _ (same_closed_receive_nowait w self Hwf)). split; auto.
  - enough (same_closed w (snd (receive self t pending w))) as H
      by (destruct (Hsame _ H); split; auto).
    rewrite receive_run. destruct pending; [apply same_closed_refl|].
    pose proof (same_closed_receive_nowait w self Hwf) as H.
    destruct (receive_nowait self w) as [[v|e0|] w0]; simpl in *; try done.
    destruct (decide (e0 = WouldBlock)); [|done]. simpl.
    eapply same_closed_trans; [done|apply same_closed_park_receiver].
  - destruct Hen as [Ht Ha]. rewrite (receive_abort_run w self t e' Hwf Ht Ha). simpl.
    destruct (Hsame _ (same_closed_unpark t (Error e') w)). split; auto.
  - unfold MemoryReceiveChannel_clone, MemoryReceiveChannel_create. mrun.
    destruct (_closed (receiver w self)); simpl.
    + destruct (Hsame _ (same_closed_refl w)). split; auto.
    + split; intros i Hi; rewrite orb_false_r; [done|].
      unfold receiver, get_endpoint. simpl. by rewrite lookup_app_l.
  - destruct (enabled_receiver_lookup w self Hen) as (ep & Hep & Hs).
    rewrite (receive_aclose_run w self pending ep Hwf Hep).
    destruct (_closed ep) eqn:Hc; rewrite ?checkpoint_run; simpl.
    { split; intros i Hi; [by rewrite orb_false_r|].
      case_bool_decide as Hi'; [subst i; by rewrite Hs, Hc|by rewrite orb_false_r]. }
    assert (same_closed (close_receiver self w)
              (if open_receive_channels (state w) - 1 =? 0
               then with_state (set_data [])
                      (unpark_all (Error BrokenResourceError) (send_tasks (state w)).*1
                         (close_receiver self w))
               else close_receiver self w)) as [H1 H2].
    { destruct (_ =? 0); [|apply same_closed_refl].
      eapply same_closed_trans; [apply same_closed_unpark_all|by apply same_closed_endpoints]. }
    split; intros i Hi.
    + rewrite H1. by rewrite orb_false_r.
    + rewrite H2. unfold receiver, close_receiver. simpl.
      case_bool_decide as Hi'.
      * subst i. rewrite get_endpoint_insert_eq by done. by rewrite orb_true_r.
      * unfold get_endpoint. rewrite list_lookup_insert_ne by done. by rewrite orb_false_r.
  - split; intros i Hi; by rewrite orb_false_r.
Qed.
End WithValue.

(** *** Concrete runs, with integers as the values sent *)

Ltac solve_not_parked := apply mem_false_iff; reflexivity.

(** A rendezvous channel ([max_buffer_size = 0]) and a channel with a buffer
    of one. *)
Definition rendezvous : world (V := Z) :=
  mkWorld (mkState (Finite 0) [] 1 1 [] []) [mkEndpoint false []] [mkEndpoint false []] [] [].
Definition buffered : world (V := Z) :=
  mkWorld (mkState (Finite 1) [] 1 1 [] []) [mkEndpoint false []] [mkEndpoint false []] [] [].

(** Task 7 is parked in [receive] on the rendezvous channel. *)
Definition receiver_parked : world (V := Z) := exec (OpReceive 0 7%nat None) rendezvous.

(** The buffer holds 42 and task 6 is parked in [send] with 43. *)
Definition sender_parked : world (V := Z) :=
  exec (OpSend 0 43 6%nat None) (exec (OpSendNowait 0 42) buffered).

(** The send endpoint was cloned, task 7 parked in [receive], and the original
    send endpoint closed: the clone is the last open send endpoint. *)
Definition last_sender : world (V := Z) :=
  exec (OpSendAclose 0 None) (exec (OpReceive 0 7%nat None) (exec (OpSendClone 0) rendezvous)).

(** The only send endpoint has been closed. *)
Definition sender_closed : world (V := Z) := exec (OpSendAclose 0 None) buffered.

Lemma rendezvous_reachable : reachable rendezvous.
Proof. by apply (reachable_open (PyInt 0) (0%nat, 0%nat)). Qed.

Lemma buffered_reachable : reachable buffered.
Proof. by apply (reachable_open (PyInt 1) (0%nat, 0%nat)). Qed.


Lemma sender_parked_reachable : reachable sender_parked.
Proof.
  apply reachable_step; [apply reachable_step; [apply buffered_reachable|simpl; lia]|].
  split; [simpl; lia|]. repeat split; solve_not_parked.
Qed.


Lemma sender_closed_reachable : reachable sender_closed.
Proof. apply reachable_step; [apply buffered_reachable|simpl; lia]. Qed.

Example receiver_parked_state :
  receive_tasks (state receiver_parked) = [7%nat] ∧ _tasks (receiver receiver_parked 0) = [7%nat].
Proof. by vm_compute. Qed.

Example sender_parked_state :
  data (state sender_parked) = [42] ∧ send_tasks (state sender_parked) = [(6%nat, 43)].
Proof. by vm_compute. Qed.


(** Witness of C3: with 42 buffered and a sender parked with 43, the
    receiver gets 42 and 43 takes its place in the buffer. *)
Lemma receive_nowait_behaviour_witness :
  let '(r, w') := receive_nowait 0 sender_parked in
  ∃ x xs, data (state sender_parked) ++ [43] = x :: xs ∧ r = Ok x ∧
          data (state w') = xs ∧
          send_tasks (state w') = [] ∧
          runq w' = runq sender_parked ++ [(6%nat, ValueNone)] ∧
          (∀ y ys, data (state sender_parked) = y :: ys -> x = y).
Proof.
  exact (receive_nowait_behaviour sender_parked 0 sender_parked_reachable
           ltac:(simpl; lia)).
Defined.

Example receive_nowait_returns_oldest :
  fst (receive_nowait 0 sender_parked) = Ok 42 ∧
  data (state (snd (receive_nowait 0 sender_parked))) = [43].
Proof. by vm_compute. Qed.


Example last_sender_closed_runq :
  runq (snd (MemorySendChannel_aclose 1 None last_sender)) = [(7%nat, Error EndOfChannel)].
Proof. by vm_compute. Qed.

(** Witness of C5, on the world with a full buffer and a parked sender. *)
Lemma channel_invariant_preserved_witness :
  channel_invariant (state sender_parked) ∧
  ∀ o, enabled sender_parked o -> channel_invariant (state (exec o sender_parked)).
Proof. exact (channel_invariant_preserved sender_parked sender_parked_reachable). Defined.

(** Counterexample to C10 as stated: the endpoint is already closed, the
    caller has a cancellation pending, and [aclose] raises [Cancelled]. *)
Lemma aclose_closed_raises_cancelled :
  reachable sender_closed ∧ _closed (sender sender_closed 0) = true ∧
  fst (MemorySendChannel_aclose 0 (Some Cancelled) sender_closed) = Raise Cancelled.
Proof. split; [apply sender_closed_reachable|]. by vm_compute. Qed.

(** Witness of C10 as amended. *)
Lemma aclose_closed_idempotent_witness :
  MemorySendChannel_aclose 0 None sender_closed = (Ok tt, sender_closed).
Proof. exact (proj1 (aclose_closed_idempotent sender_closed 0 None) eq_refl). Defined.


(** *** [statistics()] *)

Module Stats.
(** [class MemoryChannelStats] *)
Record MemoryChannelStats : Type := mkStats {
  current_buffer_used : nat;
  max_buffer_size : bufsize;
  open_send_channels : Z;
  open_receive_channels : Z;
  tasks_waiting_send : nat;
  tasks_waiting_receive : nat
}.
End Stats.

(** [MemoryChannelState.statistics()] *)
Definition MemoryChannelState_statistics {V} (st : MemoryChannelState (V := V))
  : Stats.MemoryChannelStats :=
  Stats.mkStats (length (data st)) (max_buffer_size st)
                (open_send_channels st) (open_receive_channels st)
                (length (send_tasks st)) (length (receive_tasks st)).

(** [MemorySendChannel.statistics()] and [MemoryReceiveChannel.statistics()]
    both return [self._state.statistics()]. *)
Definition statistics {V} (w : world (V := V)) : Stats.MemoryChannelStats :=
  MemoryChannelState_statistics (state w).

Lemma length_join_tasks (eps : list endpoint) :
  length (mjoin (_tasks <$> eps)) = sum_list_with (fun e => length (_tasks e)) eps.
Proof. induction eps as [|e eps IH]; csimpl; [done|]. by rewrite length_app, IH. Qed.

Lemma elem_of_join_tasks (eps : list endpoint) (t : task) :
  t ∈ mjoin (_tasks <$> eps) ↔ ∃ i ep, eps !! i = Some ep ∧ t ∈ _tasks ep.
Proof.
  induction eps as [|e eps IH]; csimpl.
  - split; [intros H; inversion H|by intros (i & ep & ? & _)].
  - rewrite elem_of_app, IH. split.
    + intros [H|(i & ep & Hl & Hin)]; [by exists 0%nat, e|by exists (S i), ep].
    + intros ([|i] & ep & Hl & Hin); simpl in Hl; [left; congruence|right; eauto].
Qed.

Lemma NoDup_join_tasks (eps : list endpoint) :
  (∀ i ep, eps !! i = Some ep -> NoDup (_tasks ep)) ->
  (∀ i j ep ep' t, eps !! i = Some ep -> eps !! j = Some ep' ->
                   t ∈ _tasks ep -> t ∈ _tasks ep' -> i = j) ->
  NoDup (mjoin (_tasks <$> eps)).
Proof.
  induction eps as [|e eps IH]; intros Hnd Hdisj; csimpl; [constructor|].
  apply NoDup_app. split; [by apply (Hnd 0%nat)|]. split.
  - intros t Ht Hin. apply elem_of_join_tasks in Hin as (j & ep' & Hl & Hin).
    by pose proof (Hdisj 0%nat (S j) e ep' t eq_refl Hl Ht Hin).
  - apply IH.
    + intros i ep Hl. by apply (Hnd (S i)).
    + intros i j ep ep' t Hi Hj Hin Hin'.
      by pose proof (Hdisj (S i) (S j) ep ep' t Hi Hj Hin Hin') as [= ->].
Qed.

(** The parked tasks of one side are the tasks of its endpoints. *)
Lemma side_wf_length mk eps keys csd :
  (∀ a b, mk a = mk b -> a = b) ->
  side_wf mk eps keys csd ->
  length keys = sum_list_with (fun e => length (_tasks e)) eps.
Proof.
  intros mk_inj (Hnd & Hk & Hep). rewrite <- length_join_tasks.
  apply Permutation_length, NoDup_Permutation; [done| |].
  - apply NoDup_join_tasks.
    + intros i ep Hl. by destruct (Hep i ep Hl).
    + intros i j ep ep' t Hi Hj Hin Hin'.
      destruct (Hep i ep Hi) as (_ & _ & H1). destruct (Hep j ep' Hj) as (_ & _ & H2).
      destruct (H1 t Hin) as [_ Ha]. destruct (H2 t Hin') as [_ Ha'].
      apply mk_inj. congruence.
  - intros t. rewrite elem_of_join_tasks. split.
    + intros Ht. destruct (Hk t Ht) as (i & ep & _ & Hl & Hin). eauto.
    + intros (i & ep & Hl & Hin). destruct (Hep i ep Hl) as (_ & _ & H1).
      by destruct (H1 t Hin).
Qed.

(** What [statistics()] reports on a reachable channel world:
    [open_send_channels] and [open_receive_channels] are the numbers of send
    and of receive endpoints, clones included, that have not been closed;
    [tasks_waiting_send] and [tasks_waiting_receive] are the numbers of tasks
    parked on the send and on the receive endpoints, summed over all clones;
    [current_buffer_used] is at most [max_buffer_size], equals it while a
    task waits in [send], and is zero while a task waits in [receive]. *)
Theorem statistics_counts_endpoints_and_tasks {V} (w : world (V := V)) :
  reachable w ->
  let s := statistics w in
  Stats.open_send_channels s = Z.of_nat (count_open (senders w)) ∧
  Stats.open_receive_channels s = Z.of_nat (count_open (receivers w)) ∧
  Stats.tasks_waiting_send s = sum_list_with (fun e => length (_tasks e)) (senders w) ∧
  Stats.tasks_waiting_receive s = sum_list_with (fun e => length (_tasks e)) (receivers w) ∧
  len_le (Stats.current_buffer_used s) (Stats.max_buffer_size s) ∧
  ((0 < Stats.tasks_waiting_send s)%nat ->
   Stats.max_buffer_size s = Finite (Z.of_nat (Stats.current_buffer_used s))) ∧
  ((0 < Stats.tasks_waiting_receive s)%nat -> Stats.current_buffer_used s = 0%nat).
Proof.
  intros Hreach. pose proof (reachable_wf w Hreach) as Hwf. simpl.
  split; [apply (wf_open_send _ Hwf)|]. split; [apply (wf_open_receive _ Hwf)|].
  split.
  { rewrite <- (side_wf_length SendEp (senders w) _ (custom_sleep_data w) SendEp_inj
                  (wf_send _ Hwf)). by rewrite length_fmap. }
  split.
  { apply (side_wf_length RecvEp (receivers w) _ (custom_sleep_data w) RecvEp_inj
             (wf_recv _ Hwf)). }
  split; [apply (wf_len _ Hwf)|].
  destruct (wf_inv _ Hwf) as [Hr Hs]. split.
  - intros Hpos. apply Hs. intros Hnil. rewrite Hnil in Hpos. simpl in Hpos. lia.
  - intros Hpos. rewrite Hr; [done|]. intros Hnil. rewrite Hnil in Hpos. simpl in Hpos. lia.
Qed.

(** *** Concrete runs for the statements above *)

(** The buffer of one is full (it holds 42) and no task is parked. *)
Definition full : world (V := Z) := exec (OpSendNowait 0 42) buffered.

(** A channel with a buffer of three that holds 1. *)
Definition roomy : world (V := Z) :=
  exec (OpSendNowait 0 1)
    (mkWorld (mkState (Finite 3) [] 1 1 [] []) [mkEndpoint false []] [mkEndpoint false []] [] []).

(** The send endpoint of the rendezvous channel has a clone. *)
Definition cloned : world (V := Z) := exec (OpSendClone 0) rendezvous.

Lemma full_reachable : reachable full.
Proof. apply reachable_step; [apply buffered_reachable|simpl; lia]. Qed.

Lemma roomy_reachable : reachable roomy.
Proof.
  apply reachable_step; [|simpl; lia]. by apply (reachable_open (PyInt 3) (0%nat, 0%nat)).
Qed.

Lemma cloned_reachable : reachable cloned.
Proof. apply reachable_step; [apply rendezvous_reachable|simpl; lia]. Qed.

Lemma full_running_6 : running full 6%nat.
Proof. repeat split; solve_not_parked. Qed.

Lemma rendezvous_running_7 : running rendezvous 7%nat.
Proof. repeat split; solve_not_parked. Qed.

(** [send_nowait] on the full buffer raises [WouldBlock], one of the three
    exceptions it may raise. *)
Lemma calls_raise_only_channel_errors_witness :
  WouldBlock = ClosedResourceError ∨ WouldBlock = BrokenResourceError
  ∨ WouldBlock = WouldBlock.
Proof.
  exact (calls_raise_only_channel_errors sender_parked (OpSendNowait 0 44) WouldBlock
           sender_parked_reachable ltac:(simpl; lia) ltac:(vm_compute; reflexivity)).
Defined.

(** ... and leaves the world with the parked sender as it was. *)
Lemma raising_call_changes_nothing_witness :
  exec (OpSendNowait 0 44) sender_parked = sender_parked.
Proof.
  exact (raising_call_changes_nothing sender_parked (OpSendNowait 0 44) WouldBlock
           sender_parked_reachable ltac:(simpl; lia) ltac:(vm_compute; reflexivity)).
Defined.


Example last_receiver_closed :
  runq (snd (MemoryReceiveChannel_aclose 0 None sender_parked))
  = [(6%nat, Error BrokenResourceError)]
  ∧ data (state (snd (MemoryReceiveChannel_aclose 0 None sender_parked))) = [].
Proof. by vm_compute. Qed.

(** With the only send endpoint closed and an empty buffer,
    [receive_nowait] raises [EndOfChannel]. *)
Lemma peer_gone_iff_all_clones_closed_witness :
  fst (receive_nowait 0 sender_closed) = Raise EndOfChannel.
Proof.
  apply (proj2 (peer_gone_iff_all_clones_closed sender_closed sender_closed_reachable) 0%nat).
  split; [reflexivity|]. split; [reflexivity|].
  intros [|i] ep; simpl; [by intros [= <-]|by rewrite lookup_nil].
Defined.

(** Task 6 calls [send(43)] on the full buffer and is parked. *)
Lemma send_parks_exactly_when_full_witness :
  let '(r, w') := send 0 43 6%nat None full in
  (r = Ok (Parked unit)
   ↔ _closed (sender full 0) = false
     ∧ (∃ i ep, receivers full !! i = Some ep ∧ _closed ep = false)
     ∧ receive_tasks (state full) = []
     ∧ max_buffer_size (state full) = Finite (Z.of_nat (length (data (state full))))) ∧
  (r = Ok (Parked unit) ->
   send_tasks (state w') = send_tasks (state full) ++ [(6%nat, 43)] ∧
   data (state w') = data (state full) ∧
   _tasks (sender w' 0) = _tasks (sender full 0) ++ [6%nat] ∧
   assoc 6%nat (custom_sleep_data w') = Some (SendEp 0) ∧
   runq w' = runq full).
Proof. exact (send_parks_exactly_when_full full 0 43 6%nat full_reachable full_running_6). Defined.

Example send_parks_on_full : fst (send 0 43 6%nat None full) = Ok (Parked unit).
Proof. by vm_compute. Qed.

(** Task 7 calls [receive()] on the empty rendezvous channel and is
    parked. *)
Lemma receive_parks_exactly_when_empty_witness :
  let '(r, w') := receive 0 7%nat None rendezvous in
  (r = Ok (Parked Z)
   ↔ _closed (receiver rendezvous 0) = false
     ∧ (∃ i ep, senders rendezvous !! i = Some ep ∧ _closed ep = false)
     ∧ send_tasks (state rendezvous) = []
     ∧ data (state rendezvous) = []) ∧
  (r = Ok (Parked Z) ->
   receive_tasks (state w') = receive_tasks (state rendezvous) ++ [7%nat] ∧
   data (state w') = [] ∧
   _tasks (receiver w' 0) = _tasks (receiver rendezvous 0) ++ [7%nat] ∧
   assoc 7%nat (custom_sleep_data w') = Some (RecvEp 0) ∧
   runq w' = runq rendezvous).
Proof.
  exact (receive_parks_exactly_when_empty rendezvous 0 7%nat rendezvous_reachable
           rendezvous_running_7).
Defined.

(** Task 6, parked in [send(43)] on the full buffer, is cancelled: the
    channel is again the full buffer without any parked task. *)
Lemma cancelled_wait_leaves_no_trace_witness :
  ∃ w2, _attempt_abort (send_abort_fn 0 6%nat) 6%nat Cancelled sender_parked = (Ok tt, w2) ∧
        state w2 = state full ∧ senders w2 = senders full ∧ receivers w2 = receivers full ∧
        assoc 6%nat (custom_sleep_data w2) = None ∧
        runq w2 = runq full ++ [(6%nat, Error Cancelled)].
Proof.
  exact (proj1 (cancelled_wait_leaves_no_trace full 0 6%nat Cancelled full_reachable
                  full_running_6) 43 sender_parked eq_refl).
Defined.

(** With 1 buffered and room for two more, sending 2 and 3 and receiving
    three times gives 1, 2, 3. *)
Lemma buffer_is_first_in_first_out_witness :
  (for_each [2; 3] (send_nowait 0);;; receive_n 0 3)%monad roomy
  = (Ok [1; 2; 3], with_state (set_data []) roomy).
Proof.
  exact (buffer_is_first_in_first_out roomy 0 0 [2; 3] roomy_reachable eq_refl eq_refl
           eq_refl eq_refl ltac:(simpl; lia)).
Defined.

(** Closing the original send endpoint leaves its clone open. *)
Lemma endpoint_closed_only_by_its_aclose_witness :
  (∀ i, (i < length (senders cloned))%nat ->
     _closed (sender (exec (OpSendAclose 0 None) cloned) i)
     = _closed (sender cloned i) || bool_decide (0%nat = i)) ∧
  (∀ i, (i < length (receivers cloned))%nat ->
     _closed (receiver (exec (OpSendAclose 0 None) cloned) i)
     = _closed (receiver cloned i) || false).
Proof.
  exact (endpoint_closed_only_by_its_aclose cloned (OpSendAclose 0 None) cloned_reachable
           ltac:(simpl; lia)).
Defined.

Example clone_stays_open :
  _closed (sender (exec (OpSendAclose 0 None) cloned) 0) = true
  ∧ _closed (sender (exec (OpSendAclose 0 None) cloned) 1) = false.
Proof. by vm_compute. Qed.

(** The statistics of the world with 42 buffered and task 6 parked in
    [send]. *)
Lemma statistics_counts_endpoints_and_tasks_witness :
  let s := statistics sender_parked in
  Stats.open_send_channels s = Z.of_nat (count_open (senders sender_parked)) ∧
  Stats.open_receive_channels s = Z.of_nat (count_open (receivers sender_parked)) ∧
  Stats.tasks_waiting_send s
  = sum_list_with (fun e => length (_tasks e)) (senders sender_parked) ∧
  Stats.tasks_waiting_receive s
  = sum_list_with (fun e => length (_tasks e)) (receivers sender_parked) ∧
  len_le (Stats.current_buffer_used s) (Stats.max_buffer_size s) ∧
  ((0 < Stats.tasks_waiting_send s)%nat ->
   Stats.max_buffer_size s = Finite (Z.of_nat (Stats.current_buffer_used s))) ∧
  ((0 < Stats.tasks_waiting_receive s)%nat -> Stats.current_buffer_used s = 0%nat).
Proof. exact (statistics_counts_endpoints_and_tasks sender_parked sender_parked_reachable). Defined.

Example statistics_sender_parked :
  statistics sender_parked = Stats.mkStats 1 (Finite 1) 1 1 1 0.
Proof. by vm_compute. Qed.
End Channel.

(** ** Deadlines, cancel statuses and cancel scopes ([trio/_core/_run.py]) *)

Module Cancel.

(** A deadline or a clock reading: a float that is not NaN, of which only the
    order matters. *)
Inductive time : Type :=
  | NegInf
  | At (t : Z)
  | Inf.

Global Instance time_eq_dec : EqDecision time.
Proof. solve_decision. Defined.

(** [a <= b] *)
Definition time_le (a b : time) : bool :=
  match a, b with
  | NegInf, _ => true
  | _, Inf => true
  | At x, At y => x <=? y
  | _, _ => false
  end.

(** [trio.lowlevel.Abort] *)
Inductive Abort : Type :=
  | SUCCEEDED
  | FAILED.

(** What a rescheduled task is resumed with. *)
Inductive outcome : Type :=
  | Value
  | Error (e : exn).

(** [class CancelStatus]. Cancel statuses, cancel scopes and tasks are
    handles into the stores of the world below; the sets [_children] and
    [_tasks] are duplicate-free lists, iterated in list order. *)
Record CancelStatus : Type := mkStatus {
  _scope : nat;
  effectively_cancelled : bool;
  _parent : option nat;
  _children : list nat;
  _tasks : list nat;
  abandoned_by_misnesting : bool
}.

(** [class CancelScope] *)
Record CancelScope : Type := mkScope {
  _cancel_status : option nat;
  _has_been_entered : bool;
  _registered_deadline : time;
  _cancel_called : bool;
  cancelled_caught : bool;
  _deadline : time;
  _shield : bool
}.

(** The part of [class Task] that cancellation reads and writes:
    [Task._cancel_status], and [_abort_func], kept as the [Abort] value the
    abort function will return. Abort functions are taken not to touch the
    cancel scopes themselves. *)
Record Task : Type := mkTask {
  Task_cancel_status : option nat;
  _abort_func : option Abort
}.

(** [class Deadlines]. An entry [(deadline, id(cancel_scope), cancel_scope)]
    is the pair of the deadline and the scope handle, which is its own
    tie-breaker. The heap is a list read through [heapq]'s contract: the
    top is a least entry, [heappop] removes it, [heappush] adds one. *)
Record Deadlines : Type := mkDeadlines {
  _heap : list (time * nat);
  _active : Z
}.

(** The runner with the objects it drives. A task is scheduled
    ([_next_send_fn] is not [None]) exactly while it has an entry in [runq]. *)
Record world : Type := mkWorld {
  scopes : list CancelScope;
  statuses : list CancelStatus;
  tasks : list Task;
  deadlines : Deadlines;
  runq : list (nat * outcome);
  is_guest : bool;
  guest_tick_scheduled : bool
}.

(** Handles come from the allocations below, so a handle the program holds
    is allocated; an unallocated one reads as an inert object. *)
Definition scope (w : world) (k : nat) : CancelScope :=
  default (mkScope None false Inf false false Inf false) (scopes w !! k).
Definition status (w : world) (s : nat) : CancelStatus :=
  default (mkStatus 0 false None [] [] false) (statuses w !! s).
Definition task (w : world) (t : nat) : Task :=
  default (mkTask None None) (tasks w !! t).

Definition with_scopes (f : list CancelScope -> list CancelScope) (w : world) : world :=
  mkWorld (f (scopes w)) (statuses w) (tasks w) (deadlines w) (runq w) (is_guest w)
          (guest_tick_scheduled w).
Definition with_statuses (f : list CancelStatus -> list CancelStatus) (w : world) : world :=
  mkWorld (scopes w) (f (statuses w)) (tasks w) (deadlines w) (runq w) (is_guest w)
          (guest_tick_scheduled w).
Definition with_tasks (f : list Task -> list Task) (w : world) : world :=
  mkWorld (scopes w) (statuses w) (f (tasks w)) (deadlines w) (runq w) (is_guest w)
          (guest_tick_scheduled w).
Definition with_deadlines (f : Deadlines -> Deadlines) (w : world) : world :=
  mkWorld (scopes w) (statuses w) (tasks w) (f (deadlines w)) (runq w) (is_guest w)
          (guest_tick_scheduled w).
Definition with_runq (f : list (nat * outcome) -> list (nat * outcome)) (w : world) : world :=
  mkWorld (scopes w) (statuses w) (tasks w) (deadlines w) (f (runq w)) (is_guest w)
          (guest_tick_scheduled w).
Definition with_guest_tick_scheduled (b : bool) (w : world) : world :=
  mkWorld (scopes w) (statuses w) (tasks w) (deadlines w) (runq w) (is_guest w) b.

Definition update_scope (k : nat) (f : CancelScope -> CancelScope) (w : world) : world :=
  with_scopes (fun l => <[k := f (scope w k)]> l) w.
Definition update_status (s : nat) (f : CancelStatus -> CancelStatus) (w : world) : world :=
  with_statuses (fun l => <[s := f (status w s)]> l) w.
Definition update_task (t : nat) (f : Task -> Task) (w : world) : world :=
  with_tasks (fun l => <[t := f (task w t)]> l) w.

Definition set_effectively_cancelled (b : bool) (st : CancelStatus) : CancelStatus :=
  mkStatus (_scope st) b (_parent st) (_children st) (_tasks st) (abandoned_by_misnesting st).
Definition set_parent (p : option nat) (st : CancelStatus) : CancelStatus :=
  mkStatus (_scope st) (effectively_cancelled st) p (_children st) (_tasks st)
           (abandoned_by_misnesting st).
Definition set_children (l : list nat) (st : CancelStatus) : CancelStatus :=
  mkStatus (_scope st) (effectively_cancelled st) (_parent st) l (_tasks st)
           (abandoned_by_misnesting st).
Definition set_tasks (l : list nat) (st : CancelStatus) : CancelStatus :=
  mkStatus (_scope st) (effectively_cancelled st) (_parent st) (_children st) l
           (abandoned_by_misnesting st).
Definition set_abandoned_by_misnesting (b : bool) (st : CancelStatus) : CancelStatus :=
  mkStatus (_scope st) (effectively_cancelled st) (_parent st) (_children st) (_tasks st) b.

Definition set_cancel_status (s : option nat) (sc : CancelScope) : CancelScope :=
  mkScope s (_has_been_entered sc) (_registered_deadline sc) (_cancel_called sc)
          (cancelled_caught sc) (_deadline sc) (_shield sc).
Definition set_has_been_entered (b : bool) (sc : CancelScope) : CancelScope :=
  mkScope (_cancel_status sc) b (_registered_deadline sc) (_cancel_called sc)
          (cancelled_caught sc) (_deadline sc) (_shield sc).
Definition set_registered_deadline (d : time) (sc : CancelScope) : CancelScope :=
  mkScope (_cancel_status sc) (_has_been_entered sc) d (_cancel_called sc)
          (cancelled_caught sc) (_deadline sc) (_shield sc).
Definition set_cancel_called (b : bool) (sc : CancelScope) : CancelScope :=
  mkScope (_cancel_status sc) (_has_been_entered sc) (_registered_deadline sc) b
          (cancelled_caught sc) (_deadline sc) (_shield sc).
Definition set_cancelled_caught (b : bool) (sc : CancelScope) : CancelScope :=
  mkScope (_cancel_status sc) (_has_been_entered sc) (_registered_deadline sc)
          (_cancel_called sc) b (_deadline sc) (_shield sc).
Definition set_deadline (d : time) (sc : CancelScope) : CancelScope :=
  mkScope (_cancel_status sc) (_has_been_entered sc) (_registered_deadline sc)
          (_cancel_called sc) (cancelled_caught sc) d (_shield sc).
Definition set_shield (b : bool) (sc : CancelScope) : CancelScope :=
  mkScope (_cancel_status sc) (_has_been_entered sc) (_registered_deadline sc)
          (_cancel_called sc) (cancelled_caught sc) (_deadline sc) b.

Definition set_Task_cancel_status (s : option nat) (t : Task) : Task :=
  mkTask s (_abort_func t).
Definition set_abort_func (a : option Abort) (t : Task) : Task :=
  mkTask (Task_cancel_status t) a.

(** Python sets of handles. *)
Fixpoint mem (x : nat) (l : list nat) : bool :=
  match l with
  | [] => false
  | y :: l' => if decide (y = x) then true else mem x l'
  end.
Fixpoint remove (x : nat) (l : list nat) : list nat :=
  match l with
  | [] => []
  | y :: l' => if decide (y = x) then remove x l' else y :: remove x l'
  end.
Definition add (x : nat) (l : list nat) : list nat :=
  if mem x l then l else l ++ [x].
Definition is_empty {A} (l : list A) : bool :=
  match l with [] => true | _ => false end.
(** [o is None] *)
Definition is_None {A} (o : option A) : bool :=
  match o with None => true | Some _ => false end.

(** *** [Deadlines] *)

(** The order of heap entries: tuples compare deadline first, then
    [id(cancel_scope)]. *)
Definition entry_le (a b : time * nat) : bool :=
  if decide (a.1 = b.1) then (a.2 <=? b.2)%nat else time_le a.1 b.1.

(** [heap[0]]: a least entry. *)
Fixpoint heap_top (h : list (time * nat)) : option (time * nat) :=
  match h with
  | [] => None
  | e :: h' =>
      match heap_top h' with
      | Some m => Some (if entry_le e m then e else m)
      | None => Some e
      end
  end.

(** Removing one copy of an entry. *)
Fixpoint heap_remove (e : time * nat) (h : list (time * nat)) : list (time * nat) :=
  match h with
  | [] => []
  | x :: h' => if decide (x = e) then h' else x :: heap_remove e h'
  end.

Definition heappush (h : list (time * nat)) (e : time * nat) : list (time * nat) := h ++ [e].

(** [heappop(self._heap)], when the heap is not empty. *)
Definition heappop : M world unit :=
  modify (with_deadlines (fun d =>
    match heap_top (_heap d) with
    | Some e => mkDeadlines (heap_remove e (_heap d)) (_active d)
    | None => d
    end)).

Definition Deadlines_add (deadline : time) (cancel_scope : nat) : M world unit :=
  modify (with_deadlines (fun d =>
    mkDeadlines (heappush (_heap d) (deadline, cancel_scope)) (_active d + 1))).

Definition Deadlines_remove (deadline : time) (cancel_scope : nat) : M world unit :=
  modify (with_deadlines (fun d => mkDeadlines (_heap d) (_active d - 1))).

Fixpoint Deadlines_next_deadline (fuel : nat) : M world time :=
  (h <- gets (fun w => _heap (deadlines w));;
   match heap_top h with
   | None => ret Inf
   | Some (deadline, cancel_scope) =>
       registered <- gets (fun w => _registered_deadline (scope w cancel_scope));;
       if decide (deadline = registered) then ret deadline
       else
         (* This entry is stale; discard it and try again *)
         match fuel with
         | O => out_of_fuel
         | S fuel' => heappop;;; Deadlines_next_deadline fuel'
         end
   end)%monad.

(** The loop of [_prune]: entries with the registered deadline, one per
    scope. *)
Fixpoint pruned_heap (registered : nat -> time) (seen : list nat) (h : list (time * nat))
  : list (time * nat) :=
  match h with
  | [] => []
  | (deadline, cancel_scope) :: h' =>
      if decide (deadline = registered cancel_scope) then
        if mem cancel_scope seen then pruned_heap registered seen h'
        else (deadline, cancel_scope) :: pruned_heap registered (cancel_scope :: seen) h'
      else pruned_heap registered seen h'
  end.

Definition DEADLINE_HEAP_MIN_PRUNE_THRESHOLD : Z := 1000.

Definition Deadlines_prune : M world unit :=
  (w <- gets id;;
   let pruned := pruned_heap (fun k => _registered_deadline (scope w k)) []
                   (_heap (deadlines w)) in
   assert (Z.of_nat (length pruned) =? _active (deadlines w));;;
   modify (with_deadlines (fun d => mkDeadlines pruned (_active d))))%monad.

(** *** Tasks and the runner *)

(** [Runner.force_guest_tick_asap] *)
Definition force_guest_tick_asap : M world unit :=
  (scheduled <- gets guest_tick_scheduled;;
   if scheduled then ret tt else modify (with_guest_tick_scheduled true))%monad.

(** [Runner.reschedule(task, next_send)] *)
Definition reschedule (t : nat) (next_send : outcome) : M world unit :=
  (scheduled <- gets (fun w => mem t (runq w).*1);;
   assert (negb scheduled);;;
   modify (update_task t (set_abort_func None));;;
   q <- gets runq;;
   guest <- gets is_guest;;
   (if is_empty q && guest then force_guest_tick_asap else ret tt);;;
   modify (with_runq (fun q => q ++ [(t, next_send)])))%monad.

(** [Task._attempt_abort(raise_cancel)], where [raise_cancel] raises
    [Cancelled]. *)
Definition _attempt_abort (t : nat) (abort_func : Abort) : M world unit :=
  (modify (update_task t (set_abort_func None));;;
   match abort_func with
   | SUCCEEDED => reschedule t (Error Cancelled)
   | FAILED => ret tt
   end)%monad.

Definition _attempt_delivery_of_any_pending_cancel (t : nat) : M world unit :=
  (tk <- gets (fun w => task w t);;
   match _abort_func tk with
   | None => ret tt
   | Some abort_func =>
       match Task_cancel_status tk with
       | None => raise AttributeError
       | Some s =>
           cancelled <- gets (fun w => effectively_cancelled (status w s));;
           if negb cancelled then ret tt else _attempt_abort t abort_func
       end
   end)%monad.

(** *** The registered deadline of a [CancelScope] *)

(** The [finally] block of [_might_change_registered_deadline]. *)
Definition registered_deadline_update (fuel : nat) (self : nat) : M world unit :=
  (sc <- gets (fun w => scope w self);;
   let old := _registered_deadline sc in
   let new := if is_None (_cancel_status sc) || _cancel_called sc
              then Inf else _deadline sc in
   if decide (old = new) then ret tt
   else
     modify (update_scope self (set_registered_deadline new));;;
     guest <- gets is_guest;;
     old_next_deadline <- (if guest then Deadlines_next_deadline fuel else ret Inf);;
     (if decide (old = Inf) then ret tt else Deadlines_remove old self);;;
     (if decide (new = Inf) then ret tt else Deadlines_add new self);;;
     if guest then
       new_next_deadline <- Deadlines_next_deadline fuel;;
       if decide (old_next_deadline = new_next_deadline) then ret tt
       else force_guest_tick_asap
     else ret tt)%monad.

(** [with self._might_change_registered_deadline(): body]: the update runs
    whether or not the body raises. *)
Definition _might_change_registered_deadline {A} (fuel : nat) (self : nat) (body : M world A)
  : M world A :=
  fun w =>
    match body w with
    | (OutOfFuel, w') => (OutOfFuel, w')
    | (r, w') =>
        match registered_deadline_update fuel self w' with
        | (Ok _, w'') => (r, w'')
        | (Raise e, w'') => (Raise e, w'')
        | (OutOfFuel, w'') => (OutOfFuel, w'')
        end
    end.

(** [CancelScope.cancel] and the property [CancelScope.cancel_called], which
    cancels a scope whose deadline has passed when the clock reads [now].
    Both reach [CancelStatus.recalculate], which itself reads the property
    of the scopes it visits; [recalculate] is the recalculation these two
    call, [fuel] unrolls the loops of the deadline update. *)
Definition cancel_with (recalculate : nat -> M world unit) (fuel : nat) (self : nat)
  : M world unit :=
  (called <- gets (fun w => _cancel_called (scope w self));;
   if called then ret tt else
   _might_change_registered_deadline fuel self
     (modify (update_scope self (set_cancel_called true)));;;
   cs <- gets (fun w => _cancel_status (scope w self));;
   match cs with
   | Some s => recalculate s
   | None => ret tt
   end)%monad.

Definition cancel_called_with (recalculate : nat -> M world unit) (fuel : nat) (self : nat)
    (now : Z) : M world bool :=
  (sc <- gets (fun w => scope w self);;
   (if negb (is_None (_cancel_status sc)) || negb (_has_been_entered sc)
    then
      if negb (_cancel_called sc) && time_le (_deadline sc) (At now)
      then cancel_with recalculate fuel self else ret tt
    else ret tt);;;
   gets (fun w => _cancel_called (scope w self)))%monad.

(** *** [CancelStatus] *)

Definition parent_cancellation_is_visible_to_us (w : world) (self : nat) : bool :=
  match _parent (status w self) with
  | None => false
  | Some p =>
      negb (_shield (scope w (_scope (status w self))))
      && effectively_cancelled (status w p)
  end.

(** The [while todo:] loop of [recalculate], when the clock reads [now]. The
    head of [todo] is the top of the source's stack (the last element of its
    list), so [todo.extend(current._children)] puts the children on it in
    reverse. [current._scope.cancel_called] is the property, which may cancel
    the scope and so recalculate from within. *)
Fixpoint recalculate_loop (fuel : nat) (now : Z) (todo : list nat) : M world unit :=
  match todo with
  | [] => ret tt
  | current :: todo' =>
      match fuel with
      | O => out_of_fuel
      | S fuel' =>
          (k <- gets (fun w => _scope (status w current));;
           called <- cancel_called_with (fun s => recalculate_loop fuel' now [s]) fuel' k now;;
           w <- gets id;;
           let new_state := called || parent_cancellation_is_visible_to_us w current in
           if Bool.eqb new_state (effectively_cancelled (status w current))
           then recalculate_loop fuel' now todo'
           else
             modify (update_status current (set_effectively_cancelled new_state));;;
             (if new_state
              then for_each (_tasks (status w current)) _attempt_delivery_of_any_pending_cancel
              else ret tt);;;
             recalculate_loop fuel' now (rev (_children (status w current)) ++ todo'))%monad
      end
  end.

Definition recalculate (fuel : nat) (now : Z) (self : nat) : M world unit :=
  recalculate_loop fuel now [self].

Definition cancel (fuel : nat) (now : Z) (self : nat) : M world unit :=
  cancel_with (recalculate fuel now) fuel self.

(** The [cancel_called] property, read when the clock says [now]. *)
Definition cancel_called (fuel : nat) (self : nat) (now : Z) : M world bool :=
  cancel_called_with (recalculate fuel now) fuel self now.

(** [self._parent._children.remove(self)] and [.add(self)] *)
Definition children_remove (p self : nat) : M world unit :=
  (cs <- gets (fun w => _children (status w p));;
   if mem self cs then modify (update_status p (set_children (remove self cs)))
   else raise KeyError)%monad.
Definition children_add (p self : nat) : M world unit :=
  modify (fun w => update_status p (set_children (add self (_children (status w p)))) w).

(** [CancelStatus(scope=scope, parent=parent)] with [__attrs_post_init__];
    returns the new handle. *)
Definition CancelStatus_new (fuel : nat) (now : Z) (scope : nat) (parent : option nat) : M world nat :=
  (self <- gets (fun w => length (statuses w));;
   modify (with_statuses (fun l => l ++ [mkStatus scope false parent [] [] false]));;;
   match parent with
   | Some p => children_add p self;;; recalculate fuel now self
   | None => ret tt
   end;;;
   ret self)%monad.

(** The setter of the [parent] property. *)
Definition parent_setter (fuel : nat) (now : Z) (self : nat) (parent : option nat) : M world unit :=
  (old <- gets (fun w => _parent (status w self));;
   match old with
   | Some p => children_remove p self
   | None => ret tt
   end;;;
   modify (update_status self (set_parent parent));;;
   match parent with
   | Some p => children_add p self;;; recalculate fuel now self
   | None => ret tt
   end)%monad.

Fixpoint encloses (fuel : nat) (w : world) (self : nat) (other : option nat) : result bool :=
  match other with
  | None => Ok false
  | Some o =>
      if decide (o = self) then Ok true
      else match fuel with
           | O => OutOfFuel
           | S fuel' => encloses fuel' w self (_parent (status w o))
           end
  end.

Fixpoint _mark_abandoned (fuel : nat) (self : nat) : M world unit :=
  match fuel with
  | O => out_of_fuel
  | S fuel' =>
      (modify (update_status self (set_abandoned_by_misnesting true));;;
       cs <- gets (fun w => _children (status w self));;
       for_each cs (_mark_abandoned fuel'))%monad
  end.

Definition close (fuel : nat) (now : Z) (self : nat) : M world unit :=
  (parent_setter fuel now self None;;;
   st <- gets (fun w => status w self);;
   if negb (is_empty (_tasks st)) || negb (is_empty (_children st)) then
     _mark_abandoned fuel self;;;
     modify (update_status self (set_effectively_cancelled true));;;
     for_each (_tasks st) _attempt_delivery_of_any_pending_cancel;;;
     for_each (_children st) (recalculate fuel now)
   else ret tt)%monad.


(** [Task._activate_cancel_status(cancel_status)] *)
Definition _activate_cancel_status (t : nat) (cancel_status : option nat) : M world unit :=
  (old <- gets (fun w => Task_cancel_status (task w t));;
   match old with
   | Some s =>
       ts <- gets (fun w => _tasks (status w s));;
       if mem t ts then modify (update_status s (set_tasks (remove t ts)))
       else raise KeyError
   | None => ret tt
   end;;;
   modify (update_task t (set_Task_cancel_status cancel_status));;;
   match cancel_status with
   | Some s =>
       modify (fun w => update_status s (set_tasks (add t (_tasks (status w s)))) w);;;
       cancelled <- gets (fun w => effectively_cancelled (status w s));;
       if cancelled then _attempt_delivery_of_any_pending_cancel t else ret tt
   | None => ret tt
   end)%monad.

(** *** [CancelScope] *)

(** [CancelScope(deadline=..., shield=...)]: a new scope object; returns its
    handle. *)
Definition CancelScope_new (deadline : time) (shield : bool) : M world nat :=
  (self <- gets (fun w => length (scopes w));;
   modify (with_scopes (fun l => l ++ [mkScope None false Inf false false deadline shield]));;;
   ret self)%monad.

(** [CancelScope.__enter__], run by task [t] when the clock reads [now]. *)
Definition __enter__ (fuel : nat) (self : nat) (t : nat) (now : Z) : M world unit :=
  (entered <- gets (fun w => _has_been_entered (scope w self));;
   if entered then raise RuntimeError else
   modify (update_scope self (set_has_been_entered true));;;
   deadline <- gets (fun w => _deadline (scope w self));;
   (if time_le deadline (At now) then cancel fuel now self else ret tt);;;
   _might_change_registered_deadline fuel self
     (parent <- gets (fun w => Task_cancel_status (task w t));;
      s <- CancelStatus_new fuel now self parent;;
      modify (update_scope self (set_cancel_status (Some s)));;;
      _activate_cancel_status t (Some s)))%monad.

(** The exceptions that reach a scope's exit: [Cancelled], any other
    exception, a [MultiError] of several, or the [RuntimeError] that [_close]
    itself makes, with its [__context__]. *)
Inductive pyexc : Type :=
  | ExcCancelled
  | ExcOther (n : nat)
  | ExcMultiError (l : list pyexc)
  | ExcRuntimeError (context : option pyexc).

(** [CancelScope._exc_filter] *)
Definition _exc_filter (self : nat) (exc : pyexc) : M world (option pyexc) :=
  match exc with
  | ExcCancelled => (modify (update_scope self (set_cancelled_caught true));;; ret None)%monad
  | _ => ret (Some exc)
  end.

(** [for x in xs: ys.append(handler(x))] *)
Fixpoint map_m {A B} (handler : A -> M world B) (xs : list A) : M world (list B) :=
  match xs with
  | [] => ret []
  | x :: xs' => (y <- handler x;; ys <- map_m handler xs';; ret (y :: ys))%monad
  end.

(** [MultiError.filter(handler, exc)] is defined in [trio/_multierror.py],
    outside the two files at hand. All that is taken of it is that it hands
    some exceptions found in [exc] to the handler, one after the other, and
    makes its result of what the handler returned: [leaves] and [rebuild] say
    which and how, and are left open. *)
Definition MultiError_filter (leaves : pyexc -> list pyexc)
    (rebuild : pyexc -> list (option pyexc) -> option pyexc)
    (handler : pyexc -> M world (option pyexc)) (exc : pyexc) : M world (option pyexc) :=
  (rs <- map_m handler (leaves exc);; ret (rebuild exc rs))%monad.

(** How [_close] ends: the exception it returns, or [None]. *)
Definition _close (leaves : pyexc -> list pyexc)
    (rebuild : pyexc -> list (option pyexc) -> option pyexc)
    (fuel : nat) (now : Z) (self : nat) (t : nat) (exc : option pyexc)
  : M world (option pyexc) :=
  (cs <- gets (fun w => _cancel_status (scope w self));;
   match cs with
   | None => ret (Some (ExcRuntimeError exc))
   | Some s =>
       task_status <- gets (fun w => Task_cancel_status (task w t));;
       parent <- gets (fun w => _parent (status w s));;
       (* [None]: return at once with the error; [Some exc']: go on *)
       go <- (if decide (task_status = Some s)
              then _activate_cancel_status t parent;;; ret (Some exc)
              else
                abandoned <- gets (fun w => abandoned_by_misnesting (status w s));;
                if abandoned then ret (Some exc)
                else
                  w <- gets id;;
                  match encloses fuel w s task_status with
                  | Ok true =>
                      _activate_cancel_status t parent;;;
                      ret (Some (Some (ExcRuntimeError exc)))
                  | Ok false => ret None
                  | Raise e => raise e
                  | OutOfFuel => out_of_fuel
                  end);;
       match go with
       | None => ret (Some (ExcRuntimeError exc))
       | Some exc =>
           w <- gets id;;
           exc <- match exc with
                  | Some e =>
                      if effectively_cancelled (status w s)
                         && negb (parent_cancellation_is_visible_to_us w s)
                      then MultiError_filter leaves rebuild (_exc_filter self) e
                      else ret (Some e)
                  | None => ret None
                  end;;
           close fuel now s;;;
           _might_change_registered_deadline fuel self
             (modify (update_scope self (set_cancel_status None)));;;
           ret exc
       end
   end)%monad.

(** The setters of the [deadline] and [shield] properties. *)
Definition deadline_setter (fuel : nat) (self : nat) (new_deadline : time) : M world unit :=
  _might_change_registered_deadline fuel self
    (modify (update_scope self (set_deadline new_deadline))).

Definition shield_setter (fuel : nat) (now : Z) (self : nat) (new_value : bool) : M world unit :=
  (modify (update_scope self (set_shield new_value));;;
   cs <- gets (fun w => _cancel_status (scope w self));;
   match cs with
   | Some s => recalculate fuel now s
   | None => ret tt
   end)%monad.

(** [Deadlines.expire(now)] *)
Fixpoint expire_loop (fuel : nat) (now : Z) (did_something : bool) : M world bool :=
  (h <- gets (fun w => _heap (deadlines w));;
   match heap_top h with
   | None => ret did_something
   | Some (deadline, cancel_scope) =>
       if time_le deadline (At now) then
         match fuel with
         | O => out_of_fuel
         | S fuel' =>
             heappop;;;
             registered <- gets (fun w => _registered_deadline (scope w cancel_scope));;
             if decide (deadline = registered)
             then cancel fuel' now cancel_scope;;; expire_loop fuel' now true
             else expire_loop fuel' now did_something
         end
       else ret did_something
   end)%monad.

Definition expire (fuel : nat) (now : Z) : M world bool :=
  (did_something <- expire_loop fuel now false;;
   d <- gets deadlines;;
   (if _active d * 2 + DEADLINE_HEAP_MIN_PRUNE_THRESHOLD <? Z.of_nat (length (_heap d))
    then Deadlines_prune else ret tt);;;
   ret did_something)%monad.

(** *** Runs of the cancellation core *)

(** The calls the program and the runner make on cancel scopes: creating,
    entering and leaving a scope, [cancel()], the property setters, reading
    [cancel_called]; [spawn_impl] and [task_exited] as far as the cancel
    statuses see them; a task parking in [wait_task_rescheduled] with an
    abort function; the runner resuming a scheduled task, expiring deadlines,
    and asking for the next one. [now] is what [current_time()] reads while
    the call runs; [leaves] and [rebuild] are what [MultiError.filter] does
    with the exception that reaches the exit of a scope. *)
Inductive op : Type :=
  | OpNewScope (deadline : time) (shield : bool)
  | OpEnter (self t : nat) (now : Z)
  | OpClose (self t : nat) (exc : option pyexc) (now : Z)
            (leaves : pyexc -> list pyexc)
            (rebuild : pyexc -> list (option pyexc) -> option pyexc)
  | OpCancel (self : nat) (now : Z)
  | OpSetDeadline (self : nat) (new_deadline : time)
  | OpSetShield (self : nat) (new_value : bool) (now : Z)
  | OpCancelCalled (self : nat) (now : Z)
  | OpSpawn (cancel_status : nat)
  | OpTaskExited (t : nat)
  | OpPark (t : nat) (abort_func : Abort)
  | OpRun (i : nat)
  | OpExpire (now : Z)
  | OpNextDeadline.

(** [Runner.spawn_impl], from the new [Task] on: it is activated under the
    nursery's cancel status and scheduled. *)
Definition spawn_impl (cancel_status : nat) : M world unit :=
  (t <- gets (fun w => length (tasks w));;
   modify (with_tasks (fun l => l ++ [mkTask None None]));;;
   _activate_cancel_status t (Some cancel_status);;;
   reschedule t Value)%monad.

(** The runner's handling of a [WaitTaskRescheduled(abort_func)] trap. *)
Definition wait_task_rescheduled (t : nat) (abort_func : Abort) : M world unit :=
  (modify (update_task t (set_abort_func (Some abort_func)));;;
   _attempt_delivery_of_any_pending_cancel t)%monad.

Definition run (fuel : nat) (o : op) : M world unit :=
  match o with
  | OpNewScope deadline shield => (CancelScope_new deadline shield;;; ret tt)%monad
  | OpEnter self t now => __enter__ fuel self t now
  | OpClose self t exc now leaves rebuild =>
      (_close leaves rebuild fuel now self t exc;;; ret tt)%monad
  | OpCancel self now => cancel fuel now self
  | OpSetDeadline self d => deadline_setter fuel self d
  | OpSetShield self b now => shield_setter fuel now self b
  | OpCancelCalled self now => (cancel_called fuel self now;;; ret tt)%monad
  | OpSpawn s => spawn_impl s
  | OpTaskExited t => _activate_cancel_status t None
  | OpPark t a => wait_task_rescheduled t a
  | OpRun i => modify (with_runq (delete i))
  | OpExpire now => (expire fuel now;;; ret tt)%monad
  | OpNextDeadline => (Deadlines_next_deadline fuel;;; ret tt)%monad
  end.

(** A task that executes code is allocated, not scheduled and not parked. *)
Definition running (w : world) (t : nat) : Prop :=
  (t < length (tasks w))%nat ∧ (t ∉ (runq w).*1) ∧ _abort_func (task w t) = None.

(** When a call can happen. Code that enters a scope or parks runs in a
    task that has a cancel status: every task is spawned under its nursery's,
    and the init task enters the outermost scope before anything else. *)
Definition enabled (w : world) (o : op) : Prop :=
  match o with
  | OpNewScope _ _ | OpRun _ | OpExpire _ | OpNextDeadline => True
  | OpEnter self t _ =>
      (self < length (scopes w))%nat ∧ running w t ∧ Task_cancel_status (task w t) ≠ None
  | OpClose self t _ _ _ _ => (self < length (scopes w))%nat ∧ running w t
  | OpCancel self _ | OpSetDeadline self _ | OpSetShield self _ _ | OpCancelCalled self _ =>
      (self < length (scopes w))%nat
  | OpSpawn s => (s < length (statuses w))%nat
  | OpTaskExited t => running w t
  | OpPark t _ => running w t ∧ Task_cancel_status (task w t) ≠ None
  end.

(** The world in which the init task (task 0) has entered the outermost
    cancel scope (scope 0, a fresh [CancelScope()]), whose status (status 0)
    has no parent. *)
Definition init_world (guest : bool) : world :=
  mkWorld [mkScope (Some 0%nat) true Inf false false Inf false]
          [mkStatus 0 false None [] [0%nat] false]
          [mkTask (Some 0%nat) None]
          (mkDeadlines [] 0) [] guest false.

(** The worlds a run can reach. A step is a call that returns or raises;
    [fuel] is how far the model unrolls its loops. *)
Inductive reachable : world -> Prop :=
  | reachable_init guest : reachable (init_world guest)
  | reachable_step w o fuel r w' :
      reachable w -> enabled w o -> run fuel o w = (r, w') -> r ≠ OutOfFuel ->
      reachable w'.

(** *** Reading the stores after an update *)

Ltac unfold_world :=
  unfold update_scope, update_status, update_task, with_scopes, with_statuses,
    with_tasks, with_deadlines, with_runq, with_guest_tick_scheduled in *.

Lemma status_valid w s : _parent (status w s) ≠ None ∨ _children (status w s) ≠ []
    ∨ _tasks (status w s) ≠ [] ∨ effectively_cancelled (status w s) = true ->
  (s < length (statuses w))%nat.
Proof.
  unfold status. destruct (statuses w !! s) eqn:H; [intros _; by eapply lookup_lt_Some|].
  simpl. intros [?|[?|[?|?]]]; done.
Qed.

Lemma status_update_status w s f x :
  (s < length (statuses w))%nat ->
  status (update_status s f w) x = if decide (x = s) then f (status w s) else status w x.
Proof.
  intros Hs. unfold status at 1. unfold_world. simpl.
  destruct (decide (x = s)) as [->|Hne].
  - by rewrite list_lookup_insert_eq.
  - by rewrite list_lookup_insert_ne.
Qed.

Lemma status_update_status_ne w s f x :
  x ≠ s -> status (update_status s f w) x = status w x.
Proof.
  intros Hne. unfold status at 1. unfold_world. simpl. by rewrite list_lookup_insert_ne.
Qed.

Lemma scope_update_scope w k f x :
  (k < length (scopes w))%nat ->
  scope (update_scope k f w) x = if decide (x = k) then f (scope w k) else scope w x.
Proof.
  intros Hs. unfold scope at 1. unfold_world. simpl.
  destruct (decide (x = k)) as [->|Hne].
  - by rewrite list_lookup_insert_eq.
  - by rewrite list_lookup_insert_ne.
Qed.

Lemma task_update_task w t f x :
  (t < length (tasks w))%nat ->
  task (update_task t f w) x = if decide (x = t) then f (task w t) else task w x.
Proof.
  intros Hs. unfold task at 1. unfold_world. simpl.
  destruct (decide (x = t)) as [->|Hne].
  - by rewrite list_lookup_insert_eq.
  - by rewrite list_lookup_insert_ne.
Qed.

Lemma task_update_task_ne w t f x :
  x ≠ t -> task (update_task t f w) x = task w x.
Proof.
  intros Hne. unfold task at 1. unfold_world. simpl. by rewrite list_lookup_insert_ne.
Qed.

Lemma task_valid w t : _abort_func (task w t) ≠ None ∨ Task_cancel_status (task w t) ≠ None ->
  (t < length (tasks w))%nat.
Proof.
  unfold task. destruct (tasks w !! t) eqn:H; [intros _; by eapply lookup_lt_Some|].
  simpl. intros [?|?]; done.
Qed.

Lemma scope_valid w k :
  _cancel_status (scope w k) ≠ None ∨ _registered_deadline (scope w k) ≠ Inf
  ∨ _cancel_called (scope w k) = true ->
  (k < length (scopes w))%nat.
Proof.
  unfold scope. destruct (scopes w !! k) eqn:H; [intros _; by eapply lookup_lt_Some|].
  simpl. intros [?|[?|?]]; done.
Qed.

(** *** The effective deadline *)

(** Parent links go strictly down some rank: following [_parent] from any
    status ends. *)
Definition ranked (w : world) : Prop :=
  ∃ depth : nat -> nat, ∀ c p, _parent (status w c) = Some p -> (depth p < depth c)%nat.




(** *** Field-wise reading of updates *)

Lemma status_update_status_field {A} (proj : CancelStatus -> A) w s f :
  (∀ st, proj (f st) = proj st) ->
  ∀ x, proj (status (update_status s f w) x) = proj (status w x).
Proof.
  intros Hf x. destruct (decide (x = s)) as [->|Hne].
  - destruct (decide (s < length (statuses w))%nat) as [Hlt|Hge].
    + rewrite status_update_status by done. destruct (decide (s = s)); [|done]. apply Hf.
    + unfold status. unfold_world. simpl. by rewrite list_insert_ge by lia.
  - by rewrite status_update_status_ne.
Qed.

Lemma scope_update_scope_ne w k f x : x ≠ k -> scope (update_scope k f w) x = scope w x.
Proof.
  intros Hne. unfold scope at 1. unfold_world. simpl. by rewrite list_lookup_insert_ne.
Qed.

Lemma scope_update_scope_field {A} (proj : CancelScope -> A) w k f :
  (∀ sc, proj (f sc) = proj sc) ->
  ∀ x, proj (scope (update_scope k f w) x) = proj (scope w x).
Proof.
  intros Hf x. destruct (decide (x = k)) as [->|Hne].
  - destruct (decide (k < length (scopes w))%nat) as [Hlt|Hge].
    + rewrite scope_update_scope by done. destruct (decide (k = k)); [|done]. apply Hf.
    + unfold scope. unfold_world. simpl. by rewrite list_insert_ge by lia.
  - by rewrite scope_update_scope_ne.
Qed.

Lemma task_update_task_field {A} (proj : Task -> A) w t f :
  (∀ tk, proj (f tk) = proj tk) ->
  ∀ x, proj (task (update_task t f w) x) = proj (task w x).
Proof.
  intros Hf x. destruct (decide (x = t)) as [->|Hne].
  - destruct (decide (t < length (tasks w))%nat) as [Hlt|Hge].
    + rewrite task_update_task by done. destruct (decide (t = t)); [|done]. apply Hf.
    + unfold task. unfold_world. simpl. by rewrite list_insert_ge by lia.
  - by rewrite task_update_task_ne.
Qed.

(** *** The parts of [tree_wf], each with the fields it reads *)
Lemma scope_same_scopes w w' k : scopes w' = scopes w -> scope w' k = scope w k.
Proof. unfold scope. by intros ->. Qed.

Lemma status_same_statuses w w' s : statuses w' = statuses w -> status w' s = status w s.
Proof. unfold status. by intros ->. Qed.

Lemma task_same_tasks w w' t : tasks w' = tasks w -> task w' t = task w t.
Proof. unfold task. by intros ->. Qed.

Ltac mrun :=
  unfold bind, gets, modify, ret, raise, assert, out_of_fuel in *; simpl in *.


(** *** Hoare triples for the monad *)

(** [hoare P m Q]: from a world satisfying [P], if [m] finishes within its
    fuel then it returns normally, with a value and a world satisfying [Q]. *)
Definition hoare {A} (P : world -> Prop) (m : M world A) (Q : A -> world -> Prop) : Prop :=
  ∀ w r w', P w -> m w = (r, w') -> r ≠ OutOfFuel -> ∃ a, r = Ok a ∧ Q a w'.

Lemma hoare_bind {A B} (P : world -> Prop) (m : M world A) (Q : A -> world -> Prop)
    (k : A -> M world B) (R : B -> world -> Prop) :
  hoare P m Q -> (∀ a, hoare (Q a) (k a) R) -> hoare P (bind m k) R.
Proof.
  intros Hm Hk w r w' HP Hrun Hr. unfold bind in Hrun.
  destruct (m w) as [r1 w1] eqn:Hm1.
  destruct r1 as [a|e|].
  - destruct (Hm w (Ok a) w1 HP Hm1) as (a' & Ha & HQ); [done|].
    injection Ha as <-. by eapply Hk.
  - destruct (Hm w (Raise e) w1 HP Hm1) as (a' & Ha & HQ); done.
  - injection Hrun as <- <-. done.
Qed.

Lemma hoare_ret {A} (P : world -> Prop) (a : A) (Q : A -> world -> Prop) :
  (∀ w, P w -> Q a w) -> hoare P (ret a) Q.
Proof. intros H w r w' HP Hrun _. injection Hrun as <- <-. eauto. Qed.

Lemma hoare_gets {A} (P : world -> Prop) (f : world -> A) (Q : A -> world -> Prop) :
  (∀ w, P w -> Q (f w) w) -> hoare P (gets f) Q.
Proof. intros H w r w' HP Hrun _. injection Hrun as <- <-. eauto. Qed.

Lemma hoare_modify (P : world -> Prop) (f : world -> world) (Q : unit -> world -> Prop) :
  (∀ w, P w -> Q tt (f w)) -> hoare P (modify f) Q.
Proof. intros H w r w' HP Hrun _. injection Hrun as <- <-. eauto. Qed.

Lemma hoare_assert (P : world -> Prop) (c : bool) (Q : unit -> world -> Prop) :
  (∀ w, P w -> c = true ∧ Q tt w) -> hoare P (assert c) Q.
Proof.
  intros H w r w' HP Hrun _. destruct (H w HP) as [Hc HQ]. rewrite Hc in Hrun.
  injection Hrun as <- <-. eauto.
Qed.

Lemma hoare_consequence {A} (P P' : world -> Prop) (m : M world A) (Q Q' : A -> world -> Prop) :
  hoare P' m Q' -> (∀ w, P w -> P' w) -> (∀ a w, Q' a w -> Q a w) -> hoare P m Q.
Proof.
  intros Hm HP HQ w r w' Hw Hrun Hr.
  destruct (Hm w r w' (HP w Hw) Hrun Hr) as (a & -> & Ha). eauto.
Qed.

(** A precondition may carry facts that do not depend on the world. *)
Lemma hoare_pure {A} (φ : Prop) (P : world -> Prop) (m : M world A) (Q : A -> world -> Prop) :
  (φ -> hoare P m Q) -> hoare (fun w => φ ∧ P w) m Q.
Proof. intros H w r w' [Hφ HP]. by apply H. Qed.

Lemma hoare_for_each {A} (I : world -> Prop) (body : A -> M world unit) (l : list A) :
  (∀ x, x ∈ l -> hoare I (body x) (fun _ => I)) ->
  hoare I (for_each l body) (fun _ => I).
Proof.
  induction l as [|x l IH]; intros Hbody; simpl.
  - by apply hoare_ret.
  - eapply hoare_bind; [apply Hbody; left|]. intros []. apply IH.
    intros y Hy. apply Hbody. by right.
Qed.

(** *** The heap *)

Lemma heap_top_elem h e : heap_top h = Some e -> e ∈ h.
Proof.
  revert e. induction h as [|x h IH]; intros e; simpl; [done|].
  destruct (heap_top h) as [m|].
  - intros [= <-]. destruct (entry_le x m); [left|right; by apply IH].
  - intros [= <-]. left.
Qed.


Lemma elem_of_heap_remove x e h : x ∈ heap_remove e h -> x ∈ h.
Proof.
  induction h as [|y h IH]; simpl; [done|].
  destruct (decide (y = e)); [by right|].
  intros H. apply elem_of_cons in H as [->|H]; [left|right; auto].
Qed.

Lemma elem_of_heap_remove_ne x e h : x ∈ h -> x ≠ e -> x ∈ heap_remove e h.
Proof.
  induction h as [|y h IH]; simpl; [done|].
  intros H Hne. destruct (decide (y = e)) as [->|Hye].
  - apply elem_of_cons in H as [->|H]; done.
  - apply elem_of_cons in H as [->|H]; [left|right; auto].
Qed.

Lemma length_heap_remove e h : e ∈ h -> S (length (heap_remove e h)) = length h.
Proof.
  induction h as [|y h IH]; simpl; [intros H; inversion H|].
  intros H. destruct (decide (y = e)) as [->|Hye]; [done|].
  apply elem_of_cons in H as [->|H]; [done|]. simpl. by rewrite IH.
Qed.

(** What the heap operations leave alone. *)
Record heap_frame (w w' : world) : Prop := mk_heap_frame {
  hf_scopes : scopes w' = scopes w;
  hf_statuses : statuses w' = statuses w;
  hf_tasks : tasks w' = tasks w;
  hf_runq : runq w' = runq w;
  hf_guest : is_guest w' = is_guest w;
  hf_active : _active (deadlines w') = _active (deadlines w)
}.

Lemma heap_frame_refl w : heap_frame w w.
Proof. by constructor. Qed.

Lemma heap_frame_trans w1 w2 w3 : heap_frame w1 w2 -> heap_frame w2 w3 -> heap_frame w1 w3.
Proof. intros [] []. constructor; congruence. Qed.

(** [next_deadline] only discards stale entries. *)
Lemma next_deadline_correct fuel : ∀ w r w',
  Deadlines_next_deadline fuel w = (r, w') -> r ≠ OutOfFuel ->
  (∃ d, r = Ok d) ∧ heap_frame w w' ∧ guest_tick_scheduled w' = guest_tick_scheduled w ∧
  (length (_heap (deadlines w')) <= length (_heap (deadlines w)))%nat ∧
  (∀ e, e ∈ _heap (deadlines w') -> e ∈ _heap (deadlines w)) ∧
  (∀ d k, (d, k) ∈ _heap (deadlines w) -> d = _registered_deadline (scope w k) ->
          (d, k) ∈ _heap (deadlines w')).
Proof.
  induction fuel as [|fuel IH]; intros w r w' Hrun Hr; simpl in Hrun; mrun.
  - destruct (heap_top (_heap (deadlines w))) as [[d k]|] eqn:Htop.
    + destruct (decide (d = _registered_deadline (scope w k))).
      * injection Hrun as <- <-. split; [by eexists|]. split; [apply heap_frame_refl|]. done.
      * injection Hrun as <- <-. done.
    + injection Hrun as <- <-. split; [by eexists|]. split; [apply heap_frame_refl|]. done.
  - destruct (heap_top (_heap (deadlines w))) as [[d k]|] eqn:Htop.
    + destruct (decide (d = _registered_deadline (scope w k))) as [Hd|Hd].
      * injection Hrun as <- <-. split; [by eexists|]. split; [apply heap_frame_refl|]. done.
      * unfold heappop in Hrun. mrun.
        set (wp := with_deadlines _ w) in Hrun.
        assert (deadlines wp = mkDeadlines (heap_remove (d, k) (_heap (deadlines w)))
                                 (_active (deadlines w))) as Hwp
          by (unfold wp; simpl; by rewrite Htop).
        destruct (IH _ _ _ Hrun Hr) as (Hok & Hf & Hg & Hlen & Hsub & Hlive).
        split; [done|]. split; [|split; [done|split; [|split]]].
        -- destruct Hf as [F1 F2 F3 F4 F5 F6]. constructor; try done.
           by rewrite F6, Hwp.
        -- rewrite Hwp in Hlen. simpl in Hlen.
           pose proof (length_heap_remove _ _ (heap_top_elem _ _ Htop)). lia.
        -- intros e He. apply Hsub in He. rewrite Hwp in He. simpl in He.
           by eapply elem_of_heap_remove.
        -- intros d' k' Hin Hreg. apply Hlive; [|done]. rewrite Hwp. simpl.
           apply elem_of_heap_remove_ne; [done|]. intros [= -> ->]. done.
    + injection Hrun as <- <-. split; [by eexists|]. split; [apply heap_frame_refl|]. done.
Qed.

Lemma next_deadline_terminates fuel : ∀ w,
  (length (_heap (deadlines w)) <= fuel)%nat ->
  fst (Deadlines_next_deadline fuel w) ≠ OutOfFuel.
Proof.
  induction fuel as [|fuel IH]; intros w Hlen; simpl; mrun.
  - destruct (heap_top (_heap (deadlines w))) as [[d k]|] eqn:Htop; [|done].
    apply heap_top_elem in Htop. destruct (_heap (deadlines w)); [inversion Htop|simpl in *; lia].
  - destruct (heap_top (_heap (deadlines w))) as [[d k]|] eqn:Htop; [|done].
    destruct (decide (d = _registered_deadline (scope w k))); [done|].
    unfold heappop. mrun.
    set (wp := with_deadlines _ w).
    assert (deadlines wp = mkDeadlines (heap_remove (d, k) (_heap (deadlines w)))
                             (_active (deadlines w))) as Hwp
      by (unfold wp; simpl; by rewrite Htop).
    specialize (IH wp).
    destruct (Deadlines_next_deadline fuel wp) as [r w'] eqn:Hrun.
    destruct r; try done. simpl in *.
    apply IH. rewrite Hwp. simpl.
    pose proof (length_heap_remove _ _ (heap_top_elem _ _ Htop)). lia.
Qed.

(** *** Conditions that survive exceptions *)

(** [leads_to P m Q]: from a world satisfying [P], if [m] finishes within its
    fuel, by returning or by raising, the world satisfies [Q]. *)
Definition leads_to {A} (P : world -> Prop) (m : M world A) (Q : world -> Prop) : Prop :=
  ∀ w r w', P w -> m w = (r, w') -> r ≠ OutOfFuel -> Q w'.

Lemma hoare_leads_to {A} (P : world -> Prop) (m : M world A) (Q : A -> world -> Prop)
    (Q' : world -> Prop) :
  hoare P m Q -> (∀ a w, Q a w -> Q' w) -> leads_to P m Q'.
Proof. intros H HQ w r w' HP Hrun Hr. destruct (H w r w' HP Hrun Hr) as (a & _ & Ha). eauto. Qed.

Lemma leads_to_bind {A B} (P Q R : world -> Prop) (m : M world A) (k : A -> M world B) :
  leads_to P m Q -> (∀ w, Q w -> R w) -> (∀ a, leads_to Q (k a) R) ->
  leads_to P (bind m k) R.
Proof.
  intros Hm HQR Hk w r w' HP Hrun Hr. unfold bind in Hrun.
  destruct (m w) as [r1 w1] eqn:Hm1.
  destruct r1 as [a|e|].
  - eapply Hk; [|done|done]. by eapply Hm.
  - injection Hrun as <- <-. apply HQR. by eapply Hm.
  - injection Hrun as <- <-. done.
Qed.

Lemma leads_to_keep {A B} (I : world -> Prop) (m : M world A) (k : A -> M world B) :
  leads_to I m I -> (∀ a, leads_to I (k a) I) -> leads_to I (bind m k) I.
Proof. intros Hm Hk. eapply leads_to_bind; eauto. Qed.

Lemma leads_to_ret {A} (P : world -> Prop) (a : A) : leads_to P (ret a) P.
Proof. intros w r w' HP Hrun _. by injection Hrun as <- <-. Qed.

Lemma leads_to_gets {A} (P : world -> Prop) (f : world -> A) : leads_to P (gets f) P.
Proof. intros w r w' HP Hrun _. by injection Hrun as <- <-. Qed.

Lemma leads_to_raise {A} (P : world -> Prop) (e : exn) : leads_to P (raise (A := A) e) P.
Proof. intros w r w' HP Hrun _. by injection Hrun as <- <-. Qed.

Lemma leads_to_assert (P : world -> Prop) (c : bool) : leads_to P (assert c) P.
Proof. intros w r w' HP Hrun _. unfold assert in Hrun. destruct c; by injection Hrun as <- <-. Qed.

Lemma leads_to_out_of_fuel {A} (P Q : world -> Prop) : leads_to P (out_of_fuel (A := A)) Q.
Proof. intros w r w' HP Hrun Hr. by injection Hrun as <- <-. Qed.

Lemma leads_to_modify (P Q : world -> Prop) (f : world -> world) :
  (∀ w, P w -> Q (f w)) -> leads_to P (modify f) Q.
Proof. intros H w r w' HP Hrun _. injection Hrun as <- <-. auto. Qed.

Lemma leads_to_for_each {A} (I : world -> Prop) (body : A -> M world unit) (l : list A) :
  (∀ x, leads_to I (body x) I) -> leads_to I (for_each l body) I.
Proof.
  intros Hbody. induction l as [|x l IH]; simpl.
  - apply leads_to_ret.
  - apply leads_to_keep; [apply Hbody|]. by intros [].
Qed.

Lemma leads_to_consequence {A} (P P' Q Q' : world -> Prop) (m : M world A) :
  leads_to P' m Q' -> (∀ w, P w -> P' w) -> (∀ w, Q' w -> Q w) -> leads_to P m Q.
Proof. intros Hm HP HQ w r w' Hw Hrun Hr. apply HQ. eapply Hm; eauto. Qed.

(** The steps of a proof that a condition is kept: the code is taken apart
    down to its updates. *)
Ltac keep_step :=
  lazymatch goal with
  | |- leads_to _ (ret _) _ => apply leads_to_ret
  | |- leads_to _ (gets _) _ => apply leads_to_gets
  | |- leads_to _ (raise _) _ => apply leads_to_raise
  | |- leads_to _ (assert _) _ => apply leads_to_assert
  | |- leads_to _ out_of_fuel _ => apply leads_to_out_of_fuel
  | |- leads_to _ (for_each _ _) _ => apply leads_to_for_each; intros ?
  | |- leads_to _ (bind _ _) _ => apply leads_to_keep; [|intros ?]
  | |- leads_to _ (if ?b then _ else _) _ => destruct b
  | |- leads_to _ (match ?x with _ => _ end) _ => destruct x
  | |- leads_to _ (let _ := _ in _) _ => cbv zeta
  end.

(** *** The deadline heap and the registered deadlines *)

(** What [_might_change_registered_deadline] registers for a scope. *)
Definition registered_formula (sc : CancelScope) : time :=
  if is_None (_cancel_status sc) || _cancel_called sc then Inf else _deadline sc.

(** The number of scopes with a registered deadline. *)
Definition active_count (w : world) : nat :=
  length (filter (fun k => _registered_deadline (scope w k) ≠ Inf)
                 (seq 0 (length (scopes w)))).

(** The registered-deadline protocol: [_active] counts the scopes with a
    registered deadline, each of which has a live entry in the heap, and
    every scope registers what [_might_change_registered_deadline] says. *)
Record deadlines_ok (w : world) : Prop := mk_deadlines_ok {
  dl_active : _active (deadlines w) = Z.of_nat (active_count w);
  dl_live : ∀ k, _registered_deadline (scope w k) ≠ Inf ->
                 (_registered_deadline (scope w k), k) ∈ _heap (deadlines w);
  dl_finite : ∀ d k, (d, k) ∈ _heap (deadlines w) -> d ≠ Inf;
  dl_registered : ∀ k, _registered_deadline (scope w k) = registered_formula (scope w k)
}.

(** Inside [_might_change_registered_deadline] for scope [k]: what [k]
    registers may be out of date. *)
Record deadlines_pre (w : world) (k : nat) : Prop := mk_deadlines_pre {
  dp_active : _active (deadlines w) = Z.of_nat (active_count w);
  dp_live : ∀ k', k' ≠ k -> _registered_deadline (scope w k') ≠ Inf ->
                  (_registered_deadline (scope w k'), k') ∈ _heap (deadlines w);
  dp_finite : ∀ d k', (d, k') ∈ _heap (deadlines w) -> d ≠ Inf;
  dp_registered : ∀ k', k' ≠ k ->
                        _registered_deadline (scope w k') = registered_formula (scope w k');
  dp_self : _registered_deadline (scope w k) ≠ Inf ->
            _registered_deadline (scope w k) = registered_formula (scope w k) ->
            (_registered_deadline (scope w k), k) ∈ _heap (deadlines w)
}.

(** After [expire] popped the entry of scope [k]: the entry may be gone. *)
Record deadlines_popped (w : world) (k : nat) : Prop := mk_deadlines_popped {
  dq_active : _active (deadlines w) = Z.of_nat (active_count w);
  dq_live : ∀ k', k' ≠ k -> _registered_deadline (scope w k') ≠ Inf ->
                  (_registered_deadline (scope w k'), k') ∈ _heap (deadlines w);
  dq_finite : ∀ d k', (d, k') ∈ _heap (deadlines w) -> d ≠ Inf;
  dq_registered : ∀ k', _registered_deadline (scope w k') = registered_formula (scope w k')
}.

(** The scopes of [C] have been cancelled. *)
Definition called_ok (C : nat -> Prop) (w : world) : Prop :=
  ∀ k, C k -> _cancel_called (scope w k) = true.

Definition scopes_ok (C : nat -> Prop) (w : world) : Prop := deadlines_ok w ∧ called_ok C w.

Lemma active_count_ext w w' :
  length (scopes w') = length (scopes w) ->
  (∀ k, _registered_deadline (scope w' k) = _registered_deadline (scope w k)) ->
  active_count w' = active_count w.
Proof.
  intros Hl Hr. unfold active_count. rewrite Hl. f_equal.
  apply list_filter_iff. intros k. by rewrite Hr.
Qed.

Lemma deadlines_ok_ext w w' :
  deadlines_ok w -> scopes w' = scopes w -> deadlines w' = deadlines w -> deadlines_ok w'.
Proof.
  intros [D1 D2 D3 D4] Hs Hd.
  assert (∀ k, scope w' k = scope w k) as Hsc by (intros; by apply scope_same_scopes).
  constructor.
  - rewrite Hd, D1. f_equal. symmetry. apply active_count_ext; [by rewrite Hs|].
    intros k. by rewrite Hsc.
  - intros k. rewrite Hsc, Hd. apply D2.
  - intros d k. rewrite Hd. apply D3.
  - intros k. rewrite Hsc. apply D4.
Qed.

Lemma deadlines_pre_ext w w' k :
  deadlines_pre w k -> scopes w' = scopes w -> deadlines w' = deadlines w ->
  deadlines_pre w' k.
Proof.
  intros [D1 D2 D3 D4 D5] Hs Hd.
  assert (∀ k, scope w' k = scope w k) as Hsc by (intros; by apply scope_same_scopes).
  constructor.
  - rewrite Hd, D1. f_equal. symmetry. apply active_count_ext; [by rewrite Hs|].
    intros k'. by rewrite Hsc.
  - intros k'. rewrite Hsc, Hd. apply D2.
  - intros d k'. rewrite Hd. apply D3.
  - intros k'. rewrite Hsc. apply D4.
  - rewrite Hsc, Hd. apply D5.
Qed.

Lemma called_ok_ext C w w' : called_ok C w -> scopes w' = scopes w -> called_ok C w'.
Proof. intros H Hs k Hk. rewrite (scope_same_scopes w w') by done. by apply H. Qed.

Lemma scopes_ok_ext C w w' :
  scopes_ok C w -> scopes w' = scopes w -> deadlines w' = deadlines w -> scopes_ok C w'.
Proof. intros [H1 H2] Hs Hd. split; [by eapply deadlines_ok_ext|by eapply called_ok_ext]. Qed.

Lemma deadlines_ok_pre w k : deadlines_ok w -> deadlines_pre w k.
Proof. intros [D1 D2 D3 D4]. constructor; auto. Qed.

Lemma deadlines_ok_popped w k : deadlines_ok w -> deadlines_popped w k.
Proof. intros [D1 D2 D3 D4]. constructor; auto. Qed.

Lemma scope_invalid w k : ¬ (k < length (scopes w))%nat ->
  scope w k = mkScope None false Inf false false Inf false.
Proof. intros Hk. unfold scope. rewrite lookup_ge_None_2; [done|lia]. Qed.

Lemma update_scope_invalid w k f : ¬ (k < length (scopes w))%nat -> update_scope k f w = w.
Proof.
  intros Hk. unfold_world. rewrite list_insert_ge by lia. by destruct w.
Qed.

(** A scope changes a field that is not its registered deadline. *)
Lemma deadlines_pre_update_scope w k f :
  (∀ sc, _registered_deadline (f sc) = _registered_deadline sc) ->
  deadlines_ok w -> deadlines_pre (update_scope k f w) k.
Proof.
  intros Hf [D1 D2 D3 D4].
  pose proof (scope_update_scope_field _registered_deadline w k f Hf) as Hreg.
  constructor.
  - change (deadlines (update_scope k f w)) with (deadlines w). rewrite D1. f_equal.
    symmetry. apply active_count_ext; [|done]. unfold_world. simpl. by rewrite length_insert.
  - intros k' Hne. rewrite Hreg. apply D2.
  - apply D3.
  - intros k' Hne. rewrite scope_update_scope_ne by done. apply D4.
  - intros Hinf _. rewrite Hreg in *. by apply D2.
Qed.

(** [cancel] sets [_cancel_called]: the scope is to register nothing. *)
Lemma deadlines_pre_set_cancel_called w k :
  deadlines_popped w k -> deadlines_pre (update_scope k (set_cancel_called true) w) k.
Proof.
  intros [D1 D2 D3 D4].
  pose proof (scope_update_scope_field _registered_deadline w k (set_cancel_called true)
                (fun _ => eq_refl)) as Hreg.
  constructor.
  - change (deadlines (update_scope k _ w)) with (deadlines w). rewrite D1. f_equal.
    symmetry. apply active_count_ext; [|done]. unfold_world. simpl. by rewrite length_insert.
  - intros k' Hne. rewrite Hreg. by apply D2.
  - apply D3.
  - intros k' Hne. rewrite scope_update_scope_ne by done. apply D4.
  - destruct (decide (k < length (scopes w))%nat) as [Hk|Hk].
    + rewrite scope_update_scope by done. destruct (decide (k = k)); [|done].
      unfold registered_formula. simpl. rewrite orb_true_r. done.
    + rewrite update_scope_invalid by done. rewrite scope_invalid by done. done.
Qed.

Lemma called_ok_update_scope C w k f :
  (∀ sc, _cancel_called sc = true -> _cancel_called (f sc) = true) ->
  called_ok C w -> called_ok C (update_scope k f w).
Proof.
  intros Hf H k' Hk'. specialize (H k' Hk').
  destruct (decide (k' = k)) as [->|Hne]; [|by rewrite scope_update_scope_ne].
  destruct (decide (k < length (scopes w))%nat) as [Hk|Hk].
  - rewrite scope_update_scope by done. destruct (decide (k = k)); [|done]. by apply Hf.
  - by rewrite update_scope_invalid.
Qed.

(** *** [_might_change_registered_deadline] *)

Lemma filter_ext_elem_of (P P' : nat -> Prop) `{∀ x, Decision (P x)} `{∀ x, Decision (P' x)}
    (l : list nat) :
  (∀ x, x ∈ l -> P x ↔ P' x) -> filter P l = filter P' l.
Proof.
  induction l as [|x l IH]; intros Hext; [done|].
  rewrite !filter_cons.
  rewrite IH by (intros y Hy; apply Hext; by right).
  pose proof (Hext x ltac:(left)) as Hx.
  destruct (decide (P x)), (decide (P' x)); tauto.
Qed.

Lemma length_filter_change (P P' : nat -> Prop) `{∀ x, Decision (P x)} `{∀ x, Decision (P' x)}
    (k : nat) (l : list nat) :
  NoDup l -> k ∈ l -> (∀ x, x ≠ k -> P x ↔ P' x) ->
  Z.of_nat (length (filter P' l)) + (if decide (P k) then 1 else 0)
  = Z.of_nat (length (filter P l)) + (if decide (P' k) then 1 else 0).
Proof.
  intros Hnd Hk Hext. induction Hnd as [|x l Hx Hnd IH]; [inversion Hk|].
  rewrite !filter_cons.
  destruct (decide (x = k)) as [->|Hne].
  - assert (filter P' l = filter P l) as ->.
    { apply filter_ext_elem_of. intros y Hy. symmetry. apply Hext. by intros ->. }
    destruct (decide (P k)), (decide (P' k)); simpl; lia.
  - apply elem_of_cons in Hk as [->|Hk]; [done|]. specialize (IH Hk).
    pose proof (Hext x Hne) as Hx'.
    destruct (decide (P x)), (decide (P' x)); simpl length; try tauto; lia.
Qed.

Lemma active_count_set_registered w k new :
  (k < length (scopes w))%nat ->
  Z.of_nat (active_count (update_scope k (set_registered_deadline new) w))
  = Z.of_nat (active_count w)
    - (if decide (_registered_deadline (scope w k) = Inf) then 0 else 1)
    + (if decide (new = Inf) then 0 else 1).
Proof.
  intros Hk. unfold active_count.
  replace (length (scopes (update_scope k (set_registered_deadline new) w)))
    with (length (scopes w)) by (unfold_world; simpl; by rewrite length_insert).
  set (w1 := update_scope k (set_registered_deadline new) w).
  assert (_registered_deadline (scope w1 k) = new) as Hnew.
  { unfold w1. rewrite scope_update_scope by done. by destruct (decide (k = k)). }
  pose proof (length_filter_change
    (fun x => _registered_deadline (scope w x) ≠ Inf)
    (fun x => _registered_deadline (scope w1 x) ≠ Inf)
    k (seq 0 (length (scopes w))) (NoDup_seq _ _)) as H.
  cbv beta in H. rewrite Hnew in H.
  assert (k ∈ seq 0 (length (scopes w))) as Hin by (apply elem_of_seq; lia).
  assert (∀ x, x ≠ k -> _registered_deadline (scope w x) ≠ Inf
                        ↔ _registered_deadline (scope w1 x) ≠ Inf) as Hext
    by (intros x Hne; unfold w1; by rewrite scope_update_scope_ne).
  specialize (H Hin Hext).
  destruct (decide (_registered_deadline (scope w k) = Inf)),
    (decide (new = Inf)),
    (decide (_registered_deadline (scope w k) ≠ Inf)),
    (decide (new ≠ Inf)); try done; lia.
Qed.

(** What an update of the registered deadline changes: the registered
    deadlines, the heap and the guest tick. *)
Record registered_frame (w w' : world) : Prop := mk_registered_frame {
  rf_statuses : statuses w' = statuses w;
  rf_tasks : tasks w' = tasks w;
  rf_runq : runq w' = runq w;
  rf_guest : is_guest w' = is_guest w;
  rf_len : length (scopes w') = length (scopes w);
  rf_scope : ∀ x, set_registered_deadline Inf (scope w' x)
                  = set_registered_deadline Inf (scope w x)
}.

Lemma registered_frame_refl w : registered_frame w w.
Proof. by constructor. Qed.

(** Running the rest of a computation from a known world. *)
Lemma hoare_gets_eq {A B} (w0 : world) (f : world -> A) (k : A -> M world B)
    (Q : B -> world -> Prop) :
  hoare (eq w0) (k (f w0)) Q -> hoare (eq w0) (bind (gets f) k) Q.
Proof. intros H w r w' <- Hrun Hr. by eapply H. Qed.

Lemma hoare_modify_eq {B} (w0 : world) (f : world -> world) (k : unit -> M world B)
    (Q : B -> world -> Prop) :
  hoare (eq (f w0)) (k tt) Q -> hoare (eq w0) (bind (modify f) k) Q.
Proof. intros H w r w' <- Hrun Hr. by eapply H. Qed.

Section RegisteredDeadlineUpdate.
Variable w0 : world.
Variable k : nat.
Variable new : time.
(** Whether the heap is known to follow the protocol. *)
Variable ok : Prop.
Let w1 := update_scope k (set_registered_deadline new) w0.

(** The state of the heap between the steps of the update. *)
Definition update_state (a : Z) (added : Prop) (n : nat) (w : world) : Prop :=
  scopes w = scopes w1 ∧ statuses w = statuses w0 ∧ tasks w = tasks w0 ∧
  runq w = runq w0 ∧ is_guest w = is_guest w0 ∧
  (length (_heap (deadlines w)) <= n + length (_heap (deadlines w0)))%nat ∧
  (ok ->
   _active (deadlines w) = a ∧
   (∀ d k', (d, k') ∈ _heap (deadlines w) -> d ≠ Inf) ∧
   (∀ k', k' ≠ k -> _registered_deadline (scope w1 k') ≠ Inf ->
          (_registered_deadline (scope w1 k'), k') ∈ _heap (deadlines w)) ∧
   (added -> (_registered_deadline (scope w1 k), k) ∈ _heap (deadlines w))).

Lemma update_state_next_deadline fuel a added n :
  hoare (update_state a added n) (Deadlines_next_deadline fuel)
        (fun _ => update_state a added n).
Proof.
  intros w r w' (H1 & H2 & H3 & H4 & H5 & H6 & H7) Hrun Hr.
  destruct (next_deadline_correct fuel w r w' Hrun Hr)
    as ([d ->] & [F1 F2 F3 F4 F5 F6] & _ & Hlen & Hsub & Hlive).
  exists d. split; [done|].
  assert (∀ x, scope w x = scope w1 x) as Hsc by (intros; by apply scope_same_scopes).
  repeat split; try congruence; try lia.
  - rewrite F6. by apply H7.
  - intros d' k' Hin. destruct (H7 H) as (_ & Hfin & _). eapply Hfin. by apply Hsub.
  - intros k' Hne Hreg. destruct (H7 H) as (_ & _ & Hl & _).
    apply Hlive; [by apply Hl|]. by rewrite Hsc.
  - intros Ha. destruct (H7 H) as (_ & _ & _ & Hl). apply Hlive; [by apply Hl|]. by rewrite Hsc.
Qed.

Lemma update_state_remove a added n old :
  hoare (update_state a added n) (Deadlines_remove old k)
        (fun _ => update_state (a - 1) added n).
Proof.
  apply hoare_modify. intros w (H1 & H2 & H3 & H4 & H5 & H6 & H7).
  repeat split; try done; try (by apply H7). simpl. by destruct (H7 H) as [-> _].
Qed.

Lemma update_state_add a :
  new ≠ Inf -> (k < length (scopes w0))%nat ->
  hoare (update_state a False 0) (Deadlines_add new k) (fun _ => update_state (a + 1) True 1).
Proof.
  intros Hnew Hk. apply hoare_modify. intros w (H1 & H2 & H3 & H4 & H5 & H6 & H7).
  repeat split; try done; simpl.
  - unfold heappush. rewrite length_app. simpl. lia.
  - by destruct (H7 H) as [-> _].
  - intros d k' Hin. apply elem_of_app in Hin as [Hin|Hin].
    + destruct (H7 H) as (_ & Hfin & _). by eapply Hfin.
    + apply list_elem_of_singleton in Hin. by injection Hin as -> ->.
  - intros k' Hne Hreg. apply elem_of_app. left. destruct (H7 H) as (_ & _ & Hl & _).
    by apply Hl.
  - intros _. apply elem_of_app. right. apply list_elem_of_singleton.
    unfold w1. rewrite scope_update_scope by done. by destruct (decide (k = k)).
Qed.

Lemma update_state_force_guest_tick a added n :
  hoare (update_state a added n) force_guest_tick_asap (fun _ => update_state a added n).
Proof.
  unfold force_guest_tick_asap. eapply hoare_bind.
  - apply hoare_gets with (Q := fun _ => update_state a added n). auto.
  - intros []; [by apply hoare_ret|]. by apply hoare_modify.
Qed.

Lemma update_state_weaken a (added added' : Prop) n n' w :
  (added' -> added) -> (n <= n')%nat ->
  update_state a added n w -> update_state a added' n' w.
Proof.
  intros Hi Hn (H1 & H2 & H3 & H4 & H5 & H6 & H7). repeat split; try done; try lia;
    try (by apply H7).
  intros Ha. apply H7; auto.
Qed.

End RegisteredDeadlineUpdate.

Lemma update_state_final w0 k new (ok : Prop) w' :
  (k < length (scopes w0))%nat ->
  new = registered_formula (scope w0 k) ->
  (ok -> deadlines_pre w0 k) ->
  update_state w0 k new ok
    (Z.of_nat (active_count w0)
     - (if decide (_registered_deadline (scope w0 k) = Inf) then 0 else 1)
     + (if decide (new = Inf) then 0 else 1)) (new ≠ Inf)
    (if decide (new = Inf) then 0 else 1)%nat w' ->
  registered_frame w0 w' ∧
  (length (_heap (deadlines w'))
   <= (if decide (new = Inf) then 0 else 1) + length (_heap (deadlines w0)))%nat ∧
  (∀ x, _registered_deadline (scope w' x)
        = if decide (x = k) then registered_formula (scope w0 k)
          else _registered_deadline (scope w0 x)) ∧
  (ok -> deadlines_ok w').
Proof.
  intros Hk Hnew Hpre (H1 & H2 & H3 & H4 & H5 & H6 & H7).
  set (w1 := update_scope k (set_registered_deadline new) w0) in *.
  assert (∀ x, scope w' x = scope w1 x) as Hsc by (intros; by apply scope_same_scopes).
  assert (∀ x, scope w1 x = if decide (x = k) then set_registered_deadline new (scope w0 k)
                            else scope w0 x) as Hsc1
    by (intros; by apply scope_update_scope).
  assert (length (scopes w1) = length (scopes w0)) as Hlen
    by (unfold w1; unfold_world; simpl; by rewrite length_insert).
  assert (∀ x, _registered_deadline (scope w' x)
               = if decide (x = k) then registered_formula (scope w0 k)
                 else _registered_deadline (scope w0 x)) as Hreg.
  { intros x. rewrite Hsc, Hsc1. destruct (decide (x = k)); [by subst|done]. }
  split; [|split; [done|split; [done|]]].
  - constructor; try done.
    + by rewrite H1.
    + intros x. rewrite Hsc, Hsc1. by destruct (decide (x = k)) as [->|].
  - intros Hok. destruct (H7 Hok) as (Ha & Hfin & Hlive & Hadded).
    destruct (Hpre Hok) as [D1 D2 D3 D4 D5].
    constructor.
    + rewrite Ha, <- active_count_set_registered by done. f_equal.
      symmetry. apply active_count_ext; [by rewrite H1|]. intros x. by rewrite Hsc.
    + intros x Hx. rewrite Hsc. rewrite Hsc in Hx.
      destruct (decide (x = k)) as [->|Hne]; [|by apply Hlive].
      apply Hadded. rewrite Hsc1 in Hx. destruct (decide (k = k)); [|done]. done.
    + done.
    + intros x. rewrite Hsc, Hsc1. destruct (decide (x = k)) as [->|Hne]; [|by apply D4].
      simpl. rewrite Hnew. unfold registered_formula. done.
Qed.

(** The [finally] block of [_might_change_registered_deadline]: the scope
    registers what it should, and if the heap followed the protocol for all
    the other scopes, it now does for all. *)
Lemma registered_deadline_update_correct fuel k w0 (ok : Prop) :
  (ok -> deadlines_pre w0 k) ->
  hoare (eq w0) (registered_deadline_update fuel k)
    (fun _ w' =>
       registered_frame w0 w' ∧
       (length (_heap (deadlines w'))
        <= (if decide (registered_formula (scope w0 k) = Inf) then 0 else 1)
           + length (_heap (deadlines w0)))%nat ∧
       (∀ x, _registered_deadline (scope w' x)
             = if decide (x = k) then registered_formula (scope w0 k)
               else _registered_deadline (scope w0 x)) ∧
       (ok -> deadlines_ok w')).
Proof.
  intros Hpre. unfold registered_deadline_update.
  apply hoare_gets_eq. cbv beta zeta.
  fold (registered_formula (scope w0 k)).
  set (new := registered_formula (scope w0 k)).
  destruct (decide (_registered_deadline (scope w0 k) = new)) as [Heq|Hne].
  { apply hoare_ret. intros w <-. split; [apply registered_frame_refl|]. split; [lia|]. split.
    - intros x. by destruct (decide (x = k)) as [->|].
    - intros Hok. destruct (Hpre Hok) as [D1 D2 D3 D4 D5]. constructor; try done.
      + intros x Hx. destruct (decide (x = k)) as [->|Hnk]; [by apply D5|by apply D2].
      + intros x. destruct (decide (x = k)) as [->|Hnk]; [done|by apply D4]. }
  assert (k < length (scopes w0))%nat as Hk.
  { destruct (decide (k < length (scopes w0))%nat) as [|Hk]; [done|].
    exfalso. apply Hne. unfold new. by rewrite scope_invalid. }
  apply hoare_modify_eq. apply hoare_gets_eq.
  change (is_guest (update_scope k (set_registered_deadline new) w0)) with (is_guest w0).
  set (a0 := Z.of_nat (active_count w0)).
  set (a1 := a0 - (if decide (_registered_deadline (scope w0 k) = Inf) then 0 else 1)).
  set (a2 := a1 + (if decide (new = Inf) then 0 else 1)).
  eapply hoare_consequence with
    (P' := update_state w0 k new ok a0 False 0)
    (Q' := fun _ => update_state w0 k new ok a2 (new ≠ Inf)
                      (if decide (new = Inf) then 0 else 1)%nat).
  - eapply hoare_bind with (Q := fun _ => update_state w0 k new ok a0 False 0).
    { destruct (is_guest w0); [apply update_state_next_deadline|by apply hoare_ret]. }
    intros old_next.
    eapply hoare_bind with (Q := fun _ => update_state w0 k new ok a1 False 0).
    { unfold a1. destruct (decide (_registered_deadline (scope w0 k) = Inf)).
      - apply hoare_ret. intros w. by rewrite Z.sub_0_r.
      - apply update_state_remove. }
    intros [].
    eapply hoare_bind with (Q := fun _ => update_state w0 k new ok a2 (new ≠ Inf)
                                          (if decide (new = Inf) then 0 else 1)%nat).
    { unfold a2. destruct (decide (new = Inf)) as [Hinf|Hinf].
      - apply hoare_ret. intros w. rewrite Z.add_0_r.
        apply update_state_weaken; [done|lia].
      - eapply hoare_consequence; [by apply update_state_add|done|].
        intros ? w. apply update_state_weaken; [done|lia]. }
    intros [].
    destruct (is_guest w0); [|by apply hoare_ret].
    eapply hoare_bind; [apply update_state_next_deadline|].
    intros new_next. destruct (decide (old_next = new_next)); [by apply hoare_ret|].
    apply update_state_force_guest_tick.
  - intros w <-. repeat split; try done; try lia; destruct (Hpre H) as [D1 D2 D3 D4 D5].
    + done.
    + apply D3.
    + intros k' Hnk. rewrite scope_update_scope_ne by done. by apply D2.
  - intros ? w. by apply update_state_final.
Qed.

(** *** The protocol is kept *)

Lemma leads_to_might_change {A} (P J Q : world -> Prop) fuel k (body : M world A) :
  leads_to P body J -> leads_to J (registered_deadline_update fuel k) Q ->
  leads_to P (_might_change_registered_deadline fuel k body) Q.
Proof.
  intros Hbody Hupd w r w' HP Hrun Hr. unfold _might_change_registered_deadline in Hrun.
  destruct (body w) as [r1 w1] eqn:Hb.
  assert (r1 ≠ OutOfFuel -> J w1) as HJ by (intros; by eapply Hbody).
  destruct (registered_deadline_update fuel k w1) as [r2 w2] eqn:Hu.
  assert (r2 ≠ OutOfFuel -> J w1 -> Q w2) as HQ by (intros; by eapply Hupd).
  destruct r1 as [a|e|]; [| |by injection Hrun as <- <-].
  - destruct r2 as [[]|e2|]; injection Hrun as <- <-; try done; by apply HQ, HJ.
  - destruct r2 as [[]|e2|]; injection Hrun as <- <-; try done; by apply HQ, HJ.
Qed.

Lemma leads_to_gets_bind {A B} (P Q : world -> Prop) (f : world -> A) (k : A -> M world B) :
  (∀ a, leads_to (fun w => P w ∧ f w = a) (k a) Q) -> leads_to P (bind (gets f) k) Q.
Proof. intros H w r w' HP Hrun Hr. by eapply (H (f w) w). Qed.

Lemma called_ok_registered_frame C w w' :
  registered_frame w w' -> called_ok C w -> called_ok C w'.
Proof.
  intros [_ _ _ _ _ Hsc] H k Hk.
  pose proof (f_equal _cancel_called (Hsc k)) as Hc. simpl in Hc. rewrite Hc. by apply H.
Qed.

Lemma registered_deadline_update_keeps C fuel k :
  leads_to (fun w => deadlines_pre w k ∧ called_ok C w)
           (registered_deadline_update fuel k) (scopes_ok C).
Proof.
  intros w r w' [Hpre HC] Hrun Hr.
  destruct (registered_deadline_update_correct fuel k w True (fun _ => Hpre) w r w' eq_refl Hrun Hr)
    as (a & _ & Hf & _ & _ & Hok).
  split; [by apply Hok|by eapply called_ok_registered_frame].
Qed.

(** Code that touches neither the scopes nor the heap keeps every condition
    on them. *)
Section Frame.
Variable I : world -> Prop.
Hypothesis I_ext : ∀ w w', I w -> scopes w' = scopes w -> deadlines w' = deadlines w -> I w'.

Ltac keep_frame :=
  repeat first
    [ keep_step
    | apply leads_to_modify; intros ? ?; eapply I_ext; [eassumption|reflexivity|reflexivity]
    | solve [eauto] ].

Lemma force_guest_tick_asap_frame : leads_to I force_guest_tick_asap I.
Proof. unfold force_guest_tick_asap. keep_frame. Qed.
Local Hint Resolve force_guest_tick_asap_frame : core.

Lemma reschedule_frame t o : leads_to I (reschedule t o) I.
Proof. unfold reschedule. keep_frame. Qed.
Local Hint Resolve reschedule_frame : core.

Lemma _attempt_abort_frame t a : leads_to I (_attempt_abort t a) I.
Proof. unfold _attempt_abort. keep_frame. Qed.
Local Hint Resolve _attempt_abort_frame : core.

Lemma delivery_frame_keeps t : leads_to I (_attempt_delivery_of_any_pending_cancel t) I.
Proof. unfold _attempt_delivery_of_any_pending_cancel. keep_frame. Qed.
Local Hint Resolve delivery_frame_keeps : core.

Lemma children_remove_frame p s : leads_to I (children_remove p s) I.
Proof. unfold children_remove. keep_frame. Qed.

Lemma children_add_frame p s : leads_to I (children_add p s) I.
Proof. unfold children_add. keep_frame. Qed.

Lemma _mark_abandoned_frame fuel : ∀ s, leads_to I (_mark_abandoned fuel s) I.
Proof. induction fuel as [|fuel IH]; intros s; simpl; keep_frame. Qed.

Lemma _activate_cancel_status_frame t cs : leads_to I (_activate_cancel_status t cs) I.
Proof. unfold _activate_cancel_status. keep_frame. Qed.
Local Hint Resolve _activate_cancel_status_frame : core.

Lemma spawn_impl_frame s : leads_to I (spawn_impl s) I.
Proof. unfold spawn_impl. keep_frame. Qed.

Lemma wait_task_rescheduled_frame t a : leads_to I (wait_task_rescheduled t a) I.
Proof. unfold wait_task_rescheduled. keep_frame. Qed.

End Frame.

Lemma scopes_pre_ext C k w w' :
  deadlines_pre w k ∧ called_ok C w -> scopes w' = scopes w -> deadlines w' = deadlines w ->
  deadlines_pre w' k ∧ called_ok C w'.
Proof. intros [H1 H2] Hs Hd. split; [by eapply deadlines_pre_ext|by eapply called_ok_ext]. Qed.

(** A scope changes a field that the registered deadline does not depend
    on. *)
Lemma scopes_ok_update_scope C w k f :
  (∀ sc, _registered_deadline (f sc) = _registered_deadline sc) ->
  (∀ sc, registered_formula (f sc) = registered_formula sc) ->
  (∀ sc, _cancel_called sc = true -> _cancel_called (f sc) = true) ->
  scopes_ok C w -> scopes_ok C (update_scope k f w).
Proof.
  intros Hreg Hform Hcalled [Hok HC]. split; [|by apply called_ok_update_scope].
  destruct (deadlines_pre_update_scope w k f Hreg Hok) as [D1 D2 D3 D4 D5].
  pose proof (scope_update_scope_field _registered_deadline w k f Hreg) as Hr.
  pose proof (scope_update_scope_field registered_formula w k f Hform) as Hf.
  constructor; try done.
  - intros k'. rewrite Hr. apply (dl_live _ Hok).
  - intros k'. rewrite Hr, Hf. apply (dl_registered _ Hok).
Qed.

Section Keeps.
Variable C : nat -> Prop.

Ltac keep_scopes :=
  repeat first
    [ keep_step
    | apply leads_to_modify; intros ? ?; eapply scopes_ok_ext; [eassumption|reflexivity|reflexivity]
    | apply leads_to_modify; intros ? ?; apply scopes_ok_update_scope; [done|done|done|assumption]
    | solve [eauto using scopes_ok_ext]
    | solve [apply reschedule_frame; apply scopes_ok_ext]
    | solve [apply delivery_frame_keeps; apply scopes_ok_ext]
    | solve [apply children_remove_frame; apply scopes_ok_ext]
    | solve [apply children_add_frame; apply scopes_ok_ext]
    | solve [apply _mark_abandoned_frame; apply scopes_ok_ext]
    | solve [apply _activate_cancel_status_frame; apply scopes_ok_ext]
    | solve [apply spawn_impl_frame; apply scopes_ok_ext]
    | solve [apply wait_task_rescheduled_frame; apply scopes_ok_ext] ].

(** [cancel], also when [expire] has just popped the entry of the scope. *)
Lemma cancel_with_keeps recalculate fuel k :
  (∀ s, leads_to (scopes_ok C) (recalculate s) (scopes_ok C)) ->
  leads_to (fun w => called_ok C w ∧ deadlines_popped w k ∧
                     (_cancel_called (scope w k) = true -> deadlines_ok w))
           (cancel_with recalculate fuel k) (scopes_ok C).
Proof.
  intros Hrec. unfold cancel_with. apply leads_to_gets_bind. intros [].
  { intros w r w' [(HC & Hpop & Hok) Hc] Hrun _. injection Hrun as <- <-. split; auto. }
  eapply leads_to_bind with (Q := scopes_ok C); [|done|intros []; keep_scopes].
  eapply leads_to_might_change; [|apply registered_deadline_update_keeps].
  apply leads_to_modify. intros w [(HC & Hpop & Hok) Hc]. split.
  - by apply deadlines_pre_set_cancel_called.
  - by apply called_ok_update_scope.
Qed.

Lemma scopes_ok_popped w k :
  scopes_ok C w ->
  called_ok C w ∧ deadlines_popped w k ∧ (_cancel_called (scope w k) = true -> deadlines_ok w).
Proof. intros [Hok HC]. split; [done|]. split; [by apply deadlines_ok_popped|done]. Qed.

Lemma cancel_called_with_keeps recalculate fuel k now :
  (∀ s, leads_to (scopes_ok C) (recalculate s) (scopes_ok C)) ->
  leads_to (scopes_ok C) (cancel_called_with recalculate fuel k now) (scopes_ok C).
Proof.
  intros Hrec. unfold cancel_called_with. keep_scopes.
  eapply leads_to_consequence; [by apply cancel_with_keeps| |done].
  intros w. apply scopes_ok_popped.
Qed.

Lemma recalculate_loop_keeps fuel now : ∀ todo,
  leads_to (scopes_ok C) (recalculate_loop fuel now todo) (scopes_ok C).
Proof.
  induction fuel as [|fuel IH]; intros [|current todo]; simpl; keep_scopes.
  apply cancel_called_with_keeps. intros s. apply IH.
Qed.

Lemma recalculate_keeps fuel now s :
  leads_to (scopes_ok C) (recalculate fuel now s) (scopes_ok C).
Proof. apply recalculate_loop_keeps. Qed.

Lemma cancel_keeps fuel now k : leads_to (scopes_ok C) (cancel fuel now k) (scopes_ok C).
Proof.
  eapply leads_to_consequence; [apply cancel_with_keeps, recalculate_keeps| |done].
  intros w. apply scopes_ok_popped.
Qed.

Lemma cancel_called_keeps fuel k now :
  leads_to (scopes_ok C) (cancel_called fuel k now) (scopes_ok C).
Proof. apply cancel_called_with_keeps, recalculate_keeps. Qed.

Lemma CancelStatus_new_keeps fuel now k parent :
  leads_to (scopes_ok C) (CancelStatus_new fuel now k parent) (scopes_ok C).
Proof. unfold CancelStatus_new. keep_scopes; apply recalculate_keeps. Qed.

Lemma parent_setter_keeps fuel now s parent :
  leads_to (scopes_ok C) (parent_setter fuel now s parent) (scopes_ok C).
Proof. unfold parent_setter. keep_scopes; apply recalculate_keeps. Qed.

Lemma close_keeps fuel now s : leads_to (scopes_ok C) (close fuel now s) (scopes_ok C).
Proof.
  unfold close. keep_scopes; first [apply parent_setter_keeps|apply recalculate_keeps].
Qed.

(** A change of a field of scope [k] inside
    [_might_change_registered_deadline]. *)
Lemma might_change_modify_keeps fuel k f :
  (∀ sc, _registered_deadline (f sc) = _registered_deadline sc) ->
  (∀ sc, _cancel_called sc = true -> _cancel_called (f sc) = true) ->
  leads_to (scopes_ok C)
    (_might_change_registered_deadline fuel k (modify (update_scope k f))) (scopes_ok C).
Proof.
  intros Hreg Hcalled.
  eapply leads_to_might_change; [|apply registered_deadline_update_keeps].
  apply leads_to_modify. intros w [Hok HC]. split.
  - by apply deadlines_pre_update_scope.
  - by apply called_ok_update_scope.
Qed.

Lemma deadline_setter_keeps fuel k d :
  leads_to (scopes_ok C) (deadline_setter fuel k d) (scopes_ok C).
Proof. by apply might_change_modify_keeps. Qed.

Lemma shield_setter_keeps fuel now k b :
  leads_to (scopes_ok C) (shield_setter fuel now k b) (scopes_ok C).
Proof. unfold shield_setter. keep_scopes. apply recalculate_keeps. Qed.

End Keeps.

Lemma leads_to_modify_bind {B} (P P' Q : world -> Prop) (f : world -> world)
    (k : unit -> M world B) :
  (∀ w, P w -> P' (f w)) -> leads_to P' (k tt) Q -> leads_to P (bind (modify f) k) Q.
Proof. intros Hf Hk w r w' HP Hrun Hr. eapply Hk; [|exact Hrun|done]. by apply Hf. Qed.

Lemma scope_with_scopes_app w sc k :
  scope (with_scopes (fun l => l ++ [sc]) w) k
  = if decide (k = length (scopes w)) then sc else scope w k.
Proof.
  unfold scope. simpl. destruct (decide (k = length (scopes w))) as [->|Hne].
  - rewrite lookup_app_r by lia. by rewrite Nat.sub_diag.
  - destruct (decide (k < length (scopes w))%nat).
    + by rewrite lookup_app_l.
    + rewrite !lookup_ge_None_2; [done|lia|rewrite length_app; simpl; lia].
Qed.

Lemma active_count_new_scope w sc :
  _registered_deadline sc = Inf ->
  active_count (with_scopes (fun l => l ++ [sc]) w) = active_count w.
Proof.
  intros Hsc. unfold active_count. simpl. rewrite length_app. simpl.
  rewrite Nat.add_1_r, seq_S, filter_app. simpl.
  rewrite filter_cons, filter_nil, scope_with_scopes_app.
  destruct (decide (length (scopes w) = length (scopes w))); [|done].
  destruct (decide (_registered_deadline sc ≠ Inf)); [done|].
  rewrite app_nil_r. f_equal. apply filter_ext_elem_of.
  intros x Hx. apply elem_of_seq in Hx. rewrite scope_with_scopes_app.
  destruct (decide (x = length (scopes w))); [lia|done].
Qed.

Lemma mem_elem_of x l : mem x l = true ↔ x ∈ l.
Proof.
  induction l as [|y l IH]; simpl.
  - split; [done|]. intros H. inversion H.
  - destruct (decide (y = x)) as [->|Hne].
    + split; [intros _; left|done].
    + rewrite IH. split; [by right|]. intros H. apply elem_of_cons in H as [->|H]; done.
Qed.

(** *** [Deadlines._prune] *)

Lemma pruned_heap_elem_of reg h : ∀ seen e,
  e ∈ pruned_heap reg seen h -> e ∈ h ∧ e.1 = reg e.2 ∧ e.2 ∉ seen.
Proof.
  induction h as [|[d k] h IH]; intros seen e; simpl; [intros H; inversion H|].
  destruct (decide (d = reg k)) as [Hd|Hd].
  - destruct (mem k seen) eqn:Hm.
    + intros He. destruct (IH _ _ He) as (? & ? & ?). split; [by right|done].
    + intros He. apply elem_of_cons in He as [->|He].
      * split; [left|]. split; [done|]. simpl. rewrite <- mem_elem_of. by rewrite Hm.
      * destruct (IH _ _ He) as (? & ? & Hn). split; [by right|]. split; [done|].
        intros Hin. apply Hn. by right.
  - intros He. destruct (IH _ _ He) as (? & ? & ?). split; [by right|done].
Qed.

Lemma pruned_heap_live reg h : ∀ seen k,
  (reg k, k) ∈ h -> k ∉ seen -> (reg k, k) ∈ pruned_heap reg seen h.
Proof.
  induction h as [|[d k'] h IH]; intros seen k Hin Hseen; simpl; [inversion Hin|].
  apply elem_of_cons in Hin as [Heq|Hin].
  - injection Heq as <- <-. destruct (decide (reg k = reg k)); [|done].
    destruct (mem k seen) eqn:Hm; [by apply mem_elem_of in Hm|]. left.
  - destruct (decide (d = reg k')) as [Hd|Hd]; [|by apply IH].
    destruct (mem k' seen) eqn:Hm; [by apply IH|].
    destruct (decide (k = k')) as [->|Hne]; [rewrite Hd; left|].
    right. apply IH; [done|]. intros H. apply elem_of_cons in H as [?|?]; done.
Qed.

Lemma pruned_heap_NoDup reg h : ∀ seen, NoDup (pruned_heap reg seen h).*2.
Proof.
  induction h as [|[d k] h IH]; intros seen; simpl; [constructor|].
  destruct (decide (d = reg k)); [|apply IH].
  destruct (mem k seen); [apply IH|].
  csimpl. constructor; [|apply IH].
  intros Hin. apply list_elem_of_fmap in Hin as ([d' k'] & Hk & Hin). simpl in Hk. subst k'.
  apply pruned_heap_elem_of in Hin as (_ & _ & Hn). apply Hn. left.
Qed.

(** In a heap that follows the protocol, compaction leaves [_active]
    entries: the assertion of [_prune] holds. *)
Lemma pruned_heap_length w :
  deadlines_ok w ->
  Z.of_nat (length (pruned_heap (fun k => _registered_deadline (scope w k)) []
                      (_heap (deadlines w))))
  = _active (deadlines w).
Proof.
  intros [D1 D2 D3 D4]. rewrite D1. f_equal. unfold active_count.
  rewrite <- (length_fmap snd). apply Permutation_length, NoDup_Permutation.
  - apply pruned_heap_NoDup.
  - apply NoDup_filter, NoDup_seq.
  - intros k. rewrite list_elem_of_filter, elem_of_seq. split.
    + intros Hin. apply list_elem_of_fmap in Hin as ([d k'] & Hk & Hin). simpl in Hk. subst k'.
      apply pruned_heap_elem_of in Hin as (Hin & Hd & _). simpl in Hd.
      assert (_registered_deadline (scope w k) ≠ Inf) as Hne
        by (rewrite <- Hd; by eapply D3).
      split; [done|]. split; [lia|]. simpl. apply scope_valid. auto.
    + intros [Hne _]. apply list_elem_of_fmap.
      exists (_registered_deadline (scope w k), k). split; [done|].
      apply (pruned_heap_live (fun k => _registered_deadline (scope w k)));
        [by apply D2|apply not_elem_of_nil].
Qed.

Lemma Deadlines_prune_correct w :
  deadlines_ok w ->
  ∃ w', Deadlines_prune w = (Ok tt, w') ∧ deadlines_ok w' ∧ scopes w' = scopes w ∧
        statuses w' = statuses w ∧ tasks w' = tasks w ∧ runq w' = runq w ∧
        is_guest w' = is_guest w ∧
        Z.of_nat (length (_heap (deadlines w'))) = _active (deadlines w').
Proof.
  intros Hok. pose proof (pruned_heap_length w Hok) as Hlen.
  unfold Deadlines_prune. mrun. unfold id. rewrite Hlen, Z.eqb_refl. simpl.
  eexists. split; [done|]. split; [|by repeat split].
  destruct Hok as [D1 D2 D3 D4]. constructor; simpl.
  - exact D1.
  - intros k Hk. change (scope (with_deadlines _ w) k) with (scope w k) in *.
    apply (pruned_heap_live (fun k => _registered_deadline (scope w k)));
      [by apply D2|apply not_elem_of_nil].
  - intros d k Hin. apply pruned_heap_elem_of in Hin as (Hin & _). by eapply D3.
  - intros k. apply D4.
Qed.

Section KeepsRun.
Variable C : nat -> Prop.

Ltac keep_scopes :=
  repeat first
    [ keep_step
    | apply leads_to_modify; intros ? ?; eapply scopes_ok_ext; [eassumption|reflexivity|reflexivity]
    | apply leads_to_modify; intros ? ?; apply scopes_ok_update_scope; [done|done|done|assumption]
    | solve [eauto using scopes_ok_ext]
    | solve [apply reschedule_frame; apply scopes_ok_ext]
    | solve [apply delivery_frame_keeps; apply scopes_ok_ext]
    | solve [apply _activate_cancel_status_frame; apply scopes_ok_ext]
    | solve [apply spawn_impl_frame; apply scopes_ok_ext]
    | solve [apply wait_task_rescheduled_frame; apply scopes_ok_ext]
    | apply cancel_keeps
    | apply cancel_called_keeps
    | apply close_keeps
    | apply CancelStatus_new_keeps
    | apply deadline_setter_keeps
    | apply shield_setter_keeps
    | apply might_change_modify_keeps; [done|done] ].

Lemma CancelScope_new_keeps deadline shield :
  leads_to (scopes_ok C) (CancelScope_new deadline shield) (scopes_ok C).
Proof.
  unfold CancelScope_new. keep_scopes.
  apply leads_to_modify. intros w [[D1 D2 D3 D4] HC].
  set (sc := mkScope None false Inf false false deadline shield).
  pose proof (scope_with_scopes_app w sc) as Hsc.
  assert (∀ k, _registered_deadline (scope (with_scopes (fun l => l ++ [sc]) w) k)
               = _registered_deadline (scope w k)
             ∧ registered_formula (scope (with_scopes (fun l => l ++ [sc]) w) k)
               = registered_formula (scope w k)
             ∧ _cancel_called (scope (with_scopes (fun l => l ++ [sc]) w) k)
               = _cancel_called (scope w k)) as H.
  { intros k. rewrite Hsc. destruct (decide (k = length (scopes w))) as [->|]; [|done].
    by rewrite scope_invalid by lia. }
  split; [constructor|].
  - simpl. rewrite D1. f_equal. symmetry. by apply active_count_new_scope.
  - intros k. destruct (H k) as (-> & _ & _). apply D2.
  - apply D3.
  - intros k. destruct (H k) as (-> & -> & _). apply D4.
  - intros k Hk. destruct (H k) as (_ & _ & ->). by apply HC.
Qed.

Lemma __enter___keeps fuel k t now :
  leads_to (scopes_ok C) (__enter__ fuel k t now) (scopes_ok C).
Proof.
  unfold __enter__. keep_scopes.
  eapply leads_to_might_change; [|apply registered_deadline_update_keeps].
  assert (∀ w, scopes_ok C w -> deadlines_pre w k ∧ called_ok C w) as Hpre
    by (intros w [? ?]; split; [by apply deadlines_ok_pre|done]).
  eapply leads_to_bind with (Q := scopes_ok C); [apply leads_to_gets|done|]. intros parent.
  eapply leads_to_bind with (Q := scopes_ok C); [apply CancelStatus_new_keeps|done|].
  intros s.
  eapply leads_to_bind with (Q := fun w => deadlines_pre w k ∧ called_ok C w); [|done|].
  - apply leads_to_modify. intros w [Hok HC]. split.
    + by apply deadlines_pre_update_scope.
    + by apply called_ok_update_scope.
  - intros []. apply _activate_cancel_status_frame. apply scopes_pre_ext.
Qed.

Lemma _exc_filter_keeps k e : leads_to (scopes_ok C) (_exc_filter k e) (scopes_ok C).
Proof. unfold _exc_filter. destruct e; keep_scopes. Qed.

Lemma map_m_keeps {A B} (handler : A -> M world B) (xs : list A) :
  (∀ x, leads_to (scopes_ok C) (handler x) (scopes_ok C)) ->
  leads_to (scopes_ok C) (map_m handler xs) (scopes_ok C).
Proof. intros Hh. induction xs as [|x xs IH]; simpl; keep_scopes. Qed.

Lemma _close_keeps leaves rebuild fuel now k t exc :
  leads_to (scopes_ok C) (_close leaves rebuild fuel now k t exc) (scopes_ok C).
Proof.
  unfold _close, MultiError_filter. keep_scopes.
  apply map_m_keeps. intros x. apply _exc_filter_keeps.
Qed.

Lemma Deadlines_next_deadline_keeps fuel :
  leads_to (scopes_ok C) (Deadlines_next_deadline fuel) (scopes_ok C).
Proof.
  intros w r w' [[D1 D2 D3 D4] HC] Hrun Hr.
  destruct (next_deadline_correct fuel w r w' Hrun Hr)
    as (_ & [F1 F2 F3 F4 F5 F6] & _ & _ & Hsub & Hlive).
  assert (∀ k, scope w' k = scope w k) as Hsc by (intros; by apply scope_same_scopes).
  split; [constructor|].
  - rewrite F6, D1. f_equal. symmetry. apply active_count_ext; [by rewrite F1|].
    intros k. by rewrite Hsc.
  - intros k. rewrite Hsc. intros Hk. apply Hlive; [by apply D2|done].
  - intros d k Hin. eapply D3. by apply Hsub.
  - intros k. rewrite Hsc. apply D4.
  - intros k Hk. rewrite Hsc. by apply HC.
Qed.

(** [heappop] of the top entry [(d, k)]: the other scopes keep their live
    entries, and so does [k] if the entry was stale. *)
Lemma heappop_popped w d k :
  heap_top (_heap (deadlines w)) = Some (d, k) -> scopes_ok C w ->
  ∃ w', heappop w = (Ok tt, w') ∧ scopes w' = scopes w ∧
        called_ok C w' ∧ deadlines_popped w' k ∧ d ≠ Inf ∧
        (d ≠ _registered_deadline (scope w k) -> deadlines_ok w').
Proof.
  intros Htop [[D1 D2 D3 D4] HC]. unfold heappop. mrun.
  set (w' := with_deadlines _ w).
  assert (deadlines w' = mkDeadlines (heap_remove (d, k) (_heap (deadlines w)))
                           (_active (deadlines w))) as Hw'
    by (unfold w'; simpl; by rewrite Htop).
  exists w'. split; [done|]. split; [done|]. split; [done|].
  assert (∀ k', (k' ≠ k ∨ d ≠ _registered_deadline (scope w k)) ->
                _registered_deadline (scope w k') ≠ Inf ->
                (_registered_deadline (scope w k'), k') ∈ _heap (deadlines w')) as Hlive.
  { intros k' Hne Hk'. rewrite Hw'. simpl. apply elem_of_heap_remove_ne; [by apply D2|].
    intros [= Hd ->]. destruct Hne; congruence. }
  assert (∀ d' k', (d', k') ∈ _heap (deadlines w') -> d' ≠ Inf) as Hfin.
  { intros d' k' Hin. rewrite Hw' in Hin. simpl in Hin. eapply D3.
    by eapply elem_of_heap_remove. }
  split; [|split].
  - constructor; try done.
    + by rewrite Hw'.
    + intros k' Hne. apply Hlive. by left.
  - eapply D3. by apply heap_top_elem.
  - intros Hd. constructor; try done.
    + by rewrite Hw'.
    + intros k'. apply Hlive. by right.
Qed.

Lemma expire_loop_keeps fuel now : ∀ did_something,
  leads_to (scopes_ok C) (expire_loop fuel now did_something) (scopes_ok C).
Proof.
  induction fuel as [|fuel IH]; intros did_something; simpl.
  { keep_scopes. }
  apply leads_to_gets_bind. intros h.
  destruct (heap_top h) as [[d k]|] eqn:Htop;
    [|eapply leads_to_consequence; [apply leads_to_ret|by intros w [? ?]|done]].
  destruct (time_le d (At now));
    [|eapply leads_to_consequence; [apply leads_to_ret|by intros w [? ?]|done]].
  intros w r w' [Hok Hh] Hrun Hr. subst h.
  destruct (heappop_popped w d k Htop Hok) as (w1 & Hpop & Hsc & HC1 & Hq & Hd & Hstale).
  unfold bind at 1 in Hrun. rewrite Hpop in Hrun.
  unfold bind at 1, gets at 1 in Hrun.
  rewrite (scope_same_scopes w w1) in Hrun by done.
  destruct (decide (d = _registered_deadline (scope w k))) as [Heq|Hne].
  - assert (leads_to (fun w => called_ok C w ∧ deadlines_popped w k ∧
                               (_cancel_called (scope w k) = true -> deadlines_ok w))
              (cancel fuel now k;;; expire_loop fuel now true)%monad (scopes_ok C)) as Hl.
    { eapply leads_to_bind with (Q := scopes_ok C);
        [apply cancel_with_keeps, recalculate_keeps|done|intros []; apply IH]. }
    eapply Hl; [|exact Hrun|done].
    split; [done|]. split; [done|]. intros Hc. exfalso. apply Hd.
      rewrite Heq, <- (scope_same_scopes w w1) by done.
      rewrite (dq_registered _ _ Hq). unfold registered_formula. rewrite Hc.
      by rewrite orb_true_r.
  - eapply IH; [|exact Hrun|done]. split; [by apply Hstale|done].
Qed.

Lemma Deadlines_prune_keeps : leads_to (scopes_ok C) Deadlines_prune (scopes_ok C).
Proof.
  intros w r w' [Hok HC] Hrun _.
  destruct (Deadlines_prune_correct w Hok) as (w1 & Hrun1 & Hok1 & Hsc & _).
  rewrite Hrun1 in Hrun. injection Hrun as <- <-. split; [done|by eapply called_ok_ext].
Qed.

Lemma expire_keeps fuel now : leads_to (scopes_ok C) (expire fuel now) (scopes_ok C).
Proof.
  unfold expire. keep_scopes; first [apply expire_loop_keeps|apply Deadlines_prune_keeps].
Qed.

Lemma run_keeps fuel o : leads_to (scopes_ok C) (run fuel o) (scopes_ok C).
Proof.
  destruct o; simpl; keep_scopes;
    first [ apply CancelScope_new_keeps | apply __enter___keeps | apply _close_keeps
          | apply expire_keeps | apply Deadlines_next_deadline_keeps ].
Qed.

End KeepsRun.

Lemma init_world_deadlines_ok guest : deadlines_ok (init_world guest).
Proof.
  constructor; simpl.
  - done.
  - intros [|k]; simpl; done.
  - intros d k H. inversion H.
  - intros [|k]; simpl; done.
Qed.

(** Every reachable world follows the registered-deadline protocol. *)
Lemma reachable_deadlines_ok w : reachable w -> deadlines_ok w.
Proof.
  induction 1 as [guest|w o fuel r w' Hreach IH Hen Hrun Hr].
  - apply init_world_deadlines_ok.
  - refine (proj1 (run_keeps (fun _ => False) fuel o w r w' _ Hrun Hr)).
    split; [done|by intros k []].
Qed.

(** *** The cancel-status tree of a run *)

(** What [recalculate] computes for a status, and the equation of the
    specification. *)
Definition expected (w : world) (s : nat) : bool :=
  _cancel_called (scope w (_scope (status w s))) || parent_cancellation_is_visible_to_us w s.
Definition equation_holds (w : world) (s : nat) : Prop :=
  effectively_cancelled (status w s) = expected w s.

(** A status is attached while its scope still refers to it, that is from
    [__enter__] until [_close]. *)
Definition attached (w : world) (s : nat) : Prop :=
  _cancel_status (scope w (_scope (status w s))) = Some s.

(** Tasks with an abort function are parked, so not scheduled; scheduled
    tasks exist. *)
Definition tasks_ok (w : world) : Prop :=
  (∀ t, _abort_func (task w t) ≠ None -> t ∉ (runq w).*1) ∧
  (∀ t, t ∈ (runq w).*1 -> (t < length (tasks w))%nat).

(** Parent and child links agree and are ranked. *)
Definition links_wf (w : world) : Prop :=
  (∀ c p, _parent (status w c) = Some p -> c ∈ _children (status w p)) ∧
  (∀ p c, c ∈ _children (status w p) -> _parent (status w c) = Some p) ∧
  (∀ p, NoDup (_children (status w p))) ∧
  ranked w.

(** Tasks and statuses agree about who is under whom. *)
Definition tasks_wf (w : world) : Prop :=
  (∀ t s, Task_cancel_status (task w t) = Some s -> t ∈ _tasks (status w s)) ∧
  (∀ s t, t ∈ _tasks (status w s) -> Task_cancel_status (task w t) = Some s) ∧
  (∀ s, NoDup (_tasks (status w s))).

(** A scope refers to a status of its own, and only after it was entered;
    a status belongs to an entered scope, and no two to the same. *)
Definition scopes_wf (w : world) : Prop :=
  (∀ k s, _cancel_status (scope w k) = Some s ->
          _scope (status w s) = k ∧ (s < length (statuses w))%nat) ∧
  (∀ k, _cancel_status (scope w k) ≠ None -> _has_been_entered (scope w k) = true) ∧
  (∀ s, (s < length (statuses w))%nat ->
        _has_been_entered (scope w (_scope (status w s))) = true) ∧
  (∀ s s', (s < length (statuses w))%nat -> (s' < length (statuses w))%nat ->
           _scope (status w s) = _scope (status w s') -> s = s').

Definition tree_wf (w : world) : Prop :=
  links_wf w ∧ tasks_wf w ∧ scopes_wf w ∧ tasks_ok w.

(** The equation, at every attached status. *)
Definition cancel_inv (w : world) : Prop := ∀ s, attached w s -> equation_holds w s.

Lemma links_wf_ext w w' :
  links_wf w ->
  (∀ x, _parent (status w' x) = _parent (status w x)) ->
  (∀ x, _children (status w' x) = _children (status w x)) ->
  links_wf w'.
Proof.
  intros (T1 & T2 & T3 & [depth T7]) Hp Hc. repeat split.
  - intros c p. rewrite Hp, Hc. auto.
  - intros p c. rewrite Hp, Hc. auto.
  - intros p. rewrite Hc. auto.
  - exists depth. intros c p. rewrite Hp. auto.
Qed.

Lemma tasks_wf_ext w w' :
  tasks_wf w ->
  (∀ x, _tasks (status w' x) = _tasks (status w x)) ->
  (∀ t, Task_cancel_status (task w' t) = Task_cancel_status (task w t)) ->
  tasks_wf w'.
Proof.
  intros (T4 & T5 & T6) Hts Hcs. repeat split.
  - intros t s. rewrite Hcs, Hts. auto.
  - intros s t. rewrite Hcs, Hts. auto.
  - intros s. rewrite Hts. auto.
Qed.

Lemma scopes_wf_ext w w' :
  scopes_wf w ->
  (∀ k, _cancel_status (scope w' k) = _cancel_status (scope w k)) ->
  (∀ k, _has_been_entered (scope w k) = true -> _has_been_entered (scope w' k) = true) ->
  (∀ s, _scope (status w' s) = _scope (status w s)) ->
  length (statuses w') = length (statuses w) ->
  scopes_wf w'.
Proof.
  intros (T8 & T9 & T10 & T11) Hl He Hs Hlen. repeat split.
  - rewrite Hs. rewrite Hl in H. by apply T8 in H as [? ?].
  - rewrite Hlen. rewrite Hl in H. by apply T8 in H as [? ?].
  - intros k. rewrite Hl. auto.
  - intros s. rewrite Hlen, Hs. auto.
  - intros s s'. rewrite Hlen, !Hs. auto.
Qed.

Lemma tasks_ok_ext w w' :
  tasks_ok w ->
  (∀ t, _abort_func (task w' t) ≠ None -> _abort_func (task w t) ≠ None) ->
  (∀ t, t ∈ (runq w').*1 -> t ∈ (runq w).*1) ->
  (length (tasks w) <= length (tasks w'))%nat ->
  tasks_ok w'.
Proof.
  intros [Hok1 Hok2] Ha Hq Hlen. split.
  - intros t Ht Hin. apply (Hok1 t); auto.
  - intros t Ht. specialize (Hok2 t (Hq t Ht)). lia.
Qed.

Lemma tasks_ok_same_tasks w w' :
  tasks w' = tasks w -> runq w' = runq w -> tasks_ok w -> tasks_ok w'.
Proof. unfold tasks_ok, task. intros -> ->. done. Qed.

(** The equation only reads flags, parents, scope handles, [cancel_called]
    and [shield]. *)
Lemma equation_holds_ext w w' x :
  effectively_cancelled (status w' x) = effectively_cancelled (status w x) ->
  _scope (status w' x) = _scope (status w x) ->
  _parent (status w' x) = _parent (status w x) ->
  (∀ p, _parent (status w x) = Some p ->
        effectively_cancelled (status w' p) = effectively_cancelled (status w p)) ->
  _cancel_called (scope w' (_scope (status w x))) = _cancel_called (scope w (_scope (status w x))) ->
  _shield (scope w' (_scope (status w x))) = _shield (scope w (_scope (status w x))) ->
  equation_holds w x -> equation_holds w' x.
Proof.
  unfold equation_holds, expected, parent_cancellation_is_visible_to_us.
  intros -> -> -> He -> ->. destruct (_parent (status w x)) as [p|]; [|done].
  by rewrite He.
Qed.

(** What stays the same while cancellations are computed and delivered:
    everything but the [effectively_cancelled] flags, the abort functions,
    the run queue, the guest tick, and, for the scopes whose deadline
    passed, [_cancel_called] (which only becomes true) and what they
    register. *)
Record same_structure (w w' : world) : Prop := mk_same_structure {
  ss_scopes_len : length (scopes w') = length (scopes w);
  ss_cancel_status : ∀ k, _cancel_status (scope w' k) = _cancel_status (scope w k);
  ss_entered : ∀ k, _has_been_entered (scope w' k) = _has_been_entered (scope w k);
  ss_deadline : ∀ k, _deadline (scope w' k) = _deadline (scope w k);
  ss_shield : ∀ k, _shield (scope w' k) = _shield (scope w k);
  ss_caught : ∀ k, cancelled_caught (scope w' k) = cancelled_caught (scope w k);
  ss_called : ∀ k, _cancel_called (scope w k) = true -> _cancel_called (scope w' k) = true;
  ss_heap_len : (length (_heap (deadlines w')) <= length (_heap (deadlines w)))%nat;
  ss_guest : is_guest w' = is_guest w;
  ss_len : length (statuses w') = length (statuses w);
  ss_scope : ∀ s, _scope (status w' s) = _scope (status w s);
  ss_parent : ∀ s, _parent (status w' s) = _parent (status w s);
  ss_children : ∀ s, _children (status w' s) = _children (status w s);
  ss_tasks : ∀ s, _tasks (status w' s) = _tasks (status w s);
  ss_abandoned : ∀ s, abandoned_by_misnesting (status w' s) = abandoned_by_misnesting (status w s);
  ss_tasks_len : length (tasks w') = length (tasks w);
  ss_task_status : ∀ t, Task_cancel_status (task w' t) = Task_cancel_status (task w t);
  ss_abort : ∀ t, _abort_func (task w' t) ≠ None ->
                  _abort_func (task w' t) = _abort_func (task w t)
}.

Lemma same_structure_refl w : same_structure w w.
Proof. by constructor. Qed.

Lemma same_structure_trans w1 w2 w3 :
  same_structure w1 w2 -> same_structure w2 w3 -> same_structure w1 w3.
Proof.
  intros [] []. constructor; intros; try congruence; try lia; [auto|].
  rewrite ss_abort1 by done. apply ss_abort0. by rewrite <- ss_abort1.
Qed.

Lemma tree_wf_same_structure w w' :
  tree_wf w -> same_structure w w' -> tasks_ok w' -> tree_wf w'.
Proof.
  intros (Hl & Ht & Hs & _) Hss Hok. destruct Hss.
  split; [|split; [|split]]; [by eapply links_wf_ext|by eapply tasks_wf_ext| |done].
  eapply scopes_wf_ext; try done. intros k. by rewrite ss_entered0.
Qed.

Lemma attached_same_structure w w' s : same_structure w w' -> attached w' s ↔ attached w s.
Proof. intros []. unfold attached. by rewrite ss_scope0, ss_cancel_status0. Qed.

(** *** Delivering a pending cancellation *)

(** Delivery only clears abort functions and schedules tasks. *)
Record delivery_frame (w w' : world) : Prop := mk_delivery_frame {
  df_scopes : scopes w' = scopes w;
  df_statuses : statuses w' = statuses w;
  df_deadlines : deadlines w' = deadlines w;
  df_guest : is_guest w' = is_guest w;
  df_tasks_len : length (tasks w') = length (tasks w);
  df_task_status : ∀ t, Task_cancel_status (task w' t) = Task_cancel_status (task w t);
  df_abort : ∀ t, _abort_func (task w' t) ≠ None ->
                  _abort_func (task w' t) = _abort_func (task w t)
}.

Lemma delivery_frame_refl w : delivery_frame w w.
Proof. by constructor. Qed.

Lemma delivery_frame_trans w1 w2 w3 :
  delivery_frame w1 w2 -> delivery_frame w2 w3 -> delivery_frame w1 w3.
Proof.
  intros [H1 H2 H3 H4 H5 H6 H7] [H1' H2' H3' H4' H5' H6' H7'].
  constructor; try congruence.
  intros t Ht. rewrite (H7' t Ht). apply H7. by rewrite <- (H7' t Ht).
Qed.

Lemma delivery_frame_same_structure w w' : delivery_frame w w' -> same_structure w w'.
Proof.
  intros [H1 H2 H3 H4 H5 H6 H7].
  assert (∀ k, scope w' k = scope w k) as Hsc by (intros; by apply scope_same_scopes).
  assert (∀ s, status w' s = status w s) as Hst by (intros; by apply status_same_statuses).
  constructor; try done; intros; rewrite ?Hsc, ?Hst, ?H1, ?H2, ?H3; done.
Qed.

Lemma reschedule_correct w t o :
  tasks_ok w -> (t < length (tasks w))%nat -> t ∉ (runq w).*1 ->
  ∃ w', reschedule t o w = (Ok tt, w') ∧ delivery_frame w w' ∧ tasks_ok w' ∧
        _abort_func (task w' t) = None ∧ runq w' = runq w ++ [(t, o)] ∧
        (∀ x, x ≠ t -> task w' x = task w x).
Proof.
  intros [Hok1 Hok2] Hlt Hq.
  assert (mem t (runq w).*1 = false) as Hm.
  { clear -Hq. induction ((runq w).*1) as [|y l IH]; simpl; [done|].
    apply not_elem_of_cons in Hq as [? ?]. destruct (decide (y = t)); [congruence|auto]. }
  unfold reschedule. mrun. rewrite Hm. simpl.
  set (w1 := update_task t (set_abort_func None) w).
  set (w2 := if is_empty (runq w) && is_guest w
             then (if guest_tick_scheduled w then w1 else with_guest_tick_scheduled true w1)
             else w1).
  exists (with_runq (fun q => q ++ [(t, o)]) w2).
  assert (force_or_not :
    (if is_empty (runq w) && is_guest w then force_guest_tick_asap
     else fun s => (Ok tt, s)) w1 = (Ok tt, w2)).
  { unfold w2, force_guest_tick_asap. mrun.
    destruct (is_empty (runq w) && is_guest w); [|done].
    change (guest_tick_scheduled w1) with (guest_tick_scheduled w).
    by destruct (guest_tick_scheduled w). }
  rewrite force_or_not.
  assert (∀ x, task w2 x = task w1 x) as Ht2.
  { intros x. unfold w2. destruct (_ && _); [|done]. by destruct (guest_tick_scheduled w). }
  assert (∀ x, task w1 x = if decide (x = t) then set_abort_func None (task w t) else task w x)
    as Ht1 by (intros; by apply task_update_task).
  assert (scopes w2 = scopes w ∧ statuses w2 = statuses w ∧ deadlines w2 = deadlines w
          ∧ is_guest w2 = is_guest w ∧ runq w2 = runq w
          ∧ length (tasks w2) = length (tasks w)) as (? & ? & ? & ? & Hrq & Hlen).
  { unfold w2, w1. unfold_world.
    destruct (_ && _); [destruct (guest_tick_scheduled w)|]; simpl;
      by rewrite length_insert. }
  split; [done|]. split; [|split; [|split; [|split]]].
  - constructor; simpl; try done.
    + intros x. change (task (with_runq _ w2) x) with (task w2 x).
      rewrite Ht2, Ht1. by destruct (decide (x = t)) as [->|].
    + intros x. change (task (with_runq _ w2) x) with (task w2 x).
      rewrite Ht2, Ht1. by destruct (decide (x = t)) as [->|].
  - split.
    + intros x. change (task (with_runq _ w2) x) with (task w2 x). simpl.
      rewrite Ht2, Ht1, Hrq, fmap_app. destruct (decide (x = t)) as [->|Hne]; [done|].
      intros Hab Hin. apply elem_of_app in Hin as [Hin|Hin]; [by eapply Hok1|].
      csimpl in Hin. by apply list_elem_of_singleton in Hin.
    + intros x. simpl. rewrite Hrq, fmap_app, Hlen. intros Hin.
      apply elem_of_app in Hin as [Hin|Hin]; [by apply Hok2|].
      csimpl in Hin. by apply list_elem_of_singleton in Hin as ->.
  - change (task (with_runq _ w2) t) with (task w2 t). rewrite Ht2, Ht1.
    by destruct (decide (t = t)).
  - simpl. by rewrite Hrq.
  - intros x Hne. change (task (with_runq _ w2) x) with (task w2 x). rewrite Ht2, Ht1.
    by destruct (decide (x = t)).
Qed.

Lemma tasks_ok_clear_abort w t :
  tasks_ok w -> tasks_ok (update_task t (set_abort_func None) w).
Proof.
  intros [Hok1 Hok2]. split.
  - intros x Hx. change (runq (update_task _ _ w)) with (runq w).
    destruct (decide (x = t)) as [->|Hne].
    + destruct (decide (t < length (tasks w))%nat) as [Hlt|Hge].
      * rewrite task_update_task in Hx by done. by destruct (decide (t = t)).
      * exfalso. apply Hge. eapply task_valid. left. intros Hn. apply Hx.
        unfold task in *. unfold_world. simpl in *.
        rewrite list_insert_ge by lia. exact Hn.
    + rewrite task_update_task_ne in Hx by done. by apply Hok1.
  - intros x Hx. unfold_world. simpl. rewrite length_insert. by apply Hok2.
Qed.

Lemma delivery_frame_clear_abort w t :
  delivery_frame w (update_task t (set_abort_func None) w).
Proof.
  assert (∀ x, Task_cancel_status (task (update_task t (set_abort_func None) w) x)
               = Task_cancel_status (task w x)
               ∧ (_abort_func (task (update_task t (set_abort_func None) w) x) ≠ None ->
                  _abort_func (task (update_task t (set_abort_func None) w) x)
                  = _abort_func (task w x))) as H.
  { intros x. destruct (decide (x = t)) as [->|Hne].
    - destruct (decide (t < length (tasks w))%nat) as [Hlt|Hge].
      + rewrite task_update_task by done. by destruct (decide (t = t)).
      + unfold task. unfold_world. simpl. by rewrite list_insert_ge by lia.
    - by rewrite task_update_task_ne by done. }
  constructor; try done.
  - unfold_world. simpl. by rewrite length_insert.
  - intros x. apply H.
  - intros x. apply H.
Qed.

Lemma deliver_correct w t :
  tasks_ok w -> (_abort_func (task w t) ≠ None -> Task_cancel_status (task w t) ≠ None) ->
  ∃ w', _attempt_delivery_of_any_pending_cancel t w = (Ok tt, w')
        ∧ delivery_frame w w' ∧ tasks_ok w'.
Proof.
  intros Hok Hcs. unfold _attempt_delivery_of_any_pending_cancel. mrun.
  destruct (_abort_func (task w t)) as [a|] eqn:Ha;
    [|exists w; split; [done|]; split; [apply delivery_frame_refl|done]].
  destruct (Task_cancel_status (task w t)) as [s|] eqn:Hs; [|by destruct Hcs].
  destruct (effectively_cancelled (status w s)); simpl;
    [|exists w; split; [done|]; split; [apply delivery_frame_refl|done]].
  unfold _attempt_abort. mrun.
  pose proof (tasks_ok_clear_abort w t Hok) as Hok1.
  pose proof (delivery_frame_clear_abort w t) as Hf1.
  destruct a.
  - destruct (reschedule_correct (update_task t (set_abort_func None) w) t (Error Cancelled))
      as (w' & Hr & Hf & Hok' & _); [done| | |].
    + unfold_world. simpl. rewrite length_insert. eapply task_valid. left. by rewrite Ha.
    + change (runq (update_task _ _ w)) with (runq w). apply Hok. by rewrite Ha.
    + exists w'. split; [done|]. split; [by eapply delivery_frame_trans|done].
  - eexists. split; [done|]. split; done.
Qed.

Lemma deliver_all_correct ts : ∀ w,
  tasks_ok w ->
  (∀ t, t ∈ ts -> _abort_func (task w t) ≠ None -> Task_cancel_status (task w t) ≠ None) ->
  ∃ w', for_each ts _attempt_delivery_of_any_pending_cancel w = (Ok tt, w')
        ∧ delivery_frame w w' ∧ tasks_ok w'.
Proof.
  induction ts as [|t ts IH]; intros w Hok Hcs; simpl.
  { exists w. split; [done|]. split; [apply delivery_frame_refl|done]. }
  destruct (deliver_correct w t Hok) as (w1 & Hr1 & Hf1 & Hok1); [apply Hcs; left|].
  unfold bind. rewrite Hr1.
  destruct (IH w1 Hok1) as (w2 & Hr2 & Hf2 & Hok2).
  { intros t' Ht' Hab. destruct Hf1 as [_ _ _ _ _ Hts Habs].
    rewrite Hts. apply Hcs; [by right|]. by rewrite <- (Habs t' Hab). }
  exists w2. split; [done|]. split; [by eapply delivery_frame_trans|done].
Qed.


Lemma tw_parent_child w : tree_wf w ->
  ∀ c p, _parent (status w c) = Some p -> c ∈ _children (status w p).
Proof. intros ((H & _) & _). exact H. Qed.
Lemma tw_child_parent w : tree_wf w ->
  ∀ p c, c ∈ _children (status w p) -> _parent (status w c) = Some p.
Proof. intros ((_ & H & _) & _). exact H. Qed.
Lemma tw_children_nodup w : tree_wf w -> ∀ p, NoDup (_children (status w p)).
Proof. intros ((_ & _ & H & _) & _). exact H. Qed.
Lemma tw_ranked w : tree_wf w -> ranked w.
Proof. intros ((_ & _ & _ & H) & _). exact H. Qed.
Lemma tw_task_status w : tree_wf w ->
  ∀ t s, Task_cancel_status (task w t) = Some s -> t ∈ _tasks (status w s).
Proof. intros (_ & (H & _) & _). exact H. Qed.
Lemma tw_status_task w : tree_wf w ->
  ∀ s t, t ∈ _tasks (status w s) -> Task_cancel_status (task w t) = Some s.
Proof. intros (_ & (_ & H & _) & _). exact H. Qed.
Lemma tw_tasks_nodup w : tree_wf w -> ∀ s, NoDup (_tasks (status w s)).
Proof. intros (_ & (_ & _ & H) & _). exact H. Qed.
Lemma tw_link w : tree_wf w ->
  ∀ k s, _cancel_status (scope w k) = Some s ->
         _scope (status w s) = k ∧ (s < length (statuses w))%nat.
Proof. intros (_ & _ & (H & _) & _). exact H. Qed.
Lemma tw_entered w : tree_wf w ->
  ∀ k, _cancel_status (scope w k) ≠ None -> _has_been_entered (scope w k) = true.
Proof. intros (_ & _ & (_ & H & _) & _). exact H. Qed.
Lemma tw_scope_entered w : tree_wf w ->
  ∀ s, (s < length (statuses w))%nat ->
       _has_been_entered (scope w (_scope (status w s))) = true.
Proof. intros (_ & _ & (_ & _ & H & _) & _). exact H. Qed.
Lemma tw_scope_inj w : tree_wf w ->
  ∀ s s', (s < length (statuses w))%nat -> (s' < length (statuses w))%nat ->
          _scope (status w s) = _scope (status w s') -> s = s'.
Proof. intros (_ & _ & (_ & _ & _ & H) & _). exact H. Qed.
Lemma tw_tasks_ok w : tree_wf w -> tasks_ok w.
Proof. intros (_ & _ & _ & H). exact H. Qed.

Lemma child_valid w p c : tree_wf w -> c ∈ _children (status w p) ->
  (c < length (statuses w))%nat.
Proof.
  intros Hwf Hc. apply status_valid. left. by rewrite (tw_child_parent _ Hwf p c Hc).
Qed.

(** *** [_might_change_registered_deadline] around an assignment *)

Lemma might_change_modify_correct fuel k f w r w' :
  _might_change_registered_deadline fuel k (modify f) w = (r, w') -> r ≠ OutOfFuel ->
  r = Ok tt ∧ registered_frame (f w) w' ∧
  (length (_heap (deadlines w'))
   <= (if decide (registered_formula (scope (f w) k) = Inf) then 0 else 1)
      + length (_heap (deadlines (f w))))%nat.
Proof.
  unfold _might_change_registered_deadline, modify. intros Hrun Hr.
  destruct (registered_deadline_update fuel k (f w)) as [r1 w1] eqn:Hu.
  destruct (registered_deadline_update_correct fuel k (f w) False (fun H => False_ind _ H)
              (f w) r1 w1 eq_refl Hu) as ([] & -> & Hf & Hlen & _).
  { intros ->. by injection Hrun as <- <-. }
  by injection Hrun as <- <-.
Qed.

Lemma same_structure_registered_frame w w' :
  registered_frame w w' ->
  (length (_heap (deadlines w')) <= length (_heap (deadlines w)))%nat ->
  same_structure w w'.
Proof.
  intros [H1 H2 H3 H4 H5 H6] Hlen.
  assert (∀ s, status w' s = status w s) as Hst by (intros; by apply status_same_statuses).
  assert (∀ t, task w' t = task w t) as Htk by (intros; by apply task_same_tasks).
  constructor; try done; intros; rewrite ?Hst, ?Htk, ?H1, ?H2; try done.
  - apply (f_equal _cancel_status (H6 k)).
  - apply (f_equal _has_been_entered (H6 k)).
  - apply (f_equal _deadline (H6 k)).
  - apply (f_equal _shield (H6 k)).
  - apply (f_equal cancelled_caught (H6 k)).
  - pose proof (f_equal _cancel_called (H6 k)) as Hc. simpl in Hc. congruence.
Qed.

Lemma same_structure_update_scope w k f :
  (∀ sc, _cancel_status (f sc) = _cancel_status sc) ->
  (∀ sc, _has_been_entered (f sc) = _has_been_entered sc) ->
  (∀ sc, _deadline (f sc) = _deadline sc) ->
  (∀ sc, _shield (f sc) = _shield sc) ->
  (∀ sc, cancelled_caught (f sc) = cancelled_caught sc) ->
  (∀ sc, _cancel_called sc = true -> _cancel_called (f sc) = true) ->
  same_structure w (update_scope k f w).
Proof.
  intros F1 F2 F3 F4 F5 F6. constructor; try done.
  - unfold_world. simpl. by rewrite length_insert.
  - by apply scope_update_scope_field.
  - by apply scope_update_scope_field.
  - by apply scope_update_scope_field.
  - by apply scope_update_scope_field.
  - by apply scope_update_scope_field.
  - intros x Hx. destruct (decide (x = k)) as [->|Hne]; [|by rewrite scope_update_scope_ne].
    destruct (decide (k < length (scopes w))%nat) as [Hk|Hk].
    + rewrite scope_update_scope by done. destruct (decide (k = k)); [|done]. by apply F6.
    + by rewrite update_scope_invalid.
Qed.

(** *** [cancel] and [recalculate] *)

(** What [cancel] and the property [cancel_called] need of the
    recalculation they call: for any set [G] of statuses one cares about, if
    the equation holds at every status of [G] but the one recalculated, it
    then holds at every status of [G]. *)
Definition recalc_spec (recalculate : nat -> M world unit) : Prop :=
  ∀ (G : nat -> Prop) s w r w',
    tree_wf w -> (s < length (statuses w))%nat ->
    (∀ x, G x -> (x < length (statuses w))%nat) ->
    (∀ x, G x -> x ≠ s -> equation_holds w x) ->
    recalculate s w = (r, w') -> r ≠ OutOfFuel ->
    r = Ok tt ∧ same_structure w w' ∧ tasks_ok w' ∧
    (∀ x, G x -> equation_holds w' x) ∧
    (∀ x, x ≠ s -> _parent (status w x) = None -> status w' x = status w x).

Lemma cancel_with_correct recalculate fuel k (G : nat -> Prop) w r w' :
  recalc_spec recalculate -> tree_wf w ->
  (∀ x, G x -> (x < length (statuses w))%nat) ->
  (∀ x, G x -> equation_holds w x) ->
  (_cancel_status (scope w k) = None -> ∀ x, G x -> _scope (status w x) ≠ k) ->
  cancel_with recalculate fuel k w = (r, w') -> r ≠ OutOfFuel ->
  r = Ok tt ∧ same_structure w w' ∧ tasks_ok w' ∧
  (∀ x, G x -> equation_holds w' x) ∧
  (∀ x, _cancel_status (scope w k) ≠ Some x -> _parent (status w x) = None ->
        status w' x = status w x) ∧
  ((k < length (scopes w))%nat -> _cancel_called (scope w' k) = true).
Proof.
  intros Hspec Hwf HGv HG Hnone Hrun Hr. unfold cancel_with in Hrun.
  unfold bind at 1, gets at 1 in Hrun.
  destruct (_cancel_called (scope w k)) eqn:Hc.
  { injection Hrun as <- <-. split; [done|]. split; [apply same_structure_refl|].
    split; [by apply tw_tasks_ok|]. done. }
  unfold bind at 1 in Hrun.
  destruct (_might_change_registered_deadline fuel k _ w) as [r1 w2] eqn:Hmc.
  destruct (might_change_modify_correct _ _ _ _ _ _ Hmc) as (-> & Hf & Hlen).
  { intros ->. by injection Hrun as <- <-. }
  set (w1 := update_scope k (set_cancel_called true) w) in *.
  assert (registered_formula (scope w1 k) = Inf) as Hform.
  { unfold w1. destruct (decide (k < length (scopes w))%nat) as [Hk|Hk].
    - rewrite scope_update_scope by done. destruct (decide (k = k)); [|done].
      unfold registered_formula. simpl. by rewrite orb_true_r.
    - rewrite update_scope_invalid, scope_invalid by done. done. }
  rewrite Hform in Hlen. destruct (decide (Inf = Inf)); [|done]. simpl in Hlen.
  assert (same_structure w w1) as Hss1 by (by apply same_structure_update_scope).
  assert (same_structure w1 w2) as Hss12 by (by apply same_structure_registered_frame).
  pose proof (same_structure_trans _ _ _ Hss1 Hss12) as Hss2.
  assert (∀ x, status w2 x = status w x) as Hst
    by (intros; apply status_same_statuses; by rewrite (rf_statuses _ _ Hf)).
  assert (tasks_ok w2) as Hok2.
  { apply (tasks_ok_same_tasks w); [by rewrite (rf_tasks _ _ Hf)|by rewrite (rf_runq _ _ Hf)|].
    by apply tw_tasks_ok. }
  pose proof (tree_wf_same_structure _ _ Hwf Hss2 Hok2) as Hwf2.
  assert (∀ x, x ≠ k -> _cancel_called (scope w2 x) = _cancel_called (scope w x)) as Hcalled.
  { intros x Hne. pose proof (f_equal _cancel_called (rf_scope _ _ Hf x)) as Hx. simpl in Hx.
    rewrite Hx. unfold w1. by rewrite scope_update_scope_ne. }
  assert (∀ x, _scope (status w x) ≠ k -> equation_holds w x -> equation_holds w2 x) as Heq.
  { intros x Hne.
    apply equation_holds_ext;
      [by rewrite Hst|by rewrite Hst|by rewrite Hst|intros p _; by rewrite Hst
      |by apply Hcalled|apply (ss_shield _ _ Hss2)]. }
  assert ((k < length (scopes w))%nat -> _cancel_called (scope w2 k) = true) as Hk2.
  { intros Hk. pose proof (f_equal _cancel_called (rf_scope _ _ Hf k)) as Hx. simpl in Hx.
    rewrite Hx. unfold w1. rewrite scope_update_scope by done. by destruct (decide (k = k)). }
  unfold bind at 1, gets at 1 in Hrun. rewrite (ss_cancel_status _ _ Hss2) in Hrun.
  destruct (_cancel_status (scope w k)) as [s|] eqn:Hcs.
  - destruct (tw_link _ Hwf k s Hcs) as [Hsk Hs].
    destruct (Hspec G s w2 r w' Hwf2) as (-> & Hss & Hok & HG' & Hroot); try done.
    + by rewrite (ss_len _ _ Hss2).
    + intros x Hx. rewrite (ss_len _ _ Hss2). by apply HGv.
    + intros x Hx Hne. apply Heq; [|by apply HG].
      intros Hxk. apply Hne. apply (tw_scope_inj _ Hwf); [by apply HGv|done|congruence].
    + split; [done|]. split; [by eapply same_structure_trans|]. split; [done|].
      split; [done|]. split.
      * intros x Hx Hp. rewrite Hroot; [done|congruence|by rewrite Hst].
      * intros Hk. apply (ss_called _ _ Hss). by apply Hk2.
  - injection Hrun as <- <-. split; [done|]. split; [done|]. split; [done|].
    split; [|split; [done|done]].
    intros x Hx. apply Heq; [by apply Hnone|by apply HG].
Qed.

Lemma cancel_called_with_correct recalculate fuel k now (G : nat -> Prop) w r w' :
  recalc_spec recalculate -> tree_wf w ->
  (∀ x, G x -> (x < length (statuses w))%nat) ->
  (∀ x, G x -> equation_holds w x) ->
  cancel_called_with recalculate fuel k now w = (r, w') -> r ≠ OutOfFuel ->
  r = Ok (_cancel_called (scope w' k)) ∧ same_structure w w' ∧ tasks_ok w' ∧
  (∀ x, G x -> equation_holds w' x) ∧
  (∀ x, _cancel_status (scope w k) ≠ Some x -> _parent (status w x) = None ->
        status w' x = status w x).
Proof.
  intros Hspec Hwf HGv HG Hrun Hr. unfold cancel_called_with in Hrun.
  unfold bind at 1, gets at 1 in Hrun.
  destruct (negb (is_None (_cancel_status (scope w k)))
            || negb (_has_been_entered (scope w k))) eqn:Hactive;
    [destruct (negb (_cancel_called (scope w k)) && time_le (_deadline (scope w k)) (At now))
       eqn:Hpassed|].
  - unfold bind in Hrun.
    destruct (cancel_with recalculate fuel k w) as [r1 w1] eqn:Hcancel.
    destruct (cancel_with_correct recalculate fuel k G w r1 w1 Hspec Hwf HGv HG)
      as (-> & Hss & Hok & HG' & Hroot & _); [|done| |].
    + intros Hcs x Hx Hk. rewrite Hcs in Hactive. simpl in Hactive.
      rewrite <- Hk, (tw_scope_entered _ Hwf) in Hactive; [done|by apply HGv].
    + intros ->. by injection Hrun as <- <-.
    + unfold gets in Hrun. injection Hrun as <- <-. done.
  - unfold bind, ret, gets in Hrun. injection Hrun as <- <-. split; [done|].
    split; [apply same_structure_refl|]. split; [by apply tw_tasks_ok|]. done.
  - unfold bind, ret, gets in Hrun. injection Hrun as <- <-. split; [done|].
    split; [apply same_structure_refl|]. split; [by apply tw_tasks_ok|]. done.
Qed.

Lemma elem_of_rev {A} (x : A) (l : list A) : x ∈ rev l ↔ x ∈ l.
Proof. rewrite !list_elem_of_In. symmetry. apply in_rev. Qed.

Lemma same_structure_set_effectively_cancelled w s b :
  same_structure w (update_status s (set_effectively_cancelled b) w).
Proof.
  assert (∀ x, ∃ b', status (update_status s (set_effectively_cancelled b) w) x
                     = set_effectively_cancelled b' (status w x)) as H.
  { intros x. destruct (decide (x = s)) as [->|Hne].
    - destruct (decide (s < length (statuses w))%nat) as [Hlt|Hge].
      + rewrite status_update_status by done. destruct (decide (s = s)); [|done]. by eexists.
      + exists (effectively_cancelled (status w s)). unfold status. unfold_world. simpl.
        rewrite list_insert_ge by lia. by destruct (default _ _).
    - rewrite status_update_status_ne by done.
      exists (effectively_cancelled (status w x)). by destruct (status w x). }
  constructor; try done.
  - unfold_world. simpl. by rewrite length_insert.
  - intros x. destruct (H x) as [b' ->]. done.
  - intros x. destruct (H x) as [b' ->]. done.
  - intros x. destruct (H x) as [b' ->]. done.
  - intros x. destruct (H x) as [b' ->]. done.
  - intros x. destruct (H x) as [b' ->]. done.
Qed.

(** The loop of [recalculate], for any set [G] of statuses one cares about:
    if the equation holds at every status of [G] that is not on the stack,
    then, when the loop returns, it holds at every status of [G]. A status
    without parent that is not on the stack is not touched. *)
Lemma recalculate_loop_correct (G : nat -> Prop) now fuel : ∀ todo w r w',
  tree_wf w ->
  (∀ x, x ∈ todo -> (x < length (statuses w))%nat) ->
  (∀ x, G x -> (x < length (statuses w))%nat) ->
  (∀ x, G x -> x ∉ todo -> equation_holds w x) ->
  recalculate_loop fuel now todo w = (r, w') -> r ≠ OutOfFuel ->
  r = Ok tt ∧ same_structure w w' ∧ tasks_ok w' ∧
  (∀ x, G x -> equation_holds w' x) ∧
  (∀ x, x ∉ todo -> _parent (status w x) = None -> status w' x = status w x).
Proof.
  revert G.
  induction fuel as [|fuel IH]; intros G todo w r w' Hwf Hvalid HGv HG Hrun Hr.
  - destruct todo as [|cur todo]; simpl in Hrun; mrun.
    + injection Hrun as <- <-. split; [done|]. split; [apply same_structure_refl|].
      split; [by apply tw_tasks_ok|]. split; [|done].
      intros x Hx. apply HG; [done|]. apply not_elem_of_nil.
    + injection Hrun as <- <-. done.
  - destruct todo as [|cur todo]; simpl in Hrun.
    { mrun. injection Hrun as <- <-. split; [done|]. split; [apply same_structure_refl|].
      split; [by apply tw_tasks_ok|]. split; [|done].
      intros x Hx. apply HG; [done|]. apply not_elem_of_nil. }
    assert (Hcur : (cur < length (statuses w))%nat) by (apply Hvalid; left).
    assert (recalc_spec (fun s => recalculate_loop fuel now [s])) as Hspec.
    { intros G' s w0 r0 w0' Hwf0 Hs HGv0 HG0 Hrun0 Hr0.
      destruct (IH G' [s] w0 r0 w0' Hwf0) as (? & ? & ? & ? & Hroot); try done.
      - intros x Hx. by apply list_elem_of_singleton in Hx as ->.
      - intros x Hx Hnin. apply HG0; [done|]. intros ->. apply Hnin. left.
      - split_and!; try done. intros x Hx. apply Hroot. intros Hin.
        by apply list_elem_of_singleton in Hin. }
    unfold bind at 1, gets at 1 in Hrun. unfold bind at 1 in Hrun.
    set (k := _scope (status w cur)) in *.
    destruct (cancel_called_with _ fuel k now w) as [r0 w0] eqn:Hprop.
    destruct (cancel_called_with_correct _ fuel k now (fun x => G x ∧ x ∉ cur :: todo)
                w r0 w0 Hspec Hwf) as (-> & Hss0 & Hok0 & HG0 & Hroot0); try done.
    { by intros x [? ?]; apply HGv. }
    { by intros x [? ?]; apply HG. }
    { intros ->. by injection Hrun as <- <-. }
    pose proof (tree_wf_same_structure _ _ Hwf Hss0 Hok0) as Hwf0.
    assert (∀ x, x ∉ cur :: todo -> _parent (status w x) = None ->
                 status w0 x = status w x) as Hroot0'.
    { intros x Hx Hp. apply Hroot0; [|done]. intros Hcs.
      destruct (tw_link _ Hwf k x Hcs) as [Hxk Hxv].
      assert (x = cur) as Hxc by (apply (tw_scope_inj _ Hwf); done).
      apply Hx. rewrite Hxc. left. }
    clear Hprop Hroot0.
    unfold bind at 1, gets at 1, id in Hrun.
    assert (_cancel_called (scope w0 k) || parent_cancellation_is_visible_to_us w0 cur
            = expected w0 cur) as Hexp
      by (unfold expected; by rewrite (ss_scope _ _ Hss0)).
    rewrite Hexp in Hrun. clear Hexp.
    assert (Hcur0 : (cur < length (statuses w0))%nat) by (by rewrite (ss_len _ _ Hss0)).
    assert (∀ x, x ∈ todo -> (x < length (statuses w0))%nat) as Hvalid0.
    { intros x Hx. rewrite (ss_len _ _ Hss0). apply Hvalid. by right. }
    assert (∀ x, G x -> (x < length (statuses w0))%nat) as HGv0.
    { intros x Hx. rewrite (ss_len _ _ Hss0). by apply HGv. }
    destruct (Bool.eqb (expected w0 cur) (effectively_cancelled (status w0 cur))) eqn:Heq.
    + apply Bool.eqb_prop in Heq.
      destruct (IH G todo w0 r w' Hwf0) as (Hr' & Hss & Hok & HG' & Hun); try done.
      * intros x Hx Hnin. destruct (decide (x = cur)) as [->|Hne]; [done|].
        apply HG0. split; [done|]. by apply not_elem_of_cons.
      * split; [done|]. split; [by eapply same_structure_trans|]. split; [done|].
        split; [done|].
        intros x Hx Hp. rewrite Hun.
        -- by apply Hroot0'.
        -- by apply not_elem_of_cons in Hx as [_ ?].
        -- by rewrite (ss_parent _ _ Hss0).
    + set (new_state := expected w0 cur) in *.
      unfold bind at 1, modify at 1 in Hrun.
      set (w1 := update_status cur (set_effectively_cancelled new_state) w0) in *.
      pose proof (same_structure_set_effectively_cancelled w0 cur new_state) as Hss1.
      fold w1 in Hss1.
      assert (tasks_ok w1) as Hok1 by (by apply (tasks_ok_same_tasks w0)).
      pose proof (tree_wf_same_structure w0 w1 Hwf0 Hss1 Hok1) as Hwf1.
      assert (∃ w2, (if new_state
                     then for_each (_tasks (status w0 cur))
                            _attempt_delivery_of_any_pending_cancel
                     else ret tt) w1 = (Ok tt, w2)
                    ∧ delivery_frame w1 w2 ∧ tasks_ok w2) as (w2 & Hdel & Hf2 & Hok2).
      { destruct new_state.
        - apply deliver_all_correct; [done|].
          intros t Ht _. rewrite (ss_task_status _ _ Hss1).
          by rewrite (tw_status_task _ Hwf0 cur t Ht).
        - exists w1. split; [done|]. split; [apply delivery_frame_refl|done]. }
      unfold bind at 1 in Hrun. rewrite Hdel in Hrun.
      pose proof (delivery_frame_same_structure _ _ Hf2) as Hss2.
      pose proof (same_structure_trans _ _ _ Hss1 Hss2) as Hss12.
      pose proof (tree_wf_same_structure w0 w2 Hwf0 Hss12 Hok2) as Hwf2.
      assert (∀ x, status w2 x = status w1 x) as Hst2
        by (intros; apply status_same_statuses, (df_statuses _ _ Hf2)).
      assert (∀ x, x ≠ cur -> status w2 x = status w0 x) as Hst_ne.
      { intros x Hne. rewrite Hst2. by apply status_update_status_ne. }
      assert (effectively_cancelled (status w2 cur) = new_state) as Hst_cur.
      { rewrite Hst2. unfold w1. rewrite status_update_status by done.
        by destruct (decide (cur = cur)). }
      assert (∀ x, scope w2 x = scope w0 x) as Hsc2.
      { intros x. rewrite (scope_same_scopes w1 w2) by apply (df_scopes _ _ Hf2). done. }
      destruct (IH G (rev (_children (status w0 cur)) ++ todo) w2 r w' Hwf2)
        as (Hr' & Hss & Hok & HG' & Hun); try done.
      * intros x Hx. rewrite (ss_len _ _ Hss12).
        apply elem_of_app in Hx as [Hx|Hx]; [|by apply Hvalid0].
        rewrite elem_of_rev in Hx. by eapply child_valid.
      * intros x Hx. rewrite (ss_len _ _ Hss12). by apply HGv0.
      * intros x Hx Hnin. unfold equation_holds.
        apply not_elem_of_app in Hnin as [Hnc Hnt]. rewrite elem_of_rev in Hnc.
        assert (expected w2 x = expected w0 x) as ->.
        { unfold expected, parent_cancellation_is_visible_to_us.
          rewrite !Hsc2, (ss_scope _ _ Hss12), (ss_parent _ _ Hss12).
          destruct (_parent (status w0 x)) as [p|] eqn:Hp; [|done].
          rewrite (Hst_ne p); [done|]. intros ->.
          apply Hnc. by apply (tw_parent_child _ Hwf0). }
        destruct (decide (x = cur)) as [->|Hne]; [done|].
        rewrite Hst_ne by done. apply HG0. split; [done|]. by apply not_elem_of_cons.
      * split; [done|].
        split; [eapply same_structure_trans; [exact Hss0|by eapply same_structure_trans]|].
        split; [done|]. split; [done|].
        intros x Hx Hp. pose proof Hx as Hx'. apply not_elem_of_cons in Hx' as [Hne Hx'].
        rewrite Hun.
        -- rewrite Hst_ne by done. by apply Hroot0'.
        -- intros Hin. apply elem_of_app in Hin as [Hin|Hin]; [|done].
           rewrite elem_of_rev in Hin.
           rewrite <- (ss_parent _ _ Hss0) in Hp.
           rewrite (tw_child_parent _ Hwf0 cur x Hin) in Hp. done.
        -- by rewrite (ss_parent _ _ Hss12), (ss_parent _ _ Hss0).
Qed.

Lemma recalculate_spec fuel now : recalc_spec (recalculate fuel now).
Proof.
  intros G s w r w' Hwf Hs HGv HG Hrun Hr.
  destruct (recalculate_loop_correct G now fuel [s] w r w' Hwf) as (? & ? & ? & ? & Hroot);
    try done.
  - intros x Hx. by apply list_elem_of_singleton in Hx as ->.
  - intros x Hx Hnin. apply HG; [done|]. intros ->. apply Hnin. left.
  - split_and!; try done. intros x Hx. apply Hroot. intros Hin.
    by apply list_elem_of_singleton in Hin.
Qed.

(** *** Python sets as lists *)

Lemma elem_of_remove x t l : x ∈ remove t l ↔ x ∈ l ∧ x ≠ t.
Proof.
  induction l as [|y l IH]; simpl.
  - split; [intros H; inversion H|intros [H _]; inversion H].
  - destruct (decide (y = t)) as [->|Hne].
    + rewrite IH. split.
      * intros [? ?]. split; [by right|done].
      * intros [H ?]. apply elem_of_cons in H as [->|H]; done.
    + rewrite !elem_of_cons, IH. split.
      * intros [->|[? ?]]; [split; [by left|done]|split; [by right|done]].
      * intros [[->|?] ?]; [by left|by right].
Qed.

Lemma NoDup_remove t l : NoDup l -> NoDup (remove t l).
Proof.
  induction 1 as [|y l Hy Hnd IH]; simpl; [constructor|].
  destruct (decide (y = t)); [done|]. constructor; [|done].
  rewrite elem_of_remove. by intros [? ?].
Qed.

Lemma elem_of_add x t l : x ∈ add t l ↔ x ∈ l ∨ x = t.
Proof.
  unfold add. destruct (mem t l) eqn:Hm.
  - apply mem_elem_of in Hm. split; [by left|]. by intros [?| ->].
  - rewrite elem_of_app, list_elem_of_singleton. done.
Qed.

Lemma NoDup_add t l : NoDup l -> NoDup (add t l).
Proof.
  intros Hnd. unfold add. destruct (mem t l) eqn:Hm; [done|].
  apply NoDup_app. split; [done|]. split; [|apply NoDup_singleton].
  intros x Hx Hx'. apply list_elem_of_singleton in Hx' as ->.
  apply mem_elem_of in Hx. congruence.
Qed.

Lemma is_empty_nil {A} (l : list A) : is_empty l = true ↔ l = [].
Proof. by destruct l. Qed.

(** *** The invariant of a run *)

Definition inv (w : world) : Prop := tree_wf w ∧ cancel_inv w.

Lemma attached_valid w s : tree_wf w -> attached w s -> (s < length (statuses w))%nat.
Proof. intros Hwf Ha. by destruct (tw_link _ Hwf _ _ Ha). Qed.

Lemma has_been_entered_valid w k :
  _has_been_entered (scope w k) = true -> (k < length (scopes w))%nat.
Proof.
  intros H. destruct (decide (k < length (scopes w))%nat); [done|].
  by rewrite scope_invalid in H.
Qed.

Lemma status_scope_valid w s : tree_wf w -> (s < length (statuses w))%nat ->
  (_scope (status w s) < length (scopes w))%nat.
Proof. intros Hwf Hs. by apply has_been_entered_valid, tw_scope_entered. Qed.

(** The shape of the tree reads the scopes only through [_cancel_status]
    and [_has_been_entered], and the tasks through [Task_cancel_status] and
    whether they are parked. *)
Lemma tree_wf_ext w w' :
  tree_wf w ->
  statuses w' = statuses w ->
  (∀ k, _cancel_status (scope w' k) = _cancel_status (scope w k)) ->
  (∀ k, _has_been_entered (scope w k) = true -> _has_been_entered (scope w' k) = true) ->
  (∀ t, Task_cancel_status (task w' t) = Task_cancel_status (task w t)) ->
  tasks_ok w' ->
  tree_wf w'.
Proof.
  intros (Hl & Ht & Hs & _) Hst Hcs He Hts Hok.
  assert (∀ s, status w' s = status w s) as Hst' by (intros; by apply status_same_statuses).
  split_and!.
  - eapply links_wf_ext; [done|intros; by rewrite Hst'..].
  - eapply tasks_wf_ext; [done|intros; by rewrite Hst'|done].
  - eapply scopes_wf_ext; [done|done|done|intros; by rewrite Hst'|by rewrite Hst].
  - done.
Qed.

(** The equation also reads [_cancel_called] and [_shield]. *)
Lemma inv_ext w w' :
  inv w ->
  statuses w' = statuses w ->
  (∀ k, _cancel_status (scope w' k) = _cancel_status (scope w k)) ->
  (∀ k, _has_been_entered (scope w k) = true -> _has_been_entered (scope w' k) = true) ->
  (∀ k, (k < length (scopes w))%nat ->
        _cancel_called (scope w' k) = _cancel_called (scope w k)) ->
  (∀ k, (k < length (scopes w))%nat -> _shield (scope w' k) = _shield (scope w k)) ->
  (∀ t, Task_cancel_status (task w' t) = Task_cancel_status (task w t)) ->
  tasks_ok w' ->
  inv w'.
Proof.
  intros [Hwf Hc] Hst Hcs He Hcc Hsh Hts Hok.
  assert (∀ s, status w' s = status w s) as Hst' by (intros; by apply status_same_statuses).
  split; [by eapply tree_wf_ext|].
  intros s Ha. unfold attached in Ha. rewrite Hst', Hcs in Ha.
  pose proof (status_scope_valid w s Hwf (attached_valid w s Hwf Ha)) as Hk.
  apply (equation_holds_ext w); rewrite ?Hst'; try done.
  - intros p _. by rewrite Hst'.
  - by apply Hcc.
  - by apply Hsh.
  - by apply Hc.
Qed.

(** The heap and what the scopes register do not matter to it. *)
Lemma inv_registered_frame w w' : inv w -> registered_frame w w' -> inv w'.
Proof.
  intros Hinv [H1 H2 H3 H4 H5 H6].
  apply (inv_ext w); try done.
  - intros k. apply (f_equal _cancel_status (H6 k)).
  - intros k. pose proof (f_equal _has_been_entered (H6 k)) as He. simpl in He. congruence.
  - intros k _. apply (f_equal _cancel_called (H6 k)).
  - intros k _. apply (f_equal _shield (H6 k)).
  - intros t. by rewrite (task_same_tasks w w').
  - apply (tasks_ok_same_tasks w); [done|done|]. apply tw_tasks_ok, Hinv.
Qed.

Lemma inv_same_heap w w' :
  inv w -> scopes w' = scopes w -> statuses w' = statuses w -> tasks w' = tasks w ->
  runq w' = runq w -> inv w'.
Proof.
  intros Hinv Hsc Hst Htk Hq.
  apply (inv_ext w); try done; try (intros k; by rewrite (scope_same_scopes w w')).
  - intros t. by rewrite (task_same_tasks w w').
  - apply (tasks_ok_same_tasks w); [done|done|]. apply tw_tasks_ok, Hinv.
Qed.

(** *** [cancel], the property [cancel_called] and the setters *)

Lemma cancel_with_inv recalculate fuel k w r w' :
  recalc_spec recalculate -> inv w ->
  cancel_with recalculate fuel k w = (r, w') -> r ≠ OutOfFuel ->
  r = Ok tt ∧ inv w' ∧ same_structure w w' ∧
  ((k < length (scopes w))%nat -> _cancel_called (scope w' k) = true).
Proof.
  intros Hspec [Hwf Hc] Hrun Hr.
  destruct (cancel_with_correct recalculate fuel k (attached w) w r w' Hspec Hwf)
    as (-> & Hss & Hok & HG & _ & Hk); try done.
  - intros x. by apply attached_valid.
  - intros Hcs x Hx Hxk. unfold attached in Hx. rewrite Hxk in Hx. congruence.
  - split; [done|]. split; [|done]. split; [by eapply tree_wf_same_structure|].
    intros s Hs. apply HG. by apply (attached_same_structure w w').
Qed.

Lemma cancel_inv_step fuel now k w r w' :
  inv w -> cancel fuel now k w = (r, w') -> r ≠ OutOfFuel ->
  r = Ok tt ∧ inv w' ∧ same_structure w w' ∧
  ((k < length (scopes w))%nat -> _cancel_called (scope w' k) = true).
Proof. apply cancel_with_inv, recalculate_spec. Qed.

Lemma cancel_called_inv fuel k now w r w' :
  inv w -> cancel_called fuel k now w = (r, w') -> r ≠ OutOfFuel ->
  (∃ b, r = Ok b) ∧ inv w' ∧ same_structure w w'.
Proof.
  intros [Hwf Hc] Hrun Hr.
  destruct (cancel_called_with_correct _ fuel k now (attached w) w r w'
              (recalculate_spec fuel now) Hwf) as (-> & Hss & Hok & HG & _); try done.
  - intros x. by apply attached_valid.
  - split; [by eexists|]. split; [|done]. split; [by eapply tree_wf_same_structure|].
    intros s Hs. apply HG. by apply (attached_same_structure w w').
Qed.

Lemma tasks_ok_of_inv w : inv w -> tasks_ok w.
Proof. intros [Hwf _]. by apply tw_tasks_ok. Qed.

Lemma shield_setter_inv fuel now k b w r w' :
  inv w -> shield_setter fuel now k b w = (r, w') -> r ≠ OutOfFuel ->
  r = Ok tt ∧ inv w'.
Proof.
  intros [Hwf Hc] Hrun Hr. unfold shield_setter in Hrun.
  unfold bind at 1, modify at 1 in Hrun.
  set (w1 := update_scope k (set_shield b) w) in *.
  assert (∀ {A} (proj : CancelScope -> A), (∀ sc, proj (set_shield b sc) = proj sc) ->
            ∀ x, proj (scope w1 x) = proj (scope w x)) as Hfield
    by (intros; by apply scope_update_scope_field).
  assert (tree_wf w1) as Hwf1.
  { apply (tree_wf_ext w); try done; try (by apply Hfield).
    - intros x. by rewrite Hfield.
    - apply (tasks_ok_same_tasks w); [done|done|by apply tw_tasks_ok]. }
  assert (∀ x, attached w1 x ↔ attached w x) as Hatt.
  { intros x. unfold attached.
    change (status w1 x) with (status w x). by rewrite Hfield. }
  assert (∀ x, _scope (status w x) ≠ k -> equation_holds w x -> equation_holds w1 x) as Heq.
  { intros x Hne. apply equation_holds_ext; try done.
    - by apply Hfield.
    - unfold w1. by rewrite scope_update_scope_ne. }
  unfold bind at 1, gets at 1 in Hrun. rewrite Hfield in Hrun by done.
  destruct (_cancel_status (scope w k)) as [s|] eqn:Hcs.
  - destruct (tw_link _ Hwf k s Hcs) as [Hsk Hs].
    destruct (recalculate_spec fuel now (attached w1) s w1 r w' Hwf1)
      as (-> & Hss & Hok & HG & _); try done.
    + intros x Hx. by apply (attached_valid w1).
    + intros x Hx Hne. apply Heq; [|by apply Hc, Hatt].
      intros Hxk. apply Hne. apply (tw_scope_inj _ Hwf); [|done|congruence].
      by apply (attached_valid w1).
    + split; [done|]. split; [by eapply tree_wf_same_structure|].
      intros x Hx. apply HG. by apply (attached_same_structure w1 w').
  - injection Hrun as <- <-. split; [done|]. split; [done|].
    intros x Hx. apply Heq; [|by apply Hc, Hatt].
    intros Hxk. apply Hatt in Hx. unfold attached in Hx. rewrite Hxk in Hx. congruence.
Qed.

(** An assignment to a field that the invariant does not read, inside
    [_might_change_registered_deadline]. *)
Lemma might_change_modify_inv fuel k f w r w' :
  (∀ sc, _cancel_status (f sc) = _cancel_status sc) ->
  (∀ sc, _has_been_entered (f sc) = _has_been_entered sc) ->
  (∀ sc, _cancel_called (f sc) = _cancel_called sc) ->
  (∀ sc, _shield (f sc) = _shield sc) ->
  inv w ->
  _might_change_registered_deadline fuel k (modify (update_scope k f)) w = (r, w') ->
  r ≠ OutOfFuel ->
  r = Ok tt ∧ inv w'.
Proof.
  intros F1 F2 F3 F4 Hinv Hrun Hr.
  destruct (might_change_modify_correct _ _ _ _ _ _ Hrun Hr) as (-> & Hf & _).
  split; [done|]. apply (inv_registered_frame (update_scope k f w)); [|done].
  apply (inv_ext w); try done; try (by apply scope_update_scope_field).
  - intros x. by rewrite (scope_update_scope_field _has_been_entered).
  - intros x _. by apply scope_update_scope_field.
  - intros x _. by apply scope_update_scope_field.
  - apply (tasks_ok_same_tasks w); [done|done|by apply tasks_ok_of_inv].
Qed.

Lemma deadline_setter_inv fuel k d w r w' :
  inv w -> deadline_setter fuel k d w = (r, w') -> r ≠ OutOfFuel -> r = Ok tt ∧ inv w'.
Proof. by apply might_change_modify_inv. Qed.

Lemma CancelScope_new_inv deadline shield w :
  inv w ->
  inv (with_scopes (fun l => l ++ [mkScope None false Inf false false deadline shield]) w).
Proof.
  intros Hinv. set (sc := mkScope None false Inf false false deadline shield).
  pose proof (scope_with_scopes_app w sc) as Hsc.
  apply (inv_ext w); try done.
  - intros k. rewrite Hsc. destruct (decide (k = length (scopes w))) as [->|]; [|done].
    by rewrite scope_invalid by lia.
  - intros k. rewrite Hsc. destruct (decide (k = length (scopes w))) as [->|]; [|done].
    by rewrite scope_invalid by lia.
  - intros k Hk. rewrite Hsc. destruct (decide (k = length (scopes w))); [lia|done].
  - intros k Hk. rewrite Hsc. destruct (decide (k = length (scopes w))); [lia|done].
  - apply (tasks_ok_same_tasks w); [done|done|by apply tasks_ok_of_inv].
Qed.

Lemma Deadlines_next_deadline_inv fuel w r w' :
  inv w -> Deadlines_next_deadline fuel w = (r, w') -> r ≠ OutOfFuel ->
  (∃ d, r = Ok d) ∧ inv w'.
Proof.
  intros Hinv Hrun Hr.
  destruct (next_deadline_correct fuel w r w' Hrun Hr) as (Hd & [F1 F2 F3 F4 F5 F6] & _).
  split; [done|]. by apply (inv_same_heap w).
Qed.

Lemma expire_loop_inv fuel now : ∀ did_something w r w',
  inv w -> deadlines_ok w -> expire_loop fuel now did_something w = (r, w') ->
  r ≠ OutOfFuel ->
  (∃ b, r = Ok b) ∧ inv w' ∧ deadlines_ok w'.
Proof.
  induction fuel as [|fuel IH]; intros did_something w r w' Hinv Hok Hrun Hr;
    simpl in Hrun; unfold bind at 1, gets at 1 in Hrun.
  - destruct (heap_top (_heap (deadlines w))) as [[d k]|]; [|by injection Hrun as <- <-; eauto].
    destruct (time_le d (At now)); injection Hrun as <- <-; [done|eauto].
  - destruct (heap_top (_heap (deadlines w))) as [[d k]|] eqn:Htop;
      [|by injection Hrun as <- <-; eauto].
    destruct (time_le d (At now)); [|by injection Hrun as <- <-; eauto].
    destruct (heappop_popped (fun _ => False) w d k Htop) as (w1 & Hpop & Hsc & _ & Hq & Hd & Hstale).
    { split; [done|]. by intros x []. }
    unfold bind at 1 in Hrun. rewrite Hpop in Hrun.
    assert (inv w1) as Hinv1.
    { unfold heappop, modify in Hpop. injection Hpop as <-. by apply (inv_same_heap w). }
    unfold bind at 1, gets at 1 in Hrun.
    rewrite (scope_same_scopes w w1) in Hrun by done.
    destruct (decide (d = _registered_deadline (scope w k))) as [Heq|Hne].
    + unfold bind at 1 in Hrun.
      destruct (cancel fuel now k w1) as [r2 w2] eqn:Hcancel.
      assert (r2 ≠ OutOfFuel) as Hr2 by (intros ->; by injection Hrun as <- <-).
      destruct (cancel_inv_step fuel now k w1 r2 w2 Hinv1 Hcancel Hr2) as (-> & Hinv2 & _).
      assert (deadlines_ok w2) as Hok2.
      { refine (proj1 (cancel_with_keeps (fun _ => False) _ fuel k
                         (recalculate_keeps _ fuel now) w1 (Ok tt) w2 _ Hcancel Hr2)).
        split; [by intros x []|]. split; [done|]. intros Hc. exfalso. apply Hd.
        rewrite Heq, <- (scope_same_scopes w w1) by done.
        rewrite (dq_registered _ _ Hq). unfold registered_formula. rewrite Hc.
        by rewrite orb_true_r. }
      by eapply IH.
    + eapply IH; [done| |exact Hrun|done]. by apply Hstale.
Qed.

Lemma expire_inv fuel now w r w' :
  inv w -> deadlines_ok w -> expire fuel now w = (r, w') -> r ≠ OutOfFuel ->
  (∃ b, r = Ok b) ∧ inv w' ∧ deadlines_ok w'.
Proof.
  intros Hinv Hok Hrun Hr. unfold expire in Hrun. unfold bind at 1 in Hrun.
  destruct (expire_loop fuel now false w) as [r1 w1] eqn:Hloop.
  destruct (expire_loop_inv fuel now false w r1 w1 Hinv Hok Hloop) as ([b ->] & Hinv1 & Hok1).
  { intros ->. by injection Hrun as <- <-. }
  unfold bind at 1, gets at 1 in Hrun.
  destruct (_active (deadlines w1) * 2 + DEADLINE_HEAP_MIN_PRUNE_THRESHOLD
            <? Z.of_nat (length (_heap (deadlines w1)))).
  - destruct (Deadlines_prune_correct w1 Hok1)
      as (w2 & Hprune & Hok2 & Hsc & Hst & Htk & Hq & _).
    unfold bind in Hrun. rewrite Hprune in Hrun. injection Hrun as <- <-.
    split; [by eexists|]. split; [by apply (inv_same_heap w1)|done].
  - injection Hrun as <- <-. split; [by eexists|]. done.
Qed.

(** *** [Task._activate_cancel_status] *)

(** A task moves under another cancel status: only [_tasks] sets and the
    task's own [_cancel_status] change. *)
Record tasks_frame (t : nat) (cs : option nat) (w w' : world) : Prop := mk_tasks_frame {
  tf_scopes : scopes w' = scopes w;
  tf_deadlines : deadlines w' = deadlines w;
  tf_runq : runq w' = runq w;
  tf_guest : is_guest w' = is_guest w;
  tf_len : length (statuses w') = length (statuses w);
  tf_status : ∀ x, set_tasks [] (status w' x) = set_tasks [] (status w x);
  tf_tasks_len : length (tasks w') = length (tasks w);
  tf_task : ∀ u, task w' u = if decide (u = t) then set_Task_cancel_status cs (task w t)
                             else task w u
}.

Lemma inv_tasks_frame t cs w w' :
  cancel_inv w -> tree_wf w' -> tasks_frame t cs w w' -> inv w'.
Proof.
  intros Hc Hwf [F1 F2 F3 F4 F5 F6 F7 F8]. split; [done|].
  assert (∀ {A} (proj : CancelStatus -> A), (∀ l st, proj (set_tasks l st) = proj st) ->
            ∀ x, proj (status w' x) = proj (status w x)) as Hfield.
  { intros A proj Hproj x. rewrite <- (Hproj [] (status w' x)), <- (Hproj [] (status w x)).
    by rewrite F6. }
  intros s Ha. unfold attached in Ha.
  rewrite (Hfield _ _scope), (scope_same_scopes w w') in Ha by done.
  apply (equation_holds_ext w); rewrite ?(scope_same_scopes w w'); try done.
  - by apply (Hfield _ effectively_cancelled).
  - by apply (Hfield _ _scope).
  - by apply (Hfield _ _parent).
  - intros p _. by apply (Hfield _ effectively_cancelled).
  - by apply Hc.
Qed.

Definition activated (t : nat) (cs : option nat) (w : world) : world :=
  let w1 := match Task_cancel_status (task w t) with
            | Some s => update_status s (set_tasks (remove t (_tasks (status w s)))) w
            | None => w
            end in
  let w2 := update_task t (set_Task_cancel_status cs) w1 in
  match cs with
  | Some s => update_status s (set_tasks (add t (_tasks (status w2 s)))) w2
  | None => w2
  end.

Lemma _activate_cancel_status_run t cs w :
  tree_wf w -> _abort_func (task w t) = None ->
  _activate_cancel_status t cs w = (Ok tt, activated t cs w).
Proof.
  intros Hwf Habort. unfold _activate_cancel_status, activated.
  unfold bind at 1, gets at 1. unfold bind at 1.
  set (w1 := match Task_cancel_status (task w t) with
             | Some s => update_status s (set_tasks (remove t (_tasks (status w s)))) w
             | None => w
             end).
  assert (match Task_cancel_status (task w t) with
          | Some s =>
              (ts <- gets (fun w0 => _tasks (status w0 s));;
               if mem t ts then modify (update_status s (set_tasks (remove t ts)))
               else raise KeyError)%monad
          | None => ret tt
          end w = (Ok tt, w1)) as ->.
  { unfold w1. destruct (Task_cancel_status (task w t)) as [s|] eqn:Hs; [|done].
    unfold bind, gets.
    by rewrite (proj2 (mem_elem_of t _) (tw_task_status _ Hwf t s Hs)). }
  unfold bind at 1, modify at 1.
  set (w2 := update_task t (set_Task_cancel_status cs) w1).
  destruct cs as [s|]; [|done].
  unfold bind at 1, modify at 1. unfold bind at 1, gets at 1.
  set (w3 := update_status s _ w2).
  destruct (effectively_cancelled (status w3 s)); [|done].
  unfold _attempt_delivery_of_any_pending_cancel, bind, gets.
  assert (_abort_func (task w3 t) = None) as ->; [|done].
  change (task w3 t) with (task w2 t). unfold w2.
  rewrite (task_update_task_field _abort_func) by done.
  unfold w1. by destruct (Task_cancel_status (task w t)).
Qed.

Lemma activated_status t cs w x :
  tree_wf w -> (∀ s, cs = Some s -> (s < length (statuses w))%nat) ->
  status (activated t cs w) x
  = set_tasks
      (let T1 := if decide (Task_cancel_status (task w t) = Some x)
                 then remove t (_tasks (status w x)) else _tasks (status w x) in
       if decide (cs = Some x) then add t T1 else T1)
      (status w x).
Proof.
  intros Hwf Hcs. unfold activated.
  set (w1 := match Task_cancel_status (task w t) with
             | Some s => update_status s (set_tasks (remove t (_tasks (status w s)))) w
             | None => w
             end).
  assert (status w1 x
          = set_tasks (if decide (Task_cancel_status (task w t) = Some x)
                       then remove t (_tasks (status w x)) else _tasks (status w x))
                      (status w x)) as H1.
  { unfold w1. destruct (Task_cancel_status (task w t)) as [s|] eqn:Hs.
    - rewrite status_update_status.
      + destruct (decide (x = s)) as [->|Hne].
        * by destruct (decide (Some s = Some s)).
        * destruct (decide (Some s = Some x)) as [[=]|]; [congruence|]. by destruct (status w x).
      + apply status_valid. right. right. left. intros Hnil.
        pose proof (tw_task_status _ Hwf t s Hs) as Hin. rewrite Hnil in Hin. inversion Hin.
    - destruct (decide (None = Some x)); [done|]. by destruct (status w x). }
  assert (length (statuses w1) = length (statuses w)) as Hlen1.
  { unfold w1. destruct (Task_cancel_status (task w t)); [|done].
    unfold_world. simpl. by rewrite length_insert. }
  set (w2 := update_task t (set_Task_cancel_status cs) w1).
  assert (∀ y, status w2 y = status w1 y) as Hw2 by done.
  destruct cs as [s|].
  - rewrite status_update_status.
    + destruct (decide (x = s)) as [->|Hne].
      * destruct (decide (Some s = Some s)); [|done]. rewrite !Hw2, H1. done.
      * destruct (decide (Some s = Some x)) as [[=]|]; [congruence|]. by rewrite Hw2.
    + change (statuses w2) with (statuses w1). rewrite Hlen1. by apply Hcs.
  - rewrite Hw2. destruct (decide (None = Some x)); done.
Qed.

Lemma activated_task t cs w u :
  (t < length (tasks w))%nat ->
  task (activated t cs w) u
  = if decide (u = t) then set_Task_cancel_status cs (task w t) else task w u.
Proof.
  intros Ht. unfold activated.
  set (w1 := match Task_cancel_status (task w t) with
             | Some s => update_status s (set_tasks (remove t (_tasks (status w s)))) w
             | None => w
             end).
  assert (tasks w1 = tasks w) as Htk by (unfold w1; by destruct (Task_cancel_status (task w t))).
  assert (∀ u, task w1 u = task w u) as Htk' by (intros; by apply task_same_tasks).
  set (w2 := update_task t (set_Task_cancel_status cs) w1).
  assert (task w2 u = if decide (u = t) then set_Task_cancel_status cs (task w t) else task w u)
    as H2.
  { unfold w2. rewrite task_update_task by (by rewrite Htk). by rewrite !Htk'. }
  by destruct cs.
Qed.

Lemma activated_frame t cs w :
  tree_wf w -> (t < length (tasks w))%nat ->
  (∀ s, cs = Some s -> (s < length (statuses w))%nat) ->
  tasks_frame t cs w (activated t cs w).
Proof.
  intros Hwf Ht Hcs.
  assert (scopes (activated t cs w) = scopes w ∧ deadlines (activated t cs w) = deadlines w
          ∧ runq (activated t cs w) = runq w ∧ is_guest (activated t cs w) = is_guest w
          ∧ length (statuses (activated t cs w)) = length (statuses w)
          ∧ length (tasks (activated t cs w)) = length (tasks w)) as (? & ? & ? & ? & ? & ?).
  { unfold activated. destruct cs, (Task_cancel_status (task w t)); unfold_world; simpl;
      rewrite ?length_insert; done. }
  constructor; try done.
  - intros x. by rewrite activated_status.
  - intros u. by apply activated_task.
Qed.

Lemma activated_tree_wf t cs w :
  tree_wf w -> (t < length (tasks w))%nat ->
  (∀ s, cs = Some s -> (s < length (statuses w))%nat) ->
  tree_wf (activated t cs w).
Proof.
  intros Hwf Ht Hcs. pose proof (activated_frame t cs w Hwf Ht Hcs) as [F1 F2 F3 F4 F5 F6 F7 F8].
  set (w' := activated t cs w) in *.
  assert (∀ {A} (proj : CancelStatus -> A), (∀ l st, proj (set_tasks l st) = proj st) ->
            ∀ x, proj (status w' x) = proj (status w x)) as Hfield.
  { intros A proj Hproj x. rewrite <- (Hproj [] (status w' x)), <- (Hproj [] (status w x)).
    by rewrite F6. }
  assert (∀ k, scope w' k = scope w k) as Hsc by (intros; by apply scope_same_scopes).
  assert (∀ x u, u ∈ _tasks (status w' x) ↔ Task_cancel_status (task w' u) = Some x) as Hmem.
  { intros x u. unfold w'. rewrite activated_status, activated_task by done. simpl.
    destruct (decide (u = t)) as [->|Hne]; simpl.
    - destruct (decide (cs = Some x)) as [->|Hncs].
      + rewrite elem_of_add. split; [done|]. intros _. by right.
      + split; [|done]. intros Hin. exfalso.
        destruct (decide (Task_cancel_status (task w t) = Some x)) as [Hx|Hx].
        * apply elem_of_remove in Hin as [_ ?]. done.
        * by apply (tw_status_task _ Hwf) in Hin.
    - assert (u ∈ (if decide (Task_cancel_status (task w t) = Some x)
                   then remove t (_tasks (status w x)) else _tasks (status w x))
              ↔ Task_cancel_status (task w u) = Some x) as H1.
      { destruct (decide (Task_cancel_status (task w t) = Some x)).
        - rewrite elem_of_remove. split.
          + intros [Hin _]. by apply (tw_status_task _ Hwf).
          + intros Hu. split; [by apply (tw_task_status _ Hwf)|done].
        - split; [apply (tw_status_task _ Hwf)|apply (tw_task_status _ Hwf)]. }
      destruct (decide (cs = Some x)); [|done].
      rewrite elem_of_add, H1. split; [by intros [?|?]|by left]. }
  split_and!.
  - eapply links_wf_ext; [apply Hwf|by apply Hfield..].
  - split_and!.
    + intros u s. by rewrite Hmem.
    + intros s u. by rewrite Hmem.
    + intros s. unfold w'. rewrite activated_status by done. simpl.
      assert (NoDup (if decide (Task_cancel_status (task w t) = Some s)
                     then remove t (_tasks (status w s)) else _tasks (status w s))) as Hnd.
      { destruct (decide _); [apply NoDup_remove|]; apply (tw_tasks_nodup _ Hwf). }
      destruct (decide (cs = Some s)); [by apply NoDup_add|done].
  - eapply scopes_wf_ext; [apply Hwf| | |by apply Hfield|done].
    + intros k. by rewrite Hsc.
    + intros k. by rewrite Hsc.
  - apply (tasks_ok_ext w); [by apply tw_tasks_ok| | |lia].
    + intros u. rewrite F8. destruct (decide (u = t)) as [->|]; done.
    + intros u. by rewrite F3.
Qed.

Lemma _activate_cancel_status_inv t cs w :
  inv w -> (t < length (tasks w))%nat -> _abort_func (task w t) = None ->
  (∀ s, cs = Some s -> (s < length (statuses w))%nat) ->
  ∃ w', _activate_cancel_status t cs w = (Ok tt, w') ∧ inv w' ∧ tasks_frame t cs w w'.
Proof.
  intros [Hwf Hc] Ht Habort Hcs. exists (activated t cs w).
  split; [by apply _activate_cancel_status_run|].
  pose proof (activated_frame t cs w Hwf Ht Hcs) as Hf.
  split; [|done]. eapply inv_tasks_frame; [done| |done]. by apply activated_tree_wf.
Qed.

(** *** Spawning, parking, resuming and exiting tasks *)

Lemma inv_delivery_frame w w' : inv w -> delivery_frame w w' -> tasks_ok w' -> inv w'.
Proof.
  intros Hinv [F1 F2 F3 F4 F5 F6 F7] Hok.
  apply (inv_ext w); try done; intros; by rewrite (scope_same_scopes w w').
Qed.

Lemma task_with_tasks_app w u :
  task (with_tasks (fun l => l ++ [mkTask None None]) w) u = task w u.
Proof.
  unfold task. simpl. destruct (decide (u < length (tasks w))%nat).
  - by rewrite lookup_app_l.
  - rewrite lookup_app_r by lia. rewrite (lookup_ge_None_2 (tasks w)) by lia.
    by destruct (u - length (tasks w))%nat as [|[|?]].
Qed.

Lemma spawn_impl_inv s w :
  inv w -> (s < length (statuses w))%nat ->
  ∃ w', spawn_impl s w = (Ok tt, w') ∧ inv w'.
Proof.
  intros Hinv Hs. unfold spawn_impl. unfold bind at 1, gets at 1, bind at 1, modify at 1.
  set (t := length (tasks w)).
  set (w0 := with_tasks (fun l => l ++ [mkTask None None]) w).
  assert (length (tasks w0) = S t) as Hlen0
    by (unfold w0; simpl; rewrite length_app; simpl; lia).
  assert (tasks_ok w0) as Hok0.
  { apply (tasks_ok_ext w); [by apply tasks_ok_of_inv| |done|lia].
    intros u. unfold w0. by rewrite task_with_tasks_app. }
  assert (inv w0) as Hinv0.
  { apply (inv_ext w); try done. intros u. unfold w0. by rewrite task_with_tasks_app. }
  assert (task w0 t = mkTask None None) as Ht0.
  { unfold w0. rewrite task_with_tasks_app. unfold task, t.
    by rewrite lookup_ge_None_2 by lia. }
  destruct (_activate_cancel_status_inv t (Some s) w0 Hinv0) as (w1 & Hact & Hinv1 & Hf1).
  { lia. } { by rewrite Ht0. } { by intros ? [= <-]. }
  unfold bind at 1. rewrite Hact.
  destruct (reschedule_correct w1 t Value) as (w2 & Hres & Hf2 & Hok2 & _).
  - by apply tasks_ok_of_inv.
  - rewrite (tf_tasks_len _ _ _ _ Hf1). lia.
  - rewrite (tf_runq _ _ _ _ Hf1). intros Hin.
    destruct Hok0 as [_ Hq]. change (runq w0) with (runq w) in Hq.
    pose proof (proj2 (tasks_ok_of_inv _ Hinv) t Hin). unfold t in *. lia.
  - exists w2. split; [done|]. by eapply inv_delivery_frame.
Qed.

Lemma wait_task_rescheduled_inv t a w :
  inv w -> running w t -> Task_cancel_status (task w t) ≠ None ->
  ∃ w', wait_task_rescheduled t a w = (Ok tt, w') ∧ inv w'.
Proof.
  intros Hinv (Ht & Hq & Habort) Hcs. unfold wait_task_rescheduled.
  unfold bind at 1, modify at 1.
  set (w1 := update_task t (set_abort_func (Some a)) w).
  assert (∀ u, Task_cancel_status (task w1 u) = Task_cancel_status (task w u)) as Hts
    by (by apply task_update_task_field).
  assert (tasks_ok w1) as Hok1.
  { destruct (tasks_ok_of_inv _ Hinv) as [Hok1 Hok2]. split.
    - intros u Hu. change (runq w1) with (runq w).
      destruct (decide (u = t)) as [->|Hne]; [done|].
      apply Hok1. unfold w1 in Hu. by rewrite task_update_task_ne in Hu.
    - intros u Hu. unfold w1. unfold_world. simpl. rewrite length_insert. by apply Hok2. }
  assert (inv w1) as Hinv1 by (by apply (inv_ext w)).
  destruct (deliver_correct w1 t Hok1) as (w2 & Hdel & Hf & Hok2).
  { intros _. by rewrite Hts. }
  exists w2. split; [done|]. by eapply inv_delivery_frame.
Qed.

Lemma resume_inv i w : inv w -> inv (with_runq (delete i) w).
Proof.
  intros Hinv. apply (inv_ext w); try done.
  apply (tasks_ok_ext w); [by apply tasks_ok_of_inv|done| |done].
  intros t. simpl. intros Hin. apply list_elem_of_fmap in Hin as (e & -> & He).
  apply list_elem_of_fmap. exists e. split; [done|]. by eapply list_elem_of_delete_inv.
Qed.

Lemma task_exited_inv t w :
  inv w -> running w t -> ∃ w', _activate_cancel_status t None w = (Ok tt, w') ∧ inv w'.
Proof.
  intros Hinv (Ht & Hq & Habort).
  destruct (_activate_cancel_status_inv t None w Hinv Ht Habort) as (w' & ? & ? & _); [done|].
  by exists w'.
Qed.

(** *** Entering a scope *)

Lemma status_with_statuses_app w st x :
  status (with_statuses (fun l => l ++ [st]) w) x
  = if decide (x = length (statuses w)) then st else status w x.
Proof.
  unfold status. simpl. destruct (decide (x = length (statuses w))) as [->|Hne].
  - rewrite lookup_app_r by lia. by rewrite Nat.sub_diag.
  - destruct (decide (x < length (statuses w))%nat).
    + by rewrite lookup_app_l.
    + rewrite !lookup_ge_None_2; [done|lia|rewrite length_app; simpl; lia].
Qed.

Lemma status_invalid w s : ¬ (s < length (statuses w))%nat ->
  status w s = mkStatus 0 false None [] [] false.
Proof. intros Hs. unfold status. rewrite lookup_ge_None_2; [done|lia]. Qed.

(** The world in which a new status of scope [k] hangs under [p]. *)
Definition hung (k p : nat) (w : world) : world :=
  let w1 := with_statuses (fun l => l ++ [mkStatus k false (Some p) [] [] false]) w in
  update_status p (set_children (add (length (statuses w)) (_children (status w1 p)))) w1.

Lemma hung_status k p w x :
  (p < length (statuses w))%nat ->
  status (hung k p w) x
  = if decide (x = length (statuses w)) then mkStatus k false (Some p) [] [] false
    else if decide (x = p)
         then set_children (add (length (statuses w)) (_children (status w p))) (status w p)
         else status w x.
Proof.
  intros Hp. unfold hung.
  rewrite status_update_status by (simpl; rewrite length_app; simpl; lia).
  rewrite !status_with_statuses_app.
  destruct (decide (p = length (statuses w))); [lia|].
  destruct (decide (x = p)) as [->|]; [|done].
  destruct (decide (p = length (statuses w))); [lia|done].
Qed.

Lemma hung_tree_wf k p w :
  tree_wf w -> (p < length (statuses w))%nat ->
  _has_been_entered (scope w k) = true ->
  (∀ s, (s < length (statuses w))%nat -> _scope (status w s) ≠ k) ->
  tree_wf (hung k p w).
Proof.
  intros Hwf Hp Hent Hfresh. set (self := length (statuses w)).
  pose proof (hung_status k p w) as Hst. fold self in Hst.
  set (w' := hung k p w) in *.
  assert (length (statuses w') = S self) as Hlen.
  { unfold w', hung. unfold_world. simpl. rewrite length_insert, length_app. simpl. lia. }
  assert (∀ x, scope w' x = scope w x) as Hsc by done.
  assert (∀ u, task w' u = task w u) as Htk by done.
  assert (status w self = mkStatus 0 false None [] [] false) as Hself
    by (apply status_invalid; unfold self; lia).
  assert (∀ c q, _parent (status w c) = Some q -> c ≠ self ∧ q ≠ self) as Hold.
  { intros c q Hcq. split.
    - intros ->. by rewrite Hself in Hcq.
    - intros ->. apply (tw_parent_child _ Hwf) in Hcq. rewrite Hself in Hcq. inversion Hcq. }
  assert (∀ x, _parent (status w' x)
               = if decide (x = self) then Some p else _parent (status w x)) as Hpar.
  { intros x. rewrite Hst by done. destruct (decide (x = self)); [done|].
    by destruct (decide (x = p)) as [->|]. }
  assert (∀ x, _children (status w' x)
               = if decide (x = self) then []
                 else if decide (x = p) then add self (_children (status w p))
                      else _children (status w x)) as Hch.
  { intros x. rewrite Hst by done. destruct (decide (x = self)); [done|].
    by destruct (decide (x = p)) as [->|]. }
  assert (∀ x, _tasks (status w' x) = _tasks (status w x)) as Hts.
  { intros x. rewrite Hst by done. destruct (decide (x = self)) as [->|]; [by rewrite Hself|].
    by destruct (decide (x = p)) as [->|]. }
  assert (∀ x, _scope (status w' x)
               = if decide (x = self) then k else _scope (status w x)) as Hscope.
  { intros x. rewrite Hst by done. destruct (decide (x = self)); [done|].
    by destruct (decide (x = p)) as [->|]. }
  assert (p ≠ self) as Hps by (unfold self; lia).
  split_and!.
  - split_and!.
    + intros c q. rewrite Hpar, Hch. destruct (decide (c = self)) as [->|Hc].
      * intros [= <-]. destruct (decide (p = self)); [done|].
        destruct (decide (p = p)); [|done]. apply elem_of_add. by right.
      * intros Hcq. destruct (Hold c q Hcq) as [_ Hq].
        destruct (decide (q = self)); [done|].
        apply (tw_parent_child _ Hwf) in Hcq.
        destruct (decide (q = p)) as [->|]; [|done]. apply elem_of_add. by left.
    + intros q c. rewrite Hpar, Hch. destruct (decide (q = self)) as [->|Hq].
      { intros H. inversion H. }
      destruct (decide (q = p)) as [->|Hqp].
      * rewrite elem_of_add. intros [Hin| ->].
        -- pose proof (child_valid _ _ _ Hwf Hin). destruct (decide (c = self)); [unfold self in *; lia|].
           by apply (tw_child_parent _ Hwf).
        -- by destruct (decide (self = self)).
      * intros Hin. pose proof (child_valid _ _ _ Hwf Hin).
        destruct (decide (c = self)); [unfold self in *; lia|].
        by apply (tw_child_parent _ Hwf).
    + intros q. rewrite Hch. destruct (decide (q = self)); [constructor|].
      destruct (decide (q = p)); [apply NoDup_add|]; apply (tw_children_nodup _ Hwf).
    + destruct (tw_ranked _ Hwf) as [depth Hd].
      exists (fun x => if decide (x = self) then S (depth p) else depth x).
      intros c q. rewrite Hpar. destruct (decide (c = self)) as [->|Hc].
      * intros [= <-]. destruct (decide (p = self)); [done|lia].
      * intros Hcq. destruct (Hold c q Hcq) as [_ Hq].
        destruct (decide (q = self)); [done|]. by apply Hd.
  - eapply tasks_wf_ext; [apply Hwf|done|done].
  - split_and!.
    + intros k' s. rewrite Hsc. intros Hcs. destruct (tw_link _ Hwf k' s Hcs) as [Hs1 Hs2].
      rewrite Hscope, Hlen. destruct (decide (s = self)); [unfold self in *; lia|].
      split; [done|unfold self in *; lia].
    + intros k'. rewrite Hsc. apply (tw_entered _ Hwf).
    + intros s. rewrite Hlen, Hscope, Hsc. intros Hs.
      destruct (decide (s = self)); [done|]. apply (tw_scope_entered _ Hwf). unfold self in *. lia.
    + intros s s'. rewrite Hlen, !Hscope. intros Hs Hs'.
      destruct (decide (s = self)) as [->|Hne], (decide (s' = self)) as [->|Hne']; try done.
      * intros Hk. exfalso. apply (Hfresh s'); [unfold self in *; lia|done].
      * intros Hk. exfalso. apply (Hfresh s); [unfold self in *; lia|done].
      * apply (tw_scope_inj _ Hwf); unfold self in *; lia.
  - apply (tasks_ok_same_tasks w); [done|done|by apply tw_tasks_ok].
Qed.

Lemma hung_equation k p w x :
  tree_wf w -> (p < length (statuses w))%nat -> (x < length (statuses w))%nat ->
  equation_holds w x -> equation_holds (hung k p w) x.
Proof.
  intros Hwf Hp Hx. pose proof (hung_status k p w) as Hst.
  assert (∀ y, (y < length (statuses w))%nat ->
               effectively_cancelled (status (hung k p w) y) = effectively_cancelled (status w y)
               ∧ _scope (status (hung k p w) y) = _scope (status w y)
               ∧ _parent (status (hung k p w) y) = _parent (status w y)) as Hold.
  { intros y Hy. rewrite Hst by done. destruct (decide (y = length (statuses w))); [lia|].
    by destruct (decide (y = p)) as [->|]. }
  destruct (Hold x Hx) as (H1 & H2 & H3).
  apply equation_holds_ext; try done.
  intros q Hq. apply Hold. apply status_valid. right. left. intros Hnil.
  apply (tw_parent_child _ Hwf) in Hq. rewrite Hnil in Hq. inversion Hq.
Qed.

(** [CancelStatus(scope=k, parent=p)] for a scope that was just entered:
    the new status hangs under [p], and the equation holds at it and at every
    attached status. *)
Lemma CancelStatus_new_correct fuel now k p w r w' :
  inv w -> (p < length (statuses w))%nat ->
  _has_been_entered (scope w k) = true ->
  (∀ s, (s < length (statuses w))%nat -> _scope (status w s) ≠ k) ->
  CancelStatus_new fuel now k (Some p) w = (r, w') -> r ≠ OutOfFuel ->
  r = Ok (length (statuses w)) ∧ tree_wf w' ∧ same_structure (hung k p w) w' ∧
  (∀ x, (x < length (statuses w))%nat -> attached w x -> equation_holds w' x) ∧
  equation_holds w' (length (statuses w)).
Proof.
  intros [Hwf Hc] Hp Hent Hfresh Hrun Hr. unfold CancelStatus_new in Hrun.
  unfold bind at 1, gets at 1, bind at 1, modify at 1 in Hrun.
  unfold bind at 1, bind at 1, children_add at 1, modify at 1 in Hrun.
  fold (hung k p w) in Hrun. set (self := length (statuses w)) in *.
  pose proof (hung_tree_wf k p w Hwf Hp Hent Hfresh) as Hwf1.
  assert (length (statuses (hung k p w)) = S self) as Hlen.
  { unfold hung. unfold_world. simpl. rewrite length_insert, length_app. simpl.
    unfold self. lia. }
  destruct (recalculate fuel now self (hung k p w)) as [r1 w1] eqn:Hrec.
  destruct (recalculate_spec fuel now
              (fun x => x = self ∨ ((x < self)%nat ∧ attached w x))
              self (hung k p w) r1 w1 Hwf1) as (-> & Hss & Hok & HG & _); try done.
  - lia.
  - intros x [->|[Hx _]]; lia.
  - intros x [->|[Hx Ha]] Hne; [done|]. apply hung_equation; try done. by apply Hc.
  - intros ->. by injection Hrun as <- <-.
  - injection Hrun as <- <-. split; [done|].
    split; [by eapply tree_wf_same_structure|]. split; [done|]. split.
    + intros x Hx Ha. apply HG. right. done.
    + apply HG. by left.
Qed.

Lemma might_change_correct {A} fuel k (body : M world A) w r w' :
  _might_change_registered_deadline fuel k body w = (r, w') -> r ≠ OutOfFuel ->
  ∃ w1, body w = (r, w1) ∧ registered_frame w1 w'.
Proof.
  unfold _might_change_registered_deadline. intros Hrun Hr.
  destruct (body w) as [r1 w1] eqn:Hbody.
  destruct (registered_deadline_update fuel k w1) as [r2 w2] eqn:Hu.
  assert (r1 ≠ OutOfFuel) as Hr1 by (intros ->; by injection Hrun as <- <-).
  destruct (registered_deadline_update_correct fuel k w1 False (fun H => False_ind _ H)
              w1 r2 w2 eq_refl Hu) as ([] & -> & Hf & _).
  { intros ->. destruct r1; by injection Hrun as <- <-. }
  exists w1. destruct r1; injection Hrun as <- <-; done.
Qed.

(** The scope [k] now refers to its new status. *)
Lemma attach_inv k self w :
  tree_wf w -> (k < length (scopes w))%nat -> (self < length (statuses w))%nat ->
  _scope (status w self) = k -> _has_been_entered (scope w k) = true ->
  _cancel_status (scope w k) = None ->
  (∀ x, attached w x -> equation_holds w x) -> equation_holds w self ->
  inv (update_scope k (set_cancel_status (Some self)) w).
Proof.
  intros Hwf Hk Hself Hsk Hent Hcs Hc Heq.
  set (w' := update_scope k (set_cancel_status (Some self)) w).
  assert (∀ x, scope w' x = if decide (x = k) then set_cancel_status (Some self) (scope w k)
                            else scope w x) as Hsc by (intros; by apply scope_update_scope).
  assert (∀ x, status w' x = status w x) as Hst by done.
  assert (∀ x, equation_holds w x -> equation_holds w' x) as Hext.
  { intros x. apply equation_holds_ext; try done.
    - rewrite Hsc. by destruct (decide _) as [Hxk|]; [rewrite Hxk|].
    - rewrite Hsc. by destruct (decide _) as [Hxk|]; [rewrite Hxk|]. }
  split; [split_and!|].
  - eapply links_wf_ext; [apply Hwf|done..].
  - eapply tasks_wf_ext; [apply Hwf|done..].
  - split_and!.
    + intros k' s. rewrite Hsc, Hst. destruct (decide (k' = k)) as [->|].
      * simpl. by intros [= <-].
      * apply (tw_link _ Hwf).
    + intros k'. rewrite Hsc. destruct (decide (k' = k)) as [->|]; [done|].
      apply (tw_entered _ Hwf).
    + intros s Hs. rewrite Hst, Hsc. destruct (decide _) as [Hsk'|]; [done|].
      by apply (tw_scope_entered _ Hwf).
    + apply (tw_scope_inj _ Hwf).
  - apply (tasks_ok_same_tasks w); [done|done|by apply tw_tasks_ok].
  - intros x Ha. apply Hext. unfold attached in Ha. rewrite Hst, Hsc in Ha.
    destruct (decide (_scope (status w x) = k)) as [Hxk|Hxk].
    + simpl in Ha. by injection Ha as <-.
    + by apply Hc.
Qed.

Lemma __enter___inv fuel k t now w r w' :
  inv w -> (k < length (scopes w))%nat -> running w t ->
  Task_cancel_status (task w t) ≠ None ->
  __enter__ fuel k t now w = (r, w') -> r ≠ OutOfFuel ->
  (r = Ok tt ∨ r = Raise RuntimeError) ∧ inv w'.
Proof.
  intros Hinv Hk (Ht & Hq & Habort) Hts Hrun Hr. unfold __enter__ in Hrun.
  unfold bind at 1, gets at 1 in Hrun.
  destruct (_has_been_entered (scope w k)) eqn:Hent0.
  { injection Hrun as <- <-. split; [by right|done]. }
  unfold bind at 1, modify at 1 in Hrun.
  set (wa := update_scope k (set_has_been_entered true) w) in *.
  assert (∀ {A} (proj : CancelScope -> A), (∀ sc, proj (set_has_been_entered true sc) = proj sc) ->
            ∀ x, proj (scope wa x) = proj (scope w x)) as Hfield
    by (intros; by apply scope_update_scope_field).
  assert (_has_been_entered (scope wa k) = true) as Henta.
  { unfold wa. rewrite scope_update_scope by done. by destruct (decide (k = k)). }
  assert (inv wa) as Hinva.
  { apply (inv_ext w); try done; try (intros; by apply Hfield).
    - intros x Hx. destruct (decide (x = k)) as [->|Hne]; [done|].
      unfold wa. by rewrite scope_update_scope_ne.
    - apply (tasks_ok_same_tasks w); [done|done|by apply tasks_ok_of_inv]. }
  assert (_cancel_status (scope w k) = None) as Hcs0.
  { destruct (_cancel_status (scope w k)) eqn:Hcs; [|done].
    rewrite (tw_entered _ (proj1 Hinv) k) in Hent0; [done|by rewrite Hcs]. }
  assert (∀ s, (s < length (statuses w))%nat -> _scope (status w s) ≠ k) as Hfresh0.
  { intros s Hs Hsk. rewrite <- Hsk, (tw_scope_entered _ (proj1 Hinv)) in Hent0; done. }
  unfold bind at 1, gets at 1 in Hrun. unfold bind at 1 in Hrun.
  destruct ((if time_le (_deadline (scope wa k)) (At now) then cancel fuel now k else ret tt) wa)
    as [rb wb] eqn:Hb.
  assert (rb = Ok tt ∧ inv wb ∧ same_structure wa wb) as (-> & Hinvb & Hssb).
  { destruct (time_le (_deadline (scope wa k)) (At now)).
    - destruct (cancel_inv_step fuel now k wa rb wb Hinva Hb) as (? & ? & ? & _); [|done].
      intros ->. by injection Hrun as <- <-.
    - injection Hb as <- <-. split; [done|]. split; [done|apply same_structure_refl]. }
  clear Hb.
  destruct (might_change_correct _ _ _ _ _ _ Hrun Hr) as (we & Hbody & Hf).
  clear Hrun. unfold bind at 1, gets at 1 in Hbody.
  assert (∀ u, Task_cancel_status (task wb u) = Task_cancel_status (task w u)) as Htsb
    by (intros; by rewrite (ss_task_status _ _ Hssb)).
  assert (_abort_func (task wb t) = None) as Habortb.
  { destruct (_abort_func (task wb t)) eqn:Ha; [|done].
    rewrite (ss_abort _ _ Hssb) in Ha by (by rewrite Ha). change (task wa t) with (task w t) in Ha.
    congruence. }
  rewrite Htsb in Hbody.
  destruct (Task_cancel_status (task w t)) as [p|] eqn:Hp; [|done].
  assert (p < length (statuses wb))%nat as Hpb.
  { rewrite (ss_len _ _ Hssb). change (statuses wa) with (statuses w).
    apply status_valid. right. right. left. intros Hnil.
    pose proof (tw_task_status _ (proj1 Hinv) t p Hp) as Hin. rewrite Hnil in Hin.
    inversion Hin. }
  unfold bind at 1 in Hbody.
  destruct (CancelStatus_new fuel now k (Some p) wb) as [rc wc] eqn:Hnew.
  destruct (CancelStatus_new_correct fuel now k p wb rc wc Hinvb Hpb)
    with (3 := Hnew) as (-> & Hwfc & Hssc & Hold & Hself).
  { by rewrite (ss_entered _ _ Hssb). }
  { intros s Hs. rewrite (ss_scope _ _ Hssb). change (status wa s) with (status w s).
    apply Hfresh0. rewrite (ss_len _ _ Hssb) in Hs. done. }
  { intros ->. by injection Hbody as <- <-. }
  set (self := length (statuses wb)) in *.
  assert (length (statuses wc) = S self) as Hlenc.
  { rewrite (ss_len _ _ Hssc). unfold hung. unfold_world. simpl.
    rewrite length_insert, length_app. simpl. unfold self. lia. }
  assert (∀ x, _scope (status wc x) = if decide (x = self) then k else _scope (status wb x))
    as Hscopec.
  { intros x. rewrite (ss_scope _ _ Hssc), hung_status by done. fold self.
    destruct (decide (x = self)); [done|]. by destruct (decide (x = p)) as [->|]. }
  unfold bind at 1, modify at 1 in Hbody.
  set (wd := update_scope k (set_cancel_status (Some self)) wc) in *.
  assert (∀ x, scope wc x = scope wb x ∨ True) as _ by auto.
  assert (∀ x, _cancel_status (scope wc x) = _cancel_status (scope w x)) as Hcsc.
  { intros x. rewrite (ss_cancel_status _ _ Hssc). change (scope (hung k p wb) x) with (scope wb x).
    rewrite (ss_cancel_status _ _ Hssb). by apply Hfield. }
  assert (inv wd) as Hinvd.
  { apply attach_inv; try done.
    - rewrite (ss_scopes_len _ _ Hssc). change (scopes (hung k p wb)) with (scopes wb).
      rewrite (ss_scopes_len _ _ Hssb). unfold wa. unfold_world. simpl.
      by rewrite length_insert.
    - lia.
    - rewrite Hscopec. by destruct (decide (self = self)).
    - rewrite (ss_entered _ _ Hssc). change (scope (hung k p wb) k) with (scope wb k).
      by rewrite (ss_entered _ _ Hssb).
    - by rewrite Hcsc.
    - intros x Ha. destruct (decide (x = self)) as [->|Hne]; [done|].
      pose proof (attached_valid _ _ Hwfc Ha) as Hx.
      apply Hold; [lia|]. unfold attached in *.
      rewrite Hscopec in Ha. destruct (decide (x = self)); [done|].
      rewrite (ss_cancel_status _ _ Hssc) in Ha. exact Ha. }
  destruct (_activate_cancel_status_inv t (Some self) wd Hinvd) as (we' & Hact & Hinve & _).
  { change (tasks wd) with (tasks wc). rewrite (ss_tasks_len _ _ Hssc).
    change (tasks (hung k p wb)) with (tasks wb). rewrite (ss_tasks_len _ _ Hssb). done. }
  { change (task wd t) with (task wc t).
    destruct (_abort_func (task wc t)) eqn:Ha; [|done].
    rewrite (ss_abort _ _ Hssc) in Ha by (by rewrite Ha).
    change (task (hung k p wb) t) with (task wb t) in Ha. congruence. }
  { intros s [= <-]. change (statuses wd) with (statuses wc). lia. }
  rewrite Hact in Hbody. injection Hbody as <- <-.
  split; [by left|]. by eapply inv_registered_frame.
Qed.

(** *** Leaving a scope *)

(** The shape of the tree does not read the flags of the statuses. *)
Lemma tree_wf_fields w w' :
  tree_wf w ->
  length (statuses w') = length (statuses w) ->
  (∀ x, _scope (status w' x) = _scope (status w x)) ->
  (∀ x, _parent (status w' x) = _parent (status w x)) ->
  (∀ x, _children (status w' x) = _children (status w x)) ->
  (∀ x, _tasks (status w' x) = _tasks (status w x)) ->
  scopes w' = scopes w -> tasks w' = tasks w -> runq w' = runq w ->
  tree_wf w'.
Proof.
  intros (Hl & Ht & Hs & Hok) Hlen Hscope Hpar Hch Hts Hsc Htk Hq.
  split_and!.
  - by eapply links_wf_ext.
  - eapply tasks_wf_ext; [done|done|]. intros t. by rewrite (task_same_tasks w w').
  - eapply scopes_wf_ext; try done; intros k; by rewrite (scope_same_scopes w w').
  - by apply (tasks_ok_same_tasks w).
Qed.

(** The world in which [s] has no parent any more: [self.parent = None]. *)
Definition unlinked (s : nat) (w : world) : world :=
  let w1 := match _parent (status w s) with
            | Some p => update_status p (set_children (remove s (_children (status w p)))) w
            | None => w
            end in
  update_status s (set_parent None) w1.

Lemma parent_setter_None_run fuel now s w :
  tree_wf w -> parent_setter fuel now s None w = (Ok tt, unlinked s w).
Proof.
  intros Hwf. unfold parent_setter, unlinked.
  unfold bind at 1, gets at 1. unfold bind at 1.
  destruct (_parent (status w s)) as [p|] eqn:Hp; [|done].
  unfold children_remove, bind at 1, gets at 1.
  by rewrite (proj2 (mem_elem_of s _) (tw_parent_child _ Hwf s p Hp)).
Qed.

Lemma unlinked_status s w x :
  tree_wf w -> (s < length (statuses w))%nat ->
  status (unlinked s w) x
  = if decide (x = s) then set_parent None (status w s)
    else if decide (_parent (status w s) = Some x)
         then set_children (remove s (_children (status w x))) (status w x)
         else status w x.
Proof.
  intros Hwf Hs. unfold unlinked.
  destruct (_parent (status w s)) as [p|] eqn:Hp.
  - assert (p ≠ s) as Hps.
    { intros ->. destruct (tw_ranked _ Hwf) as [depth Hd]. specialize (Hd s s Hp). lia. }
    assert (p < length (statuses w))%nat as Hpv.
    { apply status_valid. right. left. intros Hnil.
      pose proof (tw_parent_child _ Hwf s p Hp) as Hin. rewrite Hnil in Hin. inversion Hin. }
    rewrite status_update_status by (unfold_world; simpl; by rewrite length_insert).
    rewrite !status_update_status by done.
    destruct (decide (x = s)) as [->|Hxs].
    + destruct (decide (s = p)); [congruence|done].
    + destruct (decide (x = p)) as [->|Hxp].
      * by destruct (decide (Some p = Some p)).
      * destruct (decide (Some p = Some x)) as [[=]|]; [congruence|done].
  - rewrite status_update_status by done.
    destruct (decide (x = s)) as [->|]; [done|]. by destruct (decide (None = Some x)).
Qed.

Lemma unlinked_same s w :
  scopes (unlinked s w) = scopes w ∧ tasks (unlinked s w) = tasks w ∧
  runq (unlinked s w) = runq w ∧ deadlines (unlinked s w) = deadlines w ∧
  is_guest (unlinked s w) = is_guest w ∧
  length (statuses (unlinked s w)) = length (statuses w).
Proof.
  unfold unlinked. destruct (_parent (status w s)); unfold_world; simpl;
    rewrite ?length_insert; done.
Qed.

Lemma unlinked_tree_wf s w :
  tree_wf w -> (s < length (statuses w))%nat -> tree_wf (unlinked s w).
Proof.
  intros Hwf Hs. pose proof (unlinked_status s w) as Hst.
  destruct (unlinked_same s w) as (Hsc & Htk & Hq & _ & _ & Hlen).
  set (w' := unlinked s w) in *.
  assert (∀ x, _parent (status w' x)
               = if decide (x = s) then None else _parent (status w x)) as Hpar.
  { intros x. rewrite Hst by done. destruct (decide (x = s)); [done|].
    by destruct (decide (_parent (status w s) = Some x)). }
  assert (∀ x, _children (status w' x)
               = if decide (_parent (status w s) = Some x)
                 then remove s (_children (status w x)) else _children (status w x)) as Hch.
  { intros x. rewrite Hst by done. destruct (decide (x = s)) as [->|].
    - destruct (decide (_parent (status w s) = Some s)) as [Hss|]; [|done].
      destruct (tw_ranked _ Hwf) as [depth Hd]. specialize (Hd s s Hss). lia.
    - by destruct (decide (_parent (status w s) = Some x)). }
  assert (∀ x, _tasks (status w' x) = _tasks (status w x)
               ∧ _scope (status w' x) = _scope (status w x)) as Hother.
  { intros x. rewrite Hst by done. destruct (decide (x = s)) as [->|]; [done|].
    by destruct (decide (_parent (status w s) = Some x)). }
  split_and!.
  - split_and!.
    + intros c q. rewrite Hpar, Hch. destruct (decide (c = s)); [done|].
      intros Hcq. apply (tw_parent_child _ Hwf) in Hcq.
      destruct (decide (_parent (status w s) = Some q)); [|done].
      by apply elem_of_remove.
    + intros q c. rewrite Hpar, Hch.
      destruct (decide (_parent (status w s) = Some q)) as [Hsq|Hsq].
      * rewrite elem_of_remove. intros [Hin Hne]. destruct (decide (c = s)); [done|].
        by apply (tw_child_parent _ Hwf).
      * intros Hin. destruct (decide (c = s)) as [->|].
        -- by apply (tw_child_parent _ Hwf) in Hin.
        -- by apply (tw_child_parent _ Hwf).
    + intros q. rewrite Hch. destruct (decide _); [apply NoDup_remove|];
        apply (tw_children_nodup _ Hwf).
    + destruct (tw_ranked _ Hwf) as [depth Hd]. exists depth.
      intros c q. rewrite Hpar. destruct (decide (c = s)); [done|]. apply Hd.
  - eapply tasks_wf_ext; [apply Hwf|apply Hother|].
    intros t. by rewrite (task_same_tasks w w').
  - eapply scopes_wf_ext; [apply Hwf| | |apply Hother|done];
      intros k; by rewrite (scope_same_scopes w w').
  - apply (tasks_ok_same_tasks w); [done|done|by apply tw_tasks_ok].
Qed.

Lemma unlinked_equation s w x :
  tree_wf w -> (s < length (statuses w))%nat -> x ≠ s ->
  equation_holds w x -> equation_holds (unlinked s w) x.
Proof.
  intros Hwf Hs Hne. pose proof (unlinked_status s w) as Hst.
  destruct (unlinked_same s w) as (Hsc & _).
  assert (∀ y, effectively_cancelled (status (unlinked s w) y)
               = effectively_cancelled (status w y)) as Heff.
  { intros y. rewrite Hst by done. destruct (decide (y = s)) as [->|]; [done|].
    by destruct (decide (_parent (status w s) = Some y)). }
  assert (_scope (status (unlinked s w) x) = _scope (status w x)
          ∧ _parent (status (unlinked s w) x) = _parent (status w x)) as [H1 H2].
  { rewrite Hst by done. destruct (decide (x = s)); [done|].
    by destruct (decide (_parent (status w s) = Some x)). }
  apply equation_holds_ext; rewrite ?(scope_same_scopes w (unlinked s w)); done.
Qed.

(** [_mark_abandoned] only sets flags. *)
Record flags_frame (w w' : world) : Prop := mk_flags_frame {
  ff_scopes : scopes w' = scopes w;
  ff_tasks : tasks w' = tasks w;
  ff_runq : runq w' = runq w;
  ff_deadlines : deadlines w' = deadlines w;
  ff_guest : is_guest w' = is_guest w;
  ff_len : length (statuses w') = length (statuses w);
  ff_status : ∀ x, set_abandoned_by_misnesting false (status w' x)
                   = set_abandoned_by_misnesting false (status w x)
}.

Lemma flags_frame_refl w : flags_frame w w.
Proof. by constructor. Qed.

Lemma flags_frame_trans w1 w2 w3 : flags_frame w1 w2 -> flags_frame w2 w3 -> flags_frame w1 w3.
Proof. intros [] []. constructor; congruence. Qed.

Lemma flags_frame_field {A} (proj : CancelStatus -> A) w w' :
  (∀ b st, proj (set_abandoned_by_misnesting b st) = proj st) ->
  flags_frame w w' -> ∀ x, proj (status w' x) = proj (status w x).
Proof.
  intros Hproj Hf x.
  rewrite <- (Hproj false (status w' x)), <- (Hproj false (status w x)).
  by rewrite (ff_status _ _ Hf).
Qed.

Lemma _mark_abandoned_correct fuel : ∀ s w r w',
  _mark_abandoned fuel s w = (r, w') -> r ≠ OutOfFuel -> r = Ok tt ∧ flags_frame w w'.
Proof.
  induction fuel as [|fuel IH]; intros s w r w' Hrun Hr; simpl in Hrun.
  { by injection Hrun as <- <-. }
  unfold bind at 1, modify at 1, bind at 1, gets at 1 in Hrun.
  set (w1 := update_status s (set_abandoned_by_misnesting true) w) in *.
  assert (flags_frame w w1) as Hf1.
  { constructor; try done.
    - unfold_world. simpl. by rewrite length_insert.
    - intros x. destruct (decide (x = s)) as [->|Hne].
      + destruct (decide (s < length (statuses w))%nat).
        * unfold w1. rewrite status_update_status by done. by destruct (decide (s = s)).
        * unfold w1, status. unfold_world. simpl. by rewrite list_insert_ge by lia.
      + unfold w1. by rewrite status_update_status_ne. }
  revert Hrun. generalize (_children (status w1 s)). revert Hf1. generalize w1.
  clear w1. intros w1 Hf1 cs. revert w1 Hf1.
  induction cs as [|c cs IHcs]; intros w1 Hf1 Hrun; simpl in Hrun.
  { by injection Hrun as <- <-. }
  unfold bind at 1 in Hrun.
  destruct (_mark_abandoned fuel c w1) as [r2 w2] eqn:Hc.
  destruct (IH c w1 r2 w2 Hc) as [-> Hf2].
  { intros ->. by injection Hrun as <- <-. }
  apply (IHcs w2); [by eapply flags_frame_trans|done].
Qed.

(** [for child in self._children: child.recalculate()], for statuses [B]
    that one does not care about. *)
Lemma recalculate_children_correct (B : nat -> Prop) fuel now : ∀ rest w r w',
  tree_wf w ->
  (∀ c, c ∈ rest -> (c < length (statuses w))%nat) ->
  (∀ x, attached w x -> ¬ B x -> x ∉ rest -> equation_holds w x) ->
  for_each rest (recalculate fuel now) w = (r, w') -> r ≠ OutOfFuel ->
  r = Ok tt ∧ same_structure w w' ∧ tasks_ok w' ∧
  (∀ x, attached w x -> ¬ B x -> equation_holds w' x) ∧
  (∀ x, x ∉ rest -> _parent (status w x) = None -> status w' x = status w x).
Proof.
  induction rest as [|c rest IH]; intros w r w' Hwf Hvalid Heq Hrun Hr; simpl in Hrun.
  { injection Hrun as <- <-. split; [done|]. split; [apply same_structure_refl|].
    split; [by apply tw_tasks_ok|]. split; [|done].
    intros x Ha Hb. apply Heq; [done|done|apply not_elem_of_nil]. }
  unfold bind at 1 in Hrun.
  destruct (recalculate fuel now c w) as [r1 w1] eqn:Hrec.
  destruct (recalculate_spec fuel now (fun x => attached w x ∧ ¬ B x ∧ x ∉ rest)
              c w r1 w1 Hwf) as (-> & Hss1 & Hok1 & HG1 & Hroot1); try done.
  - apply Hvalid. left.
  - intros x [Ha _]. by apply attached_valid.
  - intros x (Ha & Hb & Hn) Hne. apply Heq; [done|done|]. by apply not_elem_of_cons.
  - intros ->. by injection Hrun as <- <-.
  - pose proof (tree_wf_same_structure _ _ Hwf Hss1 Hok1) as Hwf1.
    destruct (IH w1 r w' Hwf1) as (-> & Hss & Hok & HG & Hroot); try done.
    + intros x Hx. rewrite (ss_len _ _ Hss1). apply Hvalid. by right.
    + intros x Ha Hb Hn. apply HG1. split; [by apply (attached_same_structure w w1)|done].
    + split; [done|]. split; [by eapply same_structure_trans|]. split; [done|]. split.
      * intros x Ha Hb. apply HG; [by apply (attached_same_structure w w1)|done].
      * intros x Hx Hp. apply not_elem_of_cons in Hx as [Hne Hx].
        rewrite Hroot; [by apply Hroot1|done|by rewrite (ss_parent _ _ Hss1)].
Qed.

(** What [CancelStatus.close] leaves alone. *)
Record close_frame (w w' : world) : Prop := mk_close_frame {
  cf_len : length (statuses w') = length (statuses w);
  cf_scope : ∀ x, _scope (status w' x) = _scope (status w x);
  cf_scopes_len : length (scopes w') = length (scopes w);
  cf_cancel_status : ∀ k, _cancel_status (scope w' k) = _cancel_status (scope w k);
  cf_entered : ∀ k, _has_been_entered (scope w' k) = _has_been_entered (scope w k);
  cf_called : ∀ k, _cancel_called (scope w k) = true -> _cancel_called (scope w' k) = true
}.

Lemma close_frame_same_structure w w' : same_structure w w' -> close_frame w w'.
Proof. intros []. by constructor. Qed.

Lemma close_frame_same_scopes w w' :
  scopes w' = scopes w -> length (statuses w') = length (statuses w) ->
  (∀ x, _scope (status w' x) = _scope (status w x)) -> close_frame w w'.
Proof.
  intros Hsc Hlen Hscope.
  assert (∀ k, scope w' k = scope w k) as H by (intros; by apply scope_same_scopes).
  constructor; try done; intros; rewrite ?H, ?Hsc; done.
Qed.

Lemma close_frame_trans w1 w2 w3 : close_frame w1 w2 -> close_frame w2 w3 -> close_frame w1 w3.
Proof. intros [] []. constructor; intros; try congruence. auto. Qed.

Lemma attached_close_frame w w' x : close_frame w w' -> attached w' x ↔ attached w x.
Proof. intros []. unfold attached. by rewrite cf_scope0, cf_cancel_status0. Qed.

(** [CancelStatus.close]: the status has no parent any more; if tasks or
    children were left under it, it is marked cancelled whatever its scope
    says. At the other attached statuses the equation holds. *)
Lemma close_correct fuel now s w r w' :
  inv w -> (s < length (statuses w))%nat ->
  close fuel now s w = (r, w') -> r ≠ OutOfFuel ->
  r = Ok tt ∧ tree_wf w' ∧ close_frame w w' ∧
  (∀ x, attached w x -> x ≠ s -> equation_holds w' x) ∧
  _parent (status w' s) = None ∧
  (_tasks (status w s) ≠ [] ∨ _children (status w s) ≠ [] ->
   effectively_cancelled (status w' s) = true) ∧
  (∀ t, _abort_func (task w' t) ≠ None -> _abort_func (task w' t) = _abort_func (task w t)) ∧
  length (tasks w') = length (tasks w) ∧
  (∀ t, Task_cancel_status (task w' t) = Task_cancel_status (task w t)).
Proof.
  intros [Hwf Hc] Hs Hrun Hr. unfold close in Hrun.
  unfold bind at 1 in Hrun. rewrite parent_setter_None_run in Hrun by done.
  unfold bind at 1, gets at 1 in Hrun.
  pose proof (fun x => unlinked_status s w x Hwf Hs) as Hst2.
  destruct (unlinked_same s w) as (Hsc2 & Htk2 & Hq2 & Hdl2 & Hg2 & Hlen2).
  pose proof (unlinked_tree_wf s w Hwf Hs) as Hwf2.
  set (w2 := unlinked s w) in *.
  assert (status w2 s = set_parent None (status w s)) as Hs2
    by (rewrite Hst2; by destruct (decide (s = s))).
  assert (∀ x, _scope (status w2 x) = _scope (status w x)) as Hscope2.
  { intros x. rewrite Hst2. destruct (decide (x = s)) as [->|]; [done|].
    by destruct (decide (_parent (status w s) = Some x)). }
  assert (close_frame w w2) as Hcf2 by (by apply close_frame_same_scopes).
  assert (∀ x, attached w x -> x ≠ s -> equation_holds w2 x) as Heq2.
  { intros x Ha Hne. apply unlinked_equation; try done. by apply Hc. }
  rewrite Hs2 in Hrun. simpl in Hrun.
  destruct (negb (is_empty (_tasks (status w s))) || negb (is_empty (_children (status w s))))
    eqn:Hmis.
  2: { injection Hrun as <- <-. split; [done|]. split; [done|]. split; [done|].
       split; [done|]. split; [by rewrite Hs2|]. split.
       - apply orb_false_iff in Hmis as [H1 H2].
         apply negb_false_iff, is_empty_nil in H1. apply negb_false_iff, is_empty_nil in H2.
         intros [?|?]; done.
       - assert (∀ t, task w2 t = task w t) as Htk' by (intros; by apply task_same_tasks).
         split; [|split]; [intros t; by rewrite Htk'|by rewrite Htk2|intros t; by rewrite Htk']. }
  unfold bind at 1 in Hrun.
  destruct (_mark_abandoned fuel s w2) as [r3 w3] eqn:Hmark.
  destruct (_mark_abandoned_correct fuel s w2 r3 w3 Hmark) as [-> Hf3].
  { intros ->. by injection Hrun as <- <-. }
  assert (tree_wf w3) as Hwf3.
  { destruct Hf3. apply (tree_wf_fields w2); try done;
      apply flags_frame_field; try done; by constructor. }
  assert (∀ {A} (proj : CancelStatus -> A),
            (∀ b st, proj (set_abandoned_by_misnesting b st) = proj st) ->
            ∀ x, proj (status w3 x) = proj (status w2 x)) as Hfield3
    by (intros; by apply flags_frame_field).
  unfold bind at 1, modify at 1 in Hrun.
  set (w4 := update_status s (set_effectively_cancelled true) w3) in *.
  pose proof (same_structure_set_effectively_cancelled w3 s true) as Hss4. fold w4 in Hss4.
  assert (tasks_ok w4) as Hok4 by (apply (tasks_ok_same_tasks w3); [done|done|by apply tw_tasks_ok]).
  pose proof (tree_wf_same_structure _ _ Hwf3 Hss4 Hok4) as Hwf4.
  assert (s < length (statuses w3))%nat as Hs3 by (by rewrite (ff_len _ _ Hf3), Hlen2).
  assert (∀ x, status w4 x = if decide (x = s) then set_effectively_cancelled true (status w3 s)
                             else status w3 x) as Hst4
    by (intros; by apply status_update_status).
  unfold bind at 1 in Hrun.
  destruct (deliver_all_correct (_tasks (status w s)) w4 Hok4) as (w5 & Hdel & Hf5 & Hok5).
  { intros t Ht _. rewrite (ss_task_status _ _ Hss4).
    rewrite (task_same_tasks w2 w3) by apply (ff_tasks _ _ Hf3).
    rewrite (task_same_tasks w w2) by done.
    by rewrite (tw_status_task _ Hwf s t Ht). }
  rewrite Hdel in Hrun.
  pose proof (delivery_frame_same_structure _ _ Hf5) as Hss5.
  pose proof (tree_wf_same_structure _ _ Hwf4 Hss5 Hok5) as Hwf5.
  assert (∀ x, status w5 x = status w4 x) as Hst5
    by (intros; apply status_same_statuses, (df_statuses _ _ Hf5)).
  assert (scopes w5 = scopes w) as Hsc5.
  { rewrite (df_scopes _ _ Hf5). change (scopes w4) with (scopes w3).
    by rewrite (ff_scopes _ _ Hf3). }
  assert (∀ x, _scope (status w5 x) = _scope (status w x)) as Hscope5.
  { intros x. rewrite Hst5, (ss_scope _ _ Hss4), (Hfield3 _ _scope) by done. apply Hscope2. }
  assert (length (statuses w5) = length (statuses w)) as Hlen5.
  { by rewrite (ss_len _ _ Hss5), (ss_len _ _ Hss4), (ff_len _ _ Hf3). }
  assert (close_frame w w5) as Hcf5 by (by apply close_frame_same_scopes).
  assert (_children (status w5 s) = _children (status w s)) as Hch5.
  { by rewrite (ss_children _ _ Hss5), (ss_children _ _ Hss4), (Hfield3 _ _children), Hs2. }
  assert (_parent (status w5 s) = None) as Hpar5.
  { by rewrite (ss_parent _ _ Hss5), (ss_parent _ _ Hss4), (Hfield3 _ _parent), Hs2. }
  assert (effectively_cancelled (status w5 s) = true) as Heff5.
  { rewrite Hst5, Hst4. by destruct (decide (s = s)). }
  assert (s ∉ _children (status w s)) as Hsn.
  { intros Hin. apply (tw_child_parent _ Hwf) in Hin.
    destruct (tw_ranked _ Hwf) as [depth Hd]. specialize (Hd s s Hin). lia. }
  destruct (recalculate_children_correct (fun x => x = s) fuel now
              (_children (status w s)) w5 r w' Hwf5) as (-> & Hss6 & Hok6 & HG6 & Hroot6);
    try done.
  - intros c Hc'. rewrite Hlen5. by eapply child_valid.
  - intros x Ha Hne Hnc. apply (attached_close_frame w w5) in Ha; [|done].
    assert (equation_holds w3 x) as Heq3.
    { apply (equation_holds_ext w2); try (by apply Hfield3);
        rewrite ?(scope_same_scopes w2 w3) by apply (ff_scopes _ _ Hf3); try done.
      - intros p _. by apply Hfield3.
      - by apply Heq2. }
    assert (∀ y, y ≠ s -> status w5 y = status w3 y) as Hne5.
    { intros y Hy. rewrite Hst5, Hst4. by destruct (decide (y = s)). }
    apply (equation_holds_ext w3); rewrite ?Hne5 by done; try done.
    + intros p Hp. rewrite Hne5; [done|]. intros ->. apply Hnc.
      rewrite (Hfield3 _ _parent) in Hp by done.
      assert (_parent (status w x) = Some s) as Hp'.
      { rewrite Hst2 in Hp. destruct (decide (x = s)); [done|].
        by destruct (decide (_parent (status w s) = Some x)). }
      by apply (tw_parent_child _ Hwf).
    + rewrite (scope_same_scopes w3 w5); [done|].
      rewrite (df_scopes _ _ Hf5). done.
    + rewrite (scope_same_scopes w3 w5); [done|].
      rewrite (df_scopes _ _ Hf5). done.
  - split; [done|]. split; [by eapply tree_wf_same_structure|].
    split; [eapply close_frame_trans; [done|by apply close_frame_same_structure]|].
    assert (status w' s = status w5 s) as Hs6 by (apply Hroot6; done).
    split; [|split; [by rewrite Hs6|split; [by rewrite Hs6|]]].
    + intros x Ha Hne. apply HG6; [|done]. by apply (attached_close_frame w w5).
    + assert (∀ t, task w4 t = task w t) as Htk4.
      { intros t. change (task w4 t) with (task w3 t).
        rewrite (task_same_tasks w2 w3) by apply (ff_tasks _ _ Hf3).
        by rewrite (task_same_tasks w w2). }
      split; [|split].
      * intros t Ht. rewrite (ss_abort _ _ Hss6) by done. rewrite <- Htk4.
        apply (df_abort _ _ Hf5). by rewrite <- (ss_abort _ _ Hss6).
      * rewrite (ss_tasks_len _ _ Hss6), (df_tasks_len _ _ Hf5).
        change (tasks w4) with (tasks w3). by rewrite (ff_tasks _ _ Hf3), Htk2.
      * intros t. by rewrite (ss_task_status _ _ Hss6), (df_task_status _ _ Hf5), Htk4.
Qed.

(** The scope [k] forgets its status [s]. *)
Lemma detach_inv k s w :
  tree_wf w -> _cancel_status (scope w k) = Some s ->
  (∀ x, attached w x -> x ≠ s -> equation_holds w x) ->
  inv (update_scope k (set_cancel_status None) w).
Proof.
  intros Hwf Hcs Hc. destruct (tw_link _ Hwf k s Hcs) as [Hsk Hs].
  assert (k < length (scopes w))%nat as Hk by (apply scope_valid; left; by rewrite Hcs).
  set (w' := update_scope k (set_cancel_status None) w).
  assert (∀ x, scope w' x = if decide (x = k) then set_cancel_status None (scope w k)
                            else scope w x) as Hsc by (intros; by apply scope_update_scope).
  assert (∀ x, status w' x = status w x) as Hst by done.
  assert (∀ x, equation_holds w x -> equation_holds w' x) as Hext.
  { intros x. apply equation_holds_ext; try done.
    - rewrite Hsc. by destruct (decide _) as [Hxk|]; [rewrite Hxk|].
    - rewrite Hsc. by destruct (decide _) as [Hxk|]; [rewrite Hxk|]. }
  split; [split_and!|].
  - eapply links_wf_ext; [apply Hwf|done..].
  - eapply tasks_wf_ext; [apply Hwf|done..].
  - split_and!.
    + intros k' x. rewrite Hsc, Hst. destruct (decide (k' = k)) as [->|]; [done|].
      apply (tw_link _ Hwf).
    + intros k'. rewrite Hsc. destruct (decide (k' = k)) as [->|]; [done|].
      apply (tw_entered _ Hwf).
    + intros x Hx. rewrite Hst, Hsc. destruct (decide _) as [Hxk|].
      * simpl. rewrite <- Hxk. by apply (tw_scope_entered _ Hwf).
      * by apply (tw_scope_entered _ Hwf).
    + apply (tw_scope_inj _ Hwf).
  - apply (tasks_ok_same_tasks w); [done|done|by apply tw_tasks_ok].
  - intros x Ha. apply Hext. unfold attached in Ha. rewrite Hst, Hsc in Ha.
    destruct (decide (_scope (status w x) = k)) as [Hxk|Hxk]; [done|].
    apply Hc; [done|]. intros ->. congruence.
Qed.

Lemma encloses_no_raise fuel w s : ∀ o e, encloses fuel w s o ≠ Raise e.
Proof.
  induction fuel as [|fuel IH]; intros [o|] e; simpl; try done.
  - by destruct (decide (o = s)).
  - destruct (decide (o = s)); [done|apply IH].
Qed.

Lemma parent_valid w c p : tree_wf w -> _parent (status w c) = Some p ->
  (p < length (statuses w))%nat.
Proof.
  intros Hwf Hp. apply status_valid. right. left. intros Hnil.
  apply (tw_parent_child _ Hwf) in Hp. rewrite Hnil in Hp. inversion Hp.
Qed.

(** [_exc_filter] and [MultiError.filter] only set [cancelled_caught]. *)
Record caught_frame (w w' : world) : Prop := mk_caught_frame {
  gf_statuses : statuses w' = statuses w;
  gf_tasks : tasks w' = tasks w;
  gf_runq : runq w' = runq w;
  gf_scope : ∀ x, set_cancelled_caught false (scope w' x)
                  = set_cancelled_caught false (scope w x)
}.

Lemma caught_frame_trans w1 w2 w3 :
  caught_frame w1 w2 -> caught_frame w2 w3 -> caught_frame w1 w3.
Proof. intros [] []. constructor; congruence. Qed.

Lemma _exc_filter_correct k e w :
  ∃ r w', _exc_filter k e w = (Ok r, w') ∧ caught_frame w w'.
Proof.
  assert (caught_frame w w) as Hrefl by (by constructor).
  destruct e; simpl; eauto.
  unfold bind, modify, ret. eexists _, _. split; [done|]. constructor; try done.
  intros x. destruct (decide (x = k)) as [->|Hne].
  - destruct (decide (k < length (scopes w))%nat) as [Hk|Hk].
    + rewrite scope_update_scope by done. by destruct (decide (k = k)).
    + by rewrite update_scope_invalid.
  - by rewrite scope_update_scope_ne.
Qed.

Lemma map_m_exc_filter_correct k es : ∀ w,
  ∃ rs w', map_m (_exc_filter k) es w = (Ok rs, w') ∧ caught_frame w w'.
Proof.
  induction es as [|e es IH]; intros w; simpl.
  - eexists _, _. split; [done|]. by constructor.
  - destruct (_exc_filter_correct k e w) as (r & w1 & Hrun1 & Hf1).
    destruct (IH w1) as (rs & w2 & Hrun2 & Hf2).
    unfold bind. rewrite Hrun1, Hrun2. eexists _, _. split; [done|].
    by eapply caught_frame_trans.
Qed.

Lemma inv_caught_frame w w' : inv w -> caught_frame w w' -> inv w'.
Proof.
  intros Hinv [F1 F2 F3 F4].
  apply (inv_ext w); try done.
  - intros x. apply (f_equal _cancel_status (F4 x)).
  - intros x. pose proof (f_equal _has_been_entered (F4 x)) as He. simpl in He. congruence.
  - intros x _. apply (f_equal _cancel_called (F4 x)).
  - intros x _. apply (f_equal _shield (F4 x)).
  - intros t. by rewrite (task_same_tasks w w').
  - apply (tasks_ok_same_tasks w); [done|done|by apply tasks_ok_of_inv].
Qed.

Lemma _close_inv leaves rebuild fuel now k t exc w r w' :
  inv w -> running w t ->
  _close leaves rebuild fuel now k t exc w = (r, w') -> r ≠ OutOfFuel ->
  (∃ e, r = Ok e) ∧ inv w'.
Proof.
  intros Hinv (Ht & Hq & Habort) Hrun Hr. unfold _close in Hrun.
  unfold bind at 1, gets at 1 in Hrun.
  destruct (_cancel_status (scope w k)) as [s|] eqn:Hcs;
    [|injection Hrun as <- <-; split; [by eexists|done]].
  destruct (tw_link _ (proj1 Hinv) k s Hcs) as [Hsk Hs].
  unfold bind at 1, gets at 1 in Hrun. unfold bind at 1, gets at 1 in Hrun.
  unfold bind at 1 in Hrun.
  set (go_m := if decide (Task_cancel_status (task w t) = Some s) then _ else _) in Hrun.
  destruct (go_m w) as [rg wg] eqn:Hgo.
  assert (rg ≠ OutOfFuel) as Hrg by (intros ->; by injection Hrun as <- <-).
  assert (∀ p, _parent (status w s) = p ->
            ∃ wa, _activate_cancel_status t p w = (Ok tt, wa) ∧ inv wa ∧
                  scopes wa = scopes w ∧ length (statuses wa) = length (statuses w)) as Hact.
  { intros p Hp.
    destruct (_activate_cancel_status_inv t p w Hinv Ht Habort) as (wa & Hrun_a & Hinva & Hf).
    - intros p' ->. by eapply parent_valid; [apply Hinv|].
    - exists wa. split; [done|]. split; [done|]. by destruct Hf. }
  assert ((∃ g, rg = Ok g) ∧ inv wg ∧ scopes wg = scopes w
          ∧ length (statuses wg) = length (statuses w)) as ([g ->] & Hinvg & Hscg & Hleng).
  { unfold go_m in Hgo. destruct (decide (Task_cancel_status (task w t) = Some s)).
    - destruct (Hact _ eq_refl) as (wa & Hrun_a & Hinva & ? & ?).
      unfold bind in Hgo. rewrite Hrun_a in Hgo. injection Hgo as <- <-.
      split; [by eexists|done].
    - unfold bind at 1, gets at 1 in Hgo.
      destruct (abandoned_by_misnesting (status w s)).
      { injection Hgo as <- <-. split; [by eexists|done]. }
      unfold bind at 1, gets at 1, id in Hgo.
      destruct (encloses fuel w s (Task_cancel_status (task w t))) as [[]|e|] eqn:Henc.
      + destruct (Hact _ eq_refl) as (wa & Hrun_a & Hinva & ? & ?).
        unfold bind in Hgo. rewrite Hrun_a in Hgo. injection Hgo as <- <-.
        split; [by eexists|done].
      + injection Hgo as <- <-. split; [by eexists|done].
      + by apply encloses_no_raise in Henc.
      + by injection Hgo as <- <-. }
  clear Hgo go_m Hact.
  destruct g as [exc1|]; [|injection Hrun as <- <-; split; [by eexists|done]].
  unfold bind at 1, gets at 1, id in Hrun. unfold bind at 1 in Hrun.
  set (filt := match exc1 with Some e => _ | None => _ end) in Hrun.
  destruct (filt wg) as [rf wf] eqn:Hfilt.
  assert ((∃ x, rf = Ok x) ∧ inv wf ∧ length (statuses wf) = length (statuses wg)
          ∧ ∀ x, _cancel_status (scope wf x) = _cancel_status (scope wg x))
    as ([exc2 ->] & Hinvf & Hlenf & Hcsf).
  { unfold filt in Hfilt. destruct exc1 as [e|]; [|injection Hfilt as <- <-; eauto].
    destruct (effectively_cancelled (status wg s)
              && negb (parent_cancellation_is_visible_to_us wg s));
      [|injection Hfilt as <- <-; eauto].
    unfold MultiError_filter, bind at 1 in Hfilt.
    destruct (map_m_exc_filter_correct k (leaves e) wg) as (rs & wh & Hmap & Hcf).
    rewrite Hmap in Hfilt. injection Hfilt as <- <-.
    split; [by eexists|]. split; [by eapply inv_caught_frame|]. split.
    - by rewrite (gf_statuses _ _ Hcf).
    - intros x. apply (f_equal _cancel_status (gf_scope _ _ Hcf x)). }
  clear Hfilt filt.
  unfold bind at 1 in Hrun.
  destruct (close fuel now s wf) as [rc wc] eqn:Hclose.
  destruct (close_correct fuel now s wf rc wc Hinvf)
    with (2 := Hclose) as (-> & Hwfc & Hcf & Heqc & _).
  { by rewrite Hlenf, Hleng. }
  { intros ->. by injection Hrun as <- <-. }
  unfold bind at 1 in Hrun.
  destruct (_might_change_registered_deadline fuel k _ wc) as [rm wm] eqn:Hmc.
  destruct (might_change_modify_correct _ _ _ _ _ _ Hmc) as (-> & Hf & _).
  { intros ->. by injection Hrun as <- <-. }
  injection Hrun as <- <-. split; [by eexists|].
  eapply inv_registered_frame; [|done].
  apply (detach_inv k s).
  - done.
  - by rewrite (cf_cancel_status _ _ Hcf), Hcsf, (scope_same_scopes w wg).
  - intros x Ha Hne. apply Heqc; [|done]. by apply (attached_close_frame wf wc).
Qed.

(** *** The invariant holds in every reachable world *)

Lemma init_world_inv guest : inv (init_world guest).
Proof.
  assert (∀ x, status (init_world guest) (S x) = mkStatus 0 false None [] [] false) as Hst
    by (by intros []).
  assert (∀ x, task (init_world guest) (S x) = mkTask None None) as Htk by (by intros []).
  assert (∀ x, scope (init_world guest) (S x) = mkScope None false Inf false false Inf false)
    as Hsc by (by intros []).
  split; [split_and!|].
  - split_and!.
    + by intros [|c] p.
    + intros [|p] c H; inversion H.
    + intros [|p]; constructor.
    + exists (fun _ => 0%nat). by intros [|c] p.
  - split_and!.
    + intros [|t] s; [|by rewrite Htk]. intros [= <-]. left.
    + intros [|s] t H; [|inversion H]. by apply list_elem_of_singleton in H as ->.
    + intros [|s]; [apply NoDup_singleton|constructor].
  - split_and!.
    + intros [|k] s; [|by rewrite Hsc]. intros [= <-]. split; [done|simpl; lia].
    + by intros [|k].
    + intros [|s]; [done|]. simpl. lia.
    + intros [|s] [|s']; simpl; try done; lia.
  - split; [intros t _ H; inversion H|]. intros t H. inversion H.
  - intros [|s]; [done|]. unfold attached. by rewrite Hst.
Qed.

(** One call keeps the invariant and the protocol, and either returns or
    raises the [RuntimeError] of entering a scope twice. *)
Lemma run_inv fuel o w r w' :
  inv w -> deadlines_ok w -> enabled w o -> run fuel o w = (r, w') -> r ≠ OutOfFuel ->
  inv w' ∧ deadlines_ok w' ∧ (r = Ok tt ∨ r = Raise RuntimeError).
Proof.
  intros Hinv Hok Hen Hrun Hr.
  assert (deadlines_ok w') as Hok'.
  { refine (proj1 (run_keeps (fun _ => False) fuel o w r w' _ Hrun Hr)).
    split; [done|by intros k []]. }
  split; [|split; [done|]]; destruct o; simpl in Hrun, Hen.
  - unfold CancelScope_new, bind, gets, modify, ret in Hrun. injection Hrun as <- <-.
    by apply CancelScope_new_inv.
  - destruct Hen as (Hk & Hrunning & Hts).
    by destruct (__enter___inv fuel self t now w r w' Hinv Hk Hrunning Hts Hrun Hr).
  - destruct Hen as (Hk & Hrunning). unfold bind in Hrun.
    destruct (_close leaves rebuild fuel now self t exc w) as [r1 w1] eqn:Hclose.
    destruct (_close_inv leaves rebuild fuel now self t exc w r1 w1 Hinv Hrunning Hclose)
      as ([e ->] & ?).
    { intros ->. by injection Hrun as <- <-. }
    by injection Hrun as <- <-.
  - by destruct (cancel_inv_step fuel now self w r w' Hinv Hrun Hr) as (_ & ? & _).
  - by destruct (deadline_setter_inv fuel self new_deadline w r w' Hinv Hrun Hr).
  - by destruct (shield_setter_inv fuel now self new_value w r w' Hinv Hrun Hr).
  - unfold bind in Hrun. destruct (cancel_called fuel self now w) as [r1 w1] eqn:Hcc.
    destruct (cancel_called_inv fuel self now w r1 w1 Hinv Hcc) as ([b ->] & ? & _).
    { intros ->. by injection Hrun as <- <-. }
    by injection Hrun as <- <-.
  - destruct (spawn_impl_inv cancel_status w Hinv Hen) as (w1 & Hrun1 & ?).
    rewrite Hrun1 in Hrun. by injection Hrun as <- <-.
  - destruct (task_exited_inv t w Hinv Hen) as (w1 & Hrun1 & ?).
    rewrite Hrun1 in Hrun. by injection Hrun as <- <-.
  - destruct Hen as [Hrunning Hts].
    destruct (wait_task_rescheduled_inv t abort_func w Hinv Hrunning Hts) as (w1 & Hrun1 & ?).
    rewrite Hrun1 in Hrun. by injection Hrun as <- <-.
  - unfold modify in Hrun. injection Hrun as <- <-. by apply resume_inv.
  - unfold bind in Hrun. destruct (expire fuel now w) as [r1 w1] eqn:Hexp.
    destruct (expire_inv fuel now w r1 w1 Hinv Hok Hexp) as ([b ->] & ? & _).
    { intros ->. by injection Hrun as <- <-. }
    by injection Hrun as <- <-.
  - unfold bind in Hrun. destruct (Deadlines_next_deadline fuel w) as [r1 w1] eqn:Hnd.
    destruct (Deadlines_next_deadline_inv fuel w r1 w1 Hinv Hnd) as ([d ->] & ?).
    { intros ->. by injection Hrun as <- <-. }
    by injection Hrun as <- <-.
  - unfold CancelScope_new, bind, gets, modify, ret in Hrun. injection Hrun as <- <-.
    by left.
  - destruct Hen as (Hk & Hrunning & Hts).
    by destruct (__enter___inv fuel self t now w r w' Hinv Hk Hrunning Hts Hrun Hr).
  - destruct Hen as (Hk & Hrunning). unfold bind in Hrun.
    destruct (_close leaves rebuild fuel now self t exc w) as [r1 w1] eqn:Hclose.
    destruct (_close_inv leaves rebuild fuel now self t exc w r1 w1 Hinv Hrunning Hclose)
      as ([e ->] & ?).
    { intros ->. by injection Hrun as <- <-. }
    injection Hrun as <- <-. by left.
  - destruct (cancel_inv_step fuel now self w r w' Hinv Hrun Hr) as (-> & _). by left.
  - destruct (deadline_setter_inv fuel self new_deadline w r w' Hinv Hrun Hr) as (-> & _).
    by left.
  - destruct (shield_setter_inv fuel now self new_value w r w' Hinv Hrun Hr) as (-> & _).
    by left.
  - unfold bind in Hrun. destruct (cancel_called fuel self now w) as [r1 w1] eqn:Hcc.
    destruct (cancel_called_inv fuel self now w r1 w1 Hinv Hcc) as ([b ->] & ? & _).
    { intros ->. by injection Hrun as <- <-. }
    injection Hrun as <- <-. by left.
  - destruct (spawn_impl_inv cancel_status w Hinv Hen) as (w1 & Hrun1 & ?).
    rewrite Hrun1 in Hrun. injection Hrun as <- <-. by left.
  - destruct (task_exited_inv t w Hinv Hen) as (w1 & Hrun1 & ?).
    rewrite Hrun1 in Hrun. injection Hrun as <- <-. by left.
  - destruct Hen as [Hrunning Hts].
    destruct (wait_task_rescheduled_inv t abort_func w Hinv Hrunning Hts) as (w1 & Hrun1 & ?).
    rewrite Hrun1 in Hrun. injection Hrun as <- <-. by left.
  - unfold modify in Hrun. injection Hrun as <- <-. by left.
  - unfold bind in Hrun. destruct (expire fuel now w) as [r1 w1] eqn:Hexp.
    destruct (expire_inv fuel now w r1 w1 Hinv Hok Hexp) as ([b ->] & ? & _).
    { intros ->. by injection Hrun as <- <-. }
    injection Hrun as <- <-. by left.
  - unfold bind in Hrun. destruct (Deadlines_next_deadline fuel w) as [r1 w1] eqn:Hnd.
    destruct (Deadlines_next_deadline_inv fuel w r1 w1 Hinv Hnd) as ([d ->] & ?).
    { intros ->. by injection Hrun as <- <-. }
    injection Hrun as <- <-. by left.
Qed.

Lemma reachable_inv w : reachable w -> inv w.
Proof.
  induction 1 as [guest|w o fuel r w' Hreach IH Hen Hrun Hr].
  - apply init_world_inv.
  - by destruct (run_inv fuel o w r w' IH (reachable_deadlines_ok w Hreach) Hen Hrun Hr).
Qed.

(** *** Termination: enough fuel *)

Lemma force_guest_tick_asap_total w : ∃ w', force_guest_tick_asap w = (Ok tt, w') ∧
  deadlines w' = deadlines w.
Proof.
  unfold force_guest_tick_asap, bind, gets, modify, ret.
  destruct (guest_tick_scheduled w); eauto.
Qed.

(** The deadline update finishes when its fuel covers the heap, and the
    entry it may push. *)
Lemma registered_deadline_update_terminates fuel k w :
  (length (_heap (deadlines w))
   + (if decide (registered_formula (scope w k) = Inf) then 0 else 1) <= fuel)%nat ->
  fst (registered_deadline_update fuel k w) ≠ OutOfFuel.
Proof.
  intros Hfuel. unfold registered_deadline_update.
  unfold bind at 1, gets at 1. cbv zeta. fold (registered_formula (scope w k)).
  set (new := registered_formula (scope w k)) in *.
  destruct (decide (_registered_deadline (scope w k) = new)); [done|].
  unfold bind at 1, modify at 1. unfold bind at 1, gets at 1.
  set (w1 := update_scope k (set_registered_deadline new) w).
  change (is_guest w1) with (is_guest w).
  assert (∀ wa, (length (_heap (deadlines wa)) <= length (_heap (deadlines w)))%nat ->
            ∀ old_next,
            fst (((if decide (_registered_deadline (scope w k) = Inf) then ret tt
                   else Deadlines_remove (_registered_deadline (scope w k)) k);;;
                  (if decide (new = Inf) then ret tt else Deadlines_add new k);;;
                  if is_guest w
                  then
                    new_next_deadline <- Deadlines_next_deadline fuel;;
                    if decide (old_next = new_next_deadline) then ret tt
                    else force_guest_tick_asap
                  else ret tt)%monad wa) ≠ OutOfFuel) as Hrest.
  { intros wa Hlen old_next. unfold bind at 1.
    set (wb := if decide (_registered_deadline (scope w k) = Inf) then wa
               else with_deadlines (fun d => mkDeadlines (_heap d) (_active d - 1)) wa).
    assert ((if decide (_registered_deadline (scope w k) = Inf) then ret tt
             else Deadlines_remove (_registered_deadline (scope w k)) k) wa = (Ok tt, wb)) as ->
      by (unfold wb; destruct (decide (_registered_deadline (scope w k) = Inf)); reflexivity).
    assert (length (_heap (deadlines wb)) = length (_heap (deadlines wa))) as Hlenb
      by (unfold wb; destruct (decide (_registered_deadline (scope w k) = Inf)); reflexivity).
    unfold bind at 1.
    set (wc := if decide (new = Inf) then wb
               else with_deadlines
                      (fun d => mkDeadlines (heappush (_heap d) (new, k)) (_active d + 1)) wb).
    assert ((if decide (new = Inf) then ret tt else Deadlines_add new k) wb = (Ok tt, wc)) as ->
      by (unfold wc; destruct (decide (new = Inf)); reflexivity).
    assert (length (_heap (deadlines wc)) <= fuel)%nat as Hlenc.
    { unfold wc. destruct (decide (new = Inf)); [lia|]. simpl. unfold heappush.
      rewrite length_app. simpl. lia. }
    destruct (is_guest w); [|done].
    unfold bind at 1.
    pose proof (next_deadline_terminates fuel wc Hlenc) as Hnd.
    destruct (Deadlines_next_deadline fuel wc) as [r wd] eqn:Hrun.
    destruct (next_deadline_correct fuel wc r wd Hrun Hnd) as ([d ->] & _).
    destruct (decide (old_next = d)); [done|].
    by destruct (force_guest_tick_asap_total wd) as (we & -> & _). }
  destruct (is_guest w).
  - unfold bind at 1.
    assert (length (_heap (deadlines w1)) <= fuel)%nat as Hlen1 by (simpl; lia).
    pose proof (next_deadline_terminates fuel w1 Hlen1) as Hnd.
    destruct (Deadlines_next_deadline fuel w1) as [r wa] eqn:Hrun.
    destruct (next_deadline_correct fuel w1 r wa Hrun Hnd) as ([d ->] & _ & _ & Hlen & _).
    by apply Hrest.
  - unfold bind at 1, ret at 1. by apply Hrest.
Qed.

(** [visits w todo n]: the loop of [recalculate], started with the stack
    [todo] and pushing the children of every status it pops, pops [n]
    statuses. *)
Inductive visits (w : world) : list nat -> nat -> Prop :=
  | visits_nil : visits w [] 0
  | visits_cons cur todo n :
      visits w (rev (_children (status w cur)) ++ todo) n -> visits w (cur :: todo) (S n).

Lemma visits_ext w w' todo n :
  (∀ x, _children (status w' x) = _children (status w x)) ->
  visits w todo n -> visits w' todo n.
Proof.
  intros Hch. induction 1 as [|cur todo n _ IH]; constructor. by rewrite Hch.
Qed.

Lemma visits_app_r w n : ∀ l1 l2, visits w (l1 ++ l2) n -> ∃ n', (n' <= n)%nat ∧ visits w l2 n'.
Proof.
  induction n as [|n IH]; intros l1 l2 H.
  - inversion H as [Hnil|]. symmetry in Hnil. apply app_eq_nil in Hnil as [-> ->].
    exists 0%nat. split; [lia|constructor].
  - destruct l1 as [|x l1]; [exists (S n); split; [lia|done]|].
    simpl in H. inversion H as [|cur todo n0 H' Heq]. subst.
    rewrite app_assoc in H'. destruct (IH _ _ H') as (n' & ? & ?).
    exists n'. split; [lia|done].
Qed.

Lemma visits_app_l w n : ∀ l1 l2, visits w (l1 ++ l2) n -> ∃ n', (n' <= n)%nat ∧ visits w l1 n'.
Proof.
  induction n as [|n IH]; intros l1 l2 H.
  - inversion H as [Hnil|]. symmetry in Hnil. apply app_eq_nil in Hnil as [-> ->].
    exists 0%nat. split; [lia|constructor].
  - destruct l1 as [|x l1]; [exists 0%nat; split; [lia|constructor]|].
    simpl in H. inversion H as [|cur todo n0 H' Heq]. subst.
    rewrite app_assoc in H'. destruct (IH _ _ H') as (n' & ? & ?).
    exists (S n'). split; [lia|by constructor].
Qed.

Lemma visits_single w cur todo n :
  visits w (cur :: todo) n -> ∃ n', (n' <= n)%nat ∧ visits w [cur] n'.
Proof. apply (visits_app_l w n [cur] todo). Qed.

(** Every stack of allocated statuses is visited in finitely many pops:
    parent links are ranked and the statuses are finitely many. *)
Lemma visits_exists w : tree_wf w -> ∀ x, ∃ n, ∀ todo m,
  visits w todo m -> visits w (x :: todo) (n + m).
Proof.
  intros Hwf. destruct (tw_ranked _ Hwf) as [depth Hd].
  set (D := S (max_list (map depth (seq 0 (length (statuses w)))))).
  assert (∀ x, (x < length (statuses w))%nat -> (depth x < D)%nat) as HD.
  { intros x Hx. unfold D. apply Nat.lt_succ_r, max_list_elem_of_le.
    apply list_elem_of_fmap. exists x. split; [done|]. apply elem_of_seq. lia. }
  assert (∀ h x, (D - depth x <= h)%nat -> ∃ n, ∀ todo m,
            visits w todo m -> visits w (x :: todo) (n + m)) as H.
  { induction h as [|h IH]; intros x Hh.
    - destruct (decide (x < length (statuses w))%nat) as [Hx|Hx].
      + specialize (HD x Hx). lia.
      + exists 1%nat. intros todo m Hv. constructor.
        by rewrite status_invalid by done.
    - assert (∀ l, (∀ c, c ∈ l -> c ∈ _children (status w x)) ->
                ∃ n, ∀ todo m, visits w todo m -> visits w (l ++ todo) (n + m)) as Hl.
      { induction l as [|c l IHl]; intros Hsub.
        - exists 0%nat. done.
        - destruct IHl as (nl & Hnl); [intros c' Hc'; apply Hsub; by right|].
          destruct (IH c) as (nc & Hnc).
          { pose proof (Hsub c ltac:(left)) as Hc.
            pose proof (child_valid _ _ _ Hwf Hc) as Hcv.
            apply (tw_child_parent _ Hwf) in Hc. specialize (Hd c x Hc).
            specialize (HD c Hcv). lia. }
          exists (nc + nl)%nat. intros todo m Hv. simpl.
          rewrite <- Nat.add_assoc. apply Hnc, Hnl, Hv. }
      destruct (Hl (rev (_children (status w x)))) as (n & Hn).
      { intros c. by rewrite elem_of_rev. }
      exists (S n). intros todo m Hv. simpl. constructor. by apply Hn. }
  intros x. by apply (H (D - depth x)%nat).
Qed.

(** A bound on the pops of a recalculation from any one status. *)
Lemma visits_bound w : tree_wf w ->
  ∃ N, ∀ s, (s < length (statuses w))%nat -> ∃ n, (n <= N)%nat ∧ visits w [s] n.
Proof.
  intros Hwf.
  assert (∀ L, ∃ N, ∀ s, (s < L)%nat -> ∃ n, (n <= N)%nat ∧ visits w [s] n) as H.
  { induction L as [|L [N HN]].
    - exists 0%nat. intros s Hs. lia.
    - destruct (visits_exists w Hwf L) as (n & Hn).
      exists (N + n)%nat. intros s Hs. destruct (decide (s = L)) as [->|].
      + exists (n + 0)%nat. split; [lia|]. apply Hn. constructor.
      + destruct (HN s) as (n' & ? & ?); [lia|]. exists n'. split; [lia|done]. }
  destruct (H (length (statuses w))) as [N HN]. by exists N.
Qed.

(** The scopes that are not cancelled yet. *)
Definition uncalled (w : world) : nat :=
  length (filter (fun k => _cancel_called (scope w k) = false) (seq 0 (length (scopes w)))).

Lemma length_filter_le (P P' : nat -> Prop) `{∀ x, Decision (P x)} `{∀ x, Decision (P' x)}
    (l : list nat) :
  (∀ x, P' x -> P x) -> (length (filter P' l) <= length (filter P l))%nat.
Proof.
  intros Himp. induction l as [|x l IH]; [done|]. rewrite !filter_cons.
  specialize (Himp x). destruct (decide (P' x)), (decide (P x)); simpl; try tauto; lia.
Qed.

Lemma length_filter_lt (P P' : nat -> Prop) `{∀ x, Decision (P x)} `{∀ x, Decision (P' x)}
    (k : nat) (l : list nat) :
  (∀ x, P' x -> P x) -> k ∈ l -> P k -> ¬ P' k ->
  (length (filter P' l) < length (filter P l))%nat.
Proof.
  intros Himp Hk HP HP'. induction l as [|x l IH]; [inversion Hk|]. rewrite !filter_cons.
  pose proof (length_filter_le P P' l Himp) as Hle.
  apply elem_of_cons in Hk as [<-|Hk].
  - destruct (decide (P' k)), (decide (P k)); simpl; try tauto; lia.
  - specialize (IH Hk). specialize (Himp x).
    destruct (decide (P' x)), (decide (P x)); simpl; try tauto; lia.
Qed.

Lemma uncalled_le w w' : same_structure w w' -> (uncalled w' <= uncalled w)%nat.
Proof.
  intros Hss. unfold uncalled. rewrite (ss_scopes_len _ _ Hss).
  apply length_filter_le. intros k Hk.
  destruct (_cancel_called (scope w k)) eqn:Hc; [|done].
  by rewrite (ss_called _ _ Hss k Hc) in Hk.
Qed.

Lemma uncalled_lt w w' k :
  same_structure w w' -> (k < length (scopes w))%nat ->
  _cancel_called (scope w k) = false -> _cancel_called (scope w' k) = true ->
  (uncalled w' < uncalled w)%nat.
Proof.
  intros Hss Hk Hc Hc'. unfold uncalled. rewrite (ss_scopes_len _ _ Hss).
  apply (length_filter_lt _ _ k).
  - intros x Hx. destruct (_cancel_called (scope w x)) eqn:Hcx; [|done].
    by rewrite (ss_called _ _ Hss x Hcx) in Hx.
  - apply elem_of_seq. lia.
  - done.
  - by rewrite Hc'.
Qed.

(** The first half of [cancel]: the flag is set and the deadline
    unregistered. *)
Lemma cancel_mark_correct fuel k w r w2 :
  _might_change_registered_deadline fuel k
    (modify (update_scope k (set_cancel_called true))) w = (r, w2) ->
  r ≠ OutOfFuel ->
  r = Ok tt ∧ same_structure w w2 ∧ statuses w2 = statuses w ∧ tasks w2 = tasks w ∧
  runq w2 = runq w ∧
  ((k < length (scopes w))%nat -> _cancel_called (scope w2 k) = true).
Proof.
  intros Hmc Hr.
  destruct (might_change_modify_correct _ _ _ _ _ _ Hmc Hr) as (-> & Hf & Hlen).
  set (w1 := update_scope k (set_cancel_called true) w) in *.
  assert (registered_formula (scope w1 k) = Inf) as Hform.
  { unfold w1. destruct (decide (k < length (scopes w))%nat) as [Hk|Hk].
    - rewrite scope_update_scope by done. destruct (decide (k = k)); [|done].
      unfold registered_formula. simpl. by rewrite orb_true_r.
    - rewrite update_scope_invalid, scope_invalid by done. done. }
  rewrite Hform in Hlen. destruct (decide (Inf = Inf)); [|done]. simpl in Hlen.
  assert (same_structure w w1) as Hss1 by (by apply same_structure_update_scope).
  assert (same_structure w1 w2) as Hss12 by (by apply same_structure_registered_frame).
  split; [done|]. split; [by eapply same_structure_trans|].
  destruct Hf as [F1 F2 F3 F4 F5 F6]. split; [done|]. split; [done|]. split; [done|].
  intros Hk. pose proof (f_equal _cancel_called (F6 k)) as Hx. simpl in Hx.
  rewrite Hx. unfold w1. rewrite scope_update_scope by done. by destruct (decide (k = k)).
Qed.

Lemma cancel_mark_terminates fuel k w :
  (length (_heap (deadlines w)) <= fuel)%nat ->
  fst (_might_change_registered_deadline fuel k
         (modify (update_scope k (set_cancel_called true))) w) ≠ OutOfFuel.
Proof.
  intros Hfuel. unfold _might_change_registered_deadline, modify.
  set (w1 := update_scope k (set_cancel_called true) w).
  pose proof (registered_deadline_update_terminates fuel k w1) as Hu.
  destruct (registered_deadline_update fuel k w1) as [[[]|e|] w2]; try done.
  simpl in Hu. intros _. apply Hu; [|done].
  assert (registered_formula (scope w1 k) = Inf) as ->.
  { unfold w1. destruct (decide (k < length (scopes w))%nat) as [Hk|Hk].
    - rewrite scope_update_scope by done. destruct (decide (k = k)); [|done].
      unfold registered_formula. simpl. by rewrite orb_true_r.
    - rewrite update_scope_invalid, scope_invalid by done. done. }
  destruct (decide (Inf = Inf)); [|done]. simpl. lia.
Qed.

Lemma cancel_with_terminates recalculate fuel k w :
  tree_wf w -> (length (_heap (deadlines w)) <= fuel)%nat ->
  (∀ s w2, _cancel_status (scope w k) = Some s -> _cancel_called (scope w k) = false ->
           tree_wf w2 -> same_structure w w2 -> _cancel_called (scope w2 k) = true ->
           fst (recalculate s w2) ≠ OutOfFuel) ->
  fst (cancel_with recalculate fuel k w) ≠ OutOfFuel.
Proof.
  intros Hwf Hfuel Hrec. unfold cancel_with. unfold bind at 1, gets at 1.
  destruct (_cancel_called (scope w k)) eqn:Hc; [done|].
  unfold bind at 1.
  pose proof (cancel_mark_terminates fuel k w Hfuel) as Hterm.
  destruct (_might_change_registered_deadline fuel k _ w) as [r1 w2] eqn:Hmc.
  destruct (cancel_mark_correct fuel k w r1 w2 Hmc Hterm) as (-> & Hss & Hst & Htk & Hq & Hk).
  unfold bind at 1, gets at 1. rewrite (ss_cancel_status _ _ Hss).
  destruct (_cancel_status (scope w k)) as [s|] eqn:Hcs; [|done].
  apply Hrec; try done.
  - apply (tree_wf_same_structure w); [done|done|].
    apply (tasks_ok_same_tasks w); [done|done|by apply tw_tasks_ok].
  - apply Hk. apply scope_valid. left. by rewrite Hcs.
Qed.

Lemma cancel_called_with_terminates recalculate fuel k now w :
  tree_wf w -> (length (_heap (deadlines w)) <= fuel)%nat ->
  (∀ s w2, _cancel_status (scope w k) = Some s -> _cancel_called (scope w k) = false ->
           tree_wf w2 -> same_structure w w2 -> _cancel_called (scope w2 k) = true ->
           fst (recalculate s w2) ≠ OutOfFuel) ->
  fst (cancel_called_with recalculate fuel k now w) ≠ OutOfFuel.
Proof.
  intros Hwf Hfuel Hrec. unfold cancel_called_with. unfold bind at 1, gets at 1.
  destruct (negb (is_None (_cancel_status (scope w k)))
            || negb (_has_been_entered (scope w k))); [|done].
  destruct (negb (_cancel_called (scope w k)) && time_le (_deadline (scope w k)) (At now));
    [|done].
  unfold bind. pose proof (cancel_with_terminates recalculate fuel k w Hwf Hfuel Hrec) as Ht.
  by destruct (cancel_with recalculate fuel k w) as [[[]|e|] w1].
Qed.

Lemma recalc_spec_loop fuel now : recalc_spec (fun s => recalculate_loop fuel now [s]).
Proof. apply (recalculate_spec fuel now). Qed.

(** The loop of [recalculate] finishes when its fuel covers the heap, the
    statuses it can pop and the scopes it can still cancel. *)
Lemma recalculate_loop_terminates now fuel : ∀ todo w n,
  tree_wf w ->
  (∀ x, x ∈ todo -> (x < length (statuses w))%nat) ->
  visits w todo n ->
  (length (_heap (deadlines w)) + n + uncalled w <= fuel)%nat ->
  fst (recalculate_loop fuel now todo w) ≠ OutOfFuel.
Proof.
  induction fuel as [|fuel IH]; intros todo w n Hwf Hvalid Hv Hfuel.
  { destruct todo; [done|]. inversion Hv; subst. lia. }
  destruct todo as [|cur todo]; [done|]. simpl.
  inversion Hv as [|cur' todo' n' Hv' Heq]. subst.
  assert (Hcur : (cur < length (statuses w))%nat) by (apply Hvalid; left).
  unfold bind at 1, gets at 1. unfold bind at 1.
  set (k := _scope (status w cur)).
  assert (fst (cancel_called_with (fun s => recalculate_loop fuel now [s]) fuel k now w)
          ≠ OutOfFuel) as Hterm.
  { apply cancel_called_with_terminates; [done|lia|].
    intros s w2 Hcs Hc Hwf2 Hss Hc2.
    destruct (tw_link _ Hwf k s Hcs) as [Hsk Hs].
    assert (s = cur) as -> by (apply (tw_scope_inj _ Hwf); done).
    destruct (visits_single _ _ _ _ Hv) as (m & Hm & Hvm).
    apply (IH [cur] w2 m); try done.
    - intros x Hx. apply list_elem_of_singleton in Hx as ->. by rewrite (ss_len _ _ Hss).
    - apply (visits_ext w); [apply (ss_children _ _ Hss)|done].
    - pose proof (ss_heap_len _ _ Hss).
      assert (uncalled w2 < uncalled w)%nat; [|lia].
      apply (uncalled_lt w w2 k); try done. apply scope_valid. left. by rewrite Hcs. }
  destruct (cancel_called_with _ fuel k now w) as [r0 w0] eqn:Hprop.
  destruct (cancel_called_with_correct _ fuel k now (fun _ => False) w r0 w0
              (recalc_spec_loop fuel now) Hwf) as (-> & Hss0 & Hok0 & _); try done.
  pose proof (tree_wf_same_structure _ _ Hwf Hss0 Hok0) as Hwf0.
  pose proof (ss_heap_len _ _ Hss0) as Hh0. pose proof (uncalled_le _ _ Hss0) as Hu0.
  unfold bind at 1, gets at 1, id.
  destruct (Bool.eqb _ _).
  - destruct (visits_app_r _ _ _ _ Hv') as (n'' & Hn'' & Hv'').
    apply (IH todo w0 n''); try done.
    + intros x Hx. rewrite (ss_len _ _ Hss0). apply Hvalid. by right.
    + apply (visits_ext w); [apply (ss_children _ _ Hss0)|done].
    + lia.
  - unfold bind at 1, modify at 1.
    set (new_state := _ || _).
    set (w1 := update_status cur (set_effectively_cancelled new_state) w0).
    pose proof (same_structure_set_effectively_cancelled w0 cur new_state) as Hss1.
    fold w1 in Hss1.
    assert (tasks_ok w1) as Hok1 by (by apply (tasks_ok_same_tasks w0)).
    assert (∃ w2, (if new_state
                   then for_each (_tasks (status w0 cur))
                          _attempt_delivery_of_any_pending_cancel
                   else ret tt) w1 = (Ok tt, w2)
                  ∧ delivery_frame w1 w2 ∧ tasks_ok w2) as (w2 & Hdel & Hf2 & Hok2).
    { destruct new_state.
      - apply deliver_all_correct; [done|].
        intros t Ht _. rewrite (ss_task_status _ _ Hss1).
        by rewrite (tw_status_task _ Hwf0 cur t Ht).
      - exists w1. split; [done|]. split; [apply delivery_frame_refl|done]. }
    unfold bind at 1. rewrite Hdel.
    pose proof (delivery_frame_same_structure _ _ Hf2) as Hss2.
    pose proof (same_structure_trans _ _ _ Hss1 Hss2) as Hss12.
    pose proof (same_structure_trans _ _ _ Hss0 Hss12) as Hss02.
    pose proof (tree_wf_same_structure w0 w2 Hwf0 Hss12 Hok2) as Hwf2.
    apply (IH _ w2 n'); try done.
    + intros x Hx. rewrite (ss_len _ _ Hss02).
      apply elem_of_app in Hx as [Hx|Hx]; [|apply Hvalid; by right].
      rewrite elem_of_rev, (ss_children _ _ Hss0) in Hx. by eapply child_valid.
    + rewrite (ss_children _ _ Hss0).
      apply (visits_ext w); [apply (ss_children _ _ Hss02)|done].
    + pose proof (ss_heap_len _ _ Hss02). pose proof (uncalled_le _ _ Hss02). lia.
Qed.

(** A bound for every recalculation in the world. *)
Definition visits_within (w : world) (N : nat) : Prop :=
  ∀ s, (s < length (statuses w))%nat -> ∃ n, (n <= N)%nat ∧ visits w [s] n.

Lemma visits_within_same_structure w w' N :
  same_structure w w' -> visits_within w N -> visits_within w' N.
Proof.
  intros Hss HN s Hs. rewrite (ss_len _ _ Hss) in Hs. destruct (HN s Hs) as (n & ? & ?).
  exists n. split; [done|]. apply (visits_ext w); [apply (ss_children _ _ Hss)|done].
Qed.

Lemma cancel_terminates fuel now k w N :
  tree_wf w -> visits_within w N ->
  (length (_heap (deadlines w)) + N + uncalled w <= fuel)%nat ->
  fst (cancel fuel now k w) ≠ OutOfFuel.
Proof.
  intros Hwf HN Hfuel. apply cancel_with_terminates; [done|lia|].
  intros s w2 Hcs Hc Hwf2 Hss Hc2.
  destruct (tw_link _ Hwf k s Hcs) as [Hsk Hs].
  destruct (HN s Hs) as (n & Hn & Hv).
  apply (recalculate_loop_terminates now fuel [s] w2 n); try done.
  - intros x Hx. apply list_elem_of_singleton in Hx as ->. by rewrite (ss_len _ _ Hss).
  - apply (visits_ext w); [apply (ss_children _ _ Hss)|done].
  - pose proof (ss_heap_len _ _ Hss). pose proof (uncalled_le _ _ Hss). lia.
Qed.



Lemma uncalled_same_scopes w w' : scopes w' = scopes w -> uncalled w' = uncalled w.
Proof.
  intros Hsc. unfold uncalled. rewrite Hsc. f_equal. apply list_filter_iff.
  intros k. by rewrite (scope_same_scopes w w').
Qed.



Lemma cancel_returns now k w :
  inv w ->
  ∃ fuel0, ∀ fuel, (fuel0 <= fuel)%nat ->
    ∃ w', cancel fuel now k w = (Ok tt, w') ∧ inv w' ∧ same_structure w w' ∧
          ((k < length (scopes w))%nat -> _cancel_called (scope w' k) = true).
Proof.
  intros Hinv. destruct (visits_bound w (proj1 Hinv)) as [N HN].
  exists (length (_heap (deadlines w)) + N + uncalled w)%nat. intros fuel Hfuel.
  pose proof (cancel_terminates fuel now k w N (proj1 Hinv) HN Hfuel) as Hterm.
  destruct (cancel fuel now k w) as [r w'] eqn:Hrun.
  destruct (cancel_inv_step fuel now k w r w' Hinv Hrun Hterm) as (-> & ? & ? & ?).
  by exists w'.
Qed.

(** *** Runs from a world, and concrete runs *)

(** The worlds that calls lead to from a given one. *)
Inductive run_steps : world -> world -> Prop :=
  | run_steps_refl w : run_steps w w
  | run_steps_step w o fuel r w1 w2 :
      enabled w o -> run fuel o w = (r, w1) -> r ≠ OutOfFuel -> run_steps w1 w2 ->
      run_steps w w2.

Lemma run_steps_reachable w w' : run_steps w w' -> reachable w -> reachable w'.
Proof.
  induction 1 as [|w o fuel r w1 w2 Hen Hrun Hr _ IH]; [done|].
  intros Hreach. apply IH. by eapply reachable_step.
Qed.

Lemma run_steps_called k w w' :
  run_steps w w' -> reachable w -> _cancel_called (scope w k) = true ->
  _cancel_called (scope w' k) = true.
Proof.
  induction 1 as [|w o fuel r w1 w2 Hen Hrun Hr _ IH]; [done|].
  intros Hreach Hc. apply IH; [by eapply reachable_step|].
  refine (proj2 (run_keeps (fun x => x = k) fuel o w r w1 _ Hrun Hr) k eq_refl).
  split; [by apply reachable_deadlines_ok|]. by intros x ->.
Qed.

Global Instance Abort_eq_dec : EqDecision Abort.
Proof. solve_decision. Defined.

Global Instance running_dec w t : Decision (running w t).
Proof. unfold running. apply _. Defined.

Global Instance enabled_dec w o : Decision (enabled w o).
Proof. destruct o; simpl; apply _. Defined.

(** A sequence of calls, and whether each is enabled and finishes within
    the fuel. *)
Fixpoint run_ops (fuel : nat) (os : list op) (w : world) : world :=
  match os with
  | [] => w
  | o :: os' => run_ops fuel os' (snd (run fuel o w))
  end.

Fixpoint run_ops_ok (fuel : nat) (os : list op) (w : world) : bool :=
  match os with
  | [] => true
  | o :: os' =>
      bool_decide (enabled w o)
      && match fst (run fuel o w) with OutOfFuel => false | _ => true end
      && run_ops_ok fuel os' (snd (run fuel o w))
  end.

Lemma reachable_run_ops fuel os : ∀ w,
  reachable w -> run_ops_ok fuel os w = true -> reachable (run_ops fuel os w).
Proof.
  induction os as [|o os IH]; intros w Hreach Hok; simpl in *; [done|].
  apply andb_true_iff in Hok as [Hok Hrest]. apply andb_true_iff in Hok as [Hen Hr].
  apply bool_decide_eq_true in Hen. apply IH; [|done].
  destruct (run fuel o w) as [r w'] eqn:Hrun. simpl in *.
  eapply reachable_step; [done|done|done|]. by destruct r.
Qed.

(** Task 0 has entered scope 1 and, inside it, scope 2. *)
Definition nested : world :=
  run_ops 5 [OpNewScope Inf false; OpEnter 1 0 0; OpNewScope (At 7) false; OpEnter 2 0 0]
          (init_world false).

(** Then it leaves scope 1 while still inside scope 2. *)
Definition misnested : world :=
  run_ops 5 [OpClose 1 0 None 0 (fun e => [e]) (fun _ rs => mjoin (head rs))] nested.

(** Scope 1 is entered with a deadline that is then moved again and again:
    every move leaves a stale entry in the heap. *)
Definition stale_heap : world :=
  run_ops 5 ([OpNewScope (At 10) false; OpEnter 1 0 0]
             ++ map (fun i => OpSetDeadline 1 (At (10 + Z.of_nat i))) (seq 1 1005))
          (init_world false).

Lemma nested_reachable : reachable nested.
Proof. apply reachable_run_ops; [apply reachable_init|]. by vm_compute. Qed.

Lemma misnested_reachable : reachable misnested.
Proof. apply reachable_run_ops; [apply nested_reachable|]. by vm_compute. Qed.


(** *** The claims about cancel statuses, scopes and deadlines *)

(** C1, as amended. In every reachable world, between calls, the equation
    [effectively_cancelled = cancel_called or (parent and not shield and
    parent.effectively_cancelled)] holds at every cancel status that is
    attached, that is, to which its scope still refers. [CancelStatus.close]
    keeps it at the other attached statuses, but leaves the status it closes
    without parent and, if tasks or children were still under it, with
    [effectively_cancelled] set whatever the scope's [cancel_called] is. *)
Theorem cancel_status_equation (w : world) :
  reachable w ->
  (∀ s, attached w s ->
        effectively_cancelled (status w s)
        = _cancel_called (scope w (_scope (status w s)))
          || match _parent (status w s) with
             | None => false
             | Some p => negb (_shield (scope w (_scope (status w s))))
                         && effectively_cancelled (status w p)
             end) ∧
  (∀ fuel now s r w',
     (s < length (statuses w))%nat -> close fuel now s w = (r, w') -> r ≠ OutOfFuel ->
     r = Ok tt ∧
     (∀ x, attached w x -> x ≠ s -> equation_holds w' x) ∧
     _parent (status w' s) = None ∧
     (_tasks (status w s) ≠ [] ∨ _children (status w s) ≠ [] ->
      effectively_cancelled (status w' s) = true)).
Proof.
  intros Hreach. pose proof (reachable_inv w Hreach) as Hinv. split.
  - intros s Ha. apply (proj2 Hinv s Ha).
  - intros fuel now s r w' Hs Hrun Hr.
    destruct (close_correct fuel now s w r w' Hinv Hs Hrun Hr)
      as (-> & _ & _ & Heq & Hp & Heff & _).
    done.
Qed.

(** Witness of C1 as amended, in the world with two nested scopes. *)
Lemma cancel_status_equation_witness :
  (∀ s, attached nested s ->
        effectively_cancelled (status nested s)
        = _cancel_called (scope nested (_scope (status nested s)))
          || match _parent (status nested s) with
             | None => false
             | Some p => negb (_shield (scope nested (_scope (status nested s))))
                         && effectively_cancelled (status nested p)
             end) ∧
  (∀ fuel now s r w',
     (s < length (statuses nested))%nat -> close fuel now s nested = (r, w') ->
     r ≠ OutOfFuel ->
     r = Ok tt ∧
     (∀ x, attached nested x -> x ≠ s -> equation_holds w' x) ∧
     _parent (status w' s) = None ∧
     (_tasks (status nested s) ≠ [] ∨ _children (status nested s) ≠ [] ->
      effectively_cancelled (status w' s) = true)).
Proof. exact (cancel_status_equation nested nested_reachable). Defined.

(** Counterexample to C1 as stated: task 0 leaves scope 1 while still inside
    scope 2. The status of scope 1 is still the parent of the status of scope
    2; it has no parent and its scope was never cancelled, yet it is
    effectively cancelled. *)
Lemma close_misnested_breaks_equation :
  reachable misnested ∧
  _parent (status misnested 2) = Some 1%nat ∧
  attached misnested 2 ∧
  _cancel_called (scope misnested (_scope (status misnested 1))) = false ∧
  _parent (status misnested 1) = None ∧
  effectively_cancelled (status misnested 1) = true ∧
  ¬ equation_holds misnested 1.
Proof. split; [apply misnested_reachable|]. by vm_compute. Qed.



(** There [expire] does compact the heap: 1006 entries are more than
    [_active * 2 + 1000], and the one live entry is left. *)
Example expire_compacts :
  length (_heap (deadlines stale_heap)) = 1006%nat ∧
  _active (deadlines stale_heap) = 1 ∧
  ∃ w', expire 1 0 stale_heap = (Ok false, w') ∧
        deadlines w' = mkDeadlines [(At 1015, 1%nat)] 1.
Proof. split; [by vm_compute|]. split; [by vm_compute|]. eexists. by vm_compute. Qed.

(** C7. In a reachable world, [cancel()] on a scope returns, given enough
    fuel; then [cancel_called] is set and the scope registers no deadline,
    and that stays so in every world later calls lead to; calling [cancel()]
    again, at once or later, returns without changing anything. *)
Theorem cancel_idempotent_monotonic (w : world) (k : nat) (now : Z) :
  reachable w -> (k < length (scopes w))%nat ->
  ∃ fuel0, ∀ fuel, (fuel0 <= fuel)%nat ->
    ∃ w', cancel fuel now k w = (Ok tt, w') ∧
          ∀ w'', run_steps w' w'' ->
                 _cancel_called (scope w'' k) = true ∧
                 _registered_deadline (scope w'' k) = Inf ∧
                 ∀ fuel' now', cancel fuel' now' k w'' = (Ok tt, w'').
Proof.
  intros Hreach Hk. destruct (cancel_returns now k w (reachable_inv w Hreach)) as (fuel0 & H).
  exists fuel0. intros fuel Hfuel. destruct (H fuel Hfuel) as (w' & Hrun & _ & _ & Hc).
  exists w'. split; [done|]. intros w'' Hsteps.
  assert (reachable w') as Hreach'.
  { by eapply (reachable_step w (OpCancel k now) fuel (Ok tt)). }
  pose proof (run_steps_reachable _ _ Hsteps Hreach') as Hreach''.
  pose proof (run_steps_called k _ _ Hsteps Hreach' (Hc Hk)) as Hc''.
  split; [done|]. split.
  - rewrite (dl_registered _ (reachable_deadlines_ok _ Hreach'')).
    unfold registered_formula. rewrite Hc''. by rewrite orb_true_r.
  - intros fuel' now'. unfold cancel, cancel_with, bind, gets. by rewrite Hc''.
Qed.

(** Witness of C7: cancelling scope 1 of the nested scopes. *)
Lemma cancel_idempotent_monotonic_witness :
  ∃ fuel0, ∀ fuel, (fuel0 <= fuel)%nat ->
    ∃ w', cancel fuel 0 1 nested = (Ok tt, w') ∧
          ∀ w'', run_steps w' w'' ->
                 _cancel_called (scope w'' 1) = true ∧
                 _registered_deadline (scope w'' 1) = Inf ∧
                 ∀ fuel' now', cancel fuel' now' 1 w'' = (Ok tt, w'').
Proof.
  exact (cancel_idempotent_monotonic nested 1 0 nested_reachable ltac:(vm_compute; lia)).
Defined.

(** In that world the call cancels both statuses and scope 2 keeps its
    own deadline registered. *)
Example cancel_nested :
  ∃ w', cancel 5 0 1 nested = (Ok tt, w') ∧
        map effectively_cancelled (statuses w') = [false; true; true] ∧
        map _cancel_called (scopes w') = [false; true; false] ∧
        map _registered_deadline (scopes w') = [Inf; Inf; At 7].
Proof. eexists. by vm_compute. Qed.

(** When the clock reads 10, the deadline of scope 2 has passed: the
    recalculation that [cancel()] on scope 1 starts reads the property
    [cancel_called] of scope 2, which cancels that scope too. *)
Example recalculate_cancels_expired_scope :
  ∃ w', cancel 5 10 1 nested = (Ok tt, w') ∧
        map effectively_cancelled (statuses w') = [false; true; true] ∧
        map _cancel_called (scopes w') = [false; true; true] ∧
        map _registered_deadline (scopes w') = [Inf; Inf; Inf] ∧
        _active (deadlines w') = 0.
Proof. eexists. by vm_compute. Qed.


(** *** The next deadline *)









(** *** What [expire] cancels *)



(** *** Where effective cancellation comes from *)

(** [exposed w s a]: the status [a] is [s] itself or an ancestor of [s], and
    every status from [s] up to, but not including, [a] is attached to a scope
    that is not shielded. A cancellation of [a] is visible at [s]. *)
Inductive exposed (w : world) : nat -> nat -> Prop :=
  | exposed_here s : exposed w s s
  | exposed_parent s p a :
      attached w s -> _parent (status w s) = Some p ->
      _shield (scope w (_scope (status w s))) = false ->
      exposed w p a -> exposed w s a.

Lemma exposed_cancelled w s a :
  cancel_inv w -> exposed w s a ->
  effectively_cancelled (status w a) = true -> effectively_cancelled (status w s) = true.
Proof.
  intros Hc. induction 1 as [s|s p a Ha Hp Hsh _ IH]; [done|]. intros Hcancelled.
  rewrite (Hc s Ha). unfold expected, parent_cancellation_is_visible_to_us.
  rewrite Hp, Hsh, (IH Hcancelled). apply orb_true_r.
Qed.

Lemma cancelled_exposed w depth :
  cancel_inv w ->
  (∀ c p, _parent (status w c) = Some p -> (depth p < depth c)%nat) ->
  ∀ n s, (depth s <= n)%nat -> effectively_cancelled (status w s) = true ->
    ∃ a, exposed w s a ∧ effectively_cancelled (status w a) = true
         ∧ (attached w a -> _cancel_called (scope w (_scope (status w a))) = true).
Proof.
  intros Hc Hrank. induction n as [|n IH]; intros s Hs Heff.
  - destruct (decide (_cancel_status (scope w (_scope (status w s))) = Some s)) as [Ha|Hna].
    2:{ exists s. split; [constructor|]. split; [done|]. by intros ?. }
    pose proof (Hc s Ha) as Heq. unfold equation_holds in Heq. rewrite Heff in Heq.
    unfold expected, parent_cancellation_is_visible_to_us in Heq.
    destruct (_cancel_called (scope w (_scope (status w s)))) eqn:Hcalled.
    { exists s. split; [constructor|]. by split. }
    destruct (_parent (status w s)) as [p|] eqn:Hp; [|done].
    specialize (Hrank s p Hp). lia.
  - destruct (decide (_cancel_status (scope w (_scope (status w s))) = Some s)) as [Ha|Hna].
    2:{ exists s. split; [constructor|]. split; [done|]. by intros ?. }
    pose proof (Hc s Ha) as Heq. unfold equation_holds in Heq. rewrite Heff in Heq.
    unfold expected, parent_cancellation_is_visible_to_us in Heq.
    destruct (_cancel_called (scope w (_scope (status w s)))) eqn:Hcalled.
    { exists s. split; [constructor|]. by split. }
    destruct (_parent (status w s)) as [p|] eqn:Hp; [|done]. simpl in Heq.
    symmetry in Heq. apply andb_true_iff in Heq as [Hsh Hpe].
    apply negb_true_iff in Hsh.
    destruct (IH p) as (a & Hex & Hae & Haa); [specialize (Hrank s p Hp); lia|done|].
    exists a. split; [by eapply exposed_parent|]. by split.
Qed.

(** On every reachable world a cancel status is effectively cancelled
    exactly when, going up from it through parents for as long as the
    statuses passed are attached to unshielded scopes, one reaches an
    effectively cancelled status that is either attached to a scope on which
    [cancel()] has taken effect ([cancel_called]) or no longer attached to
    its scope (closed while mis-nested). So a shield stops every cancellation
    that comes from outside it, and nothing but a cancelled enclosing scope
    or a mis-nested exit makes a checkpoint raise [Cancelled]. *)
Theorem effectively_cancelled_iff_exposed (w : world) (s : nat) :
  reachable w ->
  effectively_cancelled (status w s) = true
  ↔ ∃ a, exposed w s a ∧ effectively_cancelled (status w a) = true
         ∧ (attached w a -> _cancel_called (scope w (_scope (status w a))) = true).
Proof.
  intros Hreach. destruct (reachable_inv w Hreach) as [Hwf Hc]. split.
  - destruct (tw_ranked _ Hwf) as [depth Hrank].
    by apply (cancelled_exposed w depth Hc Hrank (depth s)).
  - intros (a & Hex & Ha & _). by eapply exposed_cancelled.
Qed.

(** *** Reading [cancel_called] *)

(** The property [cancel_called], read on a reachable world when the clock
    says [now], returns the flag [_cancel_called] as it is after the read. It
    is [True] exactly when the scope was already cancelled, or the scope is
    active or not yet entered and its deadline is [now] or earlier, in which
    case the read itself cancels the scope. A read that returns what the flag
    already was changes nothing; in particular an exited scope is never
    cancelled by a read, whatever its deadline. *)
Theorem cancel_called_reflects_deadline (w : world) (k : nat) (now : Z) :
  reachable w ->
  ∃ fuel0, ∀ fuel, (fuel0 <= fuel)%nat ->
    ∃ b w', cancel_called fuel k now w = (Ok b, w') ∧
      b = _cancel_called (scope w' k) ∧
      (b = true
       ↔ _cancel_called (scope w k) = true
         ∨ ((_cancel_status (scope w k) ≠ None ∨ _has_been_entered (scope w k) = false)
            ∧ time_le (_deadline (scope w k)) (At now) = true)) ∧
      (b = _cancel_called (scope w k) -> w' = w).
Proof.
  intros Hreach. pose proof (reachable_inv w Hreach) as Hinv.
  destruct (cancel_returns now k w Hinv) as [fuel0 Hret]. exists fuel0.
  intros fuel Hfuel. destruct (Hret fuel Hfuel) as (w1 & Hcancel & _ & _ & Hcalled).
  unfold cancel_called, cancel_called_with. unfold bind at 1, gets at 1.
  fold (cancel fuel now k).
  destruct (_cancel_called (scope w k)) eqn:Hc.
  { rewrite andb_false_l.
    assert ((if negb (is_None (_cancel_status (scope w k)))
                || negb (_has_been_entered (scope w k))
             then ret tt else ret tt) w = (Ok tt, w)) as Hskip by (by destruct (_ || _)).
    unfold bind at 1. rewrite Hskip. unfold gets. exists true, w. rewrite Hc.
    split; [done|]. split; [done|]. split; [|done]. split; [by left|done]. }
  rewrite andb_true_l.
  destruct (negb (is_None (_cancel_status (scope w k)))
            || negb (_has_been_entered (scope w k))) eqn:Hcond.
  - destruct (time_le (_deadline (scope w k)) (At now)) eqn:Hle.
    + unfold bind at 1. rewrite Hcancel. unfold gets.
      assert (k < length (scopes w))%nat as Hk.
      { destruct (decide (k < length (scopes w))%nat); [done|].
        rewrite scope_invalid in Hle by done. done. }
      exists true, w1. rewrite (Hcalled Hk). split; [done|]. split; [done|].
      split; [|done]. split; [|done]. intros _. right. split; [|done].
      apply orb_true_iff in Hcond as [H|H].
      * left. by destruct (_cancel_status (scope w k)).
      * right. by apply negb_true_iff.
    + unfold bind at 1, ret at 1, gets. exists false, w. rewrite Hc.
      split; [done|]. split; [done|]. split; [|done].
      split; [done|]. intros [?|[_ ?]]; done.
  - unfold bind at 1, ret at 1, gets. exists false, w. rewrite Hc.
    split; [done|]. split; [done|]. split; [|done].
    split; [done|]. intros [?|[Hor _]]; [done|].
    apply orb_false_iff in Hcond as [H1 H2]. apply negb_false_iff in H1, H2.
    destruct Hor as [H|H]; [|congruence]. by destruct (_cancel_status (scope w k)).
Qed.

(** *** Setting the deadline *)

Lemma might_change_modify_returns fuel k f w :
  (length (_heap (deadlines (f w))) + 1 <= fuel)%nat ->
  ∃ w', _might_change_registered_deadline fuel k (modify f) w = (Ok tt, w')
        ∧ registered_frame (f w) w'.
Proof.
  intros Hfuel.
  assert (fst (registered_deadline_update fuel k (f w)) ≠ OutOfFuel) as Hterm.
  { apply registered_deadline_update_terminates.
    destruct (decide (registered_formula (scope (f w) k) = Inf)); lia. }
  destruct (_might_change_registered_deadline fuel k (modify f) w) as [r w'] eqn:Hrun.
  destruct (might_change_modify_correct fuel k f w r w' Hrun) as (-> & Hf & _).
  - unfold _might_change_registered_deadline, modify in Hrun.
    destruct (registered_deadline_update fuel k (f w)) as [[[]|e|] w1];
      simpl in Hterm; by injection Hrun as <- <-.
  - by exists w'.
Qed.

Lemma scope_eq_registered (a b : CancelScope) :
  set_registered_deadline Inf a = set_registered_deadline Inf b ->
  _registered_deadline a = _registered_deadline b -> a = b.
Proof.
  destruct a, b. unfold set_registered_deadline. simpl.
  intros [= -> -> -> -> -> ->] ->. done.
Qed.

(** Assigning to [deadline] on a reachable world returns, stores the new
    deadline, and registers it with the runner exactly when the scope is
    active and not cancelled. It changes nothing else: no other field of the
    scope, no other scope, no cancel status, no task and not the run queue.
    In particular it cancels nothing, even when the new deadline has already
    passed; that is left to the next [expire]. *)
Theorem deadline_setter_only_registers (w : world) (k : nat) (d : time) :
  reachable w -> (k < length (scopes w))%nat ->
  ∃ fuel0, ∀ fuel, (fuel0 <= fuel)%nat ->
    ∃ w', deadline_setter fuel k d w = (Ok tt, w') ∧
      scope w' k
      = set_registered_deadline
          (if is_None (_cancel_status (scope w k)) || _cancel_called (scope w k)
           then Inf else d)
          (set_deadline d (scope w k)) ∧
      (∀ x, x ≠ k -> scope w' x = scope w x) ∧
      statuses w' = statuses w ∧ tasks w' = tasks w ∧ runq w' = runq w.
Proof.
  intros Hreach Hk. exists (length (_heap (deadlines w)) + 1)%nat. intros fuel Hfuel.
  destruct (might_change_modify_returns fuel k (update_scope k (set_deadline d)) w)
    as (w' & Hrun & [F1 F2 F3 F4 F5 F6]); [done|].
  fold (deadline_setter fuel k d) in Hrun. exists w'. split; [done|].
  assert (reachable w') as Hreach'.
  { by apply (reachable_step w (OpSetDeadline k d) fuel (Ok tt) w'). }
  pose proof (dl_registered _ (reachable_deadlines_ok w Hreach)) as Hreg.
  pose proof (dl_registered _ (reachable_deadlines_ok w' Hreach')) as Hreg'.
  assert (∀ x, scope (update_scope k (set_deadline d) w) x
               = if decide (x = k) then set_deadline d (scope w k) else scope w x) as Hsc
    by (intros; by apply scope_update_scope).
  split; [|split; [|done]].
  - apply scope_eq_registered.
    + rewrite F6, Hsc. by destruct (decide (k = k)).
    + rewrite Hreg'. unfold registered_formula.
      pose proof (F6 k) as Hk6. rewrite Hsc in Hk6. destruct (decide (k = k)); [|done].
      rewrite (f_equal _cancel_status Hk6 : _cancel_status (scope w' k) = _),
              (f_equal _cancel_called Hk6 : _cancel_called (scope w' k) = _),
              (f_equal _deadline Hk6 : _deadline (scope w' k) = _).
      done.
  - intros x Hne. apply scope_eq_registered.
    + rewrite F6, Hsc. by destruct (decide (x = k)).
    + rewrite Hreg', Hreg. unfold registered_formula.
      pose proof (F6 x) as Hx6. rewrite Hsc in Hx6. destruct (decide (x = k)); [done|].
      rewrite (f_equal _cancel_status Hx6 : _cancel_status (scope w' x) = _),
              (f_equal _cancel_called Hx6 : _cancel_called (scope w' x) = _),
              (f_equal _deadline Hx6 : _deadline (scope w' x) = _).
      done.
Qed.

(** *** The properties above in the world with two nested scopes *)



Lemma effectively_cancelled_iff_exposed_witness :
  effectively_cancelled (status nested 2) = true
  ↔ ∃ a, exposed nested 2 a ∧ effectively_cancelled (status nested a) = true
         ∧ (attached nested a -> _cancel_called (scope nested (_scope (status nested a))) = true).
Proof. exact (effectively_cancelled_iff_exposed nested 2 nested_reachable). Defined.

Lemma cancel_called_reflects_deadline_witness :
  ∃ fuel0, ∀ fuel, (fuel0 <= fuel)%nat ->
    ∃ b w', cancel_called fuel 2 7 nested = (Ok b, w') ∧
      b = _cancel_called (scope w' 2) ∧
      (b = true
       ↔ _cancel_called (scope nested 2) = true
         ∨ ((_cancel_status (scope nested 2) ≠ None
             ∨ _has_been_entered (scope nested 2) = false)
            ∧ time_le (_deadline (scope nested 2)) (At 7) = true)) ∧
      (b = _cancel_called (scope nested 2) -> w' = nested).
Proof. exact (cancel_called_reflects_deadline nested 2 7 nested_reachable). Defined.

Lemma nested_two_scopes : (2 < length (scopes nested))%nat.
Proof. vm_compute. lia. Qed.

Lemma deadline_setter_only_registers_witness :
  ∃ fuel0, ∀ fuel, (fuel0 <= fuel)%nat ->
    ∃ w', deadline_setter fuel 2 (At 3) nested = (Ok tt, w') ∧
      scope w' 2
      = set_registered_deadline
          (if is_None (_cancel_status (scope nested 2)) || _cancel_called (scope nested 2)
           then Inf else At 3)
          (set_deadline (At 3) (scope nested 2)) ∧
      (∀ x, x ≠ 2%nat -> scope w' x = scope nested x) ∧
      statuses w' = statuses nested ∧ tasks w' = tasks nested ∧ runq w' = runq nested.
Proof.
  exact (deadline_setter_only_registers nested 2 (At 3) nested_reachable nested_two_scopes).
Defined.

(** *** Every call returns *)

Lemma uncalled_ext w w' :
  length (scopes w') = length (scopes w) ->
  (∀ k, _cancel_called (scope w' k) = _cancel_called (scope w k)) ->
  uncalled w' = uncalled w.
Proof.
  intros Hlen Hc. unfold uncalled. rewrite Hlen. f_equal. apply list_filter_iff.
  intros k. by rewrite Hc.
Qed.

Lemma visits_within_ext w w' N :
  length (statuses w') = length (statuses w) ->
  (∀ x, _children (status w' x) = _children (status w x)) ->
  visits_within w N -> visits_within w' N.
Proof.
  intros Hlen Hch HN s Hs. rewrite Hlen in Hs. destruct (HN s Hs) as (n & ? & ?).
  exists n. split; [done|]. by apply (visits_ext w).
Qed.

(** One recalculation, and one per child. *)
Lemma recalculate_terminates fuel now s w N :
  tree_wf w -> (s < length (statuses w))%nat -> visits_within w N ->
  (length (_heap (deadlines w)) + N + uncalled w <= fuel)%nat ->
  fst (recalculate fuel now s w) ≠ OutOfFuel.
Proof.
  intros Hwf Hs HN Hfuel. destruct (HN s Hs) as (n & Hn & Hv).
  apply (recalculate_loop_terminates now fuel [s] w n); try done; [|lia].
  intros x Hx. by apply list_elem_of_singleton in Hx as ->.
Qed.

Lemma recalculate_children_terminates fuel now N : ∀ cs w,
  tree_wf w -> (∀ c, c ∈ cs -> (c < length (statuses w))%nat) -> visits_within w N ->
  (length (_heap (deadlines w)) + N + uncalled w <= fuel)%nat ->
  fst (for_each cs (recalculate fuel now) w) ≠ OutOfFuel.
Proof.
  induction cs as [|c cs IH]; intros w Hwf Hvalid HN Hfuel; simpl; [done|].
  unfold bind at 1.
  pose proof (recalculate_terminates fuel now c w N Hwf (Hvalid c ltac:(left)) HN Hfuel)
    as Hterm.
  destruct (recalculate fuel now c w) as [r1 w1] eqn:Hrec. simpl in Hterm.
  destruct (recalculate_spec fuel now (fun _ => False) c w r1 w1 Hwf)
    as (-> & Hss & Hok & _); try done; [apply Hvalid; left|].
  apply IH.
  - by eapply tree_wf_same_structure.
  - intros x Hx. rewrite (ss_len _ _ Hss). apply Hvalid. by right.
  - by eapply visits_within_same_structure.
  - pose proof (ss_heap_len _ _ Hss). pose proof (uncalled_le _ _ Hss). lia.
Qed.

(** [_mark_abandoned] goes down the tree under a status: it needs a unit of
    fuel per level. *)
Lemma _mark_abandoned_terminates (depth : nat -> nat) (D : nat) (w0 : world) :
  (∀ p c, c ∈ _children (status w0 p) -> (depth p < depth c < D)%nat) ->
  ∀ fuel s w, flags_frame w0 w -> (D - depth s < fuel)%nat ->
    fst (_mark_abandoned fuel s w) ≠ OutOfFuel.
Proof.
  intros Hd. induction fuel as [|fuel IH]; intros s w Hf Hfuel; [lia|]. simpl.
  unfold bind at 1, modify at 1, bind at 1, gets at 1.
  set (w1 := update_status s (set_abandoned_by_misnesting true) w).
  assert (flags_frame w w1) as Hf1.
  { constructor; try done.
    - unfold_world. simpl. by rewrite length_insert.
    - intros x. destruct (decide (x = s)) as [->|Hne].
      + destruct (decide (s < length (statuses w))%nat).
        * unfold w1. rewrite status_update_status by done. by destruct (decide (s = s)).
        * unfold w1, status. unfold_world. simpl. by rewrite list_insert_ge by lia.
      + unfold w1. by rewrite status_update_status_ne. }
  pose proof (flags_frame_trans _ _ _ Hf Hf1) as Hf01.
  assert (∀ c, c ∈ _children (status w1 s) -> (D - depth c < fuel)%nat) as Hcs.
  { intros c Hc. rewrite (flags_frame_field _children w0 w1) in Hc by done.
    specialize (Hd s c Hc). lia. }
  revert Hcs. generalize (_children (status w1 s)). revert Hf01. generalize w1.
  clear w1 Hf1. intros w1 Hf1 cs. revert w1 Hf1.
  induction cs as [|c cs IHcs]; intros w1 Hf1 Hcs; simpl; [done|].
  unfold bind at 1.
  pose proof (IH c w1 Hf1 (Hcs c ltac:(left))) as Hterm.
  destruct (_mark_abandoned fuel c w1) as [r2 w2] eqn:Hc. simpl in Hterm.
  destruct (_mark_abandoned_correct fuel c w1 r2 w2 Hc Hterm) as [-> Hf2].
  apply IHcs; [by eapply flags_frame_trans|]. intros x Hx. apply Hcs. by right.
Qed.

(** [encloses] goes up the parents of [other]. *)
Lemma encloses_terminates (depth : nat -> nat) w self :
  (∀ c p, _parent (status w c) = Some p -> (depth p < depth c)%nat) ->
  ∀ fuel other, (∀ o, other = Some o -> (depth o < fuel)%nat) ->
    encloses fuel w self other ≠ OutOfFuel.
Proof.
  intros Hd. induction fuel as [|fuel IH]; intros [o|] Ho; simpl; try done.
  - specialize (Ho o eq_refl). lia.
  - destruct (decide (o = self)); [done|]. apply IH. intros p Hp.
    specialize (Hd o p Hp). specialize (Ho o eq_refl). lia.
Qed.

(** A rank of the statuses, with its bound. *)
Lemma rank_bound w : tree_wf w ->
  ∃ (depth : nat -> nat) (D : nat),
    (∀ c p, _parent (status w c) = Some p -> (depth p < depth c)%nat) ∧
    (∀ x, (x < length (statuses w))%nat -> (depth x < D)%nat).
Proof.
  intros Hwf. destruct (tw_ranked _ Hwf) as [depth Hd].
  exists depth, (S (max_list (map depth (seq 0 (length (statuses w)))))).
  split; [done|]. intros x Hx.
  assert (depth x ∈ map depth (seq 0 (length (statuses w)))) as Hin.
  { apply list_elem_of_fmap. exists x. split; [done|]. apply elem_of_seq. lia. }
  pose proof (max_list_elem_of_le _ _ Hin). lia.
Qed.


(** Fewer children, fewer pops. *)
Lemma sublist_rev {A} (l k : list A) : l `sublist_of` k -> rev l `sublist_of` rev k.
Proof.
  induction 1 as [|x l k _ IH|x l k _ IH]; simpl; [done| |].
  - by apply sublist_app.
  - by apply sublist_inserts_r.
Qed.

Lemma remove_sublist x l : remove x l `sublist_of` l.
Proof.
  induction l as [|y l IH]; simpl; [done|].
  destruct (decide (y = x)); [by apply sublist_cons|by apply sublist_skip].
Qed.

Lemma visits_sublist w w' :
  (∀ x, _children (status w' x) `sublist_of` _children (status w x)) ->
  ∀ todo n, visits w todo n ->
  ∀ todo', todo' `sublist_of` todo -> ∃ n', (n' <= n)%nat ∧ visits w' todo' n'.
Proof.
  intros Hsub. induction 1 as [|cur todo n _ IH]; intros todo' Htodo.
  - apply sublist_nil_r in Htodo as ->. exists 0%nat. split; [done|constructor].
  - apply sublist_cons_r in Htodo as [Htodo|(l' & -> & Hl')].
    + destruct (IH todo') as (n' & ? & ?); [by apply sublist_inserts_l|].
      exists n'. split; [lia|done].
    + destruct (IH (rev (_children (status w' cur)) ++ l')) as (n' & ? & ?).
      { apply sublist_app; [|done]. apply sublist_rev, Hsub. }
      exists (S n'). split; [lia|by constructor].
Qed.

Lemma visits_within_unlinked s w N :
  tree_wf w -> (s < length (statuses w))%nat ->
  visits_within w N -> visits_within (unlinked s w) N.
Proof.
  intros Hwf Hs HN x Hx.
  destruct (unlinked_same s w) as (_ & _ & _ & _ & _ & Hlen). rewrite Hlen in Hx.
  destruct (HN x Hx) as (n & Hn & Hv).
  destruct (visits_sublist w (unlinked s w)) with (2 := Hv) (todo' := [x])
    as (n' & ? & ?); [|done|].
  - intros y. rewrite unlinked_status by done.
    destruct (decide (y = s)) as [->|]; [done|].
    destruct (decide (_parent (status w s) = Some y)); [|done]. apply remove_sublist.
  - exists n'. split; [lia|done].
Qed.

(** [CancelStatus.close] returns. *)
Lemma close_returns fuel now s w N (depth : nat -> nat) D :
  inv w -> (s < length (statuses w))%nat -> visits_within w N ->
  (∀ c p, _parent (status w c) = Some p -> (depth p < depth c)%nat) ->
  (∀ x, (x < length (statuses w))%nat -> (depth x < D)%nat) ->
  (length (_heap (deadlines w)) + N + uncalled w + D + 1 <= fuel)%nat ->
  ∃ w', close fuel now s w = (Ok tt, w') ∧
        (length (_heap (deadlines w')) <= length (_heap (deadlines w)))%nat ∧
        (uncalled w' <= uncalled w)%nat.
Proof.
  intros Hinv Hs HN Hd HD Hfuel. pose proof Hinv as [Hwf Hc].
  assert (∀ r w', close fuel now s w = (r, w') ->
            r ≠ OutOfFuel ∧
            (length (_heap (deadlines w')) <= length (_heap (deadlines w)))%nat ∧
            (uncalled w' <= uncalled w)%nat) as Hall.
  2: { destruct (close fuel now s w) as [r w'] eqn:Hrun.
       destruct (Hall r w' eq_refl) as (Hr & ? & ?).
       destruct (close_correct fuel now s w r w' Hinv Hs Hrun Hr) as (-> & _).
       by exists w'. }
  intros r w' Hrun. unfold close in Hrun.
  unfold bind at 1 in Hrun. rewrite parent_setter_None_run in Hrun by done.
  unfold bind at 1, gets at 1 in Hrun.
  pose proof (fun x => unlinked_status s w x Hwf Hs) as Hst2.
  destruct (unlinked_same s w) as (Hsc2 & Htk2 & Hq2 & Hdl2 & Hg2 & Hlen2).
  pose proof (unlinked_tree_wf s w Hwf Hs) as Hwf2.
  pose proof (visits_within_unlinked s w N Hwf Hs HN) as HN2.
  set (w2 := unlinked s w) in *.
  assert (status w2 s = set_parent None (status w s)) as Hs2
    by (rewrite Hst2; by destruct (decide (s = s))).
  rewrite Hs2 in Hrun. simpl in Hrun.
  destruct (negb (is_empty (_tasks (status w s))) || negb (is_empty (_children (status w s))))
    eqn:Hmis.
  2: { injection Hrun as <- <-. split; [done|]. rewrite Hdl2.
       by rewrite (uncalled_same_scopes w w2). }
  unfold bind at 1 in Hrun.
  assert (fst (_mark_abandoned fuel s w2) ≠ OutOfFuel) as Hterm3.
  { apply (_mark_abandoned_terminates depth D w2); [|apply flags_frame_refl|lia].
    intros p c Hin.
    assert (c ∈ _children (status w p)) as Hin'.
    { rewrite Hst2 in Hin. destruct (decide (p = s)) as [->|]; [done|].
      destruct (decide (_parent (status w s) = Some p)); [|done].
      simpl in Hin. by apply elem_of_remove in Hin as [? _]. }
    split; [apply Hd; by apply (tw_child_parent _ Hwf)|].
    apply HD. by eapply child_valid. }
  destruct (_mark_abandoned fuel s w2) as [r3 w3] eqn:Hmark. simpl in Hterm3.
  destruct (_mark_abandoned_correct fuel s w2 r3 w3 Hmark Hterm3) as [-> Hf3].
  assert (tree_wf w3) as Hwf3.
  { destruct Hf3. apply (tree_wf_fields w2); try done;
      apply flags_frame_field; try done; by constructor. }
  assert (∀ {A} (proj : CancelStatus -> A),
            (∀ b st, proj (set_abandoned_by_misnesting b st) = proj st) ->
            ∀ x, proj (status w3 x) = proj (status w2 x)) as Hfield3
    by (intros; by apply flags_frame_field).
  unfold bind at 1, modify at 1 in Hrun.
  set (w4 := update_status s (set_effectively_cancelled true) w3) in *.
  pose proof (same_structure_set_effectively_cancelled w3 s true) as Hss4. fold w4 in Hss4.
  assert (tasks_ok w4) as Hok4 by (apply (tasks_ok_same_tasks w3); [done|done|by apply tw_tasks_ok]).
  pose proof (tree_wf_same_structure _ _ Hwf3 Hss4 Hok4) as Hwf4.
  unfold bind at 1 in Hrun.
  destruct (deliver_all_correct (_tasks (status w s)) w4 Hok4) as (w5 & Hdel & Hf5 & Hok5).
  { intros t Ht _. rewrite (ss_task_status _ _ Hss4).
    rewrite (task_same_tasks w2 w3) by apply (ff_tasks _ _ Hf3).
    rewrite (task_same_tasks w w2) by done.
    by rewrite (tw_status_task _ Hwf s t Ht). }
  rewrite Hdel in Hrun.
  pose proof (delivery_frame_same_structure _ _ Hf5) as Hss5.
  pose proof (tree_wf_same_structure _ _ Hwf4 Hss5 Hok5) as Hwf5.
  assert (scopes w5 = scopes w) as Hsc5.
  { rewrite (df_scopes _ _ Hf5). change (scopes w4) with (scopes w3).
    by rewrite (ff_scopes _ _ Hf3). }
  assert (deadlines w5 = deadlines w) as Hdl5.
  { rewrite (df_deadlines _ _ Hf5). change (deadlines w4) with (deadlines w3).
    by rewrite (ff_deadlines _ _ Hf3). }
  assert (length (statuses w5) = length (statuses w)) as Hlen5.
  { by rewrite (ss_len _ _ Hss5), (ss_len _ _ Hss4), (ff_len _ _ Hf3). }
  assert (visits_within w5 N) as HN5.
  { apply (visits_within_ext w2); [by rewrite Hlen5| |done].
    intros x. by rewrite (ss_children _ _ Hss5), (ss_children _ _ Hss4), (Hfield3 _ _children). }
  assert (∀ c, c ∈ _children (status w s) -> (c < length (statuses w5))%nat) as Hvalid.
  { intros c Hin. rewrite Hlen5. by eapply child_valid. }
  assert (fst (for_each (_children (status w s)) (recalculate fuel now) w5) ≠ OutOfFuel)
    as Hterm6.
  { apply (recalculate_children_terminates fuel now N); try done.
    rewrite Hdl5, (uncalled_same_scopes w w5) by done. lia. }
  rewrite Hrun in Hterm6. simpl in Hterm6. split; [done|].
  destruct (recalculate_children_correct (fun _ => True) fuel now
              (_children (status w s)) w5 r w' Hwf5) as (-> & Hss6 & _); try done.
  pose proof (ss_heap_len _ _ Hss6). pose proof (uncalled_le _ _ Hss6).
  rewrite Hdl5, (uncalled_same_scopes w w5) in * by done. done.
Qed.

(** *** Entering a scope *)

(** The recalculation of a status without children or tasks, whose scope
    does not refer to it yet, sets its flag and nothing else. *)
Lemma recalculate_fresh fuel now self w :
  _children (status w self) = [] -> _tasks (status w self) = [] ->
  _cancel_status (scope w (_scope (status w self))) = None ->
  _has_been_entered (scope w (_scope (status w self))) = true ->
  ∃ w', recalculate (S fuel) now self w = (Ok tt, w') ∧
        scopes w' = scopes w ∧ tasks w' = tasks w ∧ runq w' = runq w ∧
        deadlines w' = deadlines w ∧ length (statuses w') = length (statuses w) ∧
        (∀ x, x ≠ self -> status w' x = status w x) ∧
        ((self < length (statuses w))%nat ->
         status w' self = set_effectively_cancelled (expected w self) (status w self)).
Proof.
  intros Hch Htk Hcs Hent. unfold recalculate. simpl.
  unfold bind at 1, gets at 1. unfold bind at 1.
  unfold cancel_called_with. unfold bind at 1, gets at 1.
  rewrite Hcs, Hent. simpl. unfold bind at 1, ret at 1, gets at 1.
  unfold id. fold (expected w self).
  destruct (Bool.eqb (expected w self) (effectively_cancelled (status w self))) eqn:Heq.
  - exists w. destruct fuel; (split; [done|]); split_and!; try done; intros _;
      apply Bool.eqb_prop in Heq; rewrite Heq; by destruct (status w self).
  - unfold bind at 1, modify at 1. rewrite Htk, Hch. simpl.
    exists (update_status self (set_effectively_cancelled (expected w self)) w).
    split; [unfold bind; by destruct (expected w self), fuel|]. split_and!; try done.
    + unfold_world. simpl. by rewrite length_insert.
    + intros x Hne. by apply status_update_status_ne.
    + intros Hs. rewrite status_update_status by done. by destruct (decide (self = self)).
Qed.

Lemma might_change_returns {A} fuel k (body : M world A) w a w1 :
  body w = (Ok a, w1) -> (length (_heap (deadlines w1)) + 1 <= fuel)%nat ->
  ∃ w', _might_change_registered_deadline fuel k body w = (Ok a, w') ∧ registered_frame w1 w' ∧
        (length (_heap (deadlines w')) <= S (length (_heap (deadlines w1))))%nat.
Proof.
  intros Hbody Hfuel.
  assert (fst (registered_deadline_update fuel k w1) ≠ OutOfFuel) as Hterm.
  { apply registered_deadline_update_terminates.
    destruct (decide (registered_formula (scope w1 k) = Inf)); lia. }
  unfold _might_change_registered_deadline. rewrite Hbody.
  destruct (registered_deadline_update fuel k w1) as [r2 w2] eqn:Hu. simpl in Hterm.
  destruct (registered_deadline_update_correct fuel k w1 False (fun H => False_ind _ H)
              w1 r2 w2 eq_refl Hu Hterm) as ([] & -> & Hf & Hlen & _).
  exists w2. split; [done|]. split; [done|].
  destruct (decide (registered_formula (scope w1 k) = Inf)); lia.
Qed.

(** [set_cancel_called true] on a cancelled scope, and the like. *)
Lemma set_cancel_called_id sc : set_cancel_called (_cancel_called sc) sc = sc.
Proof. by destruct sc. Qed.

Lemma set_tasks_id st : set_tasks (_tasks st) st = st.
Proof. by destruct st. Qed.

(** What [__enter__] does to a scope that was not entered before. *)
Lemma __enter___fresh fuel k t now w p :
  inv w -> (k < length (scopes w))%nat -> running w t ->
  Task_cancel_status (task w t) = Some p ->
  _has_been_entered (scope w k) = false ->
  (length (_heap (deadlines w)) + 2 <= fuel)%nat ->
  ∃ w', __enter__ fuel k t now w = (Ok tt, w') ∧
    let s := length (statuses w) in
    let called := _cancel_called (scope w k) || time_le (_deadline (scope w k)) (At now) in
    (∀ x, set_registered_deadline Inf (scope w' x)
          = set_registered_deadline Inf
              (if decide (x = k)
               then set_cancel_status (Some s)
                      (set_cancel_called called (set_has_been_entered true (scope w k)))
               else scope w x)) ∧
    length (scopes w') = length (scopes w) ∧
    length (statuses w') = S s ∧
    (∀ x, status w' x
          = if decide (x = s)
            then mkStatus k (called || negb (_shield (scope w k))
                                       && effectively_cancelled (status w p))
                          (Some p) [] [t] false
            else if decide (x = p)
                 then set_tasks (remove t (_tasks (status w p)))
                        (set_children (add s (_children (status w p))) (status w p))
                 else status w x) ∧
    (∀ u, task w' u = if decide (u = t) then set_Task_cancel_status (Some s) (task w t)
                      else task w u) ∧
    length (tasks w') = length (tasks w) ∧
    runq w' = runq w ∧
    (length (_heap (deadlines w')) <= S (length (_heap (deadlines w))))%nat.
Proof.
  intros Hinv Hk (Ht & Hq & Habort) Hp Hent0 Hfuel. unfold __enter__.
  unfold bind at 1, gets at 1. rewrite Hent0.
  unfold bind at 1, modify at 1.
  set (wa := update_scope k (set_has_been_entered true) w) in *.
  assert (∀ {A} (proj : CancelScope -> A), (∀ sc, proj (set_has_been_entered true sc) = proj sc) ->
            ∀ x, proj (scope wa x) = proj (scope w x)) as Hfield
    by (intros; by apply scope_update_scope_field).
  assert (∀ x, scope wa x = if decide (x = k) then set_has_been_entered true (scope w k)
                            else scope w x) as Hsca
    by (intros; by apply scope_update_scope).
  assert (_has_been_entered (scope wa k) = true) as Henta.
  { rewrite Hsca. by destruct (decide (k = k)). }
  assert (inv wa) as Hinva.
  { apply (inv_ext w); try done; try (intros; by apply Hfield).
    - intros x Hx. destruct (decide (x = k)) as [->|Hne]; [done|].
      unfold wa. by rewrite scope_update_scope_ne.
    - apply (tasks_ok_same_tasks w); [done|done|by apply tasks_ok_of_inv]. }
  assert (_cancel_status (scope w k) = None) as Hcs0.
  { destruct (_cancel_status (scope w k)) eqn:Hcs; [|done].
    rewrite (tw_entered _ (proj1 Hinv) k) in Hent0; [done|by rewrite Hcs]. }
  assert (∀ s, (s < length (statuses w))%nat -> _scope (status w s) ≠ k) as Hfresh0.
  { intros s Hs Hsk. rewrite <- Hsk, (tw_scope_entered _ (proj1 Hinv)) in Hent0; done. }
  assert (length (scopes wa) = length (scopes w)) as Hlena.
  { unfold wa. unfold_world. simpl. by rewrite length_insert. }
  unfold bind at 1, gets at 1. unfold bind at 1.
  rewrite (Hfield _ _deadline) by done.
  set (called := _cancel_called (scope w k) || time_le (_deadline (scope w k)) (At now)).
  assert (∃ wb, (if time_le (_deadline (scope w k)) (At now) then cancel fuel now k else ret tt) wa
                = (Ok tt, wb)
                ∧ inv wb ∧ same_structure wa wb ∧ statuses wb = statuses w
                ∧ tasks wb = tasks w ∧ runq wb = runq w
                ∧ ∀ x, set_registered_deadline Inf (scope wb x)
                       = set_registered_deadline Inf
                           (if decide (x = k)
                            then set_cancel_called called (set_has_been_entered true (scope w k))
                            else scope w x))
    as (wb & -> & Hinvb & Hssb & Hstb & Htkb & Hqb & Hscb).
  { assert (∀ x, scope wa x
                 = if decide (x = k)
                   then set_cancel_called (_cancel_called (scope w k))
                          (set_has_been_entered true (scope w k))
                   else scope w x) as Hsame.
    { intros x. rewrite Hsca. destruct (decide (x = k)); [|done]. by destruct (scope w k). }
    destruct (time_le (_deadline (scope w k)) (At now)) eqn:Hle.
    2: { exists wa. split; [done|]. split; [done|]. split; [apply same_structure_refl|].
         split_and!; try done. intros x. rewrite Hsame. unfold called.
         by rewrite orb_false_r. }
    assert (∃ wb, cancel fuel now k wa = (Ok tt, wb) ∧ statuses wb = statuses w
                  ∧ tasks wb = tasks w ∧ runq wb = runq w
                  ∧ ∀ x, set_registered_deadline Inf (scope wb x)
                         = set_registered_deadline Inf
                             (if decide (x = k)
                              then set_cancel_called true (set_has_been_entered true (scope w k))
                              else scope w x)) as (wb & Hrun & ? & ? & ? & Hsc).
    { unfold cancel, cancel_with. unfold bind at 1, gets at 1.
      rewrite (Hfield _ _cancel_called) by done.
      destruct (_cancel_called (scope w k)) eqn:Hc.
      { exists wa. split; [done|]. split_and!; try done. intros x. by rewrite Hsame. }
      destruct (might_change_modify_returns fuel k (update_scope k (set_cancel_called true)) wa)
        as (w2 & Hrun2 & [F1 F2 F3 F4 F5 F6]); [simpl; lia|].
      unfold bind at 1. rewrite Hrun2. unfold bind at 1, gets at 1.
      assert (∀ x, scope (update_scope k (set_cancel_called true) wa) x
                   = if decide (x = k)
                     then set_cancel_called true (set_has_been_entered true (scope w k))
                     else scope w x) as Hsc2.
      { intros x. rewrite scope_update_scope by lia. rewrite !Hsca.
        destruct (decide (x = k)); [|done]. by destruct (decide (k = k)). }
      pose proof (f_equal _cancel_status (F6 k)) as Hcsk. simpl in Hcsk.
      rewrite Hsc2 in Hcsk. destruct (decide (k = k)); [|done]. simpl in Hcsk.
      rewrite Hcsk, Hcs0. exists w2. split; [done|]. split_and!; try done.
      intros x. by rewrite F6, Hsc2. }
    exists wb. split; [done|].
    destruct (cancel_inv_step fuel now k wa (Ok tt) wb Hinva Hrun) as (_ & ? & ? & _); [done|].
    split_and!; try done. intros x. rewrite Hsc. unfold called. by rewrite orb_true_r. }
  assert (∀ x, status wb x = status w x) as Hstb'
    by (intros; by apply status_same_statuses).
  assert (∀ u, task wb u = task w u) as Htkb' by (intros; by apply task_same_tasks).
  assert (∀ {A} (proj : CancelScope -> A),
            (∀ d sc, proj (set_registered_deadline d sc) = proj sc) ->
            ∀ x, proj (scope wb x)
                 = proj (if decide (x = k)
                         then set_cancel_called called (set_has_been_entered true (scope w k))
                         else scope w x)) as Hprojb.
  { intros A proj Hproj x. rewrite <- (Hproj Inf (scope wb x)), Hscb. apply Hproj. }
  assert (p < length (statuses w))%nat as Hpv.
  { apply status_valid. right. right. left. intros Hnil.
    pose proof (tw_task_status _ (proj1 Hinv) t p Hp) as Hin. rewrite Hnil in Hin.
    inversion Hin. }
  set (s := length (statuses w)).
  (* the new status *)
  assert (∃ wc, CancelStatus_new fuel now k (Some p) wb = (Ok s, wc)
                ∧ scopes wc = scopes wb ∧ tasks wc = tasks w ∧ runq wc = runq w
                ∧ deadlines wc = deadlines wb ∧ length (statuses wc) = S s
                ∧ ∀ x, status wc x
                       = if decide (x = s)
                         then mkStatus k (called || negb (_shield (scope w k))
                                                    && effectively_cancelled (status w p))
                                       (Some p) [] [] false
                         else if decide (x = p)
                              then set_children (add s (_children (status w p))) (status w p)
                              else status w x)
    as (wc & Hnew & Hscc & Htkc & Hqc & Hdlc & Hlenc & Hstc).
  { unfold CancelStatus_new.
    unfold bind at 1, gets at 1, bind at 1, modify at 1.
    unfold bind at 1, bind at 1, children_add at 1, modify at 1.
    fold (hung k p wb). rewrite Hstb. fold s.
    assert (∀ x, status (hung k p wb) x
                 = if decide (x = s) then mkStatus k false (Some p) [] [] false
                   else if decide (x = p)
                        then set_children (add s (_children (status w p))) (status w p)
                        else status w x) as Hh.
    { intros x. rewrite hung_status by (by rewrite Hstb). rewrite Hstb, !Hstb'. done. }
    assert (length (statuses (hung k p wb)) = S s) as Hlenh.
    { unfold hung. unfold_world. simpl. rewrite length_insert, length_app, Hstb. simpl.
      unfold s. lia. }
    destruct fuel as [|fuel]; [lia|].
    destruct (recalculate_fresh fuel now s (hung k p wb))
      as (wc & Hrec & G1 & G2 & G3 & G4 & G5 & G6 & G7).
    { rewrite Hh. by destruct (decide (s = s)). }
    { rewrite Hh. by destruct (decide (s = s)). }
    { rewrite Hh. destruct (decide (s = s)); [|done]. simpl.
      change (scope (hung k p wb) k) with (scope wb k).
      rewrite (Hprojb _ _cancel_status) by done. by destruct (decide (k = k)). }
    { rewrite Hh. destruct (decide (s = s)); [|done]. simpl.
      change (scope (hung k p wb) k) with (scope wb k).
      rewrite (Hprojb _ _has_been_entered) by done. by destruct (decide (k = k)). }
    rewrite Hrec. exists wc. split; [done|]. split_and!; try done.
    - by rewrite G2.
    - by rewrite G3.
    - lia.
    - intros x. destruct (decide (x = s)) as [->|Hne].
      + rewrite G7 by lia. unfold expected, parent_cancellation_is_visible_to_us.
        rewrite (Hh s). destruct (decide (s = s)); [|done]. simpl. rewrite (Hh p).
        destruct (decide (p = s)); [lia|]. destruct (decide (p = p)); [|done].
        change (scope (hung k p wb) k) with (scope wb k).
        rewrite (Hprojb _ _cancel_called), (Hprojb _ _shield) by done.
        destruct (decide (k = k)); [|done]. simpl. by destruct called.
      + rewrite G6 by done. rewrite Hh. by destruct (decide (x = s)). }
  assert (Task_cancel_status (task wb t) = Some p) as Hpb by (by rewrite Htkb').
  destruct (CancelStatus_new_correct fuel now k p wb (Ok s) wc Hinvb)
    with (4 := Hnew) as (_ & Hwfc & Hssc & Hold & Hself); try done.
  { by rewrite Hstb. }
  { by rewrite (ss_entered _ _ Hssb). }
  { intros x Hx. rewrite Hstb'. apply Hfresh0. by rewrite Hstb in Hx. }
  assert (s = length (statuses wb)) as Hs_eq by (by rewrite Hstb).
  set (wd := update_scope k (set_cancel_status (Some s)) wc).
  assert (∀ x, _cancel_status (scope wc x) = _cancel_status (scope w x)) as Hcsc.
  { intros x. rewrite (scope_same_scopes wb wc) by done.
    rewrite (ss_cancel_status _ _ Hssb). by apply Hfield. }
  assert (length (scopes wc) = length (scopes w)) as Hlensc.
  { by rewrite Hscc, (ss_scopes_len _ _ Hssb). }
  assert (inv wd) as Hinvd.
  { apply attach_inv; try done.
    - lia.
    - lia.
    - rewrite Hstc. by destruct (decide (s = s)).
    - rewrite (scope_same_scopes wb wc) by done. by rewrite (ss_entered _ _ Hssb).
    - by rewrite Hcsc.
    - intros x Ha. destruct (decide (x = s)) as [->|Hne]; [by rewrite Hs_eq|].
      pose proof (attached_valid _ _ Hwfc Ha) as Hx.
      apply Hold; [lia|]. unfold attached in *.
      assert (_scope (status wb x) = _scope (status wc x)) as ->.
      { rewrite Hstc, Hstb'. destruct (decide (x = s)); [done|].
        by destruct (decide (x = p)) as [->|]. }
      by rewrite <- (scope_same_scopes wb wc).
    - by rewrite Hs_eq. }
  assert (_activate_cancel_status t (Some s) wd = (Ok tt, activated t (Some s) wd)) as Hact.
  { apply _activate_cancel_status_run; [apply Hinvd|].
    change (task wd t) with (task wc t). by rewrite (task_same_tasks w wc). }
  assert (∀ u, task wd u = task w u) as Htkd
    by (intros; change (task wd u) with (task wc u); by apply task_same_tasks).
  assert (∀ x, status wd x = status wc x) as Hstd by done.
  set (we := activated t (Some s) wd) in *.
  assert (deadlines we = deadlines wb) as Hdle.
  { unfold we, activated. rewrite <- Hdlc.
    destruct (Task_cancel_status (task wd t)); done. }
  assert (length (_heap (deadlines wb)) <= length (_heap (deadlines w)))%nat as Hheapb.
  { pose proof (ss_heap_len _ _ Hssb) as H. by change (deadlines wa) with (deadlines w) in H. }
  destruct (might_change_returns fuel k
              (parent <- gets (fun w0 => Task_cancel_status (task w0 t));;
               s0 <- CancelStatus_new fuel now k parent;;
               modify (update_scope k (set_cancel_status (Some s0)));;;
               _activate_cancel_status t (Some s0))%monad wb tt we)
    as (w' & Hrun & [F1 F2 F3 F4 F5 F6] & Hheap).
  { unfold bind at 1, gets at 1. rewrite Hpb. unfold bind at 1. rewrite Hnew.
    unfold bind at 1, modify at 1. fold wd. done. }
  { rewrite Hdle. lia. }
  exists w'. split; [done|].
  assert (length (statuses wd) = S s) as Hlend by done.
  assert (∀ x, status we x
               = set_tasks
                   (let T1 := if decide (Task_cancel_status (task wd t) = Some x)
                              then remove t (_tasks (status wd x)) else _tasks (status wd x) in
                    if decide (Some s = Some x) then add t T1 else T1)
                   (status wd x)) as Hste.
  { intros x. apply activated_status; [apply Hinvd|]. intros s0 [= <-]. lia. }
  assert (∀ u, task we u = if decide (u = t) then set_Task_cancel_status (Some s) (task wd t)
                           else task wd u) as Htke.
  { intros u. apply activated_task. change (tasks wd) with (tasks wc). by rewrite Htkc. }
  assert (scopes we = scopes wd ∧ runq we = runq wd ∧ length (statuses we) = length (statuses wd)
          ∧ length (tasks we) = length (tasks wd)) as (Hsce & Hqe & Hlene & Hlente).
  { unfold we, activated. destruct (Task_cancel_status (task wd t)); unfold_world; simpl;
      rewrite ?length_insert; done. }
  split_and!.
  - intros x. rewrite F6, (scope_same_scopes wd we) by done.
    unfold wd. rewrite scope_update_scope by lia.
    rewrite !(scope_same_scopes wb wc) by done.
    destruct (decide (x = k)) as [->|Hne].
    + pose proof (Hscb k) as Hb. destruct (decide (k = k)); [|done].
      revert Hb. generalize (set_cancel_called called (set_has_been_entered true (scope w k))).
      intros sc Hb. destruct (scope wb k), sc.
      unfold set_registered_deadline, set_cancel_status in *. simpl in *.
      injection Hb as ? ? ? ? ? ?. congruence.
    + rewrite Hscb. by destruct (decide (x = k)).
  - rewrite F5, Hsce, <- Hlensc. unfold wd. unfold_world. simpl. by rewrite length_insert.
  - by rewrite F1, Hlene.
  - intros x. rewrite (status_same_statuses we w') by done.
    rewrite Hste. simpl. rewrite Htkd, Hp, !Hstd, !Hstc.
    destruct (decide (x = s)) as [->|Hxs].
    + destruct (decide (Some p = Some s)) as [[=]|]; [lia|].
      by destruct (decide (Some s = Some s)).
    + destruct (decide (Some s = Some x)) as [[=]|]; [congruence|].
      destruct (decide (x = p)) as [->|Hxp].
      * by destruct (decide (Some p = Some p)).
      * destruct (decide (Some p = Some x)) as [[=]|]; [congruence|]. apply set_tasks_id.
  - intros u. rewrite (task_same_tasks we w') by done. rewrite Htke, !Htkd. done.
  - rewrite F2, Hlente. change (tasks wd) with (tasks wc). by rewrite Htkc.
  - rewrite F3, Hqe. done.
  - rewrite Hdle in Hheap. lia.
Qed.

(** Two scopes that agree but for the registered deadline, in worlds where
    the registered deadline is what the other fields say. *)
Lemma scope_eq_formula (w w' : world) (x : nat) (sc : CancelScope) :
  deadlines_ok w' ->
  set_registered_deadline Inf (scope w' x) = set_registered_deadline Inf sc ->
  _registered_deadline sc = registered_formula sc ->
  scope w' x = sc.
Proof.
  intros Hok Heq Hreg. apply scope_eq_registered; [done|].
  rewrite (dl_registered _ Hok), Hreg. unfold registered_formula.
  by rewrite (f_equal _cancel_status Heq : _cancel_status (scope w' x) = _),
             (f_equal _cancel_called Heq : _cancel_called (scope w' x) = _),
             (f_equal _deadline Heq : _deadline (scope w' x) = _).
Qed.

(** [__enter__] on a reachable world, by a running task [t] that is under
    the cancel status [p]. Entering a scope that was entered before raises
    [RuntimeError] and changes nothing. Entering a fresh scope returns: the
    scope is cancelled if it was already or if its deadline is [now] or
    earlier; it gets a new cancel status, a child of [p] that holds just the
    task [t] and is effectively cancelled exactly when the scope is cancelled
    or [p] is effectively cancelled and the scope is not shielded; the
    deadline is registered unless the scope is cancelled. Nothing else
    changes: no other scope, no other status (but [p], which loses [t] and
    gains the child), no other task, not the run queue. *)
Theorem enter_attaches_fresh_status (w : world) (k t : nat) (now : Z) :
  reachable w -> enabled w (OpEnter k t now) ->
  ∃ fuel0, ∀ fuel, (fuel0 <= fuel)%nat ->
    if _has_been_entered (scope w k)
    then __enter__ fuel k t now w = (Raise RuntimeError, w)
    else
      ∃ p w', Task_cancel_status (task w t) = Some p ∧
        __enter__ fuel k t now w = (Ok tt, w') ∧
        let s := length (statuses w) in
        let called := _cancel_called (scope w k) || time_le (_deadline (scope w k)) (At now) in
        scope w' k
        = mkScope (Some s) true (if called then Inf else _deadline (scope w k)) called
                  (cancelled_caught (scope w k)) (_deadline (scope w k)) (_shield (scope w k)) ∧
        (∀ x, x ≠ k -> scope w' x = scope w x) ∧
        length (statuses w') = S s ∧
        status w' s
        = mkStatus k (called || negb (_shield (scope w k)) && effectively_cancelled (status w p))
                   (Some p) [] [t] false ∧
        status w' p
        = set_tasks (remove t (_tasks (status w p)))
            (set_children (add s (_children (status w p))) (status w p)) ∧
        (∀ x, x ≠ s -> x ≠ p -> status w' x = status w x) ∧
        task w' t = set_Task_cancel_status (Some s) (task w t) ∧
        (∀ u, u ≠ t -> task w' u = task w u) ∧
        runq w' = runq w.
Proof.
  intros Hreach (Hk & Hrunning & Hts).
  pose proof (reachable_inv w Hreach) as Hinv.
  exists (length (_heap (deadlines w)) + 2)%nat. intros fuel Hfuel.
  destruct (_has_been_entered (scope w k)) eqn:Hent.
  { unfold __enter__, bind, gets. by rewrite Hent. }
  destruct (Task_cancel_status (task w t)) as [p|] eqn:Hp; [|done].
  destruct (__enter___fresh fuel k t now w p Hinv Hk Hrunning Hp Hent Hfuel)
    as (w' & Hrun & Hsc & Hlensc & Hlen & Hst & Htk & Hlent & Hq & _).
  exists p, w'. split; [done|]. split; [done|]. cbv zeta in *.
  assert (reachable w') as Hreach'.
  { apply (reachable_step w (OpEnter k t now) fuel (Ok tt) w'); [done| |exact Hrun|done].
    simpl. by rewrite Hp. }
  pose proof (reachable_deadlines_ok w Hreach) as Hok.
  pose proof (reachable_deadlines_ok w' Hreach') as Hok'.
  assert (p < length (statuses w))%nat as Hpv.
  { apply status_valid. right. right. left. intros Hnil.
    pose proof (tw_task_status _ (proj1 Hinv) t p Hp) as Hin. rewrite Hnil in Hin.
    inversion Hin. }
  split_and!; try done.
  - apply (scope_eq_formula w w'); [done| |].
    + rewrite Hsc. destruct (decide (k = k)); [|done]. by destruct (scope w k).
    + unfold registered_formula. simpl. by destruct (_ || _).
  - intros x Hne. apply (scope_eq_formula w w'); [done| |apply (dl_registered _ Hok)].
    rewrite Hsc. by destruct (decide (x = k)).
  - rewrite Hst. by destruct (decide (_ = _)).
  - rewrite Hst. destruct (decide (p = length (statuses w))); [lia|].
    by destruct (decide (p = p)).
  - intros x Hxs Hxp. rewrite Hst. destruct (decide (x = length (statuses w))); [done|].
    by destruct (decide (x = p)).
  - rewrite Htk. by destruct (decide (t = t)).
  - intros u Hne. rewrite Htk. by destruct (decide (u = t)).
Qed.

(** *** Leaving a scope *)

(** [isinstance(exc, Cancelled)] *)
Definition is_cancelled (e : pyexc) : bool :=
  match e with ExcCancelled => true | _ => false end.

Lemma update_scope_twice k f w :
  (∀ sc, f (f sc) = f sc) -> update_scope k f (update_scope k f w) = update_scope k f w.
Proof.
  intros Hf. destruct (decide (k < length (scopes w))%nat) as [Hk|Hk].
  - pose proof (scope_update_scope w k f k Hk) as Hsc.
    destruct (decide (k = k)); [|done].
    unfold update_scope at 1. rewrite Hsc, Hf.
    unfold update_scope, with_scopes. simpl. by rewrite list_insert_insert_eq.
  - rewrite (update_scope_invalid w) by done. by rewrite update_scope_invalid.
Qed.

(** [MultiError.filter(self._exc_filter, exc)], as far as the handler goes:
    every [Cancelled] it is given is dropped, and the scope notes that it
    caught one. *)
Lemma map_m_exc_filter_run k es : ∀ w,
  map_m (_exc_filter k) es w
  = (Ok (map (fun e => if is_cancelled e then None else Some e) es),
     if existsb is_cancelled es then update_scope k (set_cancelled_caught true) w else w).
Proof.
  induction es as [|e es IH]; intros w; simpl; [done|].
  unfold bind at 1.
  destruct e; simpl; unfold bind, modify, ret; simpl; rewrite IH; try done.
  destruct (existsb is_cancelled es); [|done].
  by rewrite update_scope_twice.
Qed.

(** [_close] returns: either it reports a corrupted stack and changes
    nothing, or the scope is exited. *)
Lemma _close_returns leaves rebuild fuel now k t exc w N (depth : nat -> nat) D :
  inv w -> running w t -> visits_within w N ->
  (∀ c p, _parent (status w c) = Some p -> (depth p < depth c)%nat) ->
  (∀ x, (x < length (statuses w))%nat -> (depth x < D)%nat) ->
  (length (_heap (deadlines w)) + N + uncalled w + D + 2 <= fuel)%nat ->
  ∃ r w', _close leaves rebuild fuel now k t exc w = (Ok r, w') ∧
    match _cancel_status (scope w k) with
    | None => r = Some (ExcRuntimeError exc) ∧ w' = w
    | Some s =>
        ∃ b, encloses fuel w s (Task_cancel_status (task w t)) = Ok b ∧
          if negb (abandoned_by_misnesting (status w s)) && negb b
          then r = Some (ExcRuntimeError exc) ∧ w' = w
          else _cancel_status (scope w' k) = None
    end.
Proof.
  intros Hinv (Ht & Hq & Habort) HN Hd HD Hfuel. unfold _close.
  unfold bind at 1, gets at 1.
  destruct (_cancel_status (scope w k)) as [s|] eqn:Hcs; [|by eexists _, _].
  destruct (tw_link _ (proj1 Hinv) k s Hcs) as [Hsk Hs].
  assert (k < length (scopes w))%nat as Hk by (apply scope_valid; left; by rewrite Hcs).
  unfold bind at 1, gets at 1. unfold bind at 1, gets at 1.
  unfold bind at 1.
  set (go_m := if decide (Task_cancel_status (task w t) = Some s) then _ else _).
  assert (∀ p, _parent (status w s) = p ->
            ∃ wa, _activate_cancel_status t p w = (Ok tt, wa) ∧ inv wa ∧ tasks_frame t p w wa)
    as Hact.
  { intros p Hp.
    destruct (_activate_cancel_status_inv t p w Hinv Ht Habort) as (wa & Hrun_a & Hinva & Hf).
    - intros p' ->. by eapply parent_valid; [apply Hinv|].
    - by exists wa. }
  assert (∃ b, encloses fuel w s (Task_cancel_status (task w t)) = Ok b) as [b Hencl].
  { pose proof (encloses_terminates depth w s Hd fuel (Task_cancel_status (task w t))) as Henc.
    destruct (encloses fuel w s (Task_cancel_status (task w t))) as [b|e|] eqn:Hencl.
    - by exists b.
    - by apply encloses_no_raise in Hencl.
    - exfalso. apply Henc; [|done]. intros o Ho.
      assert (o < length (statuses w))%nat as Hov.
      { apply status_valid. right. right. left. intros Hnil.
        pose proof (tw_task_status _ (proj1 Hinv) t o Ho) as Hin. rewrite Hnil in Hin.
        inversion Hin. }
      specialize (HD o Hov). lia. }
  assert (Task_cancel_status (task w t) = Some s -> b = true) as Hself.
  { intros Hts. rewrite Hts in Hencl. destruct fuel; simpl in Hencl;
      destruct (decide (s = s)); congruence. }
  assert (∃ g wg, go_m w = (Ok g, wg) ∧ inv wg ∧
            (wg = w ∨ ∃ p, tasks_frame t p w wg) ∧
            (g = None <-> negb (abandoned_by_misnesting (status w s)) && negb b = true) ∧
            (g = None -> wg = w))
    as (g & wg & -> & Hinvg & Hwg & Hg & Hgw).
  { unfold go_m. destruct (decide (Task_cancel_status (task w t) = Some s)) as [Hts|Hts].
    - destruct (Hact _ eq_refl) as (wa & Hrun_a & Hinva & Hf).
      unfold bind. rewrite Hrun_a. eexists _, _. split; [done|]. split; [done|].
      split; [right; eauto|]. rewrite (Hself Hts), andb_false_r. by split.
    - unfold bind at 1, gets at 1.
      destruct (abandoned_by_misnesting (status w s)).
      { eexists _, _. split; [done|]. split; [done|]. split; [by left|]. by split. }
      unfold bind at 1, gets at 1, id. rewrite Hencl. destruct b.
      + destruct (Hact _ eq_refl) as (wa & Hrun_a & Hinva & Hf).
        unfold bind. rewrite Hrun_a. eexists _, _. split; [done|]. split; [done|].
        split; [right; eauto|]. by split.
      + eexists _, _. split; [done|]. split; [done|]. split; [by left|]. by split. }
  clear go_m Hact.
  assert (scopes wg = scopes w ∧ deadlines wg = deadlines w ∧
          length (statuses wg) = length (statuses w) ∧
          (∀ x, _parent (status wg x) = _parent (status w x)) ∧
          (∀ x, _children (status wg x) = _children (status w x)))
    as (Hscg & Hdlg & Hleng & Hparg & Hchg).
  { destruct Hwg as [->|[p [F1 F2 F3 F4 F5 F6 F7 F8]]]; [done|]. split_and!; try done.
    - intros x. apply (f_equal _parent (F6 x)).
    - intros x. apply (f_equal _children (F6 x)). }
  destruct g as [exc1|].
  2: { exists (Some (ExcRuntimeError exc)), wg. split; [done|]. exists b. split; [done|].
       rewrite (proj1 Hg eq_refl). by rewrite Hgw. }
  assert (negb (abandoned_by_misnesting (status w s)) && negb b = false) as Hnot.
  { destruct (negb (abandoned_by_misnesting (status w s)) && negb b) eqn:E; [|done].
    by pose proof (proj2 Hg eq_refl). }
  unfold bind at 1, gets at 1, id. unfold bind at 1.
  set (filt := match exc1 with Some e => _ | None => _ end).
  assert (∃ x wf, filt wg = (Ok x, wf) ∧ inv wf ∧ statuses wf = statuses wg ∧
            deadlines wf = deadlines wg ∧ length (scopes wf) = length (scopes wg) ∧
            (∀ y, _cancel_called (scope wf y) = _cancel_called (scope wg y)))
    as (exc2 & wf & -> & Hinvf & Hstf & Hdlf & Hlenf & Hcalledf).
  { unfold filt. destruct exc1 as [e|]; [|eexists _, _; by split_and!].
    destruct (effectively_cancelled (status wg s)
              && negb (parent_cancellation_is_visible_to_us wg s));
      [|eexists _, _; by split_and!].
    unfold MultiError_filter, bind at 1. rewrite map_m_exc_filter_run.
    destruct (map_m_exc_filter_correct k (leaves e) wg) as (rs & wh & Hmap & Hcf).
    rewrite map_m_exc_filter_run in Hmap. injection Hmap as <- <-.
    eexists _, _. split; [done|]. split; [by eapply inv_caught_frame|].
    split; [apply (gf_statuses _ _ Hcf)|].
    destruct (existsb is_cancelled (leaves e)); [|by split_and!].
    split; [done|]. split.
    - unfold_world. simpl. by rewrite length_insert.
    - intros y. by apply scope_update_scope_field. }
  clear filt.
  assert (uncalled wf = uncalled w) as Hunc.
  { rewrite (uncalled_ext wg wf) by done. by apply uncalled_same_scopes. }
  destruct (close_returns fuel now s wf N depth D Hinvf) as (wc & Hclose & Hheap & Huncc).
  { by rewrite Hstf, Hleng. }
  { apply (visits_within_ext w); [by rewrite Hstf| |done].
    intros x. rewrite (status_same_statuses wg wf) by done. apply Hchg. }
  { intros c p. rewrite (status_same_statuses wg wf), Hparg by done. apply Hd. }
  { intros x. rewrite Hstf, Hleng. apply HD. }
  { rewrite Hdlf, Hdlg, Hunc. lia. }
  unfold bind at 1. rewrite Hclose. unfold bind at 1.
  destruct (close_correct fuel now s wf (Ok tt) wc Hinvf) with (2 := Hclose)
    as (_ & _ & Hcf & _); [by rewrite Hstf, Hleng|done|].
  destruct (might_change_modify_returns fuel k (update_scope k (set_cancel_status None)) wc)
    as (wm & Hmc & [F1 F2 F3 F4 F5 F6]).
  { change (deadlines (update_scope k (set_cancel_status None) wc)) with (deadlines wc).
    rewrite Hdlf, Hdlg in Hheap. lia. }
  rewrite Hmc. eexists _, wm. split; [done|]. exists b. split; [done|]. rewrite Hnot.
  pose proof (f_equal _cancel_status (F6 k)) as Hx. simpl in Hx. rewrite Hx.
  rewrite scope_update_scope.
  - by destruct (decide (k = k)).
  - rewrite (cf_scopes_len _ _ Hcf), Hlenf. by rewrite Hscg.
Qed.


(** *** No call fails *)





(** What [_close] does when the task is right under the scope's status,
    alone and with no scope open inside. *)
Lemma _close_nested leaves rebuild fuel now k t exc w s :
  inv w -> running w t -> _cancel_status (scope w k) = Some s ->
  Task_cancel_status (task w t) = Some s ->
  _tasks (status w s) = [t] -> _children (status w s) = [] ->
  (length (_heap (deadlines w)) + 1 <= fuel)%nat ->
  let swallow := effectively_cancelled (status w s)
                 && negb (parent_cancellation_is_visible_to_us w s) in
  let caught := match exc with
                | Some e => swallow && existsb is_cancelled (leaves e)
                | None => false
                end in
  ∃ w', _close leaves rebuild fuel now k t exc w
        = (Ok match exc with
              | Some e =>
                  if swallow
                  then rebuild e (map (fun l => if is_cancelled l then None else Some l) (leaves e))
                  else Some e
              | None => None
              end, w') ∧
    (∀ x, set_registered_deadline Inf (scope w' x)
          = set_registered_deadline Inf
              (if decide (x = k)
               then set_cancel_status None
                      (set_cancelled_caught (cancelled_caught (scope w k) || caught) (scope w k))
               else scope w x)) ∧
    length (scopes w') = length (scopes w) ∧
    length (statuses w') = length (statuses w) ∧
    (∀ x, status w' x
          = if decide (x = s) then set_parent None (set_tasks [] (status w s))
            else if decide (_parent (status w s) = Some x)
                 then set_children (remove s (_children (status w x)))
                        (set_tasks (add t (_tasks (status w x))) (status w x))
                 else status w x) ∧
    (∀ u, task w' u = if decide (u = t)
                      then set_Task_cancel_status (_parent (status w s)) (task w t)
                      else task w u) ∧
    length (tasks w') = length (tasks w) ∧
    runq w' = runq w.
Proof.
  intros Hinv (Ht & Hq & Habort) Hcs Hts Htasks Hchildren Hfuel swallow caught.
  pose proof Hinv as [Hwf Hc].
  destruct (tw_link _ Hwf k s Hcs) as [Hsk Hs].
  assert (k < length (scopes w))%nat as Hk by (apply scope_valid; left; by rewrite Hcs).
  assert (∀ p, _parent (status w s) = Some p -> p ≠ s) as Hps.
  { intros p Hp ->. destruct (tw_ranked _ Hwf) as [depth Hd]. specialize (Hd s s Hp). lia. }
  assert (∀ p, _parent (status w s) = Some p -> (p < length (statuses w))%nat) as Hpv.
  { intros p Hp. by eapply parent_valid. }
  unfold _close. unfold bind at 1, gets at 1. rewrite Hcs.
  unfold bind at 1, gets at 1. unfold bind at 1, gets at 1. unfold bind at 1.
  rewrite Hts. destruct (decide (Some s = Some s)); [|done].
  destruct (_activate_cancel_status_inv t (_parent (status w s)) w Hinv Ht Habort Hpv)
    as (wg & Hact & Hinvg & Hfg).
  rewrite (_activate_cancel_status_run t _ w Hwf Habort) in Hact. injection Hact as Hwg.
  unfold bind at 1. rewrite (_activate_cancel_status_run t _ w Hwf Habort), Hwg.
  unfold ret at 1. unfold bind at 1, gets at 1, id. unfold bind at 1.
  assert (∀ x, status wg x
               = if decide (x = s) then set_tasks [] (status w s)
                 else if decide (_parent (status w s) = Some x)
                      then set_tasks (add t (_tasks (status w x))) (status w x)
                      else status w x) as Hstg.
  { intros x. rewrite <- Hwg, activated_status by done. rewrite Hts. simpl.
    destruct (decide (x = s)) as [->|Hxs].
    - destruct (decide (Some s = Some s)); [|done].
      destruct (decide (_parent (status w s) = Some s)) as [Hp|]; [by apply Hps in Hp|].
      rewrite Htasks. simpl. by destruct (decide (t = t)).
    - destruct (decide (Some s = Some x)) as [[=]|]; [congruence|].
      destruct (decide (_parent (status w s) = Some x)); [done|]. apply set_tasks_id. }
  destruct Hfg as [G1 G2 G3 G4 G5 G6 G7 G8].
  assert (effectively_cancelled (status wg s)
          && negb (parent_cancellation_is_visible_to_us wg s) = swallow) as Hsw.
  { unfold swallow, parent_cancellation_is_visible_to_us.
    rewrite (Hstg s). destruct (decide (s = s)); [|done]. simpl.
    rewrite (scope_same_scopes w wg) by done.
    destruct (_parent (status w s)) as [p|] eqn:Hp; [|done].
    rewrite (Hstg p). destruct (decide (p = s)); [by destruct (Hps p eq_refl)|].
    rewrite ?Hp. by destruct (decide (Some p = Some p)). }
  set (wf := if caught then update_scope k (set_cancelled_caught true) wg else wg).
  set (r := match exc with
            | Some e =>
                if swallow
                then rebuild e (map (fun l => if is_cancelled l then None else Some l) (leaves e))
                else Some e
            | None => None
            end).
  assert (match exc with
          | Some e =>
              if effectively_cancelled (status wg s)
                 && negb (parent_cancellation_is_visible_to_us wg s)
              then MultiError_filter leaves rebuild (_exc_filter k) e
              else ret (Some e)
          | None => ret None
          end wg = (Ok r, wf)) as ->.
  { unfold r, wf, caught. destruct exc as [e0|]; [|done]. rewrite Hsw.
    destruct swallow; [|done].
    unfold MultiError_filter, bind. by rewrite map_m_exc_filter_run. }
  assert (statuses wf = statuses wg ∧ tasks wf = tasks wg ∧ runq wf = runq wg
          ∧ deadlines wf = deadlines wg ∧ length (scopes wf) = length (scopes wg)) 
    as (Hstf & Htkf & Hqf & Hdlf & Hlenf).
  { unfold wf. destruct caught; [|done]. split_and!; try done.
    unfold_world. simpl. by rewrite length_insert. }
  assert (∀ x, scope wf x
               = if decide (x = k)
                 then set_cancelled_caught (cancelled_caught (scope w k) || caught) (scope w k)
                 else scope w x) as Hscf.
  { intros x. unfold wf. destruct caught.
    - rewrite scope_update_scope by (by rewrite G1). rewrite !(scope_same_scopes w wg) by done.
      destruct (decide (x = k)); [|done]. by rewrite orb_true_r.
    - rewrite (scope_same_scopes w wg) by done. rewrite orb_false_r.
      destruct (decide (x = k)) as [->|]; [|done]. by destruct (scope w k). }
  assert (inv wf) as Hinvf.
  { unfold wf. destruct caught; [|done].
    destruct (_exc_filter_correct k ExcCancelled wg) as (r0 & w0 & Hrun0 & Hf0).
    simpl in Hrun0. unfold bind, modify, ret in Hrun0. injection Hrun0 as <- <-.
    by eapply inv_caught_frame. }
  assert (s < length (statuses wf))%nat as Hsf by (by rewrite Hstf, G5).
  unfold close. unfold bind at 1. unfold bind at 1.
  rewrite parent_setter_None_run by apply Hinvf.
  unfold bind at 1, gets at 1.
  pose proof (fun x => unlinked_status s wf x (proj1 Hinvf) Hsf) as Hstc.
  destruct (unlinked_same s wf) as (Hscc & Htkc & Hqc & Hdlc & Hgc & Hlenc).
  set (wc := unlinked s wf) in *.
  assert (∀ x, status wf x = status wg x) as Hstf'
    by (intros; by apply status_same_statuses).
  assert (status wc s = set_parent None (set_tasks [] (status w s))) as Hsc_s.
  { rewrite Hstc. destruct (decide (s = s)); [|done]. rewrite Hstf', Hstg.
    by destruct (decide (s = s)). }
  rewrite Hsc_s. simpl. rewrite Hchildren. simpl.
  unfold bind at 1.
  destruct (might_change_modify_returns fuel k (update_scope k (set_cancel_status None)) wc)
    as (w' & Hmc & [F1 F2 F3 F4 F5 F6]).
  { change (deadlines (update_scope k (set_cancel_status None) wc)) with (deadlines wc).
    rewrite Hdlc, Hdlf, G2. lia. }
  rewrite Hmc. exists w'. split; [done|].
  assert (length (scopes wc) = length (scopes w)) as Hlensc by (by rewrite Hscc, Hlenf, G1).
  split_and!.
  - intros x. rewrite F6. rewrite scope_update_scope by lia.
    rewrite !(scope_same_scopes wf wc) by done. rewrite !Hscf.
    destruct (decide (x = k)) as [->|]; [|done]. by destruct (decide (k = k)).
  - rewrite F5, <- Hlensc. unfold_world. simpl. by rewrite length_insert.
  - rewrite F1. change (statuses (update_scope k (set_cancel_status None) wc)) with (statuses wc).
    by rewrite Hlenc, Hstf, G5.
  - intros x. rewrite (status_same_statuses (update_scope k (set_cancel_status None) wc) w')
      by done.
    change (status (update_scope k (set_cancel_status None) wc) x) with (status wc x).
    rewrite Hstc. destruct (decide (x = s)) as [->|Hxs].
    + rewrite Hstf', Hstg. by destruct (decide (s = s)).
    + rewrite !Hstf', !Hstg. destruct (decide (s = s)); [|done]. simpl.
      destruct (decide (x = s)); [done|].
      destruct (decide (_parent (status w s) = Some x)); done.
  - intros u. rewrite (task_same_tasks (update_scope k (set_cancel_status None) wc) w') by done.
    change (task (update_scope k (set_cancel_status None) wc) u) with (task wc u).
    rewrite (task_same_tasks wf wc) by done. rewrite (task_same_tasks wg wf) by done.
    apply G8.
  - rewrite F2. change (tasks (update_scope k (set_cancel_status None) wc)) with (tasks wc).
    by rewrite Htkc, Htkf.
  - rewrite F3. change (runq (update_scope k (set_cancel_status None) wc)) with (runq wc).
    by rewrite Hqc, Hqf.
Qed.

(** [_close] on a reachable world, by the one task [t] under the scope's
    status [s], with no scope open inside: the well-nested exit. It returns.
    The exception [exc] comes back as it is, unless the scope itself was
    cancelled and no cancellation of an enclosing scope is visible: only then
    [MultiError.filter] drops the [Cancelled] leaves of [exc], and
    [cancelled_caught] is set exactly if there was one to drop. The scope
    is exited and its deadline unregistered; [s] is unlinked from its parent,
    which gets the task back. Nothing else changes: no other scope, no
    other status, no other task, not the run queue. *)
Theorem exit_returns_task_to_parent (w : world) (k t s : nat) (exc : option pyexc)
    (now : Z) (leaves : pyexc -> list pyexc)
    (rebuild : pyexc -> list (option pyexc) -> option pyexc) :
  reachable w -> running w t -> _cancel_status (scope w k) = Some s ->
  Task_cancel_status (task w t) = Some s ->
  _tasks (status w s) = [t] -> _children (status w s) = [] ->
  ∃ fuel0, ∀ fuel, (fuel0 <= fuel)%nat ->
    let own := _cancel_called (scope w k)
               && negb (parent_cancellation_is_visible_to_us w s) in
    let caught := match exc with
                  | Some e => own && existsb is_cancelled (leaves e)
                  | None => false
                  end in
    ∃ w', _close leaves rebuild fuel now k t exc w
          = (Ok match exc with
                | Some e =>
                    if own
                    then rebuild e
                           (map (fun l => if is_cancelled l then None else Some l) (leaves e))
                    else Some e
                | None => None
                end, w') ∧
      scope w' k
      = set_registered_deadline Inf
          (set_cancel_status None
             (set_cancelled_caught (cancelled_caught (scope w k) || caught) (scope w k))) ∧
      (∀ x, x ≠ k -> scope w' x = scope w x) ∧
      length (statuses w') = length (statuses w) ∧
      status w' s = set_parent None (set_tasks [] (status w s)) ∧
      (∀ p, _parent (status w s) = Some p ->
            status w' p = set_children (remove s (_children (status w p)))
                            (set_tasks (add t (_tasks (status w p))) (status w p))) ∧
      (∀ x, x ≠ s -> _parent (status w s) ≠ Some x -> status w' x = status w x) ∧
      task w' t = set_Task_cancel_status (_parent (status w s)) (task w t) ∧
      (∀ u, u ≠ t -> task w' u = task w u) ∧
      runq w' = runq w.
Proof.
  intros Hreach Hrunning Hcs Hts Htasks Hchildren.
  pose proof (reachable_inv w Hreach) as Hinv.
  exists (length (_heap (deadlines w)) + 1)%nat. intros fuel Hfuel. cbv zeta.
  destruct (tw_link _ (proj1 Hinv) k s Hcs) as [Hsk Hs].
  assert (k < length (scopes w))%nat as Hk by (apply scope_valid; left; by rewrite Hcs).
  assert (effectively_cancelled (status w s) && negb (parent_cancellation_is_visible_to_us w s)
          = _cancel_called (scope w k) && negb (parent_cancellation_is_visible_to_us w s))
    as Hown.
  { assert (attached w s) as Ha by (unfold attached; by rewrite Hsk).
    rewrite (proj2 Hinv s Ha). unfold expected. rewrite Hsk.
    by destruct (_cancel_called _), (parent_cancellation_is_visible_to_us w s). }
  destruct (_close_nested leaves rebuild fuel now k t exc w s Hinv Hrunning Hcs Hts Htasks
              Hchildren Hfuel) as (w' & Hrun & Hsc & Hlensc & Hlen & Hst & Htk & Hlent & Hq).
  cbv zeta in *. rewrite Hown in *.
  exists w'. split; [done|].
  assert (reachable w') as Hreach'.
  { apply (reachable_step w (OpClose k t exc now leaves rebuild) fuel (Ok tt) w');
      [done|done| |done].
    simpl. unfold bind. by rewrite Hrun. }
  pose proof (reachable_deadlines_ok w Hreach) as Hok.
  pose proof (reachable_deadlines_ok w' Hreach') as Hok'.
  split_and!; try done.
  - apply (scope_eq_formula w w'); [done| |done].
    rewrite Hsc. destruct (decide (k = k)); [|done]. by destruct (scope w k).
  - intros x Hne. apply (scope_eq_formula w w'); [done| |apply (dl_registered _ Hok)].
    rewrite Hsc. by destruct (decide (x = k)).
  - rewrite Hst. by destruct (decide (s = s)).
  - intros p Hp. rewrite Hst. destruct (decide (p = s)) as [->|].
    + destruct (tw_ranked _ (proj1 Hinv)) as [depth Hd]. specialize (Hd s s Hp). lia.
    + by destruct (decide (_parent (status w s) = Some p)).
  - intros x Hxs Hxp. rewrite Hst. destruct (decide (x = s)); [done|].
    by destruct (decide (_parent (status w s) = Some x)).
  - rewrite Htk. by destruct (decide (t = t)).
  - intros u Hne. rewrite Htk. by destruct (decide (u = t)).
Qed.

(** *** Entering and leaving *)

Lemma remove_not_elem x l : x ∉ l -> remove x l = l.
Proof.
  induction l as [|y l IH]; simpl; [done|]. intros Hn.
  apply not_elem_of_cons in Hn as [Hne Hn]. destruct (decide (y = x)); [done|].
  by rewrite IH.
Qed.

Lemma remove_add_fresh x l : x ∉ l -> remove x (add x l) = l.
Proof.
  intros Hn. unfold add. destruct (mem x l) eqn:Hm; [by apply mem_elem_of in Hm|].
  clear Hm. induction l as [|y l IH]; simpl.
  - by destruct (decide (x = x)).
  - apply not_elem_of_cons in Hn as [Hne Hn]. destruct (decide (y = x)); [done|].
    by rewrite IH.
Qed.

Lemma add_remove_perm x l : NoDup l -> x ∈ l -> add x (remove x l) ≡ₚ l.
Proof.
  intros Hnd Hin. unfold add.
  destruct (mem x (remove x l)) eqn:Hm.
  { apply mem_elem_of, elem_of_remove in Hm as [_ ?]. done. }
  clear Hm. induction Hnd as [|y l Hy Hnd IH]; [inversion Hin|]. simpl.
  destruct (decide (y = x)) as [->|Hne].
  - rewrite remove_not_elem by done. symmetry. apply Permutation_cons_append.
  - apply elem_of_cons in Hin as [->|Hin]; [done|]. simpl. by rewrite IH.
Qed.

(** Entering a fresh scope and leaving it again, by a task [t] under the
    cancel status [p], with [exc] reaching the exit: both calls return, and
    the world is what it was but for the scope itself and the status it has
    used. The task is under [p] again, [p] has the children it had and the
    same tasks (the task [t] now last), every other status, scope and task
    and the run queue are as before. The scope is exited, marked as entered,
    with no deadline registered; it is cancelled exactly if it was before or
    its deadline had passed on entry. With no exception the exit returns
    [None] and [cancelled_caught] keeps its value. *)
Theorem enter_then_exit_restores (w : world) (k t : nat) (now now' : Z)
    (exc : option pyexc) (leaves : pyexc -> list pyexc)
    (rebuild : pyexc -> list (option pyexc) -> option pyexc) :
  reachable w -> enabled w (OpEnter k t now) -> _has_been_entered (scope w k) = false ->
  ∃ fuel0, ∀ fuel, (fuel0 <= fuel)%nat ->
    ∃ p w1 r w2,
      Task_cancel_status (task w t) = Some p ∧
      __enter__ fuel k t now w = (Ok tt, w1) ∧
      _close leaves rebuild fuel now' k t exc w1 = (Ok r, w2) ∧
      (∀ u, task w2 u = task w u) ∧
      runq w2 = runq w ∧
      (∀ x, x ≠ k -> scope w2 x = scope w x) ∧
      _cancel_status (scope w2 k) = None ∧
      _has_been_entered (scope w2 k) = true ∧
      _registered_deadline (scope w2 k) = Inf ∧
      _cancel_called (scope w2 k)
      = _cancel_called (scope w k) || time_le (_deadline (scope w k)) (At now) ∧
      _deadline (scope w2 k) = _deadline (scope w k) ∧
      _shield (scope w2 k) = _shield (scope w k) ∧
      (∀ x, (x < length (statuses w))%nat -> x ≠ p -> status w2 x = status w x) ∧
      status w2 p = set_tasks (add t (remove t (_tasks (status w p)))) (status w p) ∧
      add t (remove t (_tasks (status w p))) ≡ₚ _tasks (status w p) ∧
      length (statuses w2) = S (length (statuses w)) ∧
      _parent (status w2 (length (statuses w))) = None ∧
      _tasks (status w2 (length (statuses w))) = [] ∧
      (exc = None -> r = None ∧ cancelled_caught (scope w2 k) = cancelled_caught (scope w k)).
Proof.
  intros Hreach Hen Hent. pose proof Hen as (Hk & Hrunning & Hts).
  pose proof (reachable_inv w Hreach) as Hinv.
  exists (length (_heap (deadlines w)) + 2)%nat. intros fuel Hfuel.
  destruct (Task_cancel_status (task w t)) as [p|] eqn:Hp; [|done].
  destruct (__enter___fresh fuel k t now w p Hinv Hk Hrunning Hp Hent Hfuel)
    as (w1 & Hrun1 & Hsc1 & Hlensc1 & Hlen1 & Hst1 & Htk1 & Hlent1 & Hq1 & Hheap1).
  cbv zeta in *. set (s := length (statuses w)) in *.
  set (called := _cancel_called (scope w k) || time_le (_deadline (scope w k)) (At now)) in *.
  assert (reachable w1) as Hreach1
    by (apply (reachable_step w (OpEnter k t now) fuel (Ok tt) w1); done).
  pose proof (reachable_inv w1 Hreach1) as Hinv1.
  assert (∀ {A} (proj : CancelScope -> A),
            (∀ d sc, proj (set_registered_deadline d sc) = proj sc) ->
            ∀ x, proj (scope w1 x)
                 = proj (if decide (x = k)
                         then set_cancel_status (Some s)
                                (set_cancel_called called (set_has_been_entered true (scope w k)))
                         else scope w x)) as Hproj1.
  { intros A proj Hproj x. rewrite <- (Hproj Inf (scope w1 x)), Hsc1. apply Hproj. }
  assert (p < s)%nat as Hpv.
  { apply status_valid. right. right. left. intros Hnil.
    pose proof (tw_task_status _ (proj1 Hinv) t p Hp) as Hin. rewrite Hnil in Hin.
    inversion Hin. }
  assert (running w1 t) as Hrunning1.
  { destruct Hrunning as (Ht & Hq & Habort). split_and!.
    - by rewrite Hlent1.
    - by rewrite Hq1.
    - rewrite Htk1. by destruct (decide (t = t)). }
  assert (_cancel_status (scope w1 k) = Some s) as Hcs1.
  { rewrite (Hproj1 _ _cancel_status) by done. by destruct (decide (k = k)). }
  assert (status w1 s
          = mkStatus k (called || negb (_shield (scope w k)) && effectively_cancelled (status w p))
                     (Some p) [] [t] false) as Hs1.
  { rewrite Hst1. by destruct (decide (s = s)). }
  destruct (_close_nested leaves rebuild fuel now' k t exc w1 s Hinv1 Hrunning1 Hcs1)
    as (w2 & Hrun2 & Hsc2 & Hlensc2 & Hlen2 & Hst2 & Htk2 & Hlent2 & Hq2).
  { rewrite Htk1. by destruct (decide (t = t)). }
  { by rewrite Hs1. }
  { by rewrite Hs1. }
  { lia. }
  cbv zeta in *. rewrite Hs1 in Hst2, Htk2. simpl in Hst2, Htk2.
  assert (reachable w2) as Hreach2.
  { apply (reachable_step w1 (OpClose k t exc now' leaves rebuild) fuel (Ok tt) w2);
      [done| | |done].
    - split; [by rewrite Hlensc1|done].
    - simpl. unfold bind. by rewrite Hrun2. }
  pose proof (reachable_deadlines_ok w Hreach) as Hok.
  pose proof (reachable_deadlines_ok w2 Hreach2) as Hok2.
  assert (∀ {A} (proj : CancelScope -> A),
            (∀ d sc, proj (set_registered_deadline d sc) = proj sc) ->
            (∀ b sc, proj (set_cancelled_caught b sc) = proj sc) ->
            ∀ x, proj (scope w2 x)
                 = proj (if decide (x = k)
                         then set_cancel_status None
                                (set_cancel_called called (set_has_been_entered true (scope w k)))
                         else scope w x)) as Hproj2.
  { intros A proj Hproj Hproj' x. rewrite <- (Hproj Inf (scope w2 x)), Hsc2, Hproj.
    destruct (decide (x = k)) as [->|Hne].
    - change (proj (set_cancelled_caught ?b (scope w1 k))) with
        ((fun sc => proj (set_cancelled_caught b sc)) (scope w1 k)).
      assert (∀ b c, proj (set_cancel_status None (set_cancelled_caught b c))
                     = proj (set_cancel_status None c)) as Hdrop.
      { intros b c. rewrite <- (Hproj' b (set_cancel_status None c)). by destruct c. }
      rewrite Hdrop.
      rewrite (Hproj1 _ (fun sc => proj (set_cancel_status None sc))).
      + destruct (decide (k = k)); [|done]. by destruct (scope w k).
      + intros d sc. rewrite <- (Hproj d (set_cancel_status None sc)). by destruct sc.
    - rewrite (Hproj1 _ proj) by done. by destruct (decide (x = k)). }
  eexists p, w1, _, w2. split; [done|]. split; [done|]. split; [exact Hrun2|].
  split_and!.
  - intros u. rewrite Htk2. destruct (decide (u = t)) as [->|Hne].
    + rewrite Htk1. destruct (decide (t = t)); [|done]. revert Hp.
      destruct (task w t). simpl. by intros ->.
    + rewrite Htk1. by destruct (decide (u = t)).
  - by rewrite Hq2.
  - intros x Hne. apply (scope_eq_formula w w2); [done| |apply (dl_registered _ Hok)].
    rewrite Hsc2. destruct (decide (x = k)); [done|]. rewrite Hsc1.
    by destruct (decide (x = k)).
  - rewrite (Hproj2 _ _cancel_status) by done. by destruct (decide (k = k)).
  - rewrite (Hproj2 _ _has_been_entered) by done. by destruct (decide (k = k)).
  - rewrite (dl_registered _ Hok2). unfold registered_formula.
    rewrite (Hproj2 _ _cancel_status) by done. by destruct (decide (k = k)).
  - rewrite (Hproj2 _ _cancel_called) by done. by destruct (decide (k = k)).
  - rewrite (Hproj2 _ _deadline) by done. by destruct (decide (k = k)).
  - rewrite (Hproj2 _ _shield) by done. by destruct (decide (k = k)).
  - intros x Hx Hne. rewrite Hst2. destruct (decide (x = s)); [lia|].
    destruct (decide (Some p = Some x)) as [[=]|]; [congruence|].
    rewrite Hst1. destruct (decide (x = s)); [done|]. by destruct (decide (x = p)).
  - rewrite Hst2. destruct (decide (p = s)); [lia|].
    destruct (decide (Some p = Some p)); [|done].
    rewrite Hst1. destruct (decide (p = s)); [lia|]. destruct (decide (p = p)); [|done].
    simpl. rewrite remove_add_fresh.
    + by destruct (status w p).
    + intros Hin. apply (child_valid _ _ _ (proj1 Hinv)) in Hin. unfold s in Hin. lia.
  - apply add_remove_perm; [apply (tw_tasks_nodup _ (proj1 Hinv))|].
    by apply (tw_task_status _ (proj1 Hinv)).
  - by rewrite Hlen2.
  - rewrite Hst2. by destruct (decide (s = s)).
  - rewrite Hst2. by destruct (decide (s = s)).
  - intros ->. split; [done|].
    pose proof (f_equal cancelled_caught (Hsc2 k)) as Hc. simpl in Hc.
    destruct (decide (k = k)); [|done]. simpl in Hc. rewrite orb_false_r in Hc.
    assert (cancelled_caught (scope w2 k) = cancelled_caught (scope w1 k)) as ->
      by (by destruct (scope w2 k), (scope w1 k)).
    pose proof (f_equal cancelled_caught (Hsc1 k)) as Hc1. simpl in Hc1.
    destruct (decide (k = k)); [|done].
    by destruct (scope w1 k), (scope w k).
Qed.

(** *** A corrupted scope stack *)

(** [other] is the status [self] or lies under it: what
    [CancelStatus.encloses] decides by walking up the parents of [other]. *)
Inductive below (w : world) (self : nat) : option nat -> Prop :=
  | below_self : below w self (Some self)
  | below_parent o : below w self (_parent (status w o)) -> below w self (Some o).

Lemma encloses_below w self fuel : ∀ other b,
  encloses fuel w self other = Ok b -> (b = true ↔ below w self other).
Proof.
  induction fuel as [|fuel IH]; intros [o|] b; simpl.
  - destruct (decide (o = self)) as [->|]; [|done].
    intros [= <-]. split; [intros _; constructor|done].
  - intros [= <-]. split; [done|]. intros H. inversion H.
  - destruct (decide (o = self)) as [->|Hne].
    + intros [= <-]. split; [intros _; constructor|done].
    + intros H. rewrite (IH _ _ H). split; [by constructor|].
      intros Hb. by inversion Hb.
  - intros [= <-]. split; [done|]. intros H. inversion H.
Qed.

(** [_close] on a reachable world always returns, in one of two ways. If
    the scope is not active, or if its status is neither abandoned by
    mis-nesting nor the task's status or one that encloses it, [_close]
    returns a [RuntimeError] whose [__context__] is [exc] and changes
    nothing at all. In every other case the scope is exited. *)
Theorem exit_of_unrelated_scope_changes_nothing (w : world) (k t : nat)
    (exc : option pyexc) (now : Z) (leaves : pyexc -> list pyexc)
    (rebuild : pyexc -> list (option pyexc) -> option pyexc) :
  reachable w -> enabled w (OpClose k t exc now leaves rebuild) ->
  ∃ fuel0, ∀ fuel, (fuel0 <= fuel)%nat ->
    ∃ r w', _close leaves rebuild fuel now k t exc w = (Ok r, w') ∧
      (_cancel_status (scope w k) = None -> r = Some (ExcRuntimeError exc) ∧ w' = w) ∧
      (∀ s, _cancel_status (scope w k) = Some s ->
            abandoned_by_misnesting (status w s) = false ->
            ¬ below w s (Task_cancel_status (task w t)) ->
            r = Some (ExcRuntimeError exc) ∧ w' = w) ∧
      (∀ s, _cancel_status (scope w k) = Some s ->
            abandoned_by_misnesting (status w s) = true
            ∨ below w s (Task_cancel_status (task w t)) ->
            _cancel_status (scope w' k) = None).
Proof.
  intros Hreach (Hk & Hrunning).
  pose proof (reachable_inv w Hreach) as Hinv.
  destruct (visits_bound w (proj1 Hinv)) as [N HN].
  destruct (rank_bound w (proj1 Hinv)) as (depth & D & Hd & HD).
  exists (length (_heap (deadlines w)) + N + uncalled w + D + 2)%nat. intros fuel Hfuel.
  destruct (_close_returns leaves rebuild fuel now k t exc w N depth D Hinv Hrunning HN Hd HD
              Hfuel) as (r & w' & Hrun & Hout).
  exists r, w'. split; [done|].
  destruct (_cancel_status (scope w k)) as [s|] eqn:Hcs.
  - destruct Hout as (b & Hencl & Hout). pose proof (encloses_below _ _ _ _ _ Hencl) as Hb.
    split; [done|]. split.
    + intros s' [= <-] Hab Hnb. rewrite Hab in Hout. destruct b; [|done].
      destruct Hnb. by apply Hb.
    + intros s' [= <-] [Hab|Hbelow].
      * by rewrite Hab in Hout.
      * rewrite (proj2 Hb Hbelow), andb_false_r in Hout. done.
  - split; [done|]. split; intros s' [=].
Qed.

(** *** What [cancelled_caught] tells *)

(** Conditions on the flags of the scopes that no update of a registered
    deadline and no assignment to the other fields disturbs are kept by all
    the code but [__enter__], [_close] and the constructor, which are looked
    at one by one below. *)
Section Flags.
Variable I : world -> Prop.
Hypothesis I_reg : ∀ w w', I w ->
  (∀ x, set_registered_deadline Inf (scope w' x) = set_registered_deadline Inf (scope w x)) ->
  I w'.
Hypothesis I_update : ∀ w k f,
  (∀ sc, cancelled_caught (f sc) = cancelled_caught sc) ->
  (∀ sc, _cancel_status (f sc) = _cancel_status sc) ->
  (∀ sc, _has_been_entered sc = true -> _has_been_entered (f sc) = true) ->
  (∀ sc, _cancel_called sc = true -> _cancel_called (f sc) = true) ->
  I w -> I (update_scope k f w).

Lemma flags_same_scopes w w' : I w -> scopes w' = scopes w -> I w'.
Proof. intros HI Hsc. apply (I_reg w); [done|]. intros x. by rewrite (scope_same_scopes w w'). Qed.

Lemma flags_ext w w' : I w -> scopes w' = scopes w -> deadlines w' = deadlines w -> I w'.
Proof. intros HI Hsc _. by apply (flags_same_scopes w). Qed.

Ltac keep_flags :=
  repeat first
    [ keep_step
    | apply leads_to_modify; intros ? ?; eapply flags_same_scopes; [eassumption|reflexivity]
    | apply leads_to_modify; intros ? ?; apply I_update; [done|done|done|done|assumption]
    | solve [eauto using flags_ext]
    | solve [apply reschedule_frame; apply flags_ext]
    | solve [apply delivery_frame_keeps; apply flags_ext]
    | solve [apply children_remove_frame; apply flags_ext]
    | solve [apply children_add_frame; apply flags_ext]
    | solve [apply _mark_abandoned_frame; apply flags_ext]
    | solve [apply _activate_cancel_status_frame; apply flags_ext]
    | solve [apply spawn_impl_frame; apply flags_ext]
    | solve [apply wait_task_rescheduled_frame; apply flags_ext] ].

Lemma registered_deadline_update_flags fuel k :
  leads_to I (registered_deadline_update fuel k) I.
Proof.
  intros w r w' HI Hrun Hr.
  destruct (registered_deadline_update_correct fuel k w False (fun H => False_ind _ H)
              w r w' eq_refl Hrun Hr) as (a & _ & [F1 F2 F3 F4 F5 F6] & _).
  by apply (I_reg w).
Qed.

Lemma might_change_flags {A} fuel k (body : M world A) :
  leads_to I body I -> leads_to I (_might_change_registered_deadline fuel k body) I.
Proof. intros Hb. eapply leads_to_might_change; [done|apply registered_deadline_update_flags]. Qed.

Lemma cancel_with_flags recalculate fuel k :
  (∀ s, leads_to I (recalculate s) I) -> leads_to I (cancel_with recalculate fuel k) I.
Proof. intros Hrec. unfold cancel_with. keep_flags. apply might_change_flags. keep_flags. Qed.

Lemma cancel_called_with_flags recalculate fuel k now :
  (∀ s, leads_to I (recalculate s) I) ->
  leads_to I (cancel_called_with recalculate fuel k now) I.
Proof. intros Hrec. unfold cancel_called_with. keep_flags. by apply cancel_with_flags. Qed.

Lemma recalculate_loop_flags fuel now : ∀ todo, leads_to I (recalculate_loop fuel now todo) I.
Proof.
  induction fuel as [|fuel IH]; intros [|current todo]; simpl; keep_flags.
  apply cancel_called_with_flags. intros s. apply IH.
Qed.

Lemma recalculate_flags fuel now s : leads_to I (recalculate fuel now s) I.
Proof. apply recalculate_loop_flags. Qed.

Lemma cancel_flags fuel now k : leads_to I (cancel fuel now k) I.
Proof. apply cancel_with_flags, recalculate_flags. Qed.

Lemma cancel_called_flags fuel k now : leads_to I (cancel_called fuel k now) I.
Proof. apply cancel_called_with_flags, recalculate_flags. Qed.

Lemma CancelStatus_new_flags fuel now k parent :
  leads_to I (CancelStatus_new fuel now k parent) I.
Proof. unfold CancelStatus_new. keep_flags; apply recalculate_flags. Qed.

Lemma parent_setter_flags fuel now s parent : leads_to I (parent_setter fuel now s parent) I.
Proof. unfold parent_setter. keep_flags; apply recalculate_flags. Qed.

Lemma close_flags fuel now s : leads_to I (close fuel now s) I.
Proof.
  unfold close. keep_flags; first [apply parent_setter_flags|apply recalculate_flags].
Qed.

Lemma deadline_setter_flags fuel k d : leads_to I (deadline_setter fuel k d) I.
Proof. unfold deadline_setter. apply might_change_flags. keep_flags. Qed.

Lemma shield_setter_flags fuel now k b : leads_to I (shield_setter fuel now k b) I.
Proof. unfold shield_setter. keep_flags. apply recalculate_flags. Qed.

Lemma Deadlines_next_deadline_flags fuel : leads_to I (Deadlines_next_deadline fuel) I.
Proof.
  intros w r w' HI Hrun Hr.
  destruct (next_deadline_correct fuel w r w' Hrun Hr) as (_ & [F1 F2 F3 F4 F5 F6] & _).
  by apply (flags_same_scopes w).
Qed.

Lemma expire_loop_flags fuel now : ∀ did_something,
  leads_to I (expire_loop fuel now did_something) I.
Proof.
  induction fuel as [|fuel IH]; intros did_something; simpl; unfold heappop; keep_flags;
    apply cancel_flags.
Qed.

Lemma Deadlines_prune_flags : leads_to I Deadlines_prune I.
Proof. unfold Deadlines_prune. keep_flags. Qed.

Lemma expire_flags fuel now : leads_to I (expire fuel now) I.
Proof.
  unfold expire. keep_flags; first [apply expire_loop_flags|apply Deadlines_prune_flags].
Qed.

End Flags.

(** A scope that has caught a cancellation was cancelled and entered, and
    it has exited, but for the scope [leaving] that [_close] is about to
    detach. *)
Definition caught_ok (leaving : option nat) (w : world) : Prop :=
  ∀ x, cancelled_caught (scope w x) = true ->
       _cancel_called (scope w x) = true ∧ _has_been_entered (scope w x) = true ∧
       (leaving ≠ Some x -> _cancel_status (scope w x) = None).

(** The same, where moreover the scope [k] has caught nothing: what holds
    inside [__enter__]. *)
Definition fresh_ok (k : nat) (w : world) : Prop :=
  caught_ok None w ∧ cancelled_caught (scope w k) = false.

Lemma caught_ok_reg l w w' :
  caught_ok l w ->
  (∀ x, set_registered_deadline Inf (scope w' x) = set_registered_deadline Inf (scope w x)) ->
  caught_ok l w'.
Proof.
  intros H Hsc x.
  rewrite (f_equal cancelled_caught (Hsc x) : cancelled_caught (scope w' x) = _),
          (f_equal _cancel_called (Hsc x) : _cancel_called (scope w' x) = _),
          (f_equal _has_been_entered (Hsc x) : _has_been_entered (scope w' x) = _),
          (f_equal _cancel_status (Hsc x) : _cancel_status (scope w' x) = _).
  apply H.
Qed.

Lemma caught_ok_update l w k f :
  (∀ sc, cancelled_caught (f sc) = cancelled_caught sc) ->
  (∀ sc, _cancel_status (f sc) = _cancel_status sc) ->
  (∀ sc, _has_been_entered sc = true -> _has_been_entered (f sc) = true) ->
  (∀ sc, _cancel_called sc = true -> _cancel_called (f sc) = true) ->
  caught_ok l w -> caught_ok l (update_scope k f w).
Proof.
  intros Hc Hs He Hd H. destruct (decide (k < length (scopes w))%nat) as [Hk|Hk].
  - intros x. rewrite scope_update_scope by done. destruct (decide (x = k)) as [->|]; [|apply H].
    rewrite Hc, Hs. intros Hx. destruct (H k Hx) as (? & ? & ?). auto.
  - by rewrite update_scope_invalid.
Qed.

Lemma fresh_ok_reg k w w' :
  fresh_ok k w ->
  (∀ x, set_registered_deadline Inf (scope w' x) = set_registered_deadline Inf (scope w x)) ->
  fresh_ok k w'.
Proof.
  intros [H Hk] Hsc. split; [by eapply caught_ok_reg|].
  by rewrite (f_equal cancelled_caught (Hsc k) : cancelled_caught (scope w' k) = _).
Qed.

Lemma fresh_ok_update k w k' f :
  (∀ sc, cancelled_caught (f sc) = cancelled_caught sc) ->
  (∀ sc, _cancel_status (f sc) = _cancel_status sc) ->
  (∀ sc, _has_been_entered sc = true -> _has_been_entered (f sc) = true) ->
  (∀ sc, _cancel_called sc = true -> _cancel_called (f sc) = true) ->
  fresh_ok k w -> fresh_ok k (update_scope k' f w).
Proof.
  intros Hc Hs He Hd [H Hk]. split; [by apply caught_ok_update|].
  by rewrite (scope_update_scope_field cancelled_caught).
Qed.

Lemma __enter___caught fuel k t now :
  leads_to (caught_ok None) (__enter__ fuel k t now) (caught_ok None).
Proof.
  unfold __enter__. apply leads_to_gets_bind. intros [].
  { eapply leads_to_consequence; [apply (leads_to_raise (caught_ok None))| |done].
    by intros w [? _]. }
  eapply leads_to_consequence with (P' := fresh_ok k) (Q' := caught_ok None); [| |done].
  2: { intros w [H Hent]. split; [done|].
       destruct (cancelled_caught (scope w k)) eqn:Hc; [|done].
       destruct (H k Hc) as (_ & He & _). congruence. }
  assert (∀ w, fresh_ok k w -> caught_ok None w) as Hweak by (by intros w [? _]).
  eapply leads_to_bind with (Q := fresh_ok k); [|done|intros []].
  { apply leads_to_modify. intros w. by apply fresh_ok_update. }
  eapply leads_to_bind with (Q := fresh_ok k); [apply leads_to_gets|done|intros deadline].
  eapply leads_to_bind with (Q := fresh_ok k); [|done|intros []].
  { destruct (time_le deadline (At now)); [|apply leads_to_ret].
    apply cancel_flags; [apply fresh_ok_reg|apply fresh_ok_update]. }
  apply leads_to_might_change with (J := caught_ok None);
    [|apply registered_deadline_update_flags, caught_ok_reg].
  eapply leads_to_bind with (Q := fresh_ok k); [apply leads_to_gets|done|intros parent].
  eapply leads_to_bind with (Q := fresh_ok k); [|done|intros s].
  { apply CancelStatus_new_flags; [apply fresh_ok_reg|apply fresh_ok_update]. }
  eapply leads_to_bind with (Q := caught_ok None); [|done|intros []].
  - apply leads_to_modify. intros w [H Hk].
    destruct (decide (k < length (scopes w))%nat) as [Hv|Hv];
      [|by rewrite update_scope_invalid].
    intros x. rewrite scope_update_scope by done.
    destruct (decide (x = k)) as [->|]; [|apply H].
    simpl. by rewrite Hk.
  - apply _activate_cancel_status_frame. apply flags_ext, caught_ok_reg.
Qed.

Lemma _close_caught leaves rebuild fuel now k t exc w r w' :
  inv w -> running w t -> caught_ok None w ->
  _close leaves rebuild fuel now k t exc w = (r, w') -> r ≠ OutOfFuel ->
  caught_ok None w'.
Proof.
  intros Hinv (Ht & Hq & Habort) HJ Hrun Hr. unfold _close in Hrun.
  unfold bind at 1, gets at 1 in Hrun.
  destruct (_cancel_status (scope w k)) as [s|] eqn:Hcs; [|by injection Hrun as <- <-].
  destruct (tw_link _ (proj1 Hinv) k s Hcs) as [Hsk Hs].
  assert (k < length (scopes w))%nat as Hk by (apply scope_valid; left; by rewrite Hcs).
  unfold bind at 1, gets at 1 in Hrun. unfold bind at 1, gets at 1 in Hrun.
  unfold bind at 1 in Hrun.
  set (go_m := if decide (Task_cancel_status (task w t) = Some s) then _ else _) in Hrun.
  destruct (go_m w) as [rg wg] eqn:Hgo.
  assert (rg ≠ OutOfFuel) as Hrg by (intros ->; by injection Hrun as <- <-).
  assert (∀ p, _parent (status w s) = p ->
            ∃ wa, _activate_cancel_status t p w = (Ok tt, wa) ∧ inv wa ∧
                  scopes wa = scopes w ∧ length (statuses wa) = length (statuses w)) as Hact.
  { intros p Hp.
    destruct (_activate_cancel_status_inv t p w Hinv Ht Habort) as (wa & Hrun_a & Hinva & Hf).
    - intros p' ->. by eapply parent_valid; [apply Hinv|].
    - exists wa. split; [done|]. split; [done|]. by destruct Hf. }
  assert ((∃ g, rg = Ok g) ∧ inv wg ∧ scopes wg = scopes w
          ∧ length (statuses wg) = length (statuses w)) as ([g ->] & Hinvg & Hscg & Hleng).
  { unfold go_m in Hgo. destruct (decide (Task_cancel_status (task w t) = Some s)).
    - destruct (Hact _ eq_refl) as (wa & Hrun_a & Hinva & ? & ?).
      unfold bind in Hgo. rewrite Hrun_a in Hgo. injection Hgo as <- <-.
      split; [by eexists|done].
    - unfold bind at 1, gets at 1 in Hgo.
      destruct (abandoned_by_misnesting (status w s)).
      { injection Hgo as <- <-. split; [by eexists|done]. }
      unfold bind at 1, gets at 1, id in Hgo.
      destruct (encloses fuel w s (Task_cancel_status (task w t))) as [[]|e|] eqn:Henc.
      + destruct (Hact _ eq_refl) as (wa & Hrun_a & Hinva & ? & ?).
        unfold bind in Hgo. rewrite Hrun_a in Hgo. injection Hgo as <- <-.
        split; [by eexists|done].
      + injection Hgo as <- <-. split; [by eexists|done].
      + by apply encloses_no_raise in Henc.
      + by injection Hgo as <- <-. }
  clear Hgo go_m Hact.
  assert (caught_ok None wg) as HJg.
  { apply (caught_ok_reg None w); [done|]. intros x. by rewrite (scope_same_scopes w wg). }
  destruct g as [exc1|]; [|by injection Hrun as <- <-].
  unfold bind at 1, gets at 1, id in Hrun. unfold bind at 1 in Hrun.
  set (filt := match exc1 with Some e => _ | None => _ end) in Hrun.
  destruct (filt wg) as [rf wf] eqn:Hfilt.
  assert ((∃ x, rf = Ok x) ∧ inv wf ∧ length (statuses wf) = length (statuses wg) ∧
          length (scopes wf) = length (scopes wg) ∧ caught_ok (Some k) wf)
    as ([exc2 ->] & Hinvf & Hlenf & Hlenscf & HJf).
  { assert (caught_ok (Some k) wg) as Hweak.
    { intros x Hx. destruct (HJg x Hx) as (? & ? & Hst). split_and!; try done.
      intros _. by apply Hst. }
    unfold filt in Hfilt. destruct exc1 as [e|]; [|injection Hfilt as <- <-; eauto 10].
    destruct (effectively_cancelled (status wg s)
              && negb (parent_cancellation_is_visible_to_us wg s)) eqn:Hown;
      [|injection Hfilt as <- <-; eauto 10].
    unfold MultiError_filter, bind at 1 in Hfilt.
    destruct (map_m_exc_filter_correct k (leaves e) wg) as (rs & wh & Hmap & Hcf).
    rewrite Hmap in Hfilt. injection Hfilt as <- <-.
    split; [by eexists|]. split; [by eapply inv_caught_frame|].
    split; [by rewrite (gf_statuses _ _ Hcf)|].
    rewrite map_m_exc_filter_run in Hmap. injection Hmap as _ Hwh.
    destruct (existsb is_cancelled (leaves e)); [|by subst wh].
    subst wh. split; [unfold_world; simpl; by rewrite length_insert|].
    assert (_cancel_status (scope wg k) = Some s) as Hcsg
      by (by rewrite (scope_same_scopes w wg)).
    destruct (tw_link _ (proj1 Hinvg) k s Hcsg) as [Hskg Hsg].
    assert (attached wg s) as Hatt by (unfold attached; by rewrite Hskg).
    pose proof (proj2 Hinvg s Hatt) as Heq. unfold equation_holds, expected in Heq.
    rewrite Hskg in Heq.
    assert (_cancel_called (scope wg k) = true) as Hcalled.
    { apply andb_true_iff in Hown as [Heff Hvis]. apply negb_true_iff in Hvis.
      rewrite Heff, Hvis, orb_false_r in Heq. done. }
    assert (_has_been_entered (scope wg k) = true) as Hentered.
    { apply (tw_entered _ (proj1 Hinvg)). by rewrite Hcsg. }
    intros x. rewrite scope_update_scope by (by rewrite Hscg).
    destruct (decide (x = k)) as [->|Hne]; [|apply Hweak].
    intros _. simpl. split_and!; try done. }
  clear Hfilt filt.
  unfold bind at 1 in Hrun.
  destruct (close fuel now s wf) as [rc wc] eqn:Hclose.
  assert (rc ≠ OutOfFuel) as Hrc by (intros ->; by injection Hrun as <- <-).
  destruct (close_correct fuel now s wf rc wc Hinvf)
    with (2 := Hclose) as (-> & Hwfc & Hcf & _); [by rewrite Hlenf, Hleng|done|].
  pose proof (close_flags (caught_ok (Some k)) (caught_ok_reg (Some k))
                (caught_ok_update (Some k)) fuel now s wf (Ok tt) wc HJf Hclose Hrc) as HJc.
  unfold bind at 1 in Hrun.
  destruct (_might_change_registered_deadline fuel k _ wc) as [rm wm] eqn:Hmc.
  destruct (might_change_modify_correct _ _ _ _ _ _ Hmc) as (-> & [F1 F2 F3 F4 F5 F6] & _).
  { intros ->. by injection Hrun as <- <-. }
  injection Hrun as <- <-.
  apply (caught_ok_reg None (update_scope k (set_cancel_status None) wc)); [|done].
  assert (k < length (scopes wc))%nat as Hkc
    by (by rewrite (cf_scopes_len _ _ Hcf), Hlenscf, Hscg).
  intros x. rewrite scope_update_scope by done.
  destruct (decide (x = k)) as [->|Hne].
  - simpl. intros Hx. destruct (HJc k Hx) as (? & ? & _). done.
  - intros Hx. destruct (HJc x Hx) as (? & ? & Hst). split_and!; try done.
    intros _. apply Hst. congruence.
Qed.

Lemma run_caught fuel o w r w' :
  inv w -> enabled w o -> caught_ok None w -> run fuel o w = (r, w') -> r ≠ OutOfFuel ->
  caught_ok None w'.
Proof.
  intros Hinv Hen HJ Hrun Hr.
  pose proof (flags_ext (caught_ok None) (caught_ok_reg None)) as Hext.
  pose proof (caught_ok_reg None) as Hreg. pose proof (caught_ok_update None) as Hupd.
  destruct o; simpl in Hrun, Hen.
  - unfold CancelScope_new, bind, gets, modify, ret in Hrun. injection Hrun as <- <-.
    intros x. rewrite scope_with_scopes_app.
    destruct (decide (x = length (scopes w))); [done|apply HJ].
  - by apply (__enter___caught fuel self t now w r w').
  - destruct Hen as [_ Hrunning]. unfold bind in Hrun.
    destruct (_close leaves rebuild fuel now self t exc w) as [r1 w1] eqn:Hclose.
    assert (r1 ≠ OutOfFuel) as Hr1 by (intros ->; by injection Hrun as <- <-).
    pose proof (_close_caught _ _ _ _ _ _ _ _ _ _ Hinv Hrunning HJ Hclose Hr1).
    by destruct r1; injection Hrun as <- <-.
  - by apply (cancel_flags (caught_ok None) Hreg Hupd fuel now self w r w').
  - by apply (deadline_setter_flags (caught_ok None) Hreg Hupd fuel self new_deadline w r w').
  - by apply (shield_setter_flags (caught_ok None) Hreg Hupd fuel now self new_value w r w').
  - unfold bind in Hrun. destruct (cancel_called fuel self now w) as [r1 w1] eqn:Hcc.
    assert (r1 ≠ OutOfFuel) as Hr1 by (intros ->; by injection Hrun as <- <-).
    pose proof (cancel_called_flags (caught_ok None) Hreg Hupd fuel self now w r1 w1 HJ Hcc Hr1).
    by destruct r1; injection Hrun as <- <-.
  - by apply (spawn_impl_frame (caught_ok None) Hext cancel_status w r w').
  - by apply (_activate_cancel_status_frame (caught_ok None) Hext t None w r w').
  - by apply (wait_task_rescheduled_frame (caught_ok None) Hext t abort_func w r w').
  - unfold modify in Hrun. injection Hrun as <- <-. by apply (Hext w).
  - unfold bind in Hrun. destruct (expire fuel now w) as [r1 w1] eqn:Hexp.
    assert (r1 ≠ OutOfFuel) as Hr1 by (intros ->; by injection Hrun as <- <-).
    pose proof (expire_flags (caught_ok None) Hreg Hupd fuel now w r1 w1 HJ Hexp Hr1).
    by destruct r1; injection Hrun as <- <-.
  - unfold bind in Hrun. destruct (Deadlines_next_deadline fuel w) as [r1 w1] eqn:Hnd.
    assert (r1 ≠ OutOfFuel) as Hr1 by (intros ->; by injection Hrun as <- <-).
    pose proof (Deadlines_next_deadline_flags (caught_ok None) Hreg fuel w r1 w1 HJ Hnd Hr1).
    by destruct r1; injection Hrun as <- <-.
Qed.

(** In every reachable world a scope with [cancelled_caught] set has
    [cancel_called] set, has been entered and has exited: a scope records a
    caught cancellation only on its way out, and only if it was cancelled
    itself. *)
Theorem cancelled_caught_only_when_cancelled (w : world) (k : nat) :
  reachable w -> cancelled_caught (scope w k) = true ->
  _cancel_called (scope w k) = true ∧ _has_been_entered (scope w k) = true ∧
  _cancel_status (scope w k) = None.
Proof.
  intros Hreach. assert (caught_ok None w) as HJ.
  { induction Hreach as [guest|w o fuel r w' Hreach IH Hen Hrun Hr].
    - intros [|x]; simpl; done.
    - by apply (run_caught fuel o w r w' (reachable_inv w Hreach)). }
  intros Hc. destruct (HJ k Hc) as (? & ? & Hst). split_and!; try done. by apply Hst.
Qed.

(** *** Cancellation reaches every parked task *)

(** No task waits with an abort function that was not tried while its
    cancel status is effectively cancelled. *)
Definition delivered (w : world) : Prop :=
  ∀ t s, _abort_func (task w t) ≠ None -> Task_cancel_status (task w t) = Some s ->
         effectively_cancelled (status w s) = false.

(** What the delivery rests on: tasks and statuses agree about who is under
    whom, parked tasks are not scheduled, and parents are allocated. *)
Definition linked (w : world) : Prop :=
  (∀ t s, Task_cancel_status (task w t) = Some s -> t ∈ _tasks (status w s)) ∧
  (∀ s t, t ∈ _tasks (status w s) -> Task_cancel_status (task w t) = Some s).

Definition parents_valid (w : world) : Prop :=
  ∀ c p, _parent (status w c) = Some p -> (p < length (statuses w))%nat.

Definition parked_ok (w : world) : Prop :=
  linked w ∧ tasks_ok w ∧ parents_valid w ∧ delivered w.

(** The same, in a world with at least [n] statuses and [m] tasks. *)
Definition parked_at (n m : nat) (w : world) : Prop :=
  parked_ok w ∧ (n <= length (statuses w))%nat ∧ (m <= length (tasks w))%nat.

Lemma parked_ok_ext w w' :
  parked_ok w -> statuses w' = statuses w -> tasks w' = tasks w -> runq w' = runq w ->
  parked_ok w'.
Proof.
  intros (Hl & Hok & Hp & Hd) Hst Htk Hq.
  assert (∀ x, status w' x = status w x) as Hst' by (intros; by apply status_same_statuses).
  assert (∀ x, task w' x = task w x) as Htk' by (intros; by apply task_same_tasks).
  split_and!.
  - split; intros a b; rewrite ?Hst', ?Htk'; apply Hl.
  - by apply (tasks_ok_same_tasks w).
  - intros c p. rewrite Hst', Hst. apply Hp.
  - intros t s. rewrite Hst', !Htk'. apply Hd.
Qed.

Lemma parked_ok_delivery_frame w w' :
  parked_ok w -> delivery_frame w w' -> tasks_ok w' -> parked_ok w'.
Proof.
  intros (Hl & _ & Hp & Hd) [F1 F2 F3 F4 F5 F6 F7] Hok.
  assert (∀ x, status w' x = status w x) as Hst' by (intros; by apply status_same_statuses).
  split_and!; [|done| |].
  - split; intros a b; rewrite ?Hst', ?F6; apply Hl.
  - intros c p. rewrite Hst', F2. apply Hp.
  - intros t s Ha. rewrite Hst', F6. apply Hd. rewrite <- (F7 t Ha). done.
Qed.

(** An assignment to a field of a status that does not move tasks, does
    not make a parent and does not cancel. *)
Lemma parked_ok_update_status w s f :
  (∀ st, _tasks (f st) = _tasks st) ->
  (∀ st, _parent (f st) = _parent st ∨ _parent (f st) = None) ->
  (∀ st, effectively_cancelled (f st) = true -> effectively_cancelled st = true) ->
  parked_ok w -> parked_ok (update_status s f w).
Proof.
  intros Htk Hpar Heff (Hl & Hok & Hp & Hd).
  pose proof (status_update_status_field _tasks w s f Htk) as Ht.
  assert (length (statuses (update_status s f w)) = length (statuses w)) as Hlen
    by (unfold_world; simpl; by rewrite length_insert).
  assert (∀ x, status (update_status s f w) x = status w x
               ∨ status (update_status s f w) x = f (status w x)) as Hcase.
  { intros x. destruct (decide (x = s)) as [->|Hne].
    - destruct (decide (s < length (statuses w))%nat).
      + right. rewrite status_update_status by done. by destruct (decide (s = s)).
      + left. unfold status. unfold_world. simpl. by rewrite list_insert_ge by lia.
    - left. by apply status_update_status_ne. }
  split_and!.
  - split; intros a b; rewrite Ht; apply Hl.
  - by apply (tasks_ok_same_tasks w).
  - intros c p. rewrite Hlen. destruct (Hcase c) as [->| ->]; [apply Hp|].
    destruct (Hpar (status w c)) as [-> | ->]; [apply Hp|done].
  - intros t x Ha Hx. change (task (update_status s f w) t) with (task w t) in *.
    specialize (Hd t x Ha Hx).
    destruct (Hcase x) as [->| ->]; [done|].
    destruct (effectively_cancelled (f (status w x))) eqn:E; [|done].
    apply Heff in E. congruence.
Qed.

(** A delivery that goes through clears the abort function. *)
Lemma deliver_clears w t s :
  tasks_ok w -> Task_cancel_status (task w t) = Some s ->
  effectively_cancelled (status w s) = true ->
  ∃ w', _attempt_delivery_of_any_pending_cancel t w = (Ok tt, w')
        ∧ delivery_frame w w' ∧ tasks_ok w' ∧ _abort_func (task w' t) = None.
Proof.
  intros Hok Hs Heff.
  destruct (deliver_correct w t Hok) as (w' & Hrun & Hf & Hok'); [by rewrite Hs|].
  exists w'. split; [done|]. split; [done|]. split; [done|].
  unfold _attempt_delivery_of_any_pending_cancel in Hrun. unfold bind at 1, gets at 1 in Hrun.
  destruct (_abort_func (task w t)) as [a|] eqn:Ha.
  2: { injection Hrun as <-. done. }
  rewrite Hs in Hrun. unfold bind at 1, gets at 1 in Hrun. rewrite Heff in Hrun.
  simpl in Hrun. unfold _attempt_abort in Hrun. unfold bind at 1, modify at 1 in Hrun.
  assert (t < length (tasks w))%nat as Ht by (eapply task_valid; left; by rewrite Ha).
  destruct a.
  - destruct (reschedule_correct (update_task t (set_abort_func None) w) t (Error Cancelled))
      as (w1 & Hr & _ & _ & Hnone & _).
    + by apply tasks_ok_clear_abort.
    + unfold_world. simpl. by rewrite length_insert.
    + change (runq (update_task _ _ w)) with (runq w). apply Hok. by rewrite Ha.
    + rewrite Hr in Hrun. by injection Hrun as <-.
  - injection Hrun as <-. rewrite task_update_task by done. by destruct (decide (t = t)).
Qed.


(** After a status was marked cancelled, the cancellation is delivered to
    each of its tasks. *)
Lemma deliver_all_parked cur : ∀ ts w,
  linked w -> tasks_ok w -> parents_valid w ->
  effectively_cancelled (status w cur) = true ->
  (∀ t, t ∈ ts -> Task_cancel_status (task w t) = Some cur) ->
  (∀ t s, _abort_func (task w t) ≠ None -> Task_cancel_status (task w t) = Some s ->
          effectively_cancelled (status w s) = true -> t ∈ ts) ->
  ∃ w', for_each ts _attempt_delivery_of_any_pending_cancel w = (Ok tt, w') ∧ parked_ok w' ∧
        statuses w' = statuses w ∧ length (tasks w') = length (tasks w).
Proof.
  induction ts as [|t ts IH]; intros w Hl Hok Hp Heff Hts Hrest; simpl.
  { exists w. split; [done|]. split; [|done]. split_and!; try done.
    intros t s Ha Hs. destruct (effectively_cancelled (status w s)) eqn:E; [|done].
    specialize (Hrest t s Ha Hs E). inversion Hrest. }
  destruct (deliver_clears w t cur Hok (Hts t ltac:(left)) Heff)
    as (w1 & Hrun1 & [F1 F2 F3 F4 F5 F6 F7] & Hok1 & Hnone).
  unfold bind. rewrite Hrun1.
  assert (∀ x, status w1 x = status w x) as Hst' by (intros; by apply status_same_statuses).
  rewrite <- F2, <- F5.
  apply IH; try done.
  - split; intros a b; rewrite ?Hst', ?F6; apply Hl.
  - intros c p. rewrite Hst', F2. apply Hp.
  - by rewrite Hst'.
  - intros x Hx. rewrite F6. apply Hts. by right.
  - intros x s Ha. rewrite F6, Hst'. intros Hs E.
    assert (x ∈ t :: ts) as Hin by (apply (Hrest x s); [by rewrite <- (F7 x Ha)|done|done]).
    apply elem_of_cons in Hin as [->|Hin]; [done|done].
Qed.

Lemma parked_at_weaken n m n' m' w :
  parked_at n m w -> (n' <= n)%nat -> (m' <= m)%nat -> parked_at n' m' w.
Proof. intros (? & ? & ?) ? ?. split; [done|]. lia. Qed.

Lemma parked_at_ext n m w w' :
  parked_at n m w -> statuses w' = statuses w -> tasks w' = tasks w -> runq w' = runq w ->
  parked_at n m w'.
Proof.
  intros (HP & ? & ?) Hst Htk Hq. split; [by apply (parked_ok_ext w)|]. by rewrite Hst, Htk.
Qed.

Lemma parked_at_delivery_frame n m w w' :
  parked_at n m w -> delivery_frame w w' -> tasks_ok w' -> parked_at n m w'.
Proof.
  intros (HP & ? & ?) Hf Hok. split; [by apply (parked_ok_delivery_frame w)|].
  destruct Hf as [F1 F2 F3 F4 F5 F6 F7]. by rewrite F2, F5.
Qed.

Lemma parked_at_update_status n m w s f :
  (∀ st, _tasks (f st) = _tasks st) ->
  (∀ st, _parent (f st) = _parent st ∨ _parent (f st) = None) ->
  (∀ st, effectively_cancelled (f st) = true -> effectively_cancelled st = true) ->
  parked_at n m w -> parked_at n m (update_status s f w).
Proof.
  intros H1 H2 H3 (HP & ? & ?). split; [by apply parked_ok_update_status|].
  unfold_world. simpl. by rewrite length_insert.
Qed.

Section Parked.
Variables n m : nat.

Lemma _attempt_delivery_parked t :
  leads_to (parked_at n m) (_attempt_delivery_of_any_pending_cancel t) (parked_at n m).
Proof.
  intros w r w' HP Hrun Hr.
  destruct (Task_cancel_status (task w t)) as [s|] eqn:Hs.
  - destruct (deliver_correct w t) as (w1 & Hrun1 & Hf & Hok); [apply HP|by rewrite Hs|].
    rewrite Hrun1 in Hrun. injection Hrun as <- <-. by eapply parked_at_delivery_frame.
  - unfold _attempt_delivery_of_any_pending_cancel, bind, gets in Hrun. rewrite Hs in Hrun.
    destruct (_abort_func (task w t)); by injection Hrun as <- <-.
Qed.
Lemma mark_and_deliver cur (b : bool) ts w r w' :
  parked_at n m w -> ts = _tasks (status w cur) ->
  (if b then for_each ts _attempt_delivery_of_any_pending_cancel else ret tt)
    (update_status cur (set_effectively_cancelled b) w) = (r, w') ->
  r = Ok tt ∧ parked_at n m w'.
Proof.
  intros HPn -> Hrun. pose proof HPn as (HP & Hn & Hm). pose proof HP as (Hl & Hok & Hp & Hd).
  set (w1 := update_status cur (set_effectively_cancelled b) w) in *.
  destruct b.
  2: { injection Hrun as <- <-. split; [done|]. apply parked_at_update_status; try done.
       intros st. by left. }
  destruct (decide (cur < length (statuses w))%nat) as [Hcur|Hcur].
  2: { assert (_tasks (status w cur) = []) as Hnil.
       { unfold status. rewrite lookup_ge_None_2 by lia. done. }
       rewrite Hnil in Hrun. injection Hrun as <- <-. split; [done|].
       apply (parked_at_ext n m w); try done. unfold w1. unfold_world. simpl.
       by rewrite list_insert_ge by lia. }
  assert (∀ x, status w1 x = if decide (x = cur) then set_effectively_cancelled true (status w cur)
                             else status w x) as Hst
    by (intros; by apply status_update_status).
  assert (∀ x, _tasks (status w1 x) = _tasks (status w x)) as Htk
    by (apply status_update_status_field; done).
  destruct (deliver_all_parked cur (_tasks (status w cur)) w1)
    as (w2 & Hrun2 & HP2 & Hst2 & Hlen2).
  - split; intros a c; rewrite Htk; apply Hl.
  - by apply (tasks_ok_same_tasks w).
  - intros c p. unfold w1. rewrite (status_update_status_field _parent) by done.
    unfold_world. simpl. rewrite length_insert. apply Hp.
  - rewrite Hst. by destruct (decide (cur = cur)).
  - intros t Ht. by apply Hl.
  - intros t s Ha Hs. rewrite Hst. destruct (decide (s = cur)) as [->|Hne].
    + intros _. by apply Hl.
    + intros E. by rewrite (Hd t s Ha Hs) in E.
  - rewrite Hrun2 in Hrun. injection Hrun as <- <-. split; [done|]. split; [done|].
    rewrite Hst2, Hlen2. unfold w1. unfold_world. simpl. by rewrite length_insert.
Qed.

Lemma registered_deadline_update_parked fuel k :
  leads_to (parked_at n m) (registered_deadline_update fuel k) (parked_at n m).
Proof.
  intros w r w' HP Hrun Hr.
  destruct (registered_deadline_update_correct fuel k w False (fun H => False_ind _ H)
              w r w' eq_refl Hrun Hr) as (a & _ & [F1 F2 F3 F4 F5 F6] & _).
  by apply (parked_at_ext n m w).
Qed.

Ltac keep_parked :=
  repeat first
    [ keep_step
    | apply leads_to_modify; intros ? ?; eapply (parked_at_ext n m);
        [eassumption|reflexivity|reflexivity|reflexivity]
    | apply leads_to_modify; intros ? ?; apply parked_at_update_status;
        [done|intros ?; by left|done|assumption]
    | apply leads_to_modify; intros ? ?; apply parked_at_update_status;
        [done|intros ?; by right|done|assumption]
    | apply _attempt_delivery_parked
    | apply registered_deadline_update_parked
    | solve [eauto] ].

Lemma might_change_parked {A} fuel k (body : M world A) :
  leads_to (parked_at n m) body (parked_at n m) ->
  leads_to (parked_at n m) (_might_change_registered_deadline fuel k body) (parked_at n m).
Proof. intros Hb. eapply leads_to_might_change; [done|apply registered_deadline_update_parked]. Qed.

Lemma cancel_with_parked recalculate fuel k :
  (∀ s, leads_to (parked_at n m) (recalculate s) (parked_at n m)) ->
  leads_to (parked_at n m) (cancel_with recalculate fuel k) (parked_at n m).
Proof. intros Hrec. unfold cancel_with. keep_parked. apply might_change_parked. keep_parked. Qed.

Lemma cancel_called_with_parked recalculate fuel k now :
  (∀ s, leads_to (parked_at n m) (recalculate s) (parked_at n m)) ->
  leads_to (parked_at n m) (cancel_called_with recalculate fuel k now) (parked_at n m).
Proof. intros Hrec. unfold cancel_called_with. keep_parked. by apply cancel_with_parked. Qed.

Lemma recalculate_loop_parked fuel now : ∀ todo,
  leads_to (parked_at n m) (recalculate_loop fuel now todo) (parked_at n m).
Proof.
  induction fuel as [|fuel IH]; intros [|current todo]; simpl;
    [apply leads_to_ret|apply leads_to_out_of_fuel|apply leads_to_ret|].
  apply leads_to_keep; [apply leads_to_gets|intros k].
  apply leads_to_keep; [apply cancel_called_with_parked; intros s; apply IH|intros called].
  apply leads_to_gets_bind. intros w0 w r w' [HP Hid] Hrun Hr. unfold id in Hid. subst w0.
  destruct (Bool.eqb _ _); [by eapply IH|].
  unfold bind at 1, modify at 1, bind at 1 in Hrun.
  set (new_state := _ || _) in Hrun.
  destruct ((if new_state
             then for_each (_tasks (status w current)) _attempt_delivery_of_any_pending_cancel
             else ret tt)
              (update_status current (set_effectively_cancelled new_state) w))
    as [r1 w1] eqn:Hdel.
  destruct (mark_and_deliver current new_state _ w r1 w1 HP eq_refl Hdel) as [-> HP1].
  by eapply IH.
Qed.

Lemma recalculate_parked fuel now s : leads_to (parked_at n m) (recalculate fuel now s) (parked_at n m).
Proof. apply recalculate_loop_parked. Qed.

Lemma cancel_parked fuel now k : leads_to (parked_at n m) (cancel fuel now k) (parked_at n m).
Proof. apply cancel_with_parked, recalculate_parked. Qed.

Lemma cancel_called_parked fuel k now : leads_to (parked_at n m) (cancel_called fuel k now) (parked_at n m).
Proof. apply cancel_called_with_parked, recalculate_parked. Qed.

Lemma deadline_setter_parked fuel k d : leads_to (parked_at n m) (deadline_setter fuel k d) (parked_at n m).
Proof. unfold deadline_setter. apply might_change_parked. keep_parked. Qed.

Lemma shield_setter_parked fuel now k b :
  leads_to (parked_at n m) (shield_setter fuel now k b) (parked_at n m).
Proof. unfold shield_setter. keep_parked. apply recalculate_parked. Qed.

Lemma Deadlines_next_deadline_parked fuel :
  leads_to (parked_at n m) (Deadlines_next_deadline fuel) (parked_at n m).
Proof.
  intros w r w' HI Hrun Hr.
  destruct (next_deadline_correct fuel w r w' Hrun Hr) as (_ & [F1 F2 F3 F4 F5 F6] & _).
  by apply (parked_at_ext n m w).
Qed.

Lemma expire_loop_parked fuel now : ∀ did_something,
  leads_to (parked_at n m) (expire_loop fuel now did_something) (parked_at n m).
Proof.
  induction fuel as [|fuel IH]; intros did_something; simpl; unfold heappop; keep_parked;
    apply cancel_parked.
Qed.

Lemma expire_parked fuel now : leads_to (parked_at n m) (expire fuel now) (parked_at n m).
Proof.
  unfold expire, Deadlines_prune. keep_parked; apply expire_loop_parked.
Qed.

Lemma _mark_abandoned_parked fuel : ∀ s, leads_to (parked_at n m) (_mark_abandoned fuel s) (parked_at n m).
Proof. induction fuel as [|fuel IH]; intros s; simpl; keep_parked. Qed.

(** [_activate_cancel_status] moves the task and, if it lands under a
    cancelled status, delivers the cancellation to it. *)
Lemma _activate_cancel_status_parked t cs :
  (t < m)%nat -> (∀ s, cs = Some s -> (s < n)%nat) ->
  leads_to (parked_at n m) (_activate_cancel_status t cs) (parked_at n m).
Proof.
  intros Htm Hcsn w r w' (HP & Hn & Hm) Hrun Hr. pose proof HP as (Hl & Hok & Hp & Hd).
  assert (t < length (tasks w))%nat as Ht by lia.
  assert (∀ s, cs = Some s -> (s < length (statuses w))%nat) as Hcs
    by (intros s Hs; specialize (Hcsn s Hs); lia).
  assert (∀ wx, parked_ok wx -> length (statuses wx) = length (statuses w) ->
                length (tasks wx) = length (tasks w) -> parked_at n m wx) as Hpack.
  { intros wx ? Hsx Htx. split; [done|]. by rewrite Hsx, Htx. }
  unfold _activate_cancel_status in Hrun.
  unfold bind at 1, gets at 1 in Hrun. unfold bind at 1 in Hrun.
  set (w1 := match Task_cancel_status (task w t) with
             | Some s0 => update_status s0 (set_tasks (remove t (_tasks (status w s0)))) w
             | None => w
             end).
  assert (match Task_cancel_status (task w t) with
          | Some s =>
              (ts <- gets (fun w0 => _tasks (status w0 s));;
               if mem t ts then modify (update_status s (set_tasks (remove t ts)))
               else raise KeyError)%monad
          | None => ret tt
          end w = (Ok tt, w1)) as H1.
  { unfold w1. destruct (Task_cancel_status (task w t)) as [s0|] eqn:Hs0; [|done].
    unfold bind, gets. by rewrite (proj2 (mem_elem_of t _) (proj1 Hl t s0 Hs0)). }
  rewrite H1 in Hrun. clear H1. unfold bind at 1, modify at 1 in Hrun.
  set (w2 := update_task t (set_Task_cancel_status cs) w1) in Hrun.
  assert (∀ {A} (proj : CancelStatus -> A), (∀ l st, proj (set_tasks l st) = proj st) ->
            ∀ x, proj (status w1 x) = proj (status w x)) as Hfield1.
  { intros A proj Hproj x. unfold w1. destruct (Task_cancel_status (task w t)); [|done].
    by apply status_update_status_field. }
  assert (length (statuses w1) = length (statuses w)) as Hlen1.
  { unfold w1. destruct (Task_cancel_status (task w t)); [|done].
    unfold_world. simpl. by rewrite length_insert. }
  assert (∀ x, _tasks (status w1 x)
               = if decide (Task_cancel_status (task w t) = Some x)
                 then remove t (_tasks (status w x)) else _tasks (status w x)) as Htk1.
  { intros x. unfold w1. destruct (Task_cancel_status (task w t)) as [s0|] eqn:Hs0.
    - rewrite status_update_status.
      + destruct (decide (x = s0)) as [->|Hne].
        * by destruct (decide (Some s0 = Some s0)).
        * by destruct (decide (Some s0 = Some x)) as [[=]|]; [congruence|].
      + apply status_valid. right. right. left. intros Hnil.
        pose proof (proj1 Hl t s0 Hs0) as Hin. rewrite Hnil in Hin. inversion Hin.
    - by destruct (decide (None = Some x)). }
  assert (tasks w1 = tasks w ∧ runq w1 = runq w) as [Htks1 Hq1]
    by (unfold w1; by destruct (Task_cancel_status (task w t))).
  assert (∀ u, task w2 u = if decide (u = t) then set_Task_cancel_status cs (task w t)
                           else task w u) as Htk2.
  { intros u. unfold w2. rewrite task_update_task by (by rewrite Htks1).
    by rewrite !(task_same_tasks w w1). }
  assert (∀ u, _abort_func (task w2 u) = _abort_func (task w u)) as Hab2.
  { intros u. rewrite Htk2. by destruct (decide (u = t)) as [->|]. }
  assert (tasks_ok w2) as Hok2.
  { apply (tasks_ok_ext w); [done| | |].
    - intros u. by rewrite Hab2.
    - intros u. change (runq w2) with (runq w1). by rewrite Hq1.
    - unfold w2. unfold_world. simpl. rewrite length_insert, Htks1. lia. }
  assert (parents_valid w2) as Hp2.
  { intros c p. change (status w2 c) with (status w1 c).
    change (statuses w2) with (statuses w1). rewrite (Hfield1 _ _parent), Hlen1 by done.
    apply Hp. }
  assert (∀ x, effectively_cancelled (status w2 x) = effectively_cancelled (status w x)) as Heff2.
  { intros x. change (status w2 x) with (status w1 x). by apply Hfield1. }
  (* the tasks of the statuses, before the task is added to its new one *)
  assert (∀ x u, u ∈ _tasks (status w2 x)
                 ↔ u ≠ t ∧ Task_cancel_status (task w u) = Some x) as Hmem2.
  { intros x u. change (status w2 x) with (status w1 x). rewrite Htk1.
    destruct (decide (Task_cancel_status (task w t) = Some x)) as [Hx|Hx].
    - rewrite elem_of_remove. split.
      + intros [Hin Hne]. split; [done|]. by apply Hl.
      + intros [Hne Hu]. split; [by apply Hl|done].
    - split.
      + intros Hin. apply Hl in Hin. split; [|done]. intros ->. congruence.
      + intros [_ Hu]. by apply Hl. }
  assert (length (statuses w2) = length (statuses w)) as Hlens2 by done.
  assert (length (tasks w2) = length (tasks w)) as Hlent2.
  { unfold w2. unfold_world. simpl. by rewrite length_insert, Htks1. }
  destruct cs as [s|].
  2: { injection Hrun as <- <-. apply Hpack; [|done|done]. split_and!; try done.
       - split.
         + intros u x. rewrite Htk2, Hmem2. destruct (decide (u = t)) as [->|]; [done|].
           by intros Hu.
         + intros x u. rewrite Htk2, Hmem2. intros [Hne Hu]. by destruct (decide (u = t)).
       - intros u x. rewrite Hab2, Htk2, Heff2. destruct (decide (u = t)) as [->|]; [done|].
         apply Hd. }
  specialize (Hcs s eq_refl).
  unfold bind at 1, modify at 1 in Hrun. unfold bind at 1, gets at 1 in Hrun.
  set (w3 := update_status s (set_tasks (add t (_tasks (status w2 s)))) w2) in Hrun.
  assert (s < length (statuses w2))%nat as Hs2
    by (change (statuses w2) with (statuses w1); by rewrite Hlen1).
  assert (∀ x, status w3 x = if decide (x = s)
                             then set_tasks (add t (_tasks (status w2 s))) (status w2 s)
                             else status w2 x) as Hst3
    by (intros; by apply status_update_status).
  assert (∀ x, effectively_cancelled (status w3 x) = effectively_cancelled (status w x)) as Heff3.
  { intros x. rewrite Hst3. destruct (decide (x = s)) as [->|]; [|done]. simpl. apply Heff2. }
  assert (length (statuses w3) = length (statuses w)) as Hlens3.
  { unfold w3. unfold_world. simpl. by rewrite length_insert. }
  assert (linked w3) as Hl3.
  { assert (∀ x u, u ∈ _tasks (status w3 x) ↔ Task_cancel_status (task w2 u) = Some x) as Hmem3.
    { intros x u. rewrite Hst3, Htk2. destruct (decide (x = s)) as [->|Hne]; simpl.
      - rewrite elem_of_add, Hmem2. destruct (decide (u = t)) as [->|Hut]; simpl.
        + split; [done|]. intros _. by right.
        + split; [by intros [[_ ?]|?]|]. intros Hu. by left.
      - rewrite Hmem2. destruct (decide (u = t)) as [->|Hut]; simpl.
        + split; [by intros [? _]|]. intros [= ?]. congruence.
        + split; [by intros [_ ?]|done]. }
    split; [intros a b Hab; by apply Hmem3|intros a b Hab; by apply Hmem3 in Hab]. }
  assert (tasks_ok w3) as Hok3 by (by apply (tasks_ok_same_tasks w2)).
  assert (parents_valid w3) as Hp3.
  { intros c p. unfold w3. rewrite (status_update_status_field _parent) by done.
    unfold_world. simpl. rewrite length_insert. apply Hp2. }
  assert (∀ u x, u ≠ t -> _abort_func (task w3 u) ≠ None ->
                 Task_cancel_status (task w3 u) = Some x ->
                 effectively_cancelled (status w3 x) = false) as Hd3.
  { intros u x Hne. change (task w3 u) with (task w2 u). rewrite Hab2, Htk2, Heff3.
    destruct (decide (u = t)); [done|]. apply Hd. }
  assert (Task_cancel_status (task w3 t) = Some s) as Hts3.
  { change (task w3 t) with (task w2 t). rewrite Htk2. by destruct (decide (t = t)). }
  destruct (effectively_cancelled (status w3 s)) eqn:Heffs.
  - destruct (deliver_clears w3 t s Hok3 Hts3 Heffs)
      as (w4 & Hrun4 & [F1 F2 F3 F4 F5 F6 F7] & Hok4 & Hnone).
    rewrite Hrun4 in Hrun. injection Hrun as <- <-.
    assert (∀ x, status w4 x = status w3 x) as Hst4
      by (intros; by apply status_same_statuses).
    apply Hpack; [|by rewrite F2, Hlens3|by rewrite F5].
    split_and!; try done.
    + split; intros a b; rewrite ?Hst4, ?F6; apply Hl3.
    + intros c p. rewrite Hst4, F2. apply Hp3.
    + intros u x Ha. rewrite F6, Hst4. destruct (decide (u = t)) as [->|Hne]; [congruence|].
      apply (Hd3 u x); [done|]. by rewrite <- (F7 u Ha).
  - injection Hrun as <- <-. apply Hpack; [|done|done]. split_and!; try done.
    intros u x Ha Hx. destruct (decide (u = t)) as [->|Hne]; [|by apply (Hd3 u x)].
    rewrite Hts3 in Hx. by injection Hx as <-.
Qed.

Lemma children_remove_parked p s : leads_to (parked_at n m) (children_remove p s) (parked_at n m).
Proof. unfold children_remove. keep_parked. Qed.

Lemma children_add_parked p s : leads_to (parked_at n m) (children_add p s) (parked_at n m).
Proof. unfold children_add. keep_parked. Qed.

Lemma parent_setter_None_parked fuel now s :
  leads_to (parked_at n m) (parent_setter fuel now s None) (parked_at n m).
Proof.
  unfold parent_setter.
  apply leads_to_keep; [apply leads_to_gets|intros old].
  apply leads_to_keep; [destruct old; [apply children_remove_parked|apply leads_to_ret]|intros []].
  apply leads_to_keep; [|intros []; apply leads_to_ret].
  apply leads_to_modify. intros w HP. apply parked_at_update_status; try done.
  intros st. by right.
Qed.

Lemma close_parked fuel now s : leads_to (parked_at n m) (close fuel now s) (parked_at n m).
Proof.
  unfold close.
  apply leads_to_keep; [apply parent_setter_None_parked|intros []].
  apply leads_to_gets_bind. intros st w r w' [HP Hst] Hrun Hr.
  destruct (negb (is_empty (_tasks st)) || negb (is_empty (_children st)));
    [|by injection Hrun as <- <-].
  unfold bind at 1 in Hrun.
  destruct (_mark_abandoned fuel s w) as [r3 w3] eqn:Hmark.
  assert (r3 ≠ OutOfFuel) as Hr3 by (intros ->; by injection Hrun as <- <-).
  destruct (_mark_abandoned_correct fuel s w r3 w3 Hmark Hr3) as [-> Hf3].
  pose proof (_mark_abandoned_parked fuel s w (Ok tt) w3 HP Hmark Hr3) as HP3.
  unfold bind at 1, modify at 1, bind at 1 in Hrun.
  destruct (for_each (_tasks st) _attempt_delivery_of_any_pending_cancel
              (update_status s (set_effectively_cancelled true) w3)) as [r5 w5] eqn:Hdel.
  destruct (mark_and_deliver s true (_tasks st) w3 r5 w5 HP3) with (2 := Hdel) as [-> HP5].
  { subst st. symmetry. by apply (flags_frame_field _tasks w w3). }
  eapply (leads_to_for_each (parked_at n m)); [|exact HP5|exact Hrun|done].
  intros c. apply recalculate_parked.
Qed.

Lemma reschedule_parked t o :
  (t < m)%nat -> leads_to (parked_at n m) (reschedule t o) (parked_at n m).
Proof.
  intros Ht w r w' HP Hrun Hr. destruct (mem t (runq w).*1) eqn:Hm.
  - unfold reschedule, bind, gets, assert in Hrun. rewrite Hm in Hrun. simpl in Hrun.
    by injection Hrun as <- <-.
  - destruct (reschedule_correct w t o) as (w1 & Hrun1 & Hf & Hok & _).
    + apply HP.
    + destruct HP as (_ & _ & ?). lia.
    + intros Hin. apply mem_elem_of in Hin. congruence.
    + rewrite Hrun1 in Hrun. injection Hrun as <- <-. by eapply parked_at_delivery_frame.
Qed.

End Parked.

Lemma parked_at_here w : parked_ok w -> parked_at (length (statuses w)) (length (tasks w)) w.
Proof. intros HP. split; [done|lia]. Qed.

Lemma task_status_valid w t s :
  linked w -> Task_cancel_status (task w t) = Some s -> (s < length (statuses w))%nat.
Proof.
  intros Hl Hs. apply status_valid. right. right. left. intros Hnil.
  pose proof (proj1 Hl t s Hs) as Hin. rewrite Hnil in Hin. inversion Hin.
Qed.

(** A new status under an allocated parent. *)
Lemma CancelStatus_new_parked n m fuel now k parent w r w' :
  parked_at n m w -> (∀ p, parent = Some p -> (p < n)%nat) ->
  CancelStatus_new fuel now k parent w = (r, w') -> r ≠ OutOfFuel ->
  parked_at n m w' ∧ ∀ s, r = Ok s -> parked_at (S s) m w'.
Proof.
  intros (HP & Hn & Hm) Hpn Hrun Hr. pose proof HP as (Hl & Hok & Hp & Hd).
  unfold CancelStatus_new in Hrun.
  unfold bind at 1, gets at 1, bind at 1, modify at 1 in Hrun.
  set (s := length (statuses w)) in *.
  set (w1 := with_statuses (fun l => l ++ [mkStatus k false parent [] [] false]) w) in *.
  assert (∀ x, status w1 x = if decide (x = s) then mkStatus k false parent [] [] false
                             else status w x) as Hst1
    by (intros; apply status_with_statuses_app).
  assert (∀ {A} (proj : CancelStatus -> A) (d : A),
            proj (mkStatus k false parent [] [] false) = d ->
            proj (mkStatus 0 false None [] [] false) = d ->
            ∀ x, proj (status w1 x) = proj (status w x)) as Hfield1.
  { intros A proj d H1 H2 x. rewrite Hst1. destruct (decide (x = s)) as [->|]; [|done].
    rewrite status_invalid by (unfold s; lia). congruence. }
  assert (length (statuses w1) = S s) as Hlen1.
  { unfold w1. simpl. rewrite length_app. simpl. unfold s. lia. }
  assert (parked_at (S s) m w1) as HP1.
  { split; [|split; [lia|done]]. split_and!.
    - split; intros a b; rewrite (Hfield1 _ _tasks []) by done; apply Hl.
    - by apply (tasks_ok_same_tasks w).
    - intros c q. rewrite Hlen1, Hst1. destruct (decide (c = s)).
      + simpl. intros Hq. specialize (Hpn q Hq). unfold s. lia.
      + intros Hq. specialize (Hp c q Hq). unfold s. lia.
    - intros t x. change (task w1 t) with (task w t).
      rewrite (Hfield1 _ effectively_cancelled false) by done. apply Hd. }
  unfold bind at 1 in Hrun.
  destruct (match parent with
            | Some p => (children_add p s;;; recalculate fuel now s)%monad
            | None => ret tt
            end w1) as [r2 w2] eqn:Hbody.
  assert (r2 ≠ OutOfFuel) as Hr2 by (intros ->; by injection Hrun as <- <-).
  assert (parked_at (S s) m w2) as HP2.
  { destruct parent as [p|].
    - refine (leads_to_keep (parked_at (S s) m) _ _ _ _ w1 r2 w2 HP1 Hbody Hr2).
      + apply children_add_parked.
      + intros []. apply recalculate_parked.
    - by injection Hbody as <- <-. }
  assert (parked_at n m w2) as HP2' by (apply (parked_at_weaken (S s) m); [done|lia|done]).
  destruct r2 as [[]|e|]; [|by injection Hrun as <- <-|done].
  injection Hrun as <- <-. split; [done|]. by intros s' [= <-].
Qed.

(** Entering a scope: the new status hangs under the task's status, and the
    task moves under it with a delivery attempt. *)
Lemma __enter___parked m fuel k t now :
  (t < m)%nat -> leads_to (parked_at 0 m) (__enter__ fuel k t now) (parked_at 0 m).
Proof.
  intros Ht. unfold __enter__.
  apply leads_to_keep; [apply leads_to_gets|]. intros entered.
  destruct entered; [apply leads_to_raise|].
  apply leads_to_keep.
  { apply leads_to_modify. intros w HP. by apply (parked_at_ext 0 m w). }
  intros []. apply leads_to_keep; [apply leads_to_gets|]. intros deadline.
  apply leads_to_keep.
  { destruct (time_le _ _); [apply cancel_parked|apply leads_to_ret]. }
  intros []. apply might_change_parked.
  intros w r w' HP Hrun Hr.
  unfold bind at 1, gets at 1 in Hrun.
  set (parent := Task_cancel_status (task w t)) in *.
  unfold bind at 1 in Hrun.
  destruct (CancelStatus_new fuel now k parent w) as [r1 w1] eqn:Hnew.
  assert (r1 ≠ OutOfFuel) as Hr1 by (intros ->; by injection Hrun as <- <-).
  destruct (CancelStatus_new_parked (length (statuses w)) m fuel now k parent w r1 w1)
    as [HP1 HS]; try done.
  { split; [apply HP|]. split; [lia|apply HP]. }
  { intros p Hp. eapply task_status_valid; [apply HP|exact Hp]. }
  destruct r1 as [s|e|]; [| |done].
  2: { injection Hrun as <- <-. apply (parked_at_weaken _ _ _ _ _ HP1); lia. }
  specialize (HS s eq_refl).
  apply (parked_at_weaken (S s) m); [|lia|lia].
  refine (leads_to_keep (parked_at (S s) m) _ _ _ _ w1 r w' HS Hrun Hr).
  - apply leads_to_modify. intros w2 HP2. by apply (parked_at_ext _ _ w2).
  - intros []. apply _activate_cancel_status_parked; [done|]. intros s' [= <-]. lia.
Qed.

Lemma map_m_exc_filter_parked n m k es :
  leads_to (parked_at n m) (map_m (_exc_filter k) es) (parked_at n m).
Proof.
  intros w r w' HP Hrun Hr.
  destruct (map_m_exc_filter_correct k es w) as (rs & w1 & Hrun1 & [F1 F2 F3 _]).
  rewrite Hrun1 in Hrun. injection Hrun as <- <-. by apply (parked_at_ext n m w).
Qed.

(** Leaving a scope: the task moves back under the parent of the scope's
    status, with a delivery attempt, and the status is closed. *)
Lemma _close_parked n m leaves rebuild fuel now k t exc :
  (t < m)%nat ->
  leads_to (fun w => parked_at n m w ∧ length (statuses w) = n)
           (_close leaves rebuild fuel now k t exc) (parked_at n m).
Proof.
  intros Ht w r w' [HP Hlen] Hrun Hr. unfold _close in Hrun.
  unfold bind at 1, gets at 1 in Hrun.
  destruct (_cancel_status (scope w k)) as [s|]; [|by injection Hrun as <- <-].
  unfold bind at 1, gets at 1 in Hrun. unfold bind at 1, gets at 1 in Hrun.
  set (parent := _parent (status w s)) in *.
  set (task_status := Task_cancel_status (task w t)) in *.
  assert (leads_to (parked_at n m) (_activate_cancel_status t parent) (parked_at n m)) as Hact.
  { apply _activate_cancel_status_parked; [done|]. intros p Hp.
    destruct HP as ((_ & _ & Hpv & _) & _). rewrite <- Hlen. by apply (Hpv s). }
  refine (leads_to_keep (parked_at n m) _ _ _ _ w r w' HP Hrun Hr).
  - destruct (decide (task_status = Some s)).
    + apply leads_to_keep; [done|]. intros []. apply leads_to_ret.
    + apply leads_to_keep; [apply leads_to_gets|]. intros abandoned.
      destruct abandoned; [apply leads_to_ret|].
      apply leads_to_keep; [apply leads_to_gets|]. intros w0.
      destruct (encloses fuel w0 s task_status) as [[]|e|].
      * apply leads_to_keep; [done|]. intros []. apply leads_to_ret.
      * apply leads_to_ret.
      * apply leads_to_raise.
      * apply leads_to_out_of_fuel.
  - intros go. destruct go as [exc'|]; [|apply leads_to_ret].
    apply leads_to_keep; [apply leads_to_gets|]. intros w0.
    apply leads_to_keep.
    { destruct exc' as [e|]; [|apply leads_to_ret].
      destruct (_ && _); [|apply leads_to_ret].
      unfold MultiError_filter. apply leads_to_keep; [apply map_m_exc_filter_parked|].
      intros rs. apply leads_to_ret. }
    intros exc''. apply leads_to_keep; [apply close_parked|]. intros [].
    apply leads_to_keep; [|intros []; apply leads_to_ret].
    apply might_change_parked. apply leads_to_modify. intros w1 HP1.
    by apply (parked_at_ext n m w1).
Qed.

(** A new task is activated under its nursery's status and scheduled. *)
Lemma spawn_impl_parked s w r w' :
  parked_ok w -> (s < length (statuses w))%nat ->
  spawn_impl s w = (r, w') -> r ≠ OutOfFuel -> parked_ok w'.
Proof.
  intros HP Hs Hrun Hr. pose proof HP as (Hl & Hok & Hp & Hd).
  unfold spawn_impl in Hrun. unfold bind at 1, gets at 1, bind at 1, modify at 1 in Hrun.
  set (t := length (tasks w)) in *.
  set (w1 := with_tasks (fun l => l ++ [mkTask None None]) w) in *.
  assert (∀ u, task w1 u = task w u) as Htk.
  { intros u. apply task_with_tasks_app. }
  assert (length (tasks w1) = S t) as Hlen1.
  { unfold w1. simpl. rewrite length_app. simpl. unfold t. lia. }
  assert (parked_at (length (statuses w)) (S t) w1) as HP1.
  { split; [|split; [done|lia]]. split_and!.
    - split; intros a b; change (status w1) with (status w); rewrite Htk; apply Hl.
    - split.
      + intros u. rewrite Htk. apply Hok.
      + intros u Hu. rewrite Hlen1. pose proof (proj2 Hok u Hu). unfold t. lia.
    - exact Hp.
    - intros u x. rewrite Htk. apply Hd. }
  refine (proj1 (leads_to_keep (parked_at (length (statuses w)) (S t)) _ _ _ _
                   w1 r w' HP1 Hrun Hr)).
  - apply _activate_cancel_status_parked; [lia|]. by intros ? [= <-].
  - intros []. apply reschedule_parked. lia.
Qed.

(** A task parks: its abort function is stored, and tried at once when the
    task's status is effectively cancelled. *)
Lemma wait_task_rescheduled_parked t a w r w' :
  parked_ok w -> running w t ->
  wait_task_rescheduled t a w = (r, w') -> r ≠ OutOfFuel -> parked_ok w'.
Proof.
  intros HP (Ht & Hq & Hab) Hrun Hr. pose proof HP as (Hl & Hok & Hp & Hd).
  unfold wait_task_rescheduled in Hrun. unfold bind at 1, modify at 1 in Hrun.
  set (w1 := update_task t (set_abort_func (Some a)) w) in *.
  assert (∀ u, task w1 u = if decide (u = t) then set_abort_func (Some a) (task w t)
                           else task w u) as Htk
    by (intros; by apply task_update_task).
  assert (∀ u, Task_cancel_status (task w1 u) = Task_cancel_status (task w u)) as Hcs.
  { intros u. rewrite Htk. destruct (decide (u = t)) as [->|]; [|done]. by destruct (task w t). }
  assert (tasks_ok w1) as Hok1.
  { split.
    - intros u. rewrite Htk. change (runq w1) with (runq w).
      destruct (decide (u = t)) as [->|]; [done|apply Hok].
    - intros u Hu. unfold w1. unfold_world. simpl. rewrite length_insert. by apply Hok. }
  assert (linked w1) as Hl1.
  { split; intros x y; change (status w1) with (status w); rewrite Hcs; apply Hl. }
  destruct (Task_cancel_status (task w t)) as [s|] eqn:Hs.
  - destruct (effectively_cancelled (status w s)) eqn:Heff.
    + destruct (deliver_clears w1 t s) as (w2 & Hrun2 & Hf & Hok2 & Hnone); try done.
      { by rewrite Hcs. }
      rewrite Hrun2 in Hrun. injection Hrun as <- <-.
      destruct Hf as [F1 F2 F3 F4 F5 F6 F7].
      assert (∀ x, status w2 x = status w x) as Hst2
        by (intros; by apply status_same_statuses).
      split_and!.
      * split; intros x y; rewrite Hst2, F6, Hcs; apply Hl.
      * done.
      * intros c p. rewrite Hst2, F2. apply Hp.
      * intros u x Hu. rewrite F6, Hcs, Hst2. intros Hx.
        destruct (decide (u = t)) as [->|Hne]; [done|].
        apply (Hd u x); [|done]. pose proof (F7 u Hu) as E. rewrite Htk in E.
        destruct (decide (u = t)); [done|]. by rewrite <- E.
    + destruct (deliver_correct w1 t Hok1) as (w2 & Hrun2 & Hf & Hok2); [by rewrite Hcs, Hs|].
      rewrite Hrun2 in Hrun. injection Hrun as <- <-.
      destruct Hf as [F1 F2 F3 F4 F5 F6 F7].
      assert (∀ x, status w2 x = status w x) as Hst2
        by (intros; by apply status_same_statuses).
      split_and!.
      * split; intros x y; rewrite Hst2, F6, Hcs; apply Hl.
      * done.
      * intros c p. rewrite Hst2, F2. apply Hp.
      * intros u x Hu. rewrite F6, Hcs, Hst2. intros Hx.
        destruct (decide (u = t)) as [->|Hne]; [congruence|].
        apply (Hd u x); [|done]. pose proof (F7 u Hu) as E. rewrite Htk in E.
        destruct (decide (u = t)); [done|]. by rewrite <- E.
  - unfold _attempt_delivery_of_any_pending_cancel, bind, gets in Hrun.
    rewrite Hcs, Hs in Hrun.
    assert (w' = w1) as -> by (destruct (_abort_func (task w1 t)); by injection Hrun as <- <-).
    split_and!; try done.
    intros u x Hu. rewrite Hcs. change (status w1) with (status w). intros Hx.
    destruct (decide (u = t)) as [->|Hne]; [congruence|].
    apply (Hd u x); [|done]. rewrite Htk in Hu. by destruct (decide (u = t)).
Qed.

Lemma leads_to_discard {A} (P Q : world -> Prop) (m : M world A) :
  leads_to P m Q -> leads_to P (m;;; ret tt)%monad Q.
Proof.
  intros Hm. eapply leads_to_bind; [exact Hm|done|]. intros a. apply leads_to_ret.
Qed.

Lemma parked_ok_init guest : parked_ok (init_world guest).
Proof.
  assert (∀ t, task (init_world guest) (S t) = mkTask None None) as Htk by (by intros [|?]).
  assert (∀ s, status (init_world guest) (S s) = mkStatus 0 false None [] [] false) as Hst
    by (by intros [|?]).
  split_and!.
  - split.
    + intros [|t] s; [|by rewrite Htk]. simpl. intros [= <-]. simpl. apply list_elem_of_here.
    + intros [|s] t; [|rewrite Hst; simpl; by intros ?%elem_of_nil].
      simpl. by intros ->%list_elem_of_singleton.
  - split; [|by intros t ?%elem_of_nil]. intros t _. simpl. apply not_elem_of_nil.
  - intros [|c] p; [done|by rewrite Hst].
  - intros [|t] s; [done|by rewrite Htk].
Qed.

(** Every call keeps the condition. *)
Lemma run_parked fuel o w r w' :
  parked_ok w -> enabled w o -> run fuel o w = (r, w') -> r ≠ OutOfFuel -> parked_ok w'.
Proof.
  intros HP Hen Hrun Hr.
  assert (parked_at 0 0 w) as HP0 by (split; [done|lia]).
  pose proof (parked_at_here w HP) as HPh.
  destruct o; simpl in Hrun, Hen.
  - unfold CancelScope_new, bind, gets, modify, ret in Hrun. injection Hrun as <- <-.
    by apply (parked_ok_ext w).
  - destruct Hen as (_ & (Ht & _) & _).
    refine (proj1 (__enter___parked (length (tasks w)) fuel self t now Ht w r w' _ Hrun Hr)).
    apply (parked_at_weaken _ _ _ _ _ HPh); lia.
  - destruct Hen as (_ & Ht & _).
    refine (proj1 (leads_to_discard _ _ _
                     (_close_parked (length (statuses w)) (length (tasks w))
                        leaves rebuild fuel now self t exc Ht) w r w' _ Hrun Hr)).
    by split.
  - by apply (cancel_parked 0 0 fuel now self w r w').
  - by apply (deadline_setter_parked 0 0 fuel self new_deadline w r w').
  - by apply (shield_setter_parked 0 0 fuel now self new_value w r w').
  - by apply (leads_to_discard _ _ _ (cancel_called_parked 0 0 fuel self now) w r w').
  - by apply (spawn_impl_parked cancel_status w r w').
  - destruct Hen as (Ht & _).
    refine (proj1 (_activate_cancel_status_parked 0 (length (tasks w)) t None Ht _
                     w r w' _ Hrun Hr)); [done|].
    apply (parked_at_weaken _ _ _ _ _ HPh); lia.
  - destruct Hen as [Hrunning _]. by apply (wait_task_rescheduled_parked t abort_func w r w').
  - unfold modify in Hrun. injection Hrun as <- <-.
    destruct HP as (Hl & Hok & Hp & Hd).
    assert (∀ t, t ∈ (delete i (runq w)).*1 -> t ∈ (runq w).*1) as Hsub.
    { intros t Hin. eapply elem_of_sublist; [exact Hin|].
      apply fmap_sublist, sublist_delete. }
    split_and!; try done. split.
    + intros t Ha Hin. by apply (proj1 Hok t Ha), Hsub.
    + intros t Hin. by apply (proj2 Hok t), Hsub.
  - by apply (leads_to_discard _ _ _ (expire_parked 0 0 fuel now) w r w').
  - by apply (leads_to_discard _ _ _ (Deadlines_next_deadline_parked 0 0 fuel) w r w').
Qed.

Lemma reachable_parked w : reachable w -> parked_ok w.
Proof.
  induction 1 as [guest|w o fuel r w' _ IH Hen Hrun Hr].
  - apply parked_ok_init.
  - by apply (run_parked fuel o w r w').
Qed.

(** In every reachable world, a task that waits with an abort function that
    has not been tried yet is under a cancel status that is not effectively
    cancelled. Whenever a status becomes effectively cancelled (by [cancel],
    an expired deadline, a shield that is lifted, a scope abandoned by
    mis-nesting), and whenever a task parks or moves under such a status,
    [_attempt_delivery_of_any_pending_cancel] calls the task's abort function
    at once and clears it: no parked task is left with a pending cancellation
    that nobody tried to deliver. The delivery of a pending
    [KeyboardInterrupt], which consumes the abort function as well, is not
    part of the model. *)
Theorem no_pending_cancel_left_undelivered (w : world) (t s : nat) :
  reachable w ->
  _abort_func (task w t) ≠ None ->
  Task_cancel_status (task w t) = Some s ->
  effectively_cancelled (status w s) = false.
Proof.
  intros Hreach Ha Hs. destruct (reachable_parked w Hreach) as (_ & _ & _ & Hd).
  by apply (Hd t s).
Qed.

(** *** The properties above in concrete worlds *)

(** A fresh scope with deadline 7, not yet entered. *)
Definition fresh_scope : world :=
  run_ops 5 [OpNewScope (At 7) false] (init_world false).

(** Task 0 entered that scope at time 9 and left it with [Cancelled]. *)
Definition caught_world : world :=
  run_ops 5 [OpEnter 1 0 9;
             OpClose 1 0 (Some ExcCancelled) 9 (fun e => [e]) (fun _ rs => mjoin (head rs))]
          fresh_scope.

Lemma fresh_scope_reachable : reachable fresh_scope.
Proof. apply reachable_run_ops; [apply reachable_init|]. by vm_compute. Qed.

Lemma caught_world_reachable : reachable caught_world.
Proof. apply reachable_run_ops; [apply fresh_scope_reachable|]. by vm_compute. Qed.

Lemma fresh_scope_enter : enabled fresh_scope (OpEnter 1 0 9).
Proof. apply (bool_decide_unpack _). by vm_compute. Qed.

Lemma nested_running : running nested 0.
Proof. apply (bool_decide_unpack _). by vm_compute. Qed.


Lemma nested_close_outer :
  enabled nested (OpClose 1 0 None 0 (fun e => [e]) (fun _ rs => mjoin (head rs))).
Proof. apply (bool_decide_unpack _). by vm_compute. Qed.

Lemma caught_world_caught : cancelled_caught (scope caught_world 1) = true.
Proof. by vm_compute. Qed.

Lemma enter_attaches_fresh_status_witness :
  ∃ fuel0, ∀ fuel, (fuel0 <= fuel)%nat ->
    if _has_been_entered (scope fresh_scope 1)
    then __enter__ fuel 1 0 9 fresh_scope = (Raise RuntimeError, fresh_scope)
    else
      ∃ p w', Task_cancel_status (task fresh_scope 0) = Some p ∧
        __enter__ fuel 1 0 9 fresh_scope = (Ok tt, w') ∧
        let s := length (statuses fresh_scope) in
        let called := _cancel_called (scope fresh_scope 1)
                      || time_le (_deadline (scope fresh_scope 1)) (At 9) in
        scope w' 1
        = mkScope (Some s) true (if called then Inf else _deadline (scope fresh_scope 1)) called
                  (cancelled_caught (scope fresh_scope 1)) (_deadline (scope fresh_scope 1))
                  (_shield (scope fresh_scope 1)) ∧
        (∀ x, x ≠ 1%nat -> scope w' x = scope fresh_scope x) ∧
        length (statuses w') = S s ∧
        status w' s
        = mkStatus 1 (called || negb (_shield (scope fresh_scope 1))
                                && effectively_cancelled (status fresh_scope p))
                   (Some p) [] [0%nat] false ∧
        status w' p
        = set_tasks (remove 0 (_tasks (status fresh_scope p)))
            (set_children (add s (_children (status fresh_scope p))) (status fresh_scope p)) ∧
        (∀ x, x ≠ s -> x ≠ p -> status w' x = status fresh_scope x) ∧
        task w' 0 = set_Task_cancel_status (Some s) (task fresh_scope 0) ∧
        (∀ u, u ≠ 0%nat -> task w' u = task fresh_scope u) ∧
        runq w' = runq fresh_scope.
Proof.
  exact (enter_attaches_fresh_status fresh_scope 1 0 9 fresh_scope_reachable fresh_scope_enter).
Defined.


Lemma nested_scope_2 : _cancel_status (scope nested 2) = Some 2%nat.
Proof. by vm_compute. Qed.

Lemma nested_task_0 : Task_cancel_status (task nested 0) = Some 2%nat.
Proof. by vm_compute. Qed.

Lemma nested_tasks_2 : _tasks (status nested 2) = [0%nat].
Proof. by vm_compute. Qed.

Lemma nested_children_2 : _children (status nested 2) = [].
Proof. by vm_compute. Qed.

Lemma exit_returns_task_to_parent_witness :
  ∃ fuel0, ∀ fuel, (fuel0 <= fuel)%nat ->
    let own := _cancel_called (scope nested 2)
               && negb (parent_cancellation_is_visible_to_us nested 2) in
    let caught := match Some ExcCancelled with
                  | Some e => own && existsb is_cancelled ((fun e => [e]) e)
                  | None => false
                  end in
    ∃ w', _close (fun e => [e]) (fun _ rs => mjoin (head rs)) fuel 8 2 0 (Some ExcCancelled)
            nested
          = (Ok match Some ExcCancelled with
                | Some e =>
                    if own
                    then (fun _ rs => mjoin (head rs)) e
                           (map (fun l => if is_cancelled l then None else Some l)
                                ((fun e => [e]) e))
                    else Some e
                | None => None
                end, w') ∧
      scope w' 2
      = set_registered_deadline Inf
          (set_cancel_status None
             (set_cancelled_caught (cancelled_caught (scope nested 2) || caught)
                (scope nested 2))) ∧
      (∀ x, x ≠ 2%nat -> scope w' x = scope nested x) ∧
      length (statuses w') = length (statuses nested) ∧
      status w' 2 = set_parent None (set_tasks [] (status nested 2)) ∧
      (∀ p, _parent (status nested 2) = Some p ->
            status w' p = set_children (remove 2 (_children (status nested p)))
                            (set_tasks (add 0 (_tasks (status nested p))) (status nested p))) ∧
      (∀ x, x ≠ 2%nat -> _parent (status nested 2) ≠ Some x -> status w' x = status nested x) ∧
      task w' 0 = set_Task_cancel_status (_parent (status nested 2)) (task nested 0) ∧
      (∀ u, u ≠ 0%nat -> task w' u = task nested u) ∧
      runq w' = runq nested.
Proof.
  exact (exit_returns_task_to_parent nested 2 0 2 (Some ExcCancelled) 8 (fun e => [e])
           (fun _ rs => mjoin (head rs)) nested_reachable nested_running nested_scope_2
           nested_task_0 nested_tasks_2 nested_children_2).
Defined.

Lemma fresh_scope_not_entered : _has_been_entered (scope fresh_scope 1) = false.
Proof. by vm_compute. Qed.

Lemma enter_then_exit_restores_witness :
  ∃ fuel0, ∀ fuel, (fuel0 <= fuel)%nat ->
    ∃ p w1 r w2,
      Task_cancel_status (task fresh_scope 0) = Some p ∧
      __enter__ fuel 1 0 9 fresh_scope = (Ok tt, w1) ∧
      _close (fun e => [e]) (fun _ rs => mjoin (head rs)) fuel 9 1 0 None w1 = (Ok r, w2) ∧
      (∀ u, task w2 u = task fresh_scope u) ∧
      runq w2 = runq fresh_scope ∧
      (∀ x, x ≠ 1%nat -> scope w2 x = scope fresh_scope x) ∧
      _cancel_status (scope w2 1) = None ∧
      _has_been_entered (scope w2 1) = true ∧
      _registered_deadline (scope w2 1) = Inf ∧
      _cancel_called (scope w2 1)
      = _cancel_called (scope fresh_scope 1)
        || time_le (_deadline (scope fresh_scope 1)) (At 9) ∧
      _deadline (scope w2 1) = _deadline (scope fresh_scope 1) ∧
      _shield (scope w2 1) = _shield (scope fresh_scope 1) ∧
      (∀ x, (x < length (statuses fresh_scope))%nat -> x ≠ p ->
            status w2 x = status fresh_scope x) ∧
      status w2 p
      = set_tasks (add 0 (remove 0 (_tasks (status fresh_scope p)))) (status fresh_scope p) ∧
      add 0 (remove 0 (_tasks (status fresh_scope p))) ≡ₚ _tasks (status fresh_scope p) ∧
      length (statuses w2) = S (length (statuses fresh_scope)) ∧
      _parent (status w2 (length (statuses fresh_scope))) = None ∧
      _tasks (status w2 (length (statuses fresh_scope))) = [] ∧
      ((None : option pyexc) = None ->
       r = None ∧ cancelled_caught (scope w2 1) = cancelled_caught (scope fresh_scope 1)).
Proof.
  exact (enter_then_exit_restores fresh_scope 1 0 9 9 None (fun e => [e])
           (fun _ rs => mjoin (head rs)) fresh_scope_reachable fresh_scope_enter
           fresh_scope_not_entered).
Defined.

Lemma exit_of_unrelated_scope_changes_nothing_witness :
  ∃ fuel0, ∀ fuel, (fuel0 <= fuel)%nat ->
    ∃ r w', _close (fun e => [e]) (fun _ rs => mjoin (head rs)) fuel 0 1 0 None nested
            = (Ok r, w') ∧
      (_cancel_status (scope nested 1) = None -> r = Some (ExcRuntimeError None) ∧ w' = nested) ∧
      (∀ s, _cancel_status (scope nested 1) = Some s ->
            abandoned_by_misnesting (status nested s) = false ->
            ¬ below nested s (Task_cancel_status (task nested 0)) ->
            r = Some (ExcRuntimeError None) ∧ w' = nested) ∧
      (∀ s, _cancel_status (scope nested 1) = Some s ->
            abandoned_by_misnesting (status nested s) = true
            ∨ below nested s (Task_cancel_status (task nested 0)) ->
            _cancel_status (scope w' 1) = None).
Proof.
  exact (exit_of_unrelated_scope_changes_nothing nested 1 0 None 0 (fun e => [e])
           (fun _ rs => mjoin (head rs)) nested_reachable nested_close_outer).
Defined.

Lemma cancelled_caught_only_when_cancelled_witness :
  _cancel_called (scope caught_world 1) = true ∧
  _has_been_entered (scope caught_world 1) = true ∧
  _cancel_status (scope caught_world 1) = None.
Proof.
  exact (cancelled_caught_only_when_cancelled caught_world 1 caught_world_reachable
           caught_world_caught).
Defined.

(** Task 0 entered the scope with deadline 7 at time 3 and parked. *)
Definition parked_world : world :=
  run_ops 5 [OpEnter 1 0 3; OpPark 0 SUCCEEDED] fresh_scope.

Lemma parked_world_reachable : reachable parked_world.
Proof. apply reachable_run_ops; [apply fresh_scope_reachable|]. by vm_compute. Qed.

Lemma parked_world_abort : _abort_func (task parked_world 0) ≠ None.
Proof. by vm_compute. Qed.

Lemma parked_world_status : Task_cancel_status (task parked_world 0) = Some 1%nat.
Proof. by vm_compute. Qed.

Lemma no_pending_cancel_left_undelivered_witness :
  effectively_cancelled (status parked_world 1) = false.
Proof.
  exact (no_pending_cancel_left_undelivered parked_world 0 1 parked_world_reachable
           parked_world_abort parked_world_status).
Defined.

End Cancel.
